(** * AI_Talent_Finder: the checkpointed ingestion engine of
      [server/script/populate.py], embedded in Rocq.

    The development follows the Python sources function by function:
    - [config]   the limits of [config.py];
    - [Text]     the string operations the scripts use ([lower], [strip],
                 [split], [join], [re.sub]) over Unicode code points, and
                 [upper] for country codes;
    - [Db]       the document store behind [db.py] (one list per
                 collection, in insertion order) and a state-and-error
                 monad for the code that talks to it;
    - the functions of [populate.py] under their own names;
    - the loop of [start.py]'s [main] over the topics of a keyword;
    - the rest of the scripts: [strip_openalex_id], [format_keyword],
      [fetch_topics_for_keyword], [main], and the checkpoint functions of
      [old_populate.py].

    Conventions.
    - A Python value that is only ever tested for truthiness and otherwise
      copied ([x.get(k, "") or ""]) is a [string] whose empty value stands
      for a missing key, a JSON null and the empty string alike.
    - A [string] holds the UTF-8 encoding of a Python [str], and
      [Text.decode] gives its characters.  Whitespace ([str.isspace],
      which is also [\s] and what [strip] and [split] remove) is spelled
      out for all of Unicode; the class [\w] is [[A-Za-z0-9_]] among the
      ASCII characters and [str.isalnum] beyond; [str.lower] lowers [A] to
      [Z] among the ASCII characters.  What the interpreter knows of the
      other characters is the parameter [Unicode.db].
    - Country codes are ASCII, so [upper] raises [a] to [z] only.
    - The records of the catalog are well shaped: an [updated_date] that
      is present parses, integers fit the 8 bytes the store gives them,
      and the body of an answer is a JSON object.  What the scripts raise
      on other records is not described.
    - [ObjectId]s are natural numbers handed out by the store in
      increasing order; [str(ObjectId)] is their decimal notation.
    - The store has no unique index besides [_id], so a bulk insert never
      fails, and it accepts an update whose [$set] is empty.
    - The catalog is a script: the list of its answers to the successive
      page requests.  A walk that needs an answer when the script is used
      up ends as [Starved]; such a run is a prefix of a longer one.
    - The walker's calls to the outside (the page request, the bulk
      insert, the progress upsert) leave an event each, in the order in
      which they are made; the trace of a walk is what these calls left.
    - [urlparse] and the topics endpoint are parameters: the path
      component of a URL is a function of the URL, and the answer to the
      topics request of the [k]-th keyword a function of the formatted
      keyword.
    - [print] and [sleep] are left out. *)

From Stdlib Require Import List String Ascii ZArith QArith Lia Bool Arith.
From Stdlib Require Import DecimalString DecimalNat Decimal FinFun.
Import ListNotations.
Local Open Scope string_scope.
Local Open Scope list_scope.
Local Open Scope Z_scope.

(** String concatenation (Python's [+] and f-strings); [++] stays the
    append of lists. *)
Infix "+++" := String.append (at level 60, right associativity).

(* ================================================================= *)
(** ** config.py *)

Module config.
Definition PER_PAGE : Z := 200.
Definition MAX_PER_TOPIC : Z := 500.
Definition SESSION_LIMIT : Z := 30000.
Definition MAX_AUTHORS : Z := 60000.
End config.

(* ================================================================= *)
(** ** Unicode: what the interpreter knows of the characters beyond ASCII *)

(** [isalnum c] is [str.isalnum] of the character with code point [c];
    [tolower before c after] is what [str.lower] puts for [c] when [c]
    stands between the code points [before] and [after] (one character may
    become several, and the capital sigma depends on its neighbours).
    Both are consulted for code points from 128 on only. *)
Module Unicode.
Record db := mk {
  isalnum : N -> bool;
  tolower : list N -> N -> list N -> list N
}.
End Unicode.

(* ================================================================= *)
(** ** Text: the string primitives of the scripts *)

Module Text.

(** *** Bytes *)

Definition code (c : ascii) : nat := nat_of_ascii c.

Definition in_range (lo hi : nat) (c : ascii) : bool :=
  (Nat.leb lo (code c) && Nat.leb (code c) hi)%bool.

Definition is_lower (c : ascii) : bool := in_range 97 122 c.

Definition upper_char (c : ascii) : ascii :=
  if is_lower c then ascii_of_nat (code c - 32) else c.

(** [s.upper()] of a country code: the letters [a] to [z] are raised. *)
Definition upper (s : string) : string :=
  string_of_list_ascii (map upper_char (list_ascii_of_string s)).

(** Python truthiness of a string. *)
Definition truthy (s : string) : bool :=
  match s with EmptyString => false | String _ _ => true end.

(** [str(n)] for a non-negative integer. *)
Definition str_of_nat (n : nat) : string :=
  NilEmpty.string_of_uint (Nat.to_uint n).

(** Membership in a set or list of strings. *)
Definition mem (x : string) (l : list string) : bool :=
  existsb (String.eqb x) l.

(** *** Code points *)

Local Open Scope N_scope.

Definition between (lo hi c : N) : bool := ((lo <=? c) && (c <=? hi))%bool.

Definition continuation (b : N) : bool := between 128 191 b.

(** What the decoder puts for a byte that starts no well-formed sequence:
    U+FFFD. *)
Definition replacement : N := 65533.

(** The code points of a UTF-8 byte sequence.  Overlong forms, encoded
    surrogates and values beyond U+10FFFF are not well formed. *)
Fixpoint decode_bytes (s : list N) : list N :=
  match s with
  | [] => []
  | b0 :: t =>
      if b0 <? 128 then b0 :: decode_bytes t
      else
        match t with
        | [] => [replacement]
        | b1 :: t1 =>
            if (between 194 223 b0 && continuation b1)%bool
            then (b0 - 192) * 64 + (b1 - 128) :: decode_bytes t1
            else
              match t1 with
              | [] => replacement :: decode_bytes t
              | b2 :: t2 =>
                  let c3 := (b0 - 224) * 4096 + (b1 - 128) * 64 + (b2 - 128) in
                  if (between 224 239 b0 && continuation b1 && continuation b2
                      && (2048 <=? c3) && negb (between 55296 57343 c3))%bool
                  then c3 :: decode_bytes t2
                  else
                    match t2 with
                    | [] => replacement :: decode_bytes t
                    | b3 :: t3 =>
                        let c4 := (b0 - 240) * 262144 + (b1 - 128) * 4096
                                  + (b2 - 128) * 64 + (b3 - 128) in
                        if (between 240 244 b0 && continuation b1
                            && continuation b2 && continuation b3
                            && between 65536 1114111 c4)%bool
                        then c4 :: decode_bytes t3
                        else replacement :: decode_bytes t
                    end
              end
        end
  end.

(** The characters of a string. *)
Definition decode (s : string) : list N :=
  decode_bytes (map N_of_ascii (list_ascii_of_string s)).

Definition encode_point (c : N) : list N :=
  if c <? 128 then [c]
  else if c <? 2048 then [192 + c / 64; 128 + c mod 64]
  else if c <? 65536
  then [224 + c / 4096; 128 + (c / 64) mod 64; 128 + c mod 64]
  else [240 + c / 262144; 128 + (c / 4096) mod 64;
        128 + (c / 64) mod 64; 128 + c mod 64].

(** The string made of the given characters. *)
Definition encode (l : list N) : string :=
  string_of_list_ascii (map ascii_of_N (flat_map encode_point l)).

Definition hyphen : N := 45.
Definition plus : N := 43.

(** [str.isspace] of one character; it is also the class [\s] and what
    [str.strip] and [str.split] take for whitespace. *)
Definition is_space (c : N) : bool :=
  (between 9 13 c || between 28 32 c || (c =? 133) || (c =? 160)
   || (c =? 5760) || between 8192 8202 c || (c =? 8232) || (c =? 8233)
   || (c =? 8239) || (c =? 8287) || (c =? 12288))%bool.

Definition is_hyphen (c : N) : bool := c =? hyphen.

(** The class [\w]: [[A-Za-z0-9_]] among the ASCII characters, the
    alphanumeric characters beyond. *)
Definition ascii_word (c : N) : bool :=
  (between 65 90 c || between 97 122 c || between 48 57 c || (c =? 95))%bool.

Definition is_word (U : Unicode.db) (c : N) : bool :=
  if c <? 128 then ascii_word c else Unicode.isalnum U c.

(** What [str.lower] puts for one character. *)
Definition ascii_lower (c : N) : N := if between 65 90 c then c + 32 else c.

Definition lower_point (U : Unicode.db) (before : list N) (c : N)
    (after : list N) : list N :=
  if c <? 128 then [ascii_lower c] else Unicode.tolower U before c after.

Fixpoint lower_from (U : Unicode.db) (before s : list N) : list N :=
  match s with
  | [] => []
  | c :: t => lower_point U before c t ++ lower_from U (before ++ [c]) t
  end.

(** [s.lower()]. *)
Definition lower (U : Unicode.db) (s : list N) : list N := lower_from U [] s.

(** [s.lstrip], [s.rstrip], [s.strip] for a class of characters. *)
Fixpoint lstrip (p : N -> bool) (s : list N) : list N :=
  match s with
  | [] => []
  | c :: t => if p c then lstrip p t else s
  end.

Fixpoint rstrip (p : N -> bool) (s : list N) : list N :=
  match s with
  | [] => []
  | c :: t =>
      match rstrip p t with
      | [] => if p c then [] else [c]
      | r => c :: r
      end
  end.

Definition strip (p : N -> bool) (s : list N) : list N :=
  lstrip p (rstrip p s).

(** [re.sub(p+, "-", s)]: scanning from the left, the first character of
    every maximal run of [p] becomes one hyphen and the rest of the run is
    swallowed; [in_run] tells that the previous character was in [p]. *)
Fixpoint sub_runs (p : N -> bool) (in_run : bool) (s : list N) : list N :=
  match s with
  | [] => []
  | c :: t =>
      if p c
      then (if in_run then sub_runs p true t
            else hyphen :: sub_runs p true t)
      else c :: sub_runs p false t
  end.

(** The characters [re.sub(r"[^\w\s-]", "", s)] leaves in place. *)
Definition slug_keep (U : Unicode.db) (c : N) : bool :=
  (is_word U c || is_space c || is_hyphen c)%bool.

(** [s.split()] for a class of separators: the maximal runs of characters
    outside the class, from left to right. *)
Fixpoint split (p : N -> bool) (s : list N) : list (list N) :=
  match s with
  | [] => []
  | c :: t =>
      if p c then split p t
      else
        match t with
        | [] => [[c]]
        | d :: _ =>
            if p d then [c] :: split p t
            else
              match split p t with
              | w :: ws => (c :: w) :: ws
              | [] => [[c]]
              end
        end
  end.

(** [sep.join(words)]. *)
Fixpoint join (sep : list N) (words : list (list N)) : list N :=
  match words with
  | [] => []
  | w :: rest =>
      match rest with
      | [] => w
      | _ => w ++ sep ++ join sep rest
      end
  end.

(** [s.strip()]. *)
Definition strip_ws (s : string) : string :=
  encode (strip is_space (decode s)).

End Text.

(* ================================================================= *)
(** ** Slug derivation ([_generate_slug]) *)

Definition _generate_slug (U : Unicode.db) (name : string) : string :=
  if negb (Text.truthy name) then ""
  else
    let s := Text.strip Text.is_space (Text.lower U (Text.decode name)) in
    let s := filter (Text.slug_keep U) s in
    let s := Text.sub_runs Text.is_space false s in
    let s := Text.sub_runs Text.is_hyphen false s in
    let s := Text.strip Text.is_hyphen s in
    Text.encode s.

(* ================================================================= *)
(** ** Raw catalog records (the JSON the mapper reads) *)

Definition ObjectId := nat.
Definition Timestamp := nat.

Record RawInstitution := mkRawInstitution {
  ri_ror : string;
  ri_display_name : string;
  ri_country_code : string
}.

Record RawAffiliation := mkRawAffiliation {
  ra_institution : RawInstitution;
  ra_years : list Z
}.

(** [rt_field] is [(topic.get("field") or {}).get("display_name", "")]. *)
Record RawTopic := mkRawTopic {
  rt_display_name : string;
  rt_field : string
}.

Record RawYearCount := mkRawYearCount {
  ry_year : option Z;
  ry_works_count : option Z;
  ry_cited_by_count : option Z
}.

Record RawStats := mkRawStats {
  rs_h_index : Z;
  rs_i10_index : Z;
  rs_2yr_mean_citedness : Q
}.

(** [a_updated_date] is the already parsed ISO date, when there is one. *)
Record Author := mkAuthor {
  a_id : string;
  a_orcid : string;
  a_display_name : string;
  a_affiliations : list RawAffiliation;
  a_last_known_institutions : list RawInstitution;
  a_topics : list RawTopic;
  a_summary_stats : RawStats;
  a_counts_by_year : list RawYearCount;
  a_cited_by_count : Z;
  a_works_count : Z;
  a_updated_date : option Timestamp
}.

(* ================================================================= *)
(** ** Stored documents *)

Record Affiliation := mkAffiliation {
  af_institution : ObjectId;
  af_years : list Z
}.

Record Identifiers := mkIdentifiers {
  id_openalex : string;
  id_orcid : string
}.

Record ResearchMetrics := mkResearchMetrics {
  h_index : Z;
  i10_index : Z;
  two_year_mean_citedness : Q;
  total_citations : Z;
  total_works : Z
}.

Record CitationTrend := mkCitationTrend {
  ct_year : option Z;
  ct_works_count : option Z;
  ct_cited_by_count : option Z
}.

(** The profile dictionary built by [map_author_to_profile]; [p_slug] is
    [None] until (and unless) the walker assigns one. *)
Record Profile := mkProfile {
  p_name : string;
  p_affiliations : list Affiliation;
  p_identifiers : Identifiers;
  p_research_metrics : ResearchMetrics;
  p_topics : list ObjectId;
  p_citation_trends : list CitationTrend;
  p_last_known_affiliations : list ObjectId;
  p_search_tags : list string;
  p_openalex_last_updated : option Timestamp;
  p_updatedAt : Timestamp;
  p_slug : option string
}.

Definition set_slug (slug : string) (p : Profile) : Profile :=
  mkProfile (p_name p) (p_affiliations p) (p_identifiers p)
    (p_research_metrics p) (p_topics p) (p_citation_trends p)
    (p_last_known_affiliations p) (p_search_tags p)
    (p_openalex_last_updated p) (p_updatedAt p) (Some slug).

Record ResearcherDoc := mkResearcherDoc {
  r_id : ObjectId;
  r_profile : Profile
}.

Record CountryDoc := mkCountryDoc {
  c_id : string;
  c_display_name : string
}.

Record InstitutionDoc := mkInstitutionDoc {
  i_id : ObjectId;
  i_display_name : string;
  i_ror : string;
  i_country_id : option string
}.

Record FieldDoc := mkFieldDoc {
  f_id : ObjectId;
  f_display_name : string
}.

(** The [sync_status] sub-document; a key that is absent is [None]. *)
Record SyncStatus := mkSyncStatus {
  ss_last_synced_date : option Timestamp;
  ss_cursor : option string;
  ss_researchers_count : option Z
}.

(** A topic document.  [t_display_name] is optional because an upsert
    that matches on [_id] alone inserts a document without it. *)
Record TopicDoc := mkTopicDoc {
  t_id : ObjectId;
  t_display_name : option string;
  t_field_id : option ObjectId;
  t_sync_status : option SyncStatus
}.

Definition set_sync_status (ss : SyncStatus) (d : TopicDoc) : TopicDoc :=
  mkTopicDoc (t_id d) (t_display_name d) (t_field_id d) (Some ss).

(** An empty dictionary is falsy. *)
Definition sync_truthy (ss : SyncStatus) : bool :=
  match ss_last_synced_date ss, ss_cursor ss, ss_researchers_count ss with
  | None, None, None => false
  | _, _, _ => true
  end.

Definition empty_sync : SyncStatus := mkSyncStatus None None None.

Definition has_display_name (n : string) (d : TopicDoc) : bool :=
  match t_display_name d with
  | Some m => String.eqb m n
  | None => false
  end.

(* ================================================================= *)
(** ** Db: the document store of db.py *)

Module Db.

Record Store := mkStore {
  researchers : list ResearcherDoc;
  topics : list TopicDoc;
  fields : list FieldDoc;
  institutions : list InstitutionDoc;
  countries : list CountryDoc;
  next_id : ObjectId
}.

Definition empty : Store := mkStore [] [] [] [] [] 0%nat.

(** [get_collection]: a handle is a getter and a setter on the store. *)
Record Collection (D : Type) := mkCollection {
  col_get : Store -> list D;
  col_set : list D -> Store -> Store
}.
Arguments col_get {D} _ _.
Arguments col_set {D} _ _ _.

Definition COL_RESEARCHERS : Collection ResearcherDoc :=
  mkCollection _ researchers
    (fun l s => mkStore l (topics s) (fields s) (institutions s)
                        (countries s) (next_id s)).
Definition COL_TOPICS : Collection TopicDoc :=
  mkCollection _ topics
    (fun l s => mkStore (researchers s) l (fields s) (institutions s)
                        (countries s) (next_id s)).
Definition COL_FIELDS : Collection FieldDoc :=
  mkCollection _ fields
    (fun l s => mkStore (researchers s) (topics s) l (institutions s)
                        (countries s) (next_id s)).
Definition COL_INSTITUTIONS : Collection InstitutionDoc :=
  mkCollection _ institutions
    (fun l s => mkStore (researchers s) (topics s) (fields s) l
                        (countries s) (next_id s)).
Definition COL_COUNTRIES : Collection CountryDoc :=
  mkCollection _ countries
    (fun l s => mkStore (researchers s) (topics s) (fields s)
                        (institutions s) l (next_id s)).

Definition bump (n : nat) (s : Store) : Store :=
  mkStore (researchers s) (topics s) (fields s) (institutions s)
          (countries s) (next_id s + n)%nat.

(** Exceptions the scripts can raise in this model: subscripting [None],
    a missing dictionary key, and the marker for a probing loop that did
    not finish within its fuel. *)
Inductive exn := TypeError | KeyError | NonTermination.

(** A raised exception ends the script; the store it leaves behind is not
    kept, since every result below is stated for runs that return. *)
Inductive Res (A : Type) :=
| Ok (a : A) (s : Store)
| Raise (e : exn).
Arguments Ok {A} a s.
Arguments Raise {A} e.

Definition M (A : Type) := Store -> Res A.

Definition ret {A} (a : A) : M A := fun s => Ok a s.
Definition bind {A B} (m : M A) (k : A -> M B) : M B :=
  fun s => match m s with
           | Ok a s' => k a s'
           | Raise e => Raise e
           end.
Definition raise {A} (e : exn) : M A := fun _ => Raise e.
Definition get : M Store := fun s => Ok s s.

(** The first document matching the filter replaced by its update. *)
Fixpoint update_first {D} (filter : D -> bool) (upd : D -> D) (l : list D)
  : list D :=
  match l with
  | [] => []
  | d :: t => if filter d then upd d :: t
              else d :: update_first filter upd t
  end.

(** [find_document]: [find_one] returns the first match. *)
Definition find_document {D} (c : Collection D) (filter : D -> bool)
  : M (option D) :=
  fun s => Ok (find filter (col_get c s)) s.

(** [find_documents] without limit or projection. *)
Definition find_documents {D} (c : Collection D) (filter : D -> bool)
  : M (list D) :=
  fun s => Ok (List.filter filter (col_get c s)) s.

Definition count_documents {D} (c : Collection D) : M Z :=
  fun s => Ok (Z.of_nat (List.length (col_get c s))) s.

(** [upsert_document_new]: [update_one(filter, {"$set": update,
    "$setOnInsert": insert_defaults}, upsert=True)].  [upd] applies the
    [$set] part to a matched document; [fresh] builds the inserted
    document (filter fields, [$set] and [$setOnInsert] together) from the
    identifier the store hands out. *)
Definition upsert_document_new {D} (c : Collection D) (filter : D -> bool)
    (upd : D -> D) (fresh : ObjectId -> D) : M unit :=
  fun s =>
    if existsb filter (col_get c s)
    then Ok tt (col_set c (update_first filter upd (col_get c s)) s)
    else Ok tt (bump 1 (col_set c (col_get c s ++ [fresh (next_id s)]) s)).

(** Identifiers [n, n+1, ...] given to the documents of one bulk insert. *)
Fixpoint with_ids {P D} (mk : ObjectId -> P -> D) (n : ObjectId)
    (docs : list P) : list D :=
  match docs with
  | [] => []
  | p :: t => mk n p :: with_ids mk (S n) t
  end.

(** [insert_many_documents]: nothing for an empty list, otherwise every
    document is appended with a fresh [_id] and the ids are returned. *)
Definition insert_many_documents {P D} (c : Collection D)
    (mk : ObjectId -> P -> D) (docs : list P) : M (option (list ObjectId)) :=
  fun s =>
    match docs with
    | [] => Ok None s
    | _ =>
        let n := next_id s in
        Ok (Some (seq n (List.length docs)))
           (bump (List.length docs)
                 (col_set c (col_get c s ++ with_ids mk n docs) s))
    end.

End Db.

Import Db.

Declare Scope db_scope.
Delimit Scope db_scope with db.
Notation "x <- m ;; k" := (bind m (fun x => k))
  (at level 61, m at next level, right associativity) : db_scope.
Notation "' pat <- m ;; k" := (bind m (fun x => match x with pat => k end))
  (at level 61, pat pattern, m at next level, right associativity) : db_scope.
Notation "m ;;; k" := (bind m (fun _ => k))
  (at level 61, right associativity) : db_scope.
Local Open Scope db_scope.

(** A Python [dict] keyed by strings: assignment replaces the value of a
    present key and appends a new one. *)
Module Dict.
Definition t (V : Type) := list (string * V).
Fixpoint get {V} (k : string) (d : t V) : option V :=
  match d with
  | [] => None
  | (k', v) :: r => if String.eqb k' k then Some v else get k r
  end.
Fixpoint set {V} (k : string) (v : V) (d : t V) : t V :=
  match d with
  | [] => [(k, v)]
  | (k', v') :: r => if String.eqb k' k then (k, v) :: r
                     else (k', v') :: set k v r
  end.
End Dict.

(* ================================================================= *)
(** ** External collaborators *)

(** What [requests.get(...restcountries...)], [raise_for_status] and
    [response.json()] amount to for one code: an exception, a non-empty
    list whose first element has or lacks [name.common], or other JSON. *)
Inductive RestResponse :=
| RestError
| RestList (common : option string)
| RestOther.

Record Env := mkEnv {
  restcountries : string -> RestResponse;
  now : Timestamp;
  unicode : Unicode.db
}.

(** One answer of the catalog to [GET /authors]: an exception, or a page
    with its [results] and [meta.next_cursor] (empty when absent). *)
Inductive ApiResponse :=
| ApiError
| ApiPage (results : list Author) (next_cursor : string).

(** [str(ObjectId)]. *)
Definition oid_str (i : ObjectId) : string := Text.str_of_nat i.

(* ================================================================= *)
(** ** populate.py: slug allocation *)

(** The [while True] of [_generate_unique_slug], with a bound on the number
    of probes; [None] when the bound is reached. *)
Fixpoint probe_slug (fuel : nat) (col : list ResearcherDoc)
    (reserved : option (list string)) (base slug : string) (counter : nat)
  : option string :=
  match fuel with
  | O => None
  | S fuel' =>
      let in_reserved :=
        match reserved with
        | Some r => Text.mem slug r
        | None => false
        end in
      let exists_ :=
        match find (fun d => match p_slug (r_profile d) with
                             | Some s => String.eqb s slug
                             | None => false
                             end) col with
        | Some _ => true
        | None => false
        end in
      if (negb in_reserved && negb exists_)%bool then Some slug
      else probe_slug fuel' col reserved base
             (base +++ "-" +++ Text.str_of_nat counter) (S counter)
  end.

Definition reserved_size (reserved : option (list string)) : nat :=
  match reserved with
  | Some r => List.length r
  | None => O
  end.

(** One probe more than there are reserved and stored slugs always
    suffices (proved below). *)
Definition _generate_unique_slug (U : Unicode.db) (name : string)
    (col : list ResearcherDoc) (reserved : option (list string))
  : option string :=
  let base := _generate_slug U name in
  probe_slug (S (reserved_size reserved + List.length col)) col reserved
             base base 1.

(* ================================================================= *)
(** ** populate.py: reference resolution *)

Definition upsert_country (env : Env) (country_code : string)
  : M (option string) :=
  if negb (Text.truthy country_code) then ret None
  else
    let country_code := Text.upper country_code in
    existing <- find_document COL_COUNTRIES
                  (fun d => String.eqb (c_id d) country_code) ;;
    match existing with
    | Some d => ret (Some (c_id d))
    | None =>
        let display_name :=
          match restcountries env country_code with
          | RestList (Some common) => common
          | _ => country_code
          end in
        upsert_document_new COL_COUNTRIES
          (fun d => String.eqb (c_id d) country_code)
          (fun d => d)
          (fun _ => mkCountryDoc country_code display_name) ;;;
        ret (Some country_code)
    end.

Definition upsert_field (field_name : string) : M ObjectId :=
  upsert_document_new COL_FIELDS
    (fun d => String.eqb (f_display_name d) field_name)
    (fun d => mkFieldDoc (f_id d) field_name)
    (fun i => mkFieldDoc i field_name) ;;;
  inserted <- find_document COL_FIELDS
                (fun d => String.eqb (f_display_name d) field_name) ;;
  match inserted with
  | Some d => ret (f_id d)
  | None => raise TypeError
  end.

(** The topic dictionaries [start.py] builds for [upsert_topic]. *)
Record TopicInfo := mkTopicInfo {
  ti_id : string;
  ti_display_name : string;
  ti_field_name : string
}.

Definition upsert_topic (topic : TopicInfo) : M (option ObjectId) :=
  let display_name := ti_display_name topic in
  let field_name := ti_field_name topic in
  field_id <- (if Text.truthy field_name
               then (i <- upsert_field field_name ;; ret (Some i))
               else ret None) ;;
  upsert_document_new COL_TOPICS
    (has_display_name display_name)
    (fun d => d)
    (fun i => mkTopicDoc i (Some display_name) field_id
                (Some (mkSyncStatus None (Some "*") (Some 0)))) ;;;
  inserted <- find_document COL_TOPICS (has_display_name display_name) ;;
  ret (option_map t_id inserted).

(** A generic [for x in l: body] without [break]. *)
Fixpoint for_each {A S : Type} (body : A -> S -> M S) (l : list A) (st : S)
  : M S :=
  match l with
  | [] => ret st
  | a :: t => st' <- body a st ;; for_each body t st'
  end.

(** The local variables of [process_researcher_topics].  [tl_existing_map]
    holds the documents read at the start; their [sync_status] dictionaries
    are mutated in place by the loop, so a later mention of the same name
    sees the count an earlier mention wrote.  A missing document is kept as
    its [display_name] and [field_id]. *)
Record TopicLoop := mkTopicLoop {
  tl_existing_map : Dict.t TopicDoc;
  tl_final_topic_ids : list ObjectId;
  tl_missing_docs : list (string * ObjectId);
  tl_search_tags : list string;
  tl_added_fields : list ObjectId
}.

Definition names_of (docs : list TopicDoc) : list string :=
  flat_map (fun d => match t_display_name d with
                     | Some n => [n]
                     | None => []
                     end) docs.

Definition map_of (docs : list TopicDoc) : Dict.t TopicDoc :=
  fold_left (fun m d => match t_display_name d with
                        | Some n => Dict.set n d m
                        | None => m
                        end) docs [].

Definition missing_topic (i : ObjectId) (p : string * ObjectId) : TopicDoc :=
  mkTopicDoc i (Some (fst p)) (Some (snd p))
             (Some (mkSyncStatus None (Some "*") (Some 1))).

Definition topic_body (existing_names : list string) (topic : RawTopic)
    (st : TopicLoop) : M TopicLoop :=
  let display_name := rt_display_name topic in
  let field_data := rt_field topic in
  field_id <- upsert_field field_data ;;
  let '(search_tags, added_fields) :=
    if negb (existsb (Nat.eqb field_id) (tl_added_fields st))
    then (tl_search_tags st ++ ["field:" +++ oid_str field_id],
          field_id :: tl_added_fields st)
    else (tl_search_tags st, tl_added_fields st) in
  if Text.mem display_name existing_names then
    match Dict.get display_name (tl_existing_map st) with
    | None => raise KeyError
    | Some existing_doc =>
        (* sync = existing_doc.get("sync_status", {}) or {} *)
        let '(sync, shared) :=
          match t_sync_status existing_doc with
          | Some ss => if sync_truthy ss then (ss, true)
                       else (empty_sync, false)
          | None => (empty_sync, false)
          end in
        let count := match ss_researchers_count sync with
                     | Some n => n
                     | None => 0
                     end in
        let sync := mkSyncStatus (ss_last_synced_date sync) (ss_cursor sync)
                                 (Some (count + 1)) in
        let existing_map :=
          if shared
          then Dict.set display_name (set_sync_status sync existing_doc)
                        (tl_existing_map st)
          else tl_existing_map st in
        upsert_document_new COL_TOPICS
          (fun d => Nat.eqb (t_id d) (t_id existing_doc))
          (set_sync_status sync)
          (fun _ => mkTopicDoc (t_id existing_doc) None None (Some sync)) ;;;
        ret (mkTopicLoop existing_map
               (tl_final_topic_ids st ++ [t_id existing_doc])
               (tl_missing_docs st)
               (search_tags ++ ["topic:" +++ oid_str (t_id existing_doc)])
               added_fields)
    end
  else
    ret (mkTopicLoop (tl_existing_map st) (tl_final_topic_ids st)
           (tl_missing_docs st ++ [(display_name, field_id)])
           search_tags added_fields).

Definition process_researcher_topics (topics : list RawTopic)
  : M (list ObjectId * list string) :=
  let topic_names := map rt_display_name topics in
  existing <- find_documents COL_TOPICS
                (fun d => match t_display_name d with
                          | Some n => Text.mem n topic_names
                          | None => false
                          end) ;;
  let existing_names := names_of existing in
  let existing_map := map_of existing in
  st <- for_each (topic_body existing_names) topics
          (mkTopicLoop existing_map [] [] [] []) ;;
  match tl_missing_docs st with
  | [] => ret (tl_final_topic_ids st, tl_search_tags st)
  | _ =>
      inserted_ids <- insert_many_documents COL_TOPICS missing_topic
                        (tl_missing_docs st) ;;
      match inserted_ids with
      | None => raise TypeError
      | Some ids =>
          ret (tl_final_topic_ids st ++ ids,
               tl_search_tags st
                 ++ map (fun tid => "topic:" +++ oid_str tid) ids)
      end
  end.

(* ================================================================= *)
(** ** populate.py: [map_author_to_profile] *)

(** [inst.get("ror", "") or inst.get("display_name", "")]. *)
Definition ror_or_name (inst : RawInstitution) : string :=
  if Text.truthy (ri_ror inst) then ri_ror inst else ri_display_name inst.

(** Local variables of the affiliation loop. *)
Record AffLoop := mkAffLoop {
  al_search_tags : list string;
  al_added_countries : list string;
  al_ror_to_id : Dict.t ObjectId;
  al_affiliations : list Affiliation
}.

Definition affiliation_body (env : Env) (aff : RawAffiliation) (st : AffLoop)
  : M AffLoop :=
  let inst := ra_institution aff in
  let years := ra_years aff in
  let ror := ror_or_name inst in
  if negb (Text.truthy ror) then ret st
  else
    '(inst_id, country_id, ror_to_id) <-
      match Dict.get ror (al_ror_to_id st) with
      | Some inst_id => ret (inst_id, None, al_ror_to_id st)
      | None =>
          existing_inst <- find_document COL_INSTITUTIONS
                             (fun d => String.eqb (i_ror d) ror) ;;
          '(inst_id, country_id) <-
            match existing_inst with
            | Some d => ret (i_id d, i_country_id d)
            | None =>
                country_id <- upsert_country env (ri_country_code inst) ;;
                upsert_document_new COL_INSTITUTIONS
                  (fun d => String.eqb (i_ror d) ror)
                  (fun d => d)
                  (fun i => mkInstitutionDoc i (ri_display_name inst) ror
                              country_id) ;;;
                inserted <- find_document COL_INSTITUTIONS
                              (fun d => String.eqb (i_ror d) ror) ;;
                match inserted with
                | Some d => ret (i_id d, country_id)
                | None => raise TypeError
                end
            end ;;
          ret (inst_id, country_id, Dict.set ror inst_id (al_ror_to_id st))
      end ;;
    let affiliations := al_affiliations st ++ [mkAffiliation inst_id years] in
    let search_tags :=
      al_search_tags st ++ ["institution:" +++ oid_str inst_id] in
    match country_id with
    | Some c =>
        if (Text.truthy c && negb (Text.mem c (al_added_countries st)))%bool
        then ret (mkAffLoop (search_tags ++ ["country:" +++ c])
                            (c :: al_added_countries st)
                            ror_to_id affiliations)
        else ret (mkAffLoop search_tags (al_added_countries st)
                            ror_to_id affiliations)
    | None => ret (mkAffLoop search_tags (al_added_countries st)
                             ror_to_id affiliations)
    end.

(** Local variables of the [last_known_institutions] loop. *)
Record LastLoop := mkLastLoop {
  ll_ror_to_id : Dict.t ObjectId;
  ll_last_known_institutions : list ObjectId
}.

Definition last_known_body (env : Env) (inst : RawInstitution) (st : LastLoop)
  : M LastLoop :=
  let ror := ror_or_name inst in
  if negb (Text.truthy ror) then ret st
  else
    '(inst_id, ror_to_id) <-
      match Dict.get ror (ll_ror_to_id st) with
      | Some inst_id => ret (inst_id, ll_ror_to_id st)
      | None =>
          existing_inst <- find_document COL_INSTITUTIONS
                             (fun d => String.eqb (i_ror d) ror) ;;
          inst_id <-
            match existing_inst with
            | Some d => ret (i_id d)
            | None =>
                country_id <- upsert_country env (ri_country_code inst) ;;
                upsert_document_new COL_INSTITUTIONS
                  (fun d => String.eqb (i_ror d) ror)
                  (fun d => d)
                  (fun i => mkInstitutionDoc i (ri_display_name inst) ror
                              country_id) ;;;
                inserted <- find_document COL_INSTITUTIONS
                              (fun d => String.eqb (i_ror d) ror) ;;
                match inserted with
                | Some d => ret (i_id d)
                | None => raise TypeError
                end
            end ;;
          ret (inst_id, Dict.set ror inst_id (ll_ror_to_id st))
      end ;;
    ret (mkLastLoop ror_to_id (ll_last_known_institutions st ++ [inst_id])).

Definition map_author_to_profile (env : Env) (author : Author) : M Profile :=
  al <- for_each (affiliation_body env) (a_affiliations author)
          (mkAffLoop [] [] [] []) ;;
  ll <- for_each (last_known_body env) (a_last_known_institutions author)
          (mkLastLoop (al_ror_to_id al) []) ;;
  '(topics, topics_fields_tags) <- process_researcher_topics (a_topics author) ;;
  let search_tags := al_search_tags al ++ topics_fields_tags in
  let stats := a_summary_stats author in
  let citation_trends :=
    map (fun entry => mkCitationTrend (ry_year entry) (ry_works_count entry)
                                      (ry_cited_by_count entry))
        (a_counts_by_year author) in
  ret (mkProfile
         (a_display_name author)
         (al_affiliations al)
         (mkIdentifiers (a_id author) (a_orcid author))
         (mkResearchMetrics (rs_h_index stats) (rs_i10_index stats)
            (rs_2yr_mean_citedness stats)
            (a_cited_by_count author) (a_works_count author))
         topics
         citation_trends
         (ll_last_known_institutions ll)
         search_tags
         (a_updated_date author)
         (now env)
         None).

(* ================================================================= *)
(** ** populate.py: [fetch_authors_for_topic] *)

Record TopicObj := mkTopicObj {
  to_display_name : string;
  to_oa_id : string
}.

(** What a walk does to the outside, in order: a page request with its
    cursor, the bulk insert of a page's documents, the progress upsert. *)
Inductive Event :=
| EvFetch (oa_id cursor : string)
| EvInsertMany (docs : list Profile)
| EvSaveProgress (display_name cursor : string) (researchers_count : Z).

(** Local variables of the [for author in authors] loop. *)
Record PageLoop := mkPageLoop {
  pl_new_docs : list Profile;
  pl_current_count : Z;
  pl_reserved_slugs : list string
}.

Definition has_orcid (orcid : string) (d : ResearcherDoc) : bool :=
  String.eqb (id_orcid (p_identifiers (r_profile d))) orcid.

Fixpoint page_loop (env : Env) (total_in_db inserted : Z)
    (authors : list Author) (st : PageLoop) : M PageLoop :=
  match authors with
  | [] => ret st
  | author :: rest =>
      if config.SESSION_LIMIT <=? inserted then ret st
      else if config.MAX_AUTHORS <=? total_in_db + inserted then ret st
      else if config.MAX_PER_TOPIC <=? pl_current_count st then ret st
      else
        let orcid := a_orcid author in
        if negb (Text.truthy orcid) then
          page_loop env total_in_db inserted rest st
        else
          found <- find_document COL_RESEARCHERS (has_orcid orcid) ;;
          match found with
          | Some _ => page_loop env total_in_db inserted rest st
          | None =>
              mapped <- map_author_to_profile env author ;;
              let nm := Text.strip_ws (p_name mapped) in
              '(mapped, reserved_slugs) <-
                (if Text.truthy nm then
                   s <- get ;;
                   match _generate_unique_slug (unicode env) nm (researchers s)
                           (Some (pl_reserved_slugs st)) with
                   | None => raise NonTermination
                   | Some slug =>
                       if Text.truthy slug
                       then ret (set_slug slug mapped,
                                 slug :: pl_reserved_slugs st)
                       else ret (mapped, pl_reserved_slugs st)
                   end
                 else ret (mapped, pl_reserved_slugs st)) ;;
              page_loop env total_in_db inserted rest
                (mkPageLoop (pl_new_docs st ++ [mapped])
                            (pl_current_count st + 1)
                            reserved_slugs)
          end
  end.

(** Why a walk stopped: one constructor per [return] and [break] of
    [fetch_authors_for_topic]. *)
Inductive Stop :=
| DbCap
| SessionCap
| TopicCap
| ApiFailure
| NoMoreAuthors
| NoNextCursor.

(** How a walk ended: the function returned, or the scripted answers of
    the catalog ran out before it did. *)
Inductive Status :=
| Returned (why : Stop)
| Starved.

Record WalkResult := mkWalkResult {
  w_status : Status;
  w_inserted : Z;
  w_trace : list Event;
  w_script : list ApiResponse
}.

Definition before (evs : list Event) (r : WalkResult) : WalkResult :=
  mkWalkResult (w_status r) (w_inserted r) (evs ++ w_trace r) (w_script r).

Definition progress (env : Env) (cursor : string) (current_count : Z)
  : SyncStatus :=
  mkSyncStatus (Some (now env)) (Some cursor) (Some current_count).

(** A traced computation also yields the events of the calls it made, in
    the order in which it made them. *)
Definition Traced (A : Type) := M (list Event * A).

Definition tret {A} (a : A) : Traced A := ret ([], a).

Definition tbind {A B} (m : Traced A) (k : A -> Traced B) : Traced B :=
  '(evs, a) <- m ;;
  '(evs', b) <- k a ;;
  ret (evs ++ evs', b).

(** A computation that leaves no event, and one that leaves the event
    [ev]. *)
Definition quiet {A} (m : M A) : Traced A := a <- m ;; ret ([], a).
Definition traced {A} (ev : Event) (m : M A) : Traced A :=
  a <- m ;; ret ([ev], a).

Notation "x <~ m ;; k" := (tbind m (fun x => k))
  (at level 61, m at next level, right associativity) : db_scope.
Notation "m ~;; k" := (tbind m (fun _ => k))
  (at level 61, right associativity) : db_scope.

(** The calls of the walker to the outside.  [get_authors] is
    [requests.get], [raise_for_status] and [response.json()] together:
    [answer] is the next scripted answer of the catalog. *)
Definition get_authors (oa_id cursor : string) (answer : ApiResponse)
  : Traced ApiResponse :=
  traced (EvFetch oa_id cursor) (ret answer).

Definition insert_new_docs (new_docs : list Profile) : Traced unit :=
  traced (EvInsertMany new_docs)
    (insert_many_documents COL_RESEARCHERS mkResearcherDoc new_docs ;;;
     ret tt).

Definition save_progress (env : Env) (display_name cursor : string)
    (current_count : Z) : Traced unit :=
  traced (EvSaveProgress display_name cursor current_count)
    (upsert_document_new COL_TOPICS
       (has_display_name display_name)
       (set_sync_status (progress env cursor current_count))
       (fun i => mkTopicDoc i (Some display_name) None
                   (Some (progress env cursor current_count)))).

(** The [while True] loop; it consumes one scripted answer per request and
    yields why it ended, the session counter and the answers left. *)
Fixpoint walk_rounds (env : Env) (script : list ApiResponse) (total_in_db : Z)
    (topic_obj : TopicObj) (cursor : string) (current_count : Z)
    (reserved_slugs : list string) (inserted : Z)
  : Traced (Status * Z * list ApiResponse) :=
  let display_name := to_display_name topic_obj in
  let oa_id := to_oa_id topic_obj in
  if config.SESSION_LIMIT <=? inserted then
    tret (Returned SessionCap, inserted, script)
  else if config.MAX_AUTHORS <=? total_in_db + inserted then
    tret (Returned DbCap, inserted, script)
  else if config.MAX_PER_TOPIC <=? current_count then
    tret (Returned TopicCap, inserted, script)
  else
    match script with
    | [] => tret (Starved, inserted, [])
    | answer :: script' =>
        data <~ get_authors oa_id cursor answer ;;
        match data with
        | ApiError => tret (Returned ApiFailure, inserted, script')
        | ApiPage [] _ => tret (Returned NoMoreAuthors, inserted, script')
        | ApiPage authors next_cursor =>
            st <~ quiet (page_loop env total_in_db inserted authors
                           (mkPageLoop [] current_count reserved_slugs)) ;;
            let new_docs := pl_new_docs st in
            let current_count := pl_current_count st in
            inserted <~
              match new_docs with
              | [] => tret inserted
              | _ =>
                  insert_new_docs new_docs ~;;
                  tret (inserted + Z.of_nat (List.length new_docs))
              end ;;
            let cursor' := next_cursor in
            if negb (Text.truthy cursor') then
              tret (Returned NoNextCursor, inserted, script')
            else
              save_progress env display_name cursor' current_count ~;;
              walk_rounds env script' total_in_db topic_obj cursor'
                current_count (pl_reserved_slugs st) inserted
        end
    end.

Definition walk_loop (env : Env) (script : list ApiResponse) (total_in_db : Z)
    (topic_obj : TopicObj) (cursor : string) (current_count : Z)
    (reserved_slugs : list string) (inserted : Z) : M WalkResult :=
  '(trace, (status, inserted, script)) <-
    walk_rounds env script total_in_db topic_obj cursor current_count
      reserved_slugs inserted ;;
  ret (mkWalkResult status inserted trace script).

Definition fetch_authors_for_topic (env : Env) (script : list ApiResponse)
    (topic_obj : TopicObj) (inserted : Z) : M WalkResult :=
  let display_name := to_display_name topic_obj in
  total_in_db <- count_documents COL_RESEARCHERS ;;
  if config.MAX_AUTHORS <=? total_in_db then
    ret (mkWalkResult (Returned DbCap) inserted [] script)
  else if config.SESSION_LIMIT <=? inserted then
    ret (mkWalkResult (Returned SessionCap) inserted [] script)
  else
    topic_record <- find_document COL_TOPICS (has_display_name display_name) ;;
    let sync_status :=
      match topic_record with
      | Some d => match t_sync_status d with
                  | Some ss => ss
                  | None => empty_sync
                  end
      | None => empty_sync
      end in
    let current_count := match ss_researchers_count sync_status with
                         | Some n => n
                         | None => 0
                         end in
    let cursor := match ss_cursor sync_status with
                  | Some c => c
                  | None => "*"
                  end in
    if config.MAX_PER_TOPIC <=? current_count then
      ret (mkWalkResult (Returned TopicCap) inserted [] script)
    else
      walk_loop env script total_in_db topic_obj cursor current_count []
                inserted.

(* ================================================================= *)
(** ** start.py: the loop of [main] over the topics of one keyword *)

(** [rr_finished] is false when the scripted answers ran out. *)
Record RunResult := mkRunResult {
  rr_finished : bool;
  rr_inserted : Z;
  rr_trace : list Event;
  rr_script : list ApiResponse
}.

Fixpoint run_topics (env : Env) (script : list ApiResponse)
    (fetch_topics : list TopicObj) (inserted : Z) : M RunResult :=
  match fetch_topics with
  | [] => ret (mkRunResult true inserted [] script)
  | topic :: rest =>
      r <- fetch_authors_for_topic env script topic inserted ;;
      match w_status r with
      | Starved => ret (mkRunResult false (w_inserted r) (w_trace r) [])
      | Returned _ =>
          r' <- run_topics env (w_script r) rest (w_inserted r) ;;
          ret (mkRunResult (rr_finished r') (rr_inserted r')
                           (w_trace r ++ rr_trace r') (rr_script r'))
      end
  end.

(* ================================================================= *)
(** ** Vocabulary of the statements *)

(** The slugs [_generate_unique_slug] probes, in order: the base, then
    [base-1], [base-2], ... *)
Definition candidate (base : string) (k : nat) : string :=
  match k with
  | O => base
  | S _ => base +++ "-" +++ Text.str_of_nat k
  end.

Definition slug_of (p : Profile) : list string :=
  match p_slug p with
  | Some s => [s]
  | None => []
  end.

(** The slugs present in the persisted collection. *)
Definition stored_slugs (col : list ResearcherDoc) : list string :=
  flat_map (fun d => slug_of (r_profile d)) col.

(** A slug is taken when it is reserved or stored. *)
Definition slug_taken (col : list ResearcherDoc) (reserved : list string)
    (slug : string) : bool :=
  (Text.mem slug reserved || Text.mem slug (stored_slugs col))%bool.

(** The two substitutions with a hyphen and the final [strip("-")] of
    [_generate_slug], on a list of characters. *)
Definition slug_steps (s : list N) : list N :=
  Text.strip Text.is_hyphen
    (Text.sub_runs Text.is_hyphen false
       (Text.sub_runs Text.is_space false s)).

(** What separates the words of a slug: whitespace and hyphens. *)
Definition slug_sep (c : N) : bool := (Text.is_space c || Text.is_hyphen c)%bool.

(** The words of the slug of a name: the name is lowercased, the characters
    that are neither word characters, whitespace nor hyphens are dropped,
    and what is left is cut at its runs of whitespace and hyphens. *)
Definition slug_words (U : Unicode.db) (name : string) : list (list N) :=
  Text.split slug_sep
    (filter (Text.slug_keep U) (Text.lower U (Text.decode name))).

(** No two neighbours of the list are both in the class [p]. *)
Fixpoint no_adjacent (p : N -> bool) (s : list N) : bool :=
  match s with
  | [] => true
  | c :: t =>
      (negb (p c && match t with
                    | d :: _ => p d
                    | [] => false
                    end)
       && no_adjacent p t)%bool
  end.

(** [run_ok m s Q]: from store [s] the computation [m] returns normally,
    with a value and a store that satisfy [Q]. *)
Definition run_ok {A} (m : M A) (s : Store) (Q : A -> Store -> Prop) : Prop :=
  exists a s', m s = Ok a s' /\ Q a s'.

Definition prefix {A} (l l' : list A) : Prop := exists t, l' = l ++ t.

(** What reference resolution may do to the store: the researchers stay as
    they are, countries and institutions are only ever appended. *)
Definition steady (s s' : Store) : Prop :=
  researchers s' = researchers s /\
  prefix (countries s) (countries s') /\
  prefix (institutions s) (institutions s').

(** The store after [upsert_document_new]. *)
Definition upserted {D} (c : Collection D) (filter : D -> bool)
    (upd : D -> D) (fresh : ObjectId -> D) (s : Store) : Store :=
  if existsb filter (col_get c s)
  then col_set c (update_first filter upd (col_get c s)) s
  else bump 1 (col_set c (col_get c s ++ [fresh (next_id s)]) s).

(** What the two institution loops may do: append countries and
    institutions, nothing else. *)
Definition refs_grow (s s' : Store) : Prop :=
  researchers s' = researchers s /\ topics s' = topics s /\
  fields s' = fields s /\
  prefix (countries s) (countries s') /\
  prefix (institutions s) (institutions s').

(** What topic processing leaves alone. *)
Definition refs_kept (s s' : Store) : Prop :=
  researchers s' = researchers s /\
  countries s' = countries s /\
  institutions s' = institutions s.

(** The store after a bulk insert of a non-empty list. *)
Definition inserted_many {P D} (c : Collection D) (mk : ObjectId -> P -> D)
    (docs : list P) (s : Store) : Store :=
  bump (List.length docs)
       (col_set c (col_get c s ++ with_ids mk (next_id s) docs) s).

(** Every name found at the start has its document in the local map, so
    [existing_map[display_name]] cannot fail. *)
Definition map_covers (existing_names : list string) (st : TopicLoop) : Prop :=
  forall n, Text.mem n existing_names = true ->
            Dict.get n (tl_existing_map st) <> None.

(** The slugs carried by a batch of profiles. *)
Definition batch_slugs (docs : list Profile) : list string :=
  flat_map slug_of docs.

Definition orcid_of (p : Profile) : string := id_orcid (p_identifiers p).

(** What one pass over a page's authors yields: the store changes only by
    reference resolution; [docs] are the profiles the pass appended to
    [new_docs]; the partition count rose by their number; every one of them
    has a non-empty ORCID that was not stored when the page started; their
    slugs are new to the reservation set, absent from the store and
    pairwise different. *)
Definition page_post (authors : list Author) (st : PageLoop) (s : Store)
    (st' : PageLoop) (s' : Store) : Prop :=
  steady s s' /\
  exists docs,
    pl_new_docs st' = pl_new_docs st ++ docs /\
    pl_current_count st' = pl_current_count st + Z.of_nat (List.length docs) /\
    (forall p, In p docs ->
       Text.truthy (orcid_of p) = true /\
       (exists a, In a authors /\ a_orcid a = orcid_of p) /\
       find (has_orcid (orcid_of p)) (researchers s) = None) /\
    incl (pl_reserved_slugs st) (pl_reserved_slugs st') /\
    incl (batch_slugs docs) (pl_reserved_slugs st') /\
    (forall x, In x (batch_slugs docs) ->
       ~ In x (pl_reserved_slugs st) /\
       ~ In x (stored_slugs (researchers s))) /\
    NoDup (batch_slugs docs).

(** One round of [walk_loop] with the traced calls replaced by what they do
    and the events they leave; [again] stands for the rounds that follow
    (lemma [walk_loop_round]). *)
Definition walk_round
    (again : list ApiResponse -> string -> Z -> list string -> Z
             -> M WalkResult)
    (env : Env) (script : list ApiResponse) (total_in_db : Z)
    (topic_obj : TopicObj) (cursor : string) (current_count : Z)
    (reserved_slugs : list string) (inserted : Z) : M WalkResult :=
  let display_name := to_display_name topic_obj in
  let oa_id := to_oa_id topic_obj in
  if config.SESSION_LIMIT <=? inserted then
    ret (mkWalkResult (Returned SessionCap) inserted [] script)
  else if config.MAX_AUTHORS <=? total_in_db + inserted then
    ret (mkWalkResult (Returned DbCap) inserted [] script)
  else if config.MAX_PER_TOPIC <=? current_count then
    ret (mkWalkResult (Returned TopicCap) inserted [] script)
  else
    match script with
    | [] => ret (mkWalkResult Starved inserted [] [])
    | ApiError :: script' =>
        ret (mkWalkResult (Returned ApiFailure) inserted
               [EvFetch oa_id cursor] script')
    | ApiPage [] _ :: script' =>
        ret (mkWalkResult (Returned NoMoreAuthors) inserted
               [EvFetch oa_id cursor] script')
    | ApiPage authors next_cursor :: script' =>
        st <- page_loop env total_in_db inserted authors
                (mkPageLoop [] current_count reserved_slugs) ;;
        let new_docs := pl_new_docs st in
        let current_count := pl_current_count st in
        '(inserted, committed) <-
          match new_docs with
          | [] => ret (inserted, [])
          | _ =>
              insert_many_documents COL_RESEARCHERS mkResearcherDoc new_docs ;;;
              ret (inserted + Z.of_nat (List.length new_docs),
                   [EvInsertMany new_docs])
          end ;;
        let cursor' := next_cursor in
        if negb (Text.truthy cursor') then
          ret (mkWalkResult (Returned NoNextCursor) inserted
                 (EvFetch oa_id cursor :: committed) script')
        else
          upsert_document_new COL_TOPICS
            (has_display_name display_name)
            (set_sync_status (progress env cursor' current_count))
            (fun i => mkTopicDoc i (Some display_name) None
                        (Some (progress env cursor' current_count))) ;;;
          r <- again script' cursor' current_count (pl_reserved_slugs st)
                 inserted ;;
          ret (before (EvFetch oa_id cursor :: committed
                        ++ [EvSaveProgress display_name cursor' current_count])
                      r)
    end.

(** The profiles a trace hands to the bulk insert, in order. *)
Definition inserted_docs (trace : list Event) : list Profile :=
  flat_map (fun e => match e with
                     | EvInsertMany docs => docs
                     | _ => []
                     end) trace.

(** The [sync_status] a walk reads when it starts on a topic. *)
Definition topic_sync (display_name : string) (s : Store) : SyncStatus :=
  match find (has_display_name display_name) (topics s) with
  | Some d => match t_sync_status d with
              | Some ss => ss
              | None => empty_sync
              end
  | None => empty_sync
  end.

(** The persisted cursor of a topic ([sync_status.get("cursor", "*")]). *)
Definition stored_cursor (display_name : string) (s : Store) : string :=
  match ss_cursor (topic_sync display_name s) with
  | Some c => c
  | None => "*"
  end.

(** The persisted count of a topic
    ([sync_status.get("researchers_count", 0) or 0]). *)
Definition stored_count (display_name : string) (s : Store) : Z :=
  match ss_researchers_count (topic_sync display_name s) with
  | Some n => n
  | None => 0
  end.

(** The bulk insert event of a page, when the page has new documents. *)
Definition committed (docs : list Profile) : list Event :=
  match docs with
  | [] => []
  | _ => [EvInsertMany docs]
  end.

(** The shape of the trace of a walk that starts with partition count [n]
    and cursor [c]: page after page, a request with the current cursor,
    then the bulk insert of the page's documents, then -- when the page
    carries a continuation token [c'] -- the progress upsert with [c'] and
    the count raised by the documents of the page, after which the walk
    goes on from [c']. *)
Inductive page_trace (oa_id display_name : string)
  : Z -> string -> list Event -> Prop :=
| pt_stop n c : page_trace oa_id display_name n c []
| pt_last n c docs :
    page_trace oa_id display_name n c (EvFetch oa_id c :: committed docs)
| pt_page n c docs c' rest :
    Text.truthy c' = true ->
    page_trace oa_id display_name (n + Z.of_nat (List.length docs)) c' rest ->
    page_trace oa_id display_name n c
      (EvFetch oa_id c :: committed docs
         ++ EvSaveProgress display_name c'
              (n + Z.of_nat (List.length docs)) :: rest).

(** How a walk that stopped on a failed request left the store: the failed
    request is the last event, and the persisted cursor is the one it used. *)
Definition failed_at_checkpoint (topic_obj : TopicObj) (r : WalkResult)
    (s' : Store) : Prop :=
  exists pre c,
    w_trace r = pre ++ [EvFetch (to_oa_id topic_obj) c] /\
    stored_cursor (to_display_name topic_obj) s' = c.

(** What a walk from partition count [cc] and cursor [cursor] guarantees. *)
Definition walk_post (topic_obj : TopicObj) (cursor : string) (cc inserted : Z)
    (s : Store) (r : WalkResult) (s' : Store) : Prop :=
  (NoDup (stored_slugs (researchers s)) ->
   NoDup (stored_slugs (researchers s'))) /\
  map r_profile (researchers s')
    = map r_profile (researchers s) ++ inserted_docs (w_trace r) /\
  w_inserted r = inserted + Z.of_nat (List.length (inserted_docs (w_trace r))) /\
  page_trace (to_oa_id topic_obj) (to_display_name topic_obj) cc cursor
             (w_trace r) /\
  (forall p, In p (inserted_docs (w_trace r)) ->
             Text.truthy (orcid_of p) = true) /\
  (w_status r = Returned ApiFailure ->
   (w_trace r = [EvFetch (to_oa_id topic_obj) cursor] /\ s' = s) \/
   (w_trace r <> [EvFetch (to_oa_id topic_obj) cursor] /\
    failed_at_checkpoint topic_obj r s')).

(* ================================================================= *)
(** ** Data of the examples *)

(** A character database for the examples: it knows the characters of
    the Latin-1 supplement, with their lowercase forms, and the CJK unified
    ideographs (letters without case); it takes every other character
    beyond ASCII for a symbol. *)
Definition ex_unicode : Unicode.db :=
  Unicode.mk
    (fun c =>
       (N.eqb c 170 || N.eqb c 178 || N.eqb c 179 || N.eqb c 181
        || N.eqb c 185 || N.eqb c 186 || Text.between 188 190 c
        || Text.between 192 214 c || Text.between 216 246 c
        || Text.between 248 255 c || Text.between 19968 40959 c)%bool)
    (fun _ c _ =>
       if (Text.between 192 222 c && negb (N.eqb c 215))%bool
       then [(c + 32)%N] else [c]).

(** A naming service that is down, a fixed clock, and the database above. *)
Definition ex_env : Env := mkEnv (fun _ => RestError) 0%nat ex_unicode.

Definition ex_author (orcid name : string)
    (affiliations : list RawAffiliation) (topics_ : list RawTopic) : Author :=
  mkAuthor "https://openalex.org/A5000000001" orcid name affiliations []
           topics_ (mkRawStats 0 0 0%Q) [] 0 0 None.

Definition ex_topic_obj : TopicObj := mkTopicObj "Machine Learning" "T10001".

(** A store that holds one field and the topic [ex_topic_obj], as
    [upsert_topic] leaves them: no researcher yet, cursor ["*"], count 0. *)
Definition ex_store : Store :=
  mkStore []
    [mkTopicDoc 1%nat (Some "Machine Learning") (Some 0%nat)
       (Some (mkSyncStatus None (Some "*") (Some 0)))]
    [mkFieldDoc 0%nat "Computer Science"]
    [] [] 2%nat.

Definition ex_mit : RawAffiliation :=
  mkRawAffiliation (mkRawInstitution "https://ror.org/042nb2s44" "MIT" "us")
                   [2020; 2021].

(** The naming service gave no usable name: it raised, or its JSON is not
    a non-empty list with [name.common]. *)
Definition lookup_failed (r : RestResponse) : Prop :=
  forall common, r <> RestList (Some common).

(** A raw record with other affiliations and last known institutions. *)
Definition with_institutions (affiliations : list RawAffiliation)
    (last_known : list RawInstitution) (a : Author) : Author :=
  mkAuthor (a_id a) (a_orcid a) (a_display_name a) affiliations last_known
           (a_topics a) (a_summary_stats a) (a_counts_by_year a)
           (a_cited_by_count a) (a_works_count a) (a_updated_date a).

(** How often a raw topic list mentions a display name. *)
Definition mentions (display_name : string) (topics_ : list RawTopic) : nat :=
  List.length
    (filter (fun t => String.eqb (rt_display_name t) display_name) topics_).

(** The [researchers_count] of a topic document, 0 when it has none. *)
Definition count_of (d : TopicDoc) : Z :=
  match t_sync_status d with
  | Some ss => match ss_researchers_count ss with
               | Some n => n
               | None => 0
               end
  | None => 0
  end.

(** The invariant of the topic loop for one tracked topic [dn], stored
    once, under the identifier [id0], with a non-empty [sync_status]:
    after [k] mentions its count is [c0 + k], its cursor is untouched, and
    the local map holds the very document the store holds. *)
Definition tracks (dn : string) (id0 : ObjectId) (cur0 : option string)
    (c0 : Z) (names : list string) (k : nat) (st : TopicLoop) (s : Store)
  : Prop :=
  map_covers names st /\
  NoDup (map t_id (topics s)) /\
  (exists d' ss',
     filter (has_display_name dn) (topics s) = [d'] /\
     t_id d' = id0 /\
     t_sync_status d' = Some ss' /\
     sync_truthy ss' = true /\
     ss_cursor ss' = cur0 /\
     match ss_researchers_count ss' with
     | Some n => n
     | None => 0
     end = c0 + Z.of_nat k /\
     (Text.mem dn names = true ->
      Dict.get dn (tl_existing_map st) = Some d')) /\
  (forall n e, n <> dn -> Dict.get n (tl_existing_map st) = Some e ->
               t_id e <> id0) /\
  (forall p, In p (tl_missing_docs st) -> fst p <> dn).

(** A computation never lowers the next identifier of the store. *)
Definition ids_mono {A} (m : M A) : Prop :=
  forall s a s', m s = Ok a s' -> (next_id s <= next_id s')%nat.

(** The topic identifiers are pairwise different and were all handed out
    already (what the store guarantees for [_id]). *)
Definition wf_topics (s : Store) : Prop :=
  NoDup (map t_id (topics s)) /\
  forall i, In i (map t_id (topics s)) -> (i < next_id s)%nat.

(** The invariant of the topic loop about identifiers: the store is well
    formed and every document of the local map is a stored one. *)
Definition ids_ok (st : TopicLoop) (s : Store) : Prop :=
  wf_topics s /\
  forall n e, Dict.get n (tl_existing_map st) = Some e ->
              In (t_id e) (map t_id (topics s)).

(** A topic stored once under its name, with identifier [id0], a non-empty
    [sync_status], cursor [cur0] and count [c], in a well-formed store. *)
Definition tracked (dn : string) (id0 : ObjectId) (cur0 : option string)
    (c : Z) (s : Store) : Prop :=
  wf_topics s /\
  exists d ss,
    filter (has_display_name dn) (topics s) = [d] /\
    t_id d = id0 /\
    t_sync_status d = Some ss /\
    sync_truthy ss = true /\
    ss_cursor ss = cur0 /\
    match ss_researchers_count ss with
    | Some n => n
    | None => 0
    end = c.

(** Every record of every scripted page mentions the topic exactly once in
    its raw topic list. *)
Definition all_mention_once (dn : string) (script : list ApiResponse) : Prop :=
  forall authors next a,
    In (ApiPage authors next) script -> In a authors ->
    mentions dn (a_topics a) = 1%nat.

(** A raw record that passes the filter of the page loop against store
    [s]: its ORCID is non-empty and not stored. *)
Definition admissible (s : Store) (a : Author) : Prop :=
  Text.truthy (a_orcid a) = true /\
  find (has_orcid (a_orcid a)) (researchers s) = None.

(* ================================================================= *)
(** * The rest of the scripts *)

(* ================================================================= *)
(** ** populate.py: [strip_openalex_id] *)

(** [c in s]. *)
Fixpoint contains (c : ascii) (s : string) : bool :=
  match s with
  | EmptyString => false
  | String x t => (Ascii.eqb x c || contains c t)%bool
  end.

(** [s.rsplit(c, 1)[-1]]: what follows the last [c] of [s]; all of [s]
    when it holds no [c]. *)
Fixpoint rsplit_last (c : ascii) (s : string) : string :=
  match s with
  | EmptyString => EmptyString
  | String x t =>
      if contains c t then rsplit_last c t
      else if Ascii.eqb x c then t
      else s
  end.

(** [urlparse(value).path] belongs to the standard library of Python; the
    function takes it as [urlparse_path]. *)
Definition strip_openalex_id (urlparse_path : string -> string)
    (value : string) : string :=
  if negb (Text.truthy value) then value
  else if String.prefix "http" value then
    let path := urlparse_path value in
    if contains "/" path then rsplit_last "/" path else path
  else value.

(* ================================================================= *)
(** ** start.py: [format_keyword] *)

Definition format_keyword (U : Unicode.db) (keyword : string) : string :=
  Text.encode
    (Text.join [Text.plus]
       (Text.split Text.is_space (Text.lower U (Text.decode keyword)))).

(* ================================================================= *)
(** ** start.py: [fetch_topics_for_keyword] *)

(** One element of the [results] of [GET /topics], as the function reads
    it: [t.get("id", "")], [t.get("display_name", "")] and
    [(t.get("field") or {}).get("display_name", "")]. *)
Record CatalogTopic := mkCatalogTopic {
  ctp_id : string;
  ctp_display_name : string;
  ctp_field : string
}.

(** The answer to [GET /topics]: an exception, or [data.get("results")]. *)
Inductive TopicsResponse :=
| TopicsError
| TopicsPage (results : list CatalogTopic).

(** The body of [for topic in all_topics]; the loop variable is the list
    [fetch_topics]. *)
Definition keyword_body (existing_map : Dict.t TopicDoc)
    (total_in_db session_remaining : Z) (topic : TopicInfo)
    (fetch_topics : list TopicObj) : M (list TopicObj) :=
  let topic_name := ti_display_name topic in
  let oa_id := ti_id topic in
  match Dict.get topic_name existing_map with
  | Some existing_doc =>
      let rc :=
        match t_sync_status existing_doc with
        | Some ss => match ss_researchers_count ss with
                     | Some n => n
                     | None => 0
                     end
        | None => 0
        end in
      if config.MAX_PER_TOPIC <=? rc then ret fetch_topics
      else ret (fetch_topics ++ [mkTopicObj topic_name oa_id])
  | None =>
      if ((config.MAX_AUTHORS <=? total_in_db)
          || (session_remaining <=? 0))%bool
      then ret fetch_topics
      else
        upsert_topic topic ;;;
        ret (fetch_topics ++ [mkTopicObj topic_name oa_id])
  end.

(** [api] is the topics endpoint as a function of the formatted keyword.
    The [try] of the source spans the whole body and answers any exception
    with the empty list; here only the request has an exceptional answer,
    and the rest is shown below to return in every store. *)
Definition fetch_topics_for_keyword (U : Unicode.db)
    (urlparse_path : string -> string) (api : string -> TopicsResponse)
    (keyword : string) (inserted : Z) : M (list TopicObj) :=
  let formatted := format_keyword U keyword in
  match api formatted with
  | TopicsError => ret []
  | TopicsPage topics =>
      let all_topics :=
        map (fun t => mkTopicInfo
                        (strip_openalex_id urlparse_path (ctp_id t))
                        (ctp_display_name t) (ctp_field t)) topics in
      let all_topics_names := map ti_display_name all_topics in
      existing <- find_documents COL_TOPICS
                    (fun d => match t_display_name d with
                              | Some n => Text.mem n all_topics_names
                              | None => false
                              end) ;;
      let existing_map := map_of existing in
      total_in_db <- count_documents COL_RESEARCHERS ;;
      let session_remaining := config.SESSION_LIMIT - inserted in
      for_each (keyword_body existing_map total_in_db session_remaining)
               all_topics []
  end.

(* ================================================================= *)
(** ** start.py: [main] *)

(** The loop of [main] over the keywords.  [topics_api k] is the topics
    endpoint at the [k]-th keyword; [script] holds the answers of the
    authors endpoint, as for a walk.  The run stops where the scripted
    answers run out. *)
Fixpoint main_loop (env : Env) (urlparse_path : string -> string)
    (topics_api : nat -> string -> TopicsResponse) (k : nat)
    (script : list ApiResponse) (keywords : list string) (inserted : Z)
  : M RunResult :=
  match keywords with
  | [] => ret (mkRunResult true inserted [] script)
  | kw :: rest =>
      fetch_topics <- fetch_topics_for_keyword (unicode env) urlparse_path
                        (topics_api k) kw inserted ;;
      r <- run_topics env script fetch_topics inserted ;;
      if rr_finished r then
        r' <- main_loop env urlparse_path topics_api (S k) (rr_script r)
                rest (rr_inserted r) ;;
        ret (mkRunResult (rr_finished r') (rr_inserted r')
                         (rr_trace r ++ rr_trace r') (rr_script r'))
      else ret r
  end.

(** [keywords] is what [load_keywords] read from the keywords file. *)
Definition main (env : Env) (urlparse_path : string -> string)
    (topics_api : nat -> string -> TopicsResponse)
    (script : list ApiResponse) (keywords : list string) : M RunResult :=
  main_loop env urlparse_path topics_api 0 script keywords 0.

(* ================================================================= *)
(** ** old_populate.py: the checkpoints of the legacy pipeline *)

Module Legacy.

(** A document of the [sync_status] collection of the legacy pipeline; a
    key that is absent is [None]. *)
Record SyncRec := mkSyncRec {
  sr_field_id : option string;
  sr_cursor : option string;
  sr_last_author_id : option string
}.

Definition for_field (field_id : string) (rec : SyncRec) : bool :=
  match sr_field_id rec with
  | Some f => String.eqb f field_id
  | None => false
  end.

(** [get_last_cursor]: [rec["cursor"] if rec and "cursor" in rec else "*"]. *)
Definition get_last_cursor (sync_status : list SyncRec) (field_id : string)
  : string :=
  match find (for_field field_id) sync_status with
  | Some rec => match sr_cursor rec with
                | Some c => c
                | None => "*"
                end
  | None => "*"
  end.

(** [save_cursor]: [update_one({"field_id": field_id}, {"$set": update},
    upsert=True)], where [update] holds the cursor and, when it is given
    and not empty, the last author identifier. *)
Definition save_cursor (field_id cursor_value : string)
    (last_author_id : option string) (sync_status : list SyncRec)
  : list SyncRec :=
  let last := match last_author_id with
              | Some a => if Text.truthy a then Some a else None
              | None => None
              end in
  let upd rec :=
    mkSyncRec (sr_field_id rec) (Some cursor_value)
              (match last with
               | Some a => Some a
               | None => sr_last_author_id rec
               end) in
  if existsb (for_field field_id) sync_status
  then update_first (for_field field_id) upd sync_status
  else sync_status ++ [mkSyncRec (Some field_id) (Some cursor_value) last].

End Legacy.

(* ================================================================= *)
(** ** Vocabulary for the rest of the scripts *)

(** A string of ASCII characters. *)
Definition ascii_only (s : string) : Prop :=
  Forall (fun b => (N_of_ascii b < 128)%N) (list_ascii_of_string s).

(** The ASCII characters a slug is made of: lowercase letters, digits, the
    underscore and the hyphen. *)
Definition slug_char (c : N) : bool :=
  (Text.between 97 122 c || Text.between 48 57 c || N.eqb c 95
   || Text.is_hyphen c)%bool.

(** No two stored topics carry the same display name. *)
Definition unique_names (s : Store) : Prop := NoDup (names_of (topics s)).

(** The topic dictionaries [fetch_topics_for_keyword] builds from the
    results of the topics endpoint. *)
Definition all_topics_of (urlparse_path : string -> string)
    (results : list CatalogTopic) : list TopicInfo :=
  map (fun t => mkTopicInfo (strip_openalex_id urlparse_path (ctp_id t))
                            (ctp_display_name t) (ctp_field t)) results.

(** The entry of [fetch_topics] for one topic dictionary. *)
Definition scheduled (t : TopicInfo) : TopicObj :=
  mkTopicObj (ti_display_name t) (ti_id t).

(** What [fetch_topics_for_keyword] may do to the store: researchers,
    countries and institutions stay as they are; topics and fields are
    only ever appended. *)
Definition topics_grow (s s' : Store) : Prop :=
  researchers s' = researchers s /\ countries s' = countries s /\
  institutions s' = institutions s /\
  prefix (fields s) (fields s') /\
  exists new,
    topics s' = topics s ++ new /\
    Forall (fun d => count_of d = 0) new.

(** The invariant of the loop of [fetch_topics_for_keyword] over a store
    that was [s0] at the start: the store has only grown, and every
    scheduled topic is stored, its first document satisfying [P]. *)
Definition keyword_inv (P : TopicDoc -> Prop) (s0 : Store)
    (fetch_topics : list TopicObj) (s : Store) : Prop :=
  topics_grow s0 s /\
  forall t, In t fetch_topics ->
    exists d,
      find (has_display_name (to_display_name t)) (topics s) = Some d /\ P d.

(** What a run over several topics or keywords guarantees, from the
    session counter [inserted] and the store [s]: slugs stay pairwise
    different; the researchers stored before stay and the inserted
    profiles follow them in the order of the bulk inserts; the session
    counter has risen by their number; every one has an ORCID. *)
Definition run_post (inserted : Z) (s : Store) (r : RunResult) (s' : Store)
  : Prop :=
  (NoDup (stored_slugs (researchers s)) ->
   NoDup (stored_slugs (researchers s'))) /\
  map r_profile (researchers s')
    = map r_profile (researchers s) ++ inserted_docs (rr_trace r) /\
  rr_inserted r
    = inserted + Z.of_nat (List.length (inserted_docs (rr_trace r))) /\
  forall p, In p (inserted_docs (rr_trace r)) ->
            Text.truthy (orcid_of p) = true.

(** A computation keeps a property of the store, whenever it returns. *)
Definition keeps {A} (I : Store -> Prop) (m : M A) : Prop :=
  forall s a s', m s = Ok a s' -> I s -> I s'.

(** The reference collections hold no key twice: no two institutions with
    the same ROR key, no two countries with the same code, no two fields
    with the same name. *)
Definition unique_refs (s : Store) : Prop :=
  NoDup (map i_ror (institutions s)) /\
  NoDup (map c_id (countries s)) /\
  NoDup (map f_display_name (fields s)).

(** The slug of a profile's name, as the walker derives it. *)
Definition name_slug (U : Unicode.db) (p : Profile) : string :=
  _generate_slug U (Text.strip_ws (p_name p)).

(** The slug of a profile comes from its name: it is not empty and is the
    slug of the name or that slug with a numeric suffix; a profile has no
    slug only when the slug of its name is empty. *)
Definition slug_from_name (U : Unicode.db) (p : Profile) : Prop :=
  match p_slug p with
  | Some sl =>
      Text.truthy sl = true /\ exists k, sl = candidate (name_slug U p) k
  | None => name_slug U p = ""
  end.

(** What identifies a topic document besides its [sync_status]. *)
Definition topic_frame (d : TopicDoc)
  : ObjectId * option string * option ObjectId :=
  (t_id d, t_display_name d, t_field_id d).

(** The country reference an institution is created with: what
    [upsert_country] returns for its country code. *)
Definition country_ref (inst : RawInstitution) : option string :=
  if Text.truthy (ri_country_code inst)
  then Some (Text.upper (ri_country_code inst)) else None.

(** The raw institutions of a record in the order the mapper meets them:
    those of the affiliations, then the last known ones. *)
Definition raw_institutions (author : Author) : list RawInstitution :=
  map ra_institution (a_affiliations author)
  ++ a_last_known_institutions author.

(** [inst] is the first entry of [l] with its key. *)
Definition first_with_key (inst : RawInstitution) (l : list RawInstitution)
  : Prop :=
  exists pre post,
    l = pre ++ inst :: post /\
    Forall (fun e => ror_or_name e <> ror_or_name inst) pre.

(** Every country that [s'] holds and [s] does not, and that the naming
    service cannot name, is named by its code. *)
Definition named_by_code (env : Env) (s s' : Store) : Prop :=
  forall c, In c (countries s') ->
    In c (countries s) \/
    (lookup_failed (restcountries env (c_id c)) -> c_display_name c = c_id c).

(** [d] is the document made from the raw institution [inst]: it has its
    key and its display name, and it references the country of its code,
    which [s'] holds. *)
Definition made_from (inst : RawInstitution) (s' : Store) (d : InstitutionDoc)
  : Prop :=
  i_ror d = ror_or_name inst /\
  i_display_name d = ri_display_name inst /\
  i_country_id d = country_ref inst /\
  (Text.truthy (ri_country_code inst) = true ->
   exists c,
     find (fun c => String.eqb (c_id c) (Text.upper (ri_country_code inst)))
          (countries s') = Some c).

(** What resolving the raw institutions [l] does from [s] to [s']: the
    researchers stay, countries and institutions are appended; the new
    countries the naming service cannot name are named by their code;
    every new institution was made from the first entry of [l] with its
    key, which [s] did not hold; every entry with a key is stored. *)
Definition resolves (env : Env) (l : list RawInstitution) (s s' : Store)
  : Prop :=
  steady s s' /\
  named_by_code env s s' /\
  (forall d, In d (institutions s') ->
     In d (institutions s) \/
     exists inst,
       first_with_key inst l /\
       Text.truthy (ror_or_name inst) = true /\
       find (fun d' => String.eqb (i_ror d') (i_ror d)) (institutions s)
         = None /\
       made_from inst s' d) /\
  (forall inst, In inst l -> Text.truthy (ror_or_name inst) = true ->
     exists d,
       find (fun d => String.eqb (i_ror d) (ror_or_name inst))
            (institutions s') = Some d).

(** Every institution a loop of the mapper has cached is stored under its
    key, with the cached identifier. *)
Definition cache_stored (cache : Dict.t ObjectId) (s : Store) : Prop :=
  forall k i, Dict.get k cache = Some i ->
    exists d,
      find (fun d => String.eqb (i_ror d) k) (institutions s) = Some d /\
      i_id d = i.

(* ================================================================= *)
(** * Proofs *)

(** ** Strings *)

Section TextFacts.
Import Text.
Variable p : N -> bool.

Lemma rstrip_snoc s c : p c = true -> rstrip p (s ++ [c]) = rstrip p s.
Proof.
  intros Hc. induction s as [|x s IH]; simpl.
  - now rewrite Hc.
  - now rewrite IH.
Qed.

Lemma strip_cons s c : p c = true -> strip p (c :: s) = strip p s.
Proof.
  intros Hc. unfold strip. simpl.
  destruct (rstrip p s) as [|y r]; simpl; now rewrite Hc.
Qed.

Lemma strip_snoc s c : p c = true -> strip p (s ++ [c]) = strip p s.
Proof. intros Hc. unfold strip. now rewrite rstrip_snoc. Qed.

Lemma rstrip_keep s c : p c = false -> rstrip p (s ++ [c]) = s ++ [c].
Proof.
  intros Hc. induction s as [|x s IH]; simpl.
  - now rewrite Hc.
  - rewrite IH. destruct (s ++ [c]) eqn:E; [now destruct s|reflexivity].
Qed.

(** Appending a character of the class adds at most one hyphen. *)
Lemma sub_runs_snoc s c b :
  p c = true ->
  sub_runs p b (s ++ [c]) = sub_runs p b s
  \/ sub_runs p b (s ++ [c]) = sub_runs p b s ++ [hyphen].
Proof.
  intros Hc. revert b. induction s as [|x s IH]; intros b; simpl.
  - rewrite Hc. destruct b; auto.
  - destruct (p x).
    + destruct b; destruct (IH true) as [E|E]; rewrite E; auto.
    + destruct (IH false) as [E|E]; rewrite E; auto.
Qed.

End TextFacts.

Lemma space_keep U c : Text.is_space c = true -> Text.slug_keep U c = true.
Proof. intros H. unfold Text.slug_keep. rewrite H. now rewrite orb_true_r. Qed.

Lemma hyphen_is_hyphen : Text.is_hyphen Text.hyphen = true.
Proof. reflexivity. Qed.

Lemma slug_steps_cons_space c s :
  Text.is_space c = true -> slug_steps (c :: s) = slug_steps s.
Proof.
  intros Hc. unfold slug_steps. simpl. rewrite Hc. simpl.
  rewrite strip_cons by reflexivity.
  destruct s as [|x u]; simpl; [reflexivity|].
  destruct (Text.is_space x); simpl.
  - now rewrite strip_cons by reflexivity.
  - destruct (Text.is_hyphen x) eqn:Hx; [|reflexivity].
    now rewrite strip_cons by reflexivity.
Qed.

Lemma slug_steps_snoc_space c s :
  Text.is_space c = true -> slug_steps (s ++ [c]) = slug_steps s.
Proof.
  intros Hc. unfold slug_steps.
  destruct (sub_runs_snoc Text.is_space s c false Hc)
    as [E|E]; rewrite E; [reflexivity|].
  destruct (sub_runs_snoc Text.is_hyphen
              (Text.sub_runs Text.is_space false s)
              Text.hyphen false eq_refl) as [E'|E']; rewrite E'; [reflexivity|].
  now apply strip_snoc.
Qed.

Lemma filter_lstrip U s :
  slug_steps (filter (Text.slug_keep U) (Text.lstrip Text.is_space s))
  = slug_steps (filter (Text.slug_keep U) s).
Proof.
  induction s as [|c s IH]; simpl; [reflexivity|].
  destruct (Text.is_space c) eqn:Hc; [|reflexivity].
  rewrite (space_keep U c Hc). now rewrite IH, slug_steps_cons_space.
Qed.

Lemma filter_rstrip U s :
  slug_steps (filter (Text.slug_keep U) (Text.rstrip Text.is_space s))
  = slug_steps (filter (Text.slug_keep U) s).
Proof.
  induction s as [|c s IH] using rev_ind; [reflexivity|].
  destruct (Text.is_space c) eqn:Hc.
  - rewrite rstrip_snoc by exact Hc. rewrite IH, filter_app. simpl.
    rewrite (space_keep U c Hc). now rewrite slug_steps_snoc_space.
  - now rewrite rstrip_keep.
Qed.

(** The [.strip()] before the substitutions changes nothing. *)
Lemma slug_steps_strip U s :
  slug_steps (filter (Text.slug_keep U) (Text.strip Text.is_space s))
  = slug_steps (filter (Text.slug_keep U) s).
Proof. unfold Text.strip. now rewrite filter_lstrip, filter_rstrip. Qed.

Lemma mem_In x l : Text.mem x l = true <-> In x l.
Proof.
  unfold Text.mem. rewrite existsb_exists. split.
  - intros [y [Hy E]]. apply String.eqb_eq in E. now subst.
  - intros H. exists x. split; [assumption|apply String.eqb_refl].
Qed.

Lemma mem_false x l : Text.mem x l = false <-> ~ In x l.
Proof.
  rewrite <- mem_In. destruct (Text.mem x l); split; intros; congruence.
Qed.

(** ** Slug probing *)

Lemma find_slug_mem col slug :
  match find (fun d => match p_slug (r_profile d) with
                       | Some s => String.eqb s slug
                       | None => false
                       end) col with
  | Some _ => true
  | None => false
  end = Text.mem slug (stored_slugs col).
Proof.
  induction col as [|d col IH]; simpl; [reflexivity|].
  unfold stored_slugs in *. simpl. unfold slug_of at 1.
  destruct (p_slug (r_profile d)) as [s|]; simpl; [|exact IH].
  rewrite (String.eqb_sym slug s).
  destruct (String.eqb s slug); [reflexivity|exact IH].
Qed.

Lemma append_inj_r a b c : a +++ b = a +++ c -> b = c.
Proof. induction a; simpl; intros H; [assumption|]. injection H. auto. Qed.

Lemma append_neq_self a b : b <> "" -> a +++ b <> a.
Proof.
  intros Hb E. apply Hb.
  apply (append_inj_r a). rewrite E.
  clear. induction a; simpl; [reflexivity|]. now rewrite <- IHa.
Qed.

Lemma str_of_nat_inj n m : Text.str_of_nat n = Text.str_of_nat m -> n = m.
Proof.
  unfold Text.str_of_nat. intros E.
  assert (H : Some (Nat.to_uint n) = Some (Nat.to_uint m))
    by (rewrite <- !NilEmpty.usu; now rewrite E).
  injection H as H.
  rewrite <- (Unsigned.of_to n), <- (Unsigned.of_to m). now rewrite H.
Qed.

Lemma candidate_inj base i j : candidate base i = candidate base j -> i = j.
Proof.
  destruct i as [|i], j as [|j]; simpl; intros E.
  - reflexivity.
  - symmetry in E. now apply append_neq_self in E.
  - now apply append_neq_self in E.
  - apply append_inj_r in E. simpl in E. injection E as E.
    now apply str_of_nat_inj.
Qed.

Lemma probe_slug_step fuel col reserved base k :
  probe_slug (S fuel) col (Some reserved) base (candidate base k) (S k) =
  if slug_taken col reserved (candidate base k)
  then probe_slug fuel col (Some reserved) base (candidate base (S k)) (S (S k))
  else Some (candidate base k).
Proof.
  cbn [probe_slug]. rewrite find_slug_mem. unfold slug_taken.
  destruct (Text.mem (candidate base k) reserved); simpl; [reflexivity|].
  destruct (Text.mem (candidate base k) (stored_slugs col)); reflexivity.
Qed.

(** The loop returns the first free candidate at or after [k], provided one
    occurs within the fuel. *)
Lemma probe_slug_first_free col reserved base :
  forall fuel k j,
    (k <= j < k + fuel)%nat ->
    slug_taken col reserved (candidate base j) = false ->
    (forall i, (k <= i < j)%nat ->
               slug_taken col reserved (candidate base i) = true) ->
    probe_slug fuel col (Some reserved) base (candidate base k) (S k)
    = Some (candidate base j).
Proof.
  induction fuel as [|fuel IH]; intros k j Hj Hfree Hbefore; [lia|].
  rewrite probe_slug_step.
  destruct (Nat.eq_dec k j) as [->|Hne].
  - now rewrite Hfree.
  - rewrite (Hbefore k) by lia.
    apply IH; [lia|assumption|]. intros i Hi. apply Hbefore. lia.
Qed.

Lemma taken_In col reserved s :
  slug_taken col reserved s = true <-> In s (reserved ++ stored_slugs col).
Proof.
  unfold slug_taken. rewrite orb_true_iff, !mem_In, in_app_iff. tauto.
Qed.

Lemma stored_slugs_length col :
  (List.length (stored_slugs col) <= List.length col)%nat.
Proof.
  induction col as [|d col IH]; simpl; [lia|].
  unfold stored_slugs in *. simpl. rewrite length_app.
  unfold slug_of at 1. destruct (p_slug (r_profile d)); simpl; lia.
Qed.

Lemma forallb_false_below (f : nat -> bool) n :
  forallb f (seq 0 n) = false -> exists i, (i < n)%nat /\ f i = false.
Proof.
  induction n as [|n IHn]; intros E; [discriminate|].
  rewrite seq_S, forallb_app in E. simpl in E.
  destruct (forallb f (seq 0 n)) eqn:E1.
  - exists n. split; [lia|]. simpl in E. now rewrite andb_true_r in E.
  - destruct (IHn eq_refl) as [i [Hi Hf]]. exists i. split; [lia|assumption].
Qed.

(** A boolean predicate on naturals that fails somewhere has a least place
    where it fails. *)
Lemma least_false (f : nat -> bool) n :
  f n = false ->
  exists j, (j <= n)%nat /\ f j = false /\
            forall i, (i < j)%nat -> f i = true.
Proof.
  induction n as [n IH] using lt_wf_ind. intros Hn.
  destruct (forallb f (seq 0 n)) eqn:E.
  - exists n. split; [lia|]. split; [assumption|].
    intros i Hi. rewrite forallb_forall in E. apply E. apply in_seq. lia.
  - destruct (forallb_false_below f n E) as [i [Hi Hf]].
    destruct (IH i Hi Hf) as [j [Hj [Hfj Hlt]]].
    exists j. split; [lia|]. split; assumption.
Qed.

(** Pigeonhole: the candidates are pairwise different, so the first
    [n + 1] of them cannot all be among [n] taken slugs. *)
Lemma free_candidate_exists col reserved base :
  exists j, (j <= List.length reserved + List.length col)%nat /\
            slug_taken col reserved (candidate base j) = false /\
            forall i, (i < j)%nat ->
                      slug_taken col reserved (candidate base i) = true.
Proof.
  set (n := (List.length reserved + List.length col)%nat).
  set (f := fun j => slug_taken col reserved (candidate base j)).
  assert (Hex : exists j, (j <= n)%nat /\ f j = false).
  { destruct (forallb f (seq 0 (S n))) eqn:E.
    - exfalso. rewrite forallb_forall in E.
      assert (Hincl : incl (map (candidate base) (seq 0 (S n)))
                           (reserved ++ stored_slugs col)).
      { intros s Hs. apply in_map_iff in Hs. destruct Hs as [j [<- Hj]].
        apply taken_In. now apply E. }
      assert (Hnd : NoDup (map (candidate base) (seq 0 (S n)))).
      { apply Injective_map_NoDup; [|apply seq_NoDup].
        intros i j. apply candidate_inj. }
      pose proof (NoDup_incl_length Hnd Hincl) as Hlen.
      rewrite length_map, length_seq, length_app in Hlen.
      pose proof (stored_slugs_length col). unfold n in *. lia.
    - destruct (forallb_false_below f (S n) E) as [i [Hi Hf]].
      exists i. split; [lia|assumption]. }
  destruct Hex as [j [Hj Hfree]].
  destruct (least_false f j Hfree) as [k [Hk [Hfk Hlt]]].
  exists k. split; [lia|]. split; assumption.
Qed.

Lemma generate_unique_slug_first_free U name col reserved :
  exists k,
    _generate_unique_slug U name col (Some reserved)
      = Some (candidate (_generate_slug U name) k) /\
    slug_taken col reserved (candidate (_generate_slug U name) k) = false /\
    forall i, (i < k)%nat ->
      slug_taken col reserved (candidate (_generate_slug U name) i) = true.
Proof.
  destruct (free_candidate_exists col reserved (_generate_slug U name))
    as [j [Hj [Hfree Hbefore]]].
  exists j. split; [|split; assumption].
  unfold _generate_unique_slug.
  change (_generate_slug U name) with (candidate (_generate_slug U name) 0) at 2.
  apply probe_slug_first_free; simpl; [lia|assumption|].
  intros i Hi. apply Hbefore. lia.
Qed.

(** ** What [strip] and [sub_runs] return *)

Section RunFacts.
Import Text.
Variable p : N -> bool.

Lemma Forall_lstrip (P : N -> Prop) s : Forall P s -> Forall P (lstrip p s).
Proof.
  induction 1 as [|c s Hc Hs IH]; simpl; [constructor|].
  destruct (p c); [assumption|now constructor].
Qed.

Lemma Forall_rstrip (P : N -> Prop) s : Forall P s -> Forall P (rstrip p s).
Proof.
  induction 1 as [|c s Hc Hs IH]; simpl; [constructor|].
  destruct (rstrip p s) as [|y r].
  - destruct (p c); [constructor|now constructor].
  - now constructor.
Qed.

Lemma Forall_strip (P : N -> Prop) s : Forall P s -> Forall P (strip p s).
Proof. intros H. unfold strip. now apply Forall_lstrip, Forall_rstrip. Qed.

Lemma Forall_sub_runs (P : N -> Prop) s :
  P hyphen ->
  Forall (fun c => p c = false -> P c) s ->
  forall b, Forall P (sub_runs p b s).
Proof.
  intros Hh. induction 1 as [|c s Hc Hs IH]; intros b; simpl; [constructor|].
  destruct (p c) eqn:E.
  - destruct b; [apply IH|constructor; [exact Hh|apply IH]].
  - constructor; [now apply Hc|apply IH].
Qed.

(** A list without characters of the class is left alone. *)
Lemma sub_runs_none s b :
  Forall (fun c => p c = false) s -> sub_runs p b s = s.
Proof.
  intros H. revert b. induction H as [|c s Hc Hs IH]; intros b; simpl;
    [reflexivity|].
  rewrite Hc. now rewrite IH.
Qed.

Lemma lstrip_all s : Forall (fun c => p c = true) s -> lstrip p s = [].
Proof. induction 1 as [|c s Hc Hs IH]; simpl; [reflexivity|now rewrite Hc]. Qed.

Lemma rstrip_all s : Forall (fun c => p c = true) s -> rstrip p s = [].
Proof.
  induction 1 as [|c s Hc Hs IH]; simpl; [reflexivity|].
  now rewrite IH, Hc.
Qed.

Lemma strip_all s : Forall (fun c => p c = true) s -> strip p s = [].
Proof. intros H. unfold strip. now rewrite rstrip_all. Qed.

Lemma In_lstrip c s : In c s -> p c = false -> In c (lstrip p s).
Proof.
  intros Hin Hc. induction s as [|x s IH]; simpl; [contradiction|].
  destruct (p x) eqn:E.
  - destruct Hin as [->|Hin]; [congruence|auto].
  - exact Hin.
Qed.

Lemma In_rstrip c s : In c s -> p c = false -> In c (rstrip p s).
Proof.
  intros Hin Hc. induction s as [|x s IH]; simpl; [contradiction|].
  destruct Hin as [->|Hin].
  - destruct (rstrip p s); [rewrite Hc|]; simpl; auto.
  - specialize (IH Hin). destruct (rstrip p s); [contradiction|].
    now right.
Qed.

Lemma In_sub_runs c s b : In c s -> p c = false -> In c (sub_runs p b s).
Proof.
  intros Hin Hc. revert b. induction s as [|x s IH]; intros b; simpl;
    [contradiction|].
  destruct Hin as [->|Hin].
  - rewrite Hc. now left.
  - destruct (p x); [destruct b|]; simpl; auto.
Qed.

(** What [lstrip] returns does not start in the class, and what [rstrip]
    returns does not end in it. *)
Lemma lstrip_head s c t : lstrip p s = c :: t -> p c = false.
Proof.
  induction s as [|x s IH]; simpl; [discriminate|].
  destruct (p x) eqn:E; [exact IH|]. now intros [= <- _].
Qed.

Lemma rstrip_last s t c : rstrip p s = t ++ [c] -> p c = false.
Proof.
  revert t. induction s as [|x s IH]; intros t; simpl.
  - now destruct t.
  - destruct (rstrip p s) as [|y r] eqn:E.
    + destruct (p x) eqn:Ex; [now destruct t|].
      destruct t as [|? [|? ?]]; try discriminate. now intros [= <-].
    + destruct t as [|z t]; [discriminate|].
      intros [= _ H]. now apply (IH t).
Qed.

Lemma lstrip_suffix s : exists pre, s = pre ++ lstrip p s.
Proof.
  induction s as [|x s [pre IH]]; simpl; [now exists []|].
  destruct (p x); [|now exists []].
  exists (x :: pre). simpl. now f_equal.
Qed.

Lemma rstrip_prefix s : exists post, s = rstrip p s ++ post.
Proof.
  induction s as [|x s [post IH]]; simpl; [now exists []|].
  destruct (rstrip p s) as [|y r].
  - destruct (p x).
    + exists (x :: s). reflexivity.
    + exists post. simpl in *. now f_equal.
  - exists post. simpl in *. now f_equal.
Qed.

Lemma strip_head s c t : strip p s = c :: t -> p c = false.
Proof. unfold strip. apply lstrip_head. Qed.

Lemma strip_last s t c : strip p s = t ++ [c] -> p c = false.
Proof.
  unfold strip. intros E.
  destruct (lstrip_suffix (rstrip p s)) as [pre Hpre].
  rewrite E in Hpre. apply (rstrip_last s (pre ++ t)).
  now rewrite <- app_assoc.
Qed.

(** What is stripped is a segment of the list. *)
Lemma strip_segment s : exists pre post, s = pre ++ strip p s ++ post.
Proof.
  destruct (rstrip_prefix s) as [post Hpost].
  destruct (lstrip_suffix (rstrip p s)) as [pre Hpre].
  exists pre, post. unfold strip. rewrite app_assoc, <- Hpre. exact Hpost.
Qed.

(** A list that neither starts nor ends in the class is left alone. *)
Lemma lstrip_keep s : (forall c t, s = c :: t -> p c = false) -> lstrip p s = s.
Proof.
  destruct s as [|x s]; [reflexivity|]. intros H. simpl.
  now rewrite (H x s eq_refl).
Qed.

Lemma rstrip_keep_last s :
  (forall t c, s = t ++ [c] -> p c = false) -> rstrip p s = s.
Proof.
  destruct s as [|x s] using rev_ind; [reflexivity|]. intros H.
  apply rstrip_keep. exact (H s x eq_refl).
Qed.

End RunFacts.

(** ** Words and joins *)

Section Words.
Variable p : N -> bool.

Lemma split_Forall (P : N -> Prop) s :
  Forall P s -> Forall (Forall P) (Text.split p s).
Proof.
  induction 1 as [|c t Hc Ht IH]; simpl; [constructor|].
  destruct (p c); [exact IH|].
  destruct t as [|d t']; [repeat constructor; assumption|].
  destruct (p d); [constructor; [now repeat constructor|exact IH]|].
  destruct (Text.split p (d :: t')) as [|w ws];
    [now repeat constructor|].
  inversion IH; subst. constructor; [now constructor|assumption].
Qed.

Lemma split_no_space s :
  Forall (Forall (fun c => p c = false)) (Text.split p s).
Proof.
  induction s as [|c t IH]; simpl; [constructor|].
  destruct (p c) eqn:Hc; [exact IH|].
  destruct t as [|d t']; [now repeat constructor|].
  destruct (p d) eqn:Hd;
    [constructor; [now repeat constructor|exact IH]|].
  destruct (Text.split p (d :: t')) as [|w ws];
    [now repeat constructor|].
  inversion IH; subst. constructor; [now constructor|assumption].
Qed.

Lemma split_words s : Forall (fun w => w <> []) (Text.split p s).
Proof.
  induction s as [|c t IH]; simpl; [constructor|].
  destruct (p c); [exact IH|].
  destruct t as [|d t']; [now repeat constructor|].
  destruct (p d); [constructor; [discriminate|exact IH]|].
  destruct (Text.split p (d :: t')) as [|w ws];
    [now repeat constructor|].
  inversion IH; subst. constructor; [discriminate|assumption].
Qed.

Lemma split_head c t :
  p c = false -> Text.split p (c :: t) <> [].
Proof.
  intros Hc. simpl. rewrite Hc. destruct t as [|d t']; [discriminate|].
  destruct (p d); [discriminate|].
  destruct (Text.split p (d :: t')); discriminate.
Qed.

(** A non-empty list without whitespace is one word. *)
Lemma split_one s :
  s <> [] -> Forall (fun c => p c = false) s ->
  Text.split p s = [s].
Proof.
  intros Hne H. induction H as [|c t Hc Ht IH]; [contradiction|].
  cbn [Text.split]. cbv beta in Hc. rewrite Hc.
  destruct t as [|d t']; [reflexivity|].
  pose proof (Forall_inv Ht) as Hd. cbv beta in Hd. rewrite Hd.
  rewrite IH by discriminate. reflexivity.
Qed.

(** Splitting at a whitespace character. *)
Lemma split_app a c b :
  p c = true ->
  Text.split p (a ++ c :: b) = Text.split p a ++ Text.split p b.
Proof.
  intros Hc. induction a as [|x a IH].
  - simpl. now rewrite Hc.
  - change ((x :: a) ++ c :: b) with (x :: (a ++ c :: b)).
    cbn [Text.split]. destruct (p x); [exact IH|].
    destruct a as [|d a'].
    + simpl. now rewrite Hc.
    + change ((d :: a') ++ c :: b) with (d :: (a' ++ c :: b)) in *.
      cbv iota beta.
      destruct (p d) eqn:Hd.
      * now rewrite IH.
      * rewrite IH.
        pose proof (split_head d a' Hd) as Hne.
        destruct (Text.split p (d :: a')) as [|w ws];
          [contradiction|reflexivity].
Qed.

(** There is no word exactly when every character is a separator. *)
Lemma split_nil s :
  Text.split p s = [] <-> Forall (fun c => p c = true) s.
Proof.
  induction s as [|c t IH]; [split; [constructor|reflexivity]|].
  split.
  - intros E. destruct (p c) eqn:Hc.
    + constructor; [exact Hc|]. apply IH. simpl in E. now rewrite Hc in E.
    + exfalso. exact (split_head c t Hc E).
  - intros H. inversion H as [|? ? Hc Ht]; subst. simpl. rewrite Hc.
    now apply IH.
Qed.

Lemma join_Forall (P : N -> Prop) sep ws :
  Forall P sep -> Forall (Forall P) ws -> Forall P (Text.join sep ws).
Proof.
  intros Hsep. induction 1 as [|w rest Hw Hrest IH]; simpl; [constructor|].
  destruct rest as [|w' rest']; [assumption|].
  apply Forall_app. split; [assumption|].
  apply Forall_app. split; assumption.
Qed.

Lemma join_app sep x y :
  x <> [] -> y <> [] -> Text.join sep (x ++ y) = Text.join sep x ++ sep ++ Text.join sep y.
Proof.
  intros Hx Hy. induction x as [|w x IH]; [contradiction|].
  destruct x as [|w' x'].
  - simpl. destruct y; [contradiction|reflexivity].
  - change (Text.join sep ((w :: w' :: x') ++ y))
      with (w ++ sep ++ Text.join sep ((w' :: x') ++ y)).
    rewrite IH by discriminate.
    change (Text.join sep (w :: w' :: x')) with (w ++ sep ++ Text.join sep (w' :: x')).
    now rewrite <- !app_assoc.
Qed.

Lemma join_nil sep ws :
  Forall (fun w => w <> []) ws -> Text.join sep ws = [] -> ws = [].
Proof.
  intros H E. destruct H as [|w rest Hw Hrest]; [reflexivity|].
  simpl in E. destruct rest.
  - contradiction.
  - destruct w; [contradiction|discriminate].
Qed.

End Words.

(** ** The last path segment *)

Lemma contains_rsplit_last c s : contains c (rsplit_last c s) = false.
Proof.
  induction s as [|x t IH]; simpl; [reflexivity|].
  destruct (contains c t) eqn:Ht; [exact IH|].
  destruct (Ascii.eqb x c) eqn:Hx; [exact Ht|].
  simpl. now rewrite Hx, Ht.
Qed.

Lemma rsplit_last_suffix c s : exists pre, s = pre +++ rsplit_last c s.
Proof.
  induction s as [|x t [pre IH]]; simpl; [now exists ""|].
  destruct (contains c t).
  - exists (String x pre). simpl. now f_equal.
  - destruct (Ascii.eqb x c).
    + exists (String x ""). reflexivity.
    + exists "". reflexivity.
Qed.

Lemma contains_app c a b :
  contains c (a +++ b) = (contains c a || contains c b)%bool.
Proof.
  induction a as [|x a IH]; simpl; [reflexivity|].
  now rewrite IH, orb_assoc.
Qed.

Lemma rsplit_last_segment c dir id :
  contains c id = false -> rsplit_last c (dir +++ String c id) = id.
Proof.
  intros Hid. induction dir as [|x d IH]; simpl.
  - now rewrite Hid, Ascii.eqb_refl.
  - rewrite contains_app. simpl. rewrite Ascii.eqb_refl.
    rewrite orb_true_r. exact IH.
Qed.
(** ** The shape of a slug *)

Section Adjacent.
Import Text.
Variable p : N -> bool.

Lemma no_adjacent_app_r a b : no_adjacent p (a ++ b) = true -> no_adjacent p b = true.
Proof.
  induction a as [|x a IH]; simpl; [auto|].
  intros H. apply andb_prop in H. tauto.
Qed.

Lemma no_adjacent_app_l a b : no_adjacent p (a ++ b) = true -> no_adjacent p a = true.
Proof.
  induction a as [|x a IH]; simpl; [reflexivity|].
  intros H. apply andb_prop in H. destruct H as [H1 H2].
  rewrite (IH H2), andb_true_r.
  destruct a as [|y a]; simpl in *.
  - now rewrite andb_false_r.
  - exact H1.
Qed.

Lemma no_adjacent_pair pre x y post :
  no_adjacent p (pre ++ x :: y :: post) = true ->
  p x = true -> p y = true -> False.
Proof.
  intros H Hx Hy. apply no_adjacent_app_r in H. simpl in H.
  rewrite Hx, Hy in H. discriminate.
Qed.

Lemma sub_runs_no_adjacent s :
  p hyphen = true ->
  forall b,
    no_adjacent p (sub_runs p b s) = true /\
    (b = true -> forall d t, sub_runs p b s = d :: t -> p d = false).
Proof.
  intros Hh. induction s as [|c s IH]; intros b; simpl.
  - split; [reflexivity|discriminate].
  - destruct (p c) eqn:Hc.
    + destruct b.
      * apply IH.
      * destruct (IH true) as [H1 H2]. split; [|discriminate].
        simpl. rewrite H1, andb_true_r, Hh. simpl.
        destruct (sub_runs p true s) as [|d t] eqn:E; [reflexivity|].
        now rewrite (H2 eq_refl d t eq_refl).
    + destruct (IH false) as [H1 _]. split.
      * simpl. now rewrite Hc, H1.
      * now intros _ d t [= <- _].
Qed.

(** A list whose members of the class are single hyphens is left alone. *)
Lemma sub_runs_fix s :
  Forall (fun c => p c = true -> c = hyphen) s ->
  no_adjacent p s = true ->
  forall b, (b = true -> forall d t, s = d :: t -> p d = false) ->
            sub_runs p b s = s.
Proof.
  induction 1 as [|c s Hc Hs IH]; intros Hna b Hb; simpl; [reflexivity|].
  simpl in Hna. apply andb_prop in Hna. destruct Hna as [Hn1 Hn2].
  destruct (p c) eqn:E.
  - destruct b; [now rewrite (Hb eq_refl c s eq_refl) in E|].
    rewrite (Hc eq_refl). f_equal. apply IH; [assumption|].
    intros _ d t ->. simpl in Hn1. now destruct (p d).
  - f_equal. apply IH; [assumption|discriminate].
Qed.

End Adjacent.

Lemma filter_all {A} (f : A -> bool) l :
  Forall (fun x => f x = true) l -> filter f l = l.
Proof.
  induction 1 as [|x l Hx Hl IH]; simpl; [reflexivity|].
  now rewrite Hx, IH.
Qed.

Lemma is_hyphen_eq c : Text.is_hyphen c = true -> c = Text.hyphen.
Proof. apply N.eqb_eq. Qed.

(** Among the characters the filter keeps, those that are neither
    whitespace nor hyphens are word characters. *)
Lemma kept_word U c :
  Text.slug_keep U c = true -> Text.is_space c = false ->
  Text.is_hyphen c = false -> Text.is_word U c = true.
Proof.
  unfold Text.slug_keep. intros H Hs Hh. rewrite Hs, Hh in H.
  now rewrite !orb_false_r in H.
Qed.

(** After the steps every character is a hyphen or one the steps left in
    place, which is no whitespace. *)
Lemma slug_steps_chars (P : N -> Prop) l :
  Forall (fun c => Text.is_space c = false -> Text.is_hyphen c = false -> P c)
         l ->
  Forall (fun c => c = Text.hyphen \/ (P c /\ Text.is_space c = false))
         (slug_steps l).
Proof.
  intros Hl. unfold slug_steps.
  apply Forall_strip.
  apply Forall_sub_runs; [now left|].
  apply Forall_forall. intros c Hc Hh. revert c Hc Hh.
  apply (Forall_forall
           (fun c => Text.is_hyphen c = false ->
                     c = Text.hyphen \/ (P c /\ Text.is_space c = false))).
  apply Forall_sub_runs; [discriminate|].
  apply Forall_forall. intros c Hc Hsp Hh. right.
  rewrite Forall_forall in Hl. split; [now apply Hl|exact Hsp].
Qed.

Lemma slug_steps_no_adjacent l :
  no_adjacent Text.is_hyphen (slug_steps l) = true.
Proof.
  unfold slug_steps.
  match goal with |- context [Text.strip _ ?c] =>
    destruct (strip_segment Text.is_hyphen c) as [pre [post E]];
    destruct (sub_runs_no_adjacent Text.is_hyphen
                (Text.sub_runs Text.is_space false l) eq_refl false)
      as [H _]
  end.
  rewrite E in H. apply no_adjacent_app_r in H.
  now apply no_adjacent_app_l in H.
Qed.

(** ** The slug as its words joined by hyphens *)

(** The two substitutions together put one hyphen for every run of
    whitespace and hyphens. *)
Lemma sub_runs_twice s :
  forall a b, (a = true -> b = true) ->
    Text.sub_runs Text.is_hyphen b (Text.sub_runs Text.is_space a s)
    = Text.sub_runs slug_sep b s.
Proof.
  induction s as [|c s IH]; intros a b Hab; [reflexivity|].
  cbn [Text.sub_runs]. unfold slug_sep at 1.
  destruct (Text.is_space c) eqn:Hs; cbn [orb].
  - destruct a.
    + rewrite (Hab eq_refl). now apply IH.
    + cbn [Text.sub_runs]. rewrite hyphen_is_hyphen.
      destruct b; now rewrite IH.
  - cbn [Text.sub_runs].
    destruct (Text.is_hyphen c) eqn:Hh.
    + destruct b; now rewrite IH.
    + now rewrite IH.
Qed.

Lemma sep_hyphen c : slug_sep c = false -> Text.is_hyphen c = false.
Proof. unfold slug_sep. intros H. now apply orb_false_iff in H. Qed.

Lemma join_cons_word c w ws :
  Text.join [Text.hyphen] ((c :: w) :: ws)
  = c :: Text.join [Text.hyphen] (w :: ws).
Proof. destruct ws; reflexivity. Qed.

(** Up to a hyphen in front, what the substitutions return is the words
    joined by hyphens, with a hyphen behind when a separator ends the
    list. *)
Lemma rstrip_sub_runs s :
  Text.rstrip Text.is_hyphen (Text.sub_runs slug_sep true s)
  = Text.join [Text.hyphen] (Text.split slug_sep s) /\
  Text.rstrip Text.is_hyphen (Text.sub_runs slug_sep false s)
  = match Text.split slug_sep s with
    | [] => []
    | ws =>
        match s with
        | c :: _ => if slug_sep c then [Text.hyphen] else []
        | [] => []
        end ++ Text.join [Text.hyphen] ws
    end.
Proof.
  induction s as [|c t [IHa IHb]]; [split; reflexivity|].
  assert (Hword :
    slug_sep c = false ->
    Text.rstrip Text.is_hyphen (c :: Text.sub_runs slug_sep false t)
    = Text.join [Text.hyphen] (Text.split slug_sep (c :: t))).
  { intros Hc. pose proof (sep_hyphen c Hc) as Hh.
    cbn [Text.rstrip Text.split]. rewrite IHb, Hc.
    destruct t as [|d t'].
    - simpl. now rewrite Hh.
    - destruct (slug_sep d) eqn:Hd.
      + destruct (Text.split slug_sep (d :: t')) as [|w ws] eqn:E.
        * simpl. now rewrite Hh.
        * reflexivity.
      + pose proof (split_head slug_sep d t' Hd) as Hne.
        pose proof (split_words slug_sep (d :: t')) as Hw.
        destruct (Text.split slug_sep (d :: t')) as [|w ws] eqn:E;
          [contradiction|].
        rewrite app_nil_l, join_cons_word.
        destruct (Text.join [Text.hyphen] (w :: ws)) as [|x r] eqn:Ej;
          [|reflexivity].
        apply join_nil in Ej; [discriminate|exact Hw]. }
  split.
  - cbn [Text.sub_runs]. destruct (slug_sep c) eqn:Hc.
    + rewrite IHa. cbn [Text.split]. now rewrite Hc.
    + now apply Hword.
  - cbn [Text.sub_runs]. destruct (slug_sep c) eqn:Hc.
    + cbn [Text.rstrip]. rewrite IHa. cbn [Text.split]. rewrite Hc.
      destruct (Text.split slug_sep t) as [|w ws] eqn:E; [reflexivity|].
      pose proof (split_words slug_sep t) as Hw. rewrite E in Hw.
      destruct (Text.join [Text.hyphen] (w :: ws)) as [|x r] eqn:Ej;
        [|reflexivity].
      apply join_nil in Ej; [discriminate|exact Hw].
    + rewrite (Hword eq_refl).
      pose proof (split_head slug_sep c t Hc) as Hne.
      destruct (Text.split slug_sep (c :: t)); [contradiction|reflexivity].
Qed.

(** A join of words does not start with a hyphen. *)
Lemma join_head ws c r :
  Forall (fun w => w <> []) ws ->
  Forall (Forall (fun c => slug_sep c = false)) ws ->
  Text.join [Text.hyphen] ws = c :: r -> Text.is_hyphen c = false.
Proof.
  intros Hne Hw E. destruct ws as [|w ws]; [discriminate|].
  inversion Hne as [|? ? Hw0 _]; subst. inversion Hw as [|? ? Hc0 _]; subst.
  destruct w as [|x w]; [contradiction|].
  rewrite join_cons_word in E. injection E as <- _.
  apply sep_hyphen. now inversion Hc0.
Qed.

(** The three steps after the filter return the words joined by single
    hyphens. *)
Lemma slug_steps_words s :
  slug_steps s = Text.join [Text.hyphen] (Text.split slug_sep s).
Proof.
  unfold slug_steps. rewrite sub_runs_twice by discriminate.
  unfold Text.strip. rewrite (proj2 (rstrip_sub_runs s)).
  pose proof (split_words slug_sep s) as Hne.
  pose proof (split_no_space slug_sep s) as Hw.
  destruct (Text.split slug_sep s) as [|w ws] eqn:E; [reflexivity|].
  destruct (Text.join [Text.hyphen] (w :: ws)) as [|x r] eqn:Ej.
  { apply join_nil in Ej; [discriminate|exact Hne]. }
  pose proof (join_head _ _ _ Hne Hw Ej) as Hx.
  destruct s as [|c t]; [discriminate|].
  destruct (slug_sep c); simpl; now rewrite Hx.
Qed.

(** [_generate_slug] in terms of [slug_steps]. *)
Lemma generate_slug_steps U name :
  _generate_slug U name
  = Text.encode
      (slug_steps (filter (Text.slug_keep U) (Text.lower U (Text.decode name)))).
Proof.
  unfold _generate_slug. destruct name as [|c name]; [reflexivity|].
  cbn [Text.truthy negb]. cbv zeta. fold (slug_steps
    (filter (Text.slug_keep U)
       (Text.strip Text.is_space (Text.lower U (Text.decode (String c name)))))).
  now rewrite slug_steps_strip.
Qed.

Lemma generate_slug_words U name :
  _generate_slug U name = Text.encode (Text.join [Text.hyphen] (slug_words U name)).
Proof. rewrite generate_slug_steps. unfold slug_words. now rewrite slug_steps_words. Qed.

(** Every word of a slug is not empty and is made of word characters that
    are neither whitespace nor hyphens. *)
Lemma slug_words_spec U name :
  Forall (fun w => w <> [] /\
                   Forall (fun c => Text.is_word U c = true /\
                                    slug_sep c = false) w)
         (slug_words U name).
Proof.
  unfold slug_words.
  set (l := filter (Text.slug_keep U) (Text.lower U (Text.decode name))).
  assert (Hk : Forall (fun c => Text.slug_keep U c = true) l).
  { apply Forall_forall. intros c Hc. now apply filter_In in Hc. }
  pose proof (split_Forall slug_sep _ l Hk) as H1.
  pose proof (split_no_space slug_sep l) as H2.
  pose proof (split_words slug_sep l) as H3.
  induction (Text.split slug_sep l) as [|w ws IH]; [constructor|].
  inversion H1 as [|? ? Hw1 Hws1]; inversion H2 as [|? ? Hw2 Hws2];
    inversion H3 as [|? ? Hw3 Hws3]; subst.
  constructor; [|now apply IH]. split; [exact Hw3|].
  rewrite Forall_forall in *. intros c Hc. split; [|now apply Hw2].
  specialize (Hw2 c Hc). unfold slug_sep in Hw2.
  apply orb_false_iff in Hw2. destruct Hw2 as [Hs Hh].
  apply kept_word; auto.
Qed.

(** The shape of the joined words: word characters and single hyphens,
    none of them in front or behind. *)
Lemma slug_words_shape U name :
  let cs := Text.join [Text.hyphen] (slug_words U name) in
  Forall (fun c => c = Text.hyphen \/
                   (Text.is_word U c = true /\ Text.is_space c = false)) cs /\
  (forall pre post, cs <> pre ++ Text.hyphen :: Text.hyphen :: post) /\
  (forall t, cs <> Text.hyphen :: t) /\
  (forall t, cs <> t ++ [Text.hyphen]).
Proof.
  intros cs. subst cs. unfold slug_words. rewrite <- slug_steps_words.
  set (l := filter (Text.slug_keep U) (Text.lower U (Text.decode name))).
  split; [|split; [|split]].
  - apply slug_steps_chars. apply Forall_forall. intros c Hc Hs Hh.
    apply filter_In in Hc. now apply kept_word.
  - intros pre post E. pose proof (slug_steps_no_adjacent l) as H.
    rewrite E in H.
    exact (no_adjacent_pair Text.is_hyphen pre _ _ post H eq_refl eq_refl).
  - intros t E. unfold slug_steps in E. now apply strip_head in E.
  - intros t E. unfold slug_steps in E. now apply strip_last in E.
Qed.

(** ** Reasoning about store computations *)

Lemma run_ok_ret {A} (a : A) s (Q : A -> Store -> Prop) :
  Q a s -> run_ok (ret a) s Q.
Proof. intros H. exists a, s. split; [reflexivity|assumption]. Qed.

Lemma run_ok_bind {A B} (m : M A) (k : A -> M B) s (Q : B -> Store -> Prop) :
  run_ok m s (fun a s' => run_ok (k a) s' Q) -> run_ok (bind m k) s Q.
Proof.
  intros [a [s' [Hm [b [s'' [Hk HQ]]]]]]. exists b, s''.
  split; [|assumption]. unfold bind. now rewrite Hm.
Qed.

Lemma run_ok_mono {A} (m : M A) s (Q Q' : A -> Store -> Prop) :
  run_ok m s Q -> (forall a s', Q a s' -> Q' a s') -> run_ok m s Q'.
Proof. intros [a [s' [Hm HQ]]] H. exists a, s'. auto. Qed.

Lemma run_ok_and {A} (m : M A) s (Q Q' : A -> Store -> Prop) :
  run_ok m s Q -> run_ok m s Q' -> run_ok m s (fun a s' => Q a s' /\ Q' a s').
Proof.
  intros [a [s' [Hm HQ]]] [a' [s'' [Hm' HQ']]].
  rewrite Hm in Hm'. injection Hm' as <- <-. exists a, s'. auto.
Qed.

Lemma run_ok_get s (Q : Store -> Store -> Prop) : Q s s -> run_ok get s Q.
Proof. intros H. exists s, s. split; [reflexivity|assumption]. Qed.

Lemma run_ok_find_document {D} (c : Collection D) f s
    (Q : option D -> Store -> Prop) :
  Q (find f (col_get c s)) s -> run_ok (find_document c f) s Q.
Proof. intros H. eexists _, _. split; [reflexivity|exact H]. Qed.

Lemma run_ok_find_documents {D} (c : Collection D) f s
    (Q : list D -> Store -> Prop) :
  Q (filter f (col_get c s)) s -> run_ok (find_documents c f) s Q.
Proof. intros H. eexists _, _. split; [reflexivity|exact H]. Qed.

Lemma run_ok_count_documents {D} (c : Collection D) s
    (Q : Z -> Store -> Prop) :
  Q (Z.of_nat (List.length (col_get c s))) s -> run_ok (count_documents c) s Q.
Proof. intros H. eexists _, _. split; [reflexivity|exact H]. Qed.

Lemma upsert_document_new_eq {D} (c : Collection D) f upd fresh s :
  upsert_document_new c f upd fresh s = Ok tt (upserted c f upd fresh s).
Proof.
  unfold upsert_document_new, upserted.
  now destruct (existsb f (col_get c s)).
Qed.

Lemma run_ok_upsert {D} (c : Collection D) f upd fresh s
    (Q : unit -> Store -> Prop) :
  Q tt (upserted c f upd fresh s) ->
  run_ok (upsert_document_new c f upd fresh) s Q.
Proof.
  intros H. exists tt, (upserted c f upd fresh s).
  split; [apply upsert_document_new_eq|exact H].
Qed.

(** A loop without [break] keeps an invariant of its variables and the
    store that each round keeps. *)
Lemma run_ok_for_each {A S} (body : A -> S -> M S) (I : S -> Store -> Prop) l :
  (forall a st s, In a l -> I st s -> run_ok (body a st) s I) ->
  forall st s, I st s -> run_ok (for_each body l st) s I.
Proof.
  induction l as [|a l IH]; intros Hbody st s HI; simpl.
  - now apply run_ok_ret.
  - apply run_ok_bind.
    apply run_ok_mono with (Q := I); [apply Hbody; simpl; auto|].
    intros st' s' HI'. apply IH; [|assumption].
    intros a' st'' s'' Hin. apply Hbody. simpl. auto.
Qed.

Lemma for_each_app {A S} (body : A -> S -> M S) l1 l2 st s :
  for_each body (l1 ++ l2) st s
  = bind (for_each body l1 st) (for_each body l2) s.
Proof.
  revert st s. induction l1 as [|a l1 IH]; intros st s; simpl.
  - reflexivity.
  - unfold bind. destruct (body a st s) as [st' s'|e]; [|reflexivity].
    rewrite IH. reflexivity.
Qed.

(** ** The store relations *)

Lemma prefix_refl {A} (l : list A) : prefix l l.
Proof. exists []. now rewrite app_nil_r. Qed.

Lemma prefix_trans {A} (l1 l2 l3 : list A) :
  prefix l1 l2 -> prefix l2 l3 -> prefix l1 l3.
Proof. intros [t ->] [u ->]. exists (t ++ u). now rewrite app_assoc. Qed.

Lemma prefix_app {A} (l t : list A) : prefix l (l ++ t).
Proof. now exists t. Qed.

Lemma prefix_find {A} (f : A -> bool) l l' d :
  prefix l l' -> find f l = Some d -> find f l' = Some d.
Proof.
  intros [t ->] H. induction l as [|x l IH]; simpl in *; [discriminate|].
  destruct (f x); [assumption|auto].
Qed.

Lemma steady_refl s : steady s s.
Proof. repeat split; apply prefix_refl. Qed.

Lemma steady_trans s1 s2 s3 : steady s1 s2 -> steady s2 s3 -> steady s1 s3.
Proof.
  intros [R1 [C1 I1]] [R2 [C2 I2]]. repeat split.
  - congruence.
  - eapply prefix_trans; eassumption.
  - eapply prefix_trans; eassumption.
Qed.

(** Sequencing two computations that each keep a transitive relation. *)
Lemma run_ok_bind_rel {A B} (R : Store -> Store -> Prop)
    (m : M A) (k : A -> M B) s :
  (forall s1 s2 s3, R s1 s2 -> R s2 s3 -> R s1 s3) ->
  run_ok m s (fun _ s' => R s s') ->
  (forall a s', run_ok (k a) s' (fun _ s'' => R s' s'')) ->
  run_ok (bind m k) s (fun _ s'' => R s s'').
Proof.
  intros Ht Hm Hk. apply run_ok_bind.
  eapply run_ok_mono; [exact Hm|]. intros a s' HR. simpl in HR.
  eapply run_ok_mono; [apply Hk|]. intros b s'' HR'. simpl in HR'.
  eapply Ht; eassumption.
Qed.

Lemma run_ok_for_each_rel {A S} (R : Store -> Store -> Prop)
    (body : A -> S -> M S) l :
  (forall s, R s s) ->
  (forall s1 s2 s3, R s1 s2 -> R s2 s3 -> R s1 s3) ->
  (forall a st s, run_ok (body a st) s (fun _ s' => R s s')) ->
  forall st s, run_ok (for_each body l st) s (fun _ s' => R s s').
Proof.
  intros Hr Ht Hbody. induction l as [|a l IH]; intros st s; simpl.
  - apply run_ok_ret. apply Hr.
  - apply run_ok_bind_rel; [assumption|apply Hbody|]. intros. apply IH.
Qed.

Lemma find_update_first {D} (f : D -> bool) upd (l : list D) :
  (forall d, f d = true -> f (upd d) = true) ->
  existsb f l = true ->
  exists d, find f l = Some d /\
            find f (update_first f upd l) = Some (upd d).
Proof.
  intros Hupd. induction l as [|x l IH]; simpl; [discriminate|].
  destruct (f x) eqn:Hx; simpl.
  - intros _. exists x. rewrite (Hupd x Hx). auto.
  - intros H. rewrite Hx. auto.
Qed.

Lemma find_app_fresh {D} (f : D -> bool) (l : list D) d :
  existsb f l = false -> f d = true -> find f (l ++ [d]) = Some d.
Proof.
  intros H Hd. induction l as [|x l IH]; simpl in *.
  - now rewrite Hd.
  - apply orb_false_iff in H. destruct H as [Hx Hl]. rewrite Hx. auto.
Qed.

Lemma existsb_find {D} (f : D -> bool) (l : list D) :
  existsb f l = match find f l with Some _ => true | None => false end.
Proof.
  induction l as [|x l IH]; simpl; [reflexivity|].
  destruct (f x); [reflexivity|exact IH].
Qed.

(** ** Reference resolution returns normally and only appends *)

Ltac run_step :=
  match goal with
  | |- run_ok (bind _ _) _ _ => apply run_ok_bind
  | |- run_ok (ret _) _ _ => apply run_ok_ret
  | |- run_ok (find_document _ _) _ _ => apply run_ok_find_document
  | |- run_ok (find_documents _ _) _ _ => apply run_ok_find_documents
  | |- run_ok (count_documents _) _ _ => apply run_ok_count_documents
  | |- run_ok (upsert_document_new _ _ _ _) _ _ => apply run_ok_upsert
  | |- run_ok get _ _ => apply run_ok_get
  end.

Lemma upserted_countries_frame f upd fresh s :
  let s' := upserted COL_COUNTRIES f upd fresh s in
  researchers s' = researchers s /\ topics s' = topics s /\
  fields s' = fields s /\ institutions s' = institutions s.
Proof.
  unfold upserted. destruct (existsb f (col_get COL_COUNTRIES s));
    simpl; auto.
Qed.

Lemma upserted_institutions_frame f upd fresh s :
  let s' := upserted COL_INSTITUTIONS f upd fresh s in
  researchers s' = researchers s /\ topics s' = topics s /\
  fields s' = fields s /\ countries s' = countries s.
Proof.
  unfold upserted. destruct (existsb f (col_get COL_INSTITUTIONS s));
    simpl; auto.
Qed.

Lemma upserted_fields_frame f upd fresh s :
  let s' := upserted COL_FIELDS f upd fresh s in
  researchers s' = researchers s /\ topics s' = topics s /\
  countries s' = countries s /\ institutions s' = institutions s.
Proof.
  unfold upserted. destruct (existsb f (col_get COL_FIELDS s));
    simpl; auto.
Qed.

Lemma upserted_topics_frame f upd fresh s :
  let s' := upserted COL_TOPICS f upd fresh s in
  researchers s' = researchers s /\ fields s' = fields s /\
  countries s' = countries s /\ institutions s' = institutions s.
Proof.
  unfold upserted. destruct (existsb f (col_get COL_TOPICS s));
    simpl; auto.
Qed.

(** After an upsert whose update keeps the filter true and whose inserted
    document satisfies it, a lookup with the same filter finds a document. *)
Lemma find_after_upsert {D} (f : D -> bool) upd (fresh : ObjectId -> D)
    (l : list D) (n : ObjectId) :
  (forall d, f d = true -> f (upd d) = true) ->
  f (fresh n) = true ->
  exists d,
    find f (if existsb f l then update_first f upd l else l ++ [fresh n])
    = Some d.
Proof.
  intros Hupd Hfresh. destruct (existsb f l) eqn:E.
  - destruct (find_update_first f upd l Hupd E) as [d [_ H]]. eauto.
  - exists (fresh n). now apply find_app_fresh.
Qed.

Lemma fields_upserted f upd fresh s :
  fields (upserted COL_FIELDS f upd fresh s)
  = if existsb f (fields s) then update_first f upd (fields s)
    else fields s ++ [fresh (next_id s)].
Proof. unfold upserted. simpl. now destruct (existsb f (fields s)). Qed.

Lemma institutions_upserted f upd fresh s :
  institutions (upserted COL_INSTITUTIONS f upd fresh s)
  = if existsb f (institutions s) then update_first f upd (institutions s)
    else institutions s ++ [fresh (next_id s)].
Proof. unfold upserted. simpl. now destruct (existsb f (institutions s)). Qed.

Lemma countries_upserted f upd fresh s :
  countries (upserted COL_COUNTRIES f upd fresh s)
  = if existsb f (countries s) then update_first f upd (countries s)
    else countries s ++ [fresh (next_id s)].
Proof. unfold upserted. simpl. now destruct (existsb f (countries s)). Qed.

Lemma topics_upserted f upd fresh s :
  topics (upserted COL_TOPICS f upd fresh s)
  = if existsb f (topics s) then update_first f upd (topics s)
    else topics s ++ [fresh (next_id s)].
Proof. unfold upserted. simpl. now destruct (existsb f (topics s)). Qed.

Lemma update_first_id {D} (f : D -> bool) (l : list D) :
  update_first f (fun d => d) l = l.
Proof.
  induction l as [|x l IH]; simpl; [reflexivity|].
  destruct (f x); [reflexivity|now rewrite IH].
Qed.

(** [upsert_field] touches the fields only. *)
Lemma upsert_field_ok field_name s :
  run_ok (upsert_field field_name) s
    (fun _ s' => researchers s' = researchers s /\ topics s' = topics s /\
                 countries s' = countries s /\
                 institutions s' = institutions s).
Proof.
  unfold upsert_field. repeat run_step.
  match goal with |- context [upserted ?c ?f ?u ?fr s] =>
    pose proof (upserted_fields_frame f u fr s) as Hfr;
    destruct (find_after_upsert f u fr (fields s) (next_id s)) as [d Hd]
  end.
  - intros d Hd. simpl. now rewrite String.eqb_refl.
  - simpl. apply String.eqb_refl.
  - simpl col_get. rewrite fields_upserted, Hd.
    apply run_ok_ret. cbv zeta in Hfr. tauto.
Qed.

(** [upsert_country] appends at most one country and touches nothing else. *)
Lemma upsert_country_ok env code s :
  run_ok (upsert_country env code) s
    (fun _ s' => researchers s' = researchers s /\ topics s' = topics s /\
                 fields s' = fields s /\ institutions s' = institutions s /\
                 prefix (countries s) (countries s')).
Proof.
  unfold upsert_country.
  destruct (negb (Text.truthy code)).
  - run_step. repeat split; auto using prefix_refl.
  - repeat run_step. simpl col_get.
    destruct (find _ (countries s)) eqn:E.
    + run_step. repeat split; auto using prefix_refl.
    + repeat run_step.
      match goal with |- context [upserted ?c ?f ?u ?fr s] =>
        pose proof (upserted_countries_frame f u fr s) as Hfr;
        pose proof (countries_upserted f u fr s) as Hc
      end.
      cbv zeta in Hfr. rewrite update_first_id in Hc.
      destruct Hfr as [? [? [? ?]]]. repeat split; try assumption.
      rewrite Hc. destruct (existsb _ (countries s));
        [apply prefix_refl|apply prefix_app].
Qed.

Lemma refs_grow_refl s : refs_grow s s.
Proof. unfold refs_grow. repeat split; apply prefix_refl. Qed.

Lemma refs_grow_trans s1 s2 s3 :
  refs_grow s1 s2 -> refs_grow s2 s3 -> refs_grow s1 s3.
Proof.
  intros [R1 [T1 [F1 [C1 I1]]]] [R2 [T2 [F2 [C2 I2]]]].
  unfold refs_grow.
  repeat split; try congruence; eapply prefix_trans; eassumption.
Qed.

Lemma refs_grow_steady s s' : refs_grow s s' -> steady s s'.
Proof. unfold refs_grow, steady. tauto. Qed.

Lemma refs_kept_refl s : refs_kept s s.
Proof. unfold refs_kept. auto. Qed.

Lemma refs_kept_trans s1 s2 s3 :
  refs_kept s1 s2 -> refs_kept s2 s3 -> refs_kept s1 s3.
Proof. unfold refs_kept. intuition congruence. Qed.

Lemma refs_kept_steady s s' : refs_kept s s' -> steady s s'.
Proof.
  unfold refs_kept, steady. intros [R [C I]]. rewrite R, C, I.
  repeat split; apply prefix_refl.
Qed.

(** Creating an institution that is not stored yet: the common part of
    both institution loops. *)
Lemma create_institution_ok env inst ror {B} (k : InstitutionDoc -> option string -> M B) s
    (Q : B -> Store -> Prop) :
  (forall d c s', refs_grow s s' -> run_ok (k d c) s' Q) ->
  run_ok
    (country_id <- upsert_country env (ri_country_code inst) ;;
     upsert_document_new COL_INSTITUTIONS
       (fun d => String.eqb (i_ror d) ror)
       (fun d => d)
       (fun i => mkInstitutionDoc i (ri_display_name inst) ror country_id) ;;;
     inserted <- find_document COL_INSTITUTIONS
                   (fun d => String.eqb (i_ror d) ror) ;;
     match inserted with
     | Some d => k d country_id
     | None => raise TypeError
     end) s Q.
Proof.
  intros Hk. run_step.
  eapply run_ok_mono; [apply upsert_country_ok|].
  intros c s1 [R1 [T1 [F1 [I1 C1]]]]. simpl.
  repeat run_step. simpl col_get.
  match goal with |- context [upserted ?c ?f ?u ?fr s1] =>
    pose proof (upserted_institutions_frame f u fr s1) as Hfr;
    pose proof (institutions_upserted f u fr s1) as Hi;
    destruct (find_after_upsert f u fr (institutions s1) (next_id s1))
      as [d Hd]
  end.
  - auto.
  - simpl. apply String.eqb_refl.
  - rewrite Hi, Hd. apply Hk. cbv zeta in Hfr.
    destruct Hfr as [R2 [T2 [F2 C2]]]. unfold refs_grow.
    split; [congruence|]. split; [congruence|]. split; [congruence|].
    split; [now rewrite C2|].
    rewrite Hi, update_first_id, I1.
    destruct (existsb _ (institutions s));
      [apply prefix_refl|apply prefix_app].
Qed.

Lemma affiliation_body_ok env aff st s :
  run_ok (affiliation_body env aff st) s (fun _ s' => refs_grow s s').
Proof.
  unfold affiliation_body.
  destruct (negb (Text.truthy (ror_or_name (ra_institution aff)))).
  { run_step. apply refs_grow_refl. }
  run_step.
  apply run_ok_mono with (Q := fun _ s' => refs_grow s s').
  - destruct (Dict.get _ (al_ror_to_id st)).
    { run_step. apply refs_grow_refl. }
    repeat run_step. simpl col_get.
    destruct (find _ (institutions s)) eqn:E.
    { repeat run_step. apply refs_grow_refl. }
    apply create_institution_ok. intros d c s' H.
    repeat run_step. assumption.
  - intros [[i c] r] s' H. destruct c as [c|]; [|now run_step].
    destruct (_ && _)%bool; now run_step.
Qed.

Lemma last_known_body_ok env inst st s :
  run_ok (last_known_body env inst st) s (fun _ s' => refs_grow s s').
Proof.
  unfold last_known_body.
  destruct (negb (Text.truthy (ror_or_name inst))).
  { run_step. apply refs_grow_refl. }
  run_step.
  destruct (Dict.get _ (ll_ror_to_id st)).
  { repeat run_step. apply refs_grow_refl. }
  repeat run_step. simpl col_get.
  destruct (find _ (institutions s)) eqn:E.
  { repeat run_step. apply refs_grow_refl. }
  apply create_institution_ok. intros d c s' H.
  repeat run_step. assumption.
Qed.

(** ** Topic processing returns normally *)

Lemma dict_get_set_same {V} k (v : V) d : Dict.get k (Dict.set k v d) = Some v.
Proof.
  induction d as [|[k' v'] d IH]; simpl.
  - now rewrite String.eqb_refl.
  - destruct (String.eqb k' k) eqn:E; simpl.
    + now rewrite String.eqb_refl.
    + now rewrite E.
Qed.

Lemma dict_get_set_other {V} k k' (v : V) d :
  k <> k' -> Dict.get k' (Dict.set k v d) = Dict.get k' d.
Proof.
  intros Hne. induction d as [|[k0 v0] d IH]; simpl.
  - destruct (String.eqb_spec k k'); [contradiction|reflexivity].
  - destruct (String.eqb_spec k0 k) as [->|Hk]; simpl.
    + destruct (String.eqb_spec k k'); [contradiction|reflexivity].
    + destruct (String.eqb k0 k'); [reflexivity|exact IH].
Qed.

(** The dictionary comprehension keeps, for every name, the last document
    of the list that carries it. *)
Lemma map_of_get_gen n l :
  forall m,
    Dict.get n
      (fold_left (fun m d => match t_display_name d with
                             | Some k => Dict.set k d m
                             | None => m
                             end) l m)
    = match List.rev (filter (has_display_name n) l) with
      | e :: _ => Some e
      | [] => Dict.get n m
      end.
Proof.
  induction l as [|d l IH]; intros m; simpl; [reflexivity|].
  rewrite IH. unfold has_display_name at 2.
  destruct (t_display_name d) as [k|] eqn:Hk; [|reflexivity].
  destruct (String.eqb_spec k n) as [->|Hne]; simpl.
  - rewrite dict_get_set_same.
    destruct (List.rev (filter (has_display_name n) l)); reflexivity.
  - now rewrite dict_get_set_other.
Qed.

Lemma map_of_get n l :
  Dict.get n (map_of l)
  = match List.rev (filter (has_display_name n) l) with
    | e :: _ => Some e
    | [] => None
    end.
Proof. unfold map_of. now rewrite map_of_get_gen. Qed.

Lemma names_of_In n l :
  In n (names_of l) <-> exists d, In d l /\ t_display_name d = Some n.
Proof.
  unfold names_of. rewrite in_flat_map. split.
  - intros [d [Hd Hn]]. exists d. split; [assumption|].
    destruct (t_display_name d); simpl in Hn; [|contradiction].
    destruct Hn as [->|[]]. reflexivity.
  - intros [d [Hd Hn]]. exists d. split; [assumption|].
    rewrite Hn. simpl. auto.
Qed.

Lemma has_display_name_true n d :
  has_display_name n d = true <-> t_display_name d = Some n.
Proof.
  unfold has_display_name. destruct (t_display_name d) as [m|].
  - rewrite String.eqb_eq. split; congruence.
  - split; discriminate.
Qed.

Lemma map_of_covers l : map_covers (names_of l) (mkTopicLoop (map_of l) [] [] [] []).
Proof.
  intros n Hn. simpl. rewrite map_of_get.
  apply mem_In, names_of_In in Hn. destruct Hn as [d [Hd Hname]].
  assert (Hin : In d (List.rev (filter (has_display_name n) l))).
  { apply in_rev. rewrite rev_involutive. apply filter_In.
    split; [assumption|]. now apply has_display_name_true. }
  destruct (List.rev (filter (has_display_name n) l)); [contradiction|discriminate].
Qed.

Lemma run_ok_insert_many {P D} (c : Collection D) (mk : ObjectId -> P -> D)
    docs s (Q : option (list ObjectId) -> Store -> Prop) :
  docs <> [] ->
  Q (Some (seq (next_id s) (List.length docs))) (inserted_many c mk docs s) ->
  run_ok (insert_many_documents c mk docs) s Q.
Proof.
  intros Hne H. unfold insert_many_documents.
  destruct docs; [contradiction|]. eexists _, _. split; [reflexivity|exact H].
Qed.

Lemma topic_body_ok names topic st s :
  map_covers names st ->
  run_ok (topic_body names topic st) s
    (fun st' s' => map_covers names st' /\ refs_kept s s').
Proof.
  intros Hcov. unfold topic_body. run_step.
  eapply run_ok_mono; [apply upsert_field_ok|].
  intros fid s1 [R1 [T1 [C1 I1]]]. simpl.
  assert (H1 : refs_kept s s1) by (unfold refs_kept; auto).
  destruct (if negb _ then _ else _) as [tags added].
  destruct (Text.mem (rt_display_name topic) names) eqn:Hmem.
  - destruct (Dict.get _ (tl_existing_map st)) as [doc|] eqn:Hget;
      [|now apply Hcov in Hmem].
    destruct (match t_sync_status doc with
              | Some ss => if sync_truthy ss then (ss, true)
                           else (empty_sync, false)
              | None => (empty_sync, false)
              end) as [sync shared].
    repeat run_step. split.
    + intros n Hn. simpl. destruct shared; [|now apply Hcov].
      destruct (String.eqb_spec (rt_display_name topic) n) as [->|Hne].
      * rewrite dict_get_set_same. discriminate.
      * rewrite dict_get_set_other by assumption. now apply Hcov.
    + match goal with |- context [upserted ?c ?f ?u ?fr s1] =>
        pose proof (upserted_topics_frame f u fr s1) as Hfr
      end.
      cbv zeta in Hfr. unfold refs_kept in *. intuition congruence.
  - run_step. split; [exact Hcov|exact H1].
Qed.

Lemma process_researcher_topics_ok topics_ s :
  run_ok (process_researcher_topics topics_) s (fun _ s' => refs_kept s s').
Proof.
  unfold process_researcher_topics. repeat run_step.
  set (existing := filter _ (col_get COL_TOPICS s)).
  eapply run_ok_mono.
  - apply (run_ok_for_each (topic_body (names_of existing))
             (fun st s' => map_covers (names_of existing) st /\ refs_kept s s')).
    + intros a st s1 _ [Hcov Hk].
      eapply run_ok_mono; [apply topic_body_ok; exact Hcov|].
      intros st' s2 [Hcov' Hk']. split; [assumption|].
      eapply refs_kept_trans; eassumption.
    + split; [apply map_of_covers|apply refs_kept_refl].
  - intros st s1 [_ Hk]. simpl.
    destruct (tl_missing_docs st) as [|m ms] eqn:Hm.
    + now run_step.
    + run_step. apply run_ok_insert_many; [discriminate|].
      run_step. unfold refs_kept in *. simpl. tauto.
Qed.

(** ** The count of a stored topic under topic processing *)

Lemma find_of_filter {D} (f : D -> bool) l x r :
  filter f l = x :: r -> find f l = Some x.
Proof.
  induction l as [|y l IH]; simpl; [discriminate|].
  destruct (f y); [now intros [= ->]|exact IH].
Qed.

Lemma update_first_ids f ss l :
  map t_id (update_first f (set_sync_status ss) l) = map t_id l.
Proof.
  induction l as [|x l IH]; simpl; [reflexivity|].
  destruct (f x); simpl; [reflexivity|now rewrite IH].
Qed.

Lemma filter_update_first_other {D} (f g : D -> bool) upd l :
  (forall x, In x l -> f x = true -> g x = false) ->
  (forall x, g (upd x) = g x) ->
  filter g (update_first f upd l) = filter g l.
Proof.
  intros Hfg Hupd. induction l as [|x l IH]; simpl; [reflexivity|].
  destruct (f x) eqn:Hf; simpl.
  - now rewrite Hupd, (Hfg x (or_introl eq_refl) Hf).
  - rewrite IH; [reflexivity|]. intros y Hy. apply Hfg. simpl. auto.
Qed.

Lemma filter_update_first_same g upd id0 d' l :
  NoDup (map t_id l) ->
  filter g l = [d'] ->
  t_id d' = id0 ->
  g (upd d') = true ->
  filter g (update_first (fun x => Nat.eqb (t_id x) id0) upd l) = [upd d'].
Proof.
  intros Hnd Hf Hid Hg. induction l as [|x l IH]; simpl in *; [discriminate|].
  inversion Hnd as [|? ? Hnotin Hnd']; subst.
  destruct (g x) eqn:Hgx.
  - injection Hf as -> Hnil. rewrite Nat.eqb_refl. simpl.
    now rewrite Hg, Hnil.
  - destruct (Nat.eqb_spec (t_id x) (t_id d')) as [E|Hne].
    + exfalso. apply Hnotin. rewrite E. apply in_map.
      assert (Hin : In d' (filter g l)) by (rewrite Hf; simpl; auto).
      apply filter_In in Hin. tauto.
    + simpl. rewrite Hgx. now apply IH.
Qed.

Lemma existsb_In {D} (f : D -> bool) l x :
  In x l -> f x = true -> existsb f l = true.
Proof. intros Hin Hf. apply existsb_exists. eauto. Qed.

Lemma with_ids_missing_filter dn n docs :
  (forall p, In p docs -> fst p <> dn) ->
  filter (has_display_name dn) (with_ids missing_topic n docs) = [].
Proof.
  revert n. induction docs as [|p docs IH]; intros n H; simpl; [reflexivity|].
  unfold has_display_name at 1. simpl.
  destruct (String.eqb_spec (fst p) dn) as [E|_].
  - exfalso. apply (H p); simpl; auto.
  - apply IH. intros q Hq. apply H. simpl. auto.
Qed.

Lemma with_ids_missing_ids n docs :
  map t_id (with_ids missing_topic n docs) = seq n (List.length docs).
Proof.
  revert n. induction docs as [|p docs IH]; intros n; simpl;
    [reflexivity|now rewrite IH].
Qed.

Lemma tracked_in_topics dn d' l :
  filter (has_display_name dn) l = [d'] ->
  In d' l /\ has_display_name dn d' = true.
Proof.
  intros Hf. apply filter_In. rewrite Hf. simpl. auto.
Qed.

(** One round of the topic loop keeps the invariant, and a round on the
    tracked name raises the count by one. *)
Lemma topic_body_tracks dn id0 cur0 c0 names k topic st s :
  (rt_display_name topic = dn -> Text.mem dn names = true) ->
  tracks dn id0 cur0 c0 names k st s ->
  run_ok (topic_body names topic st) s
    (tracks dn id0 cur0 c0 names
       (k + if String.eqb (rt_display_name topic) dn then 1 else 0)).
Proof.
  intros Hm [Hcov [Hnd [[d' [ss' [Hf [Hid [Hss [Htr [Hcur [Hcnt Hmap]]]]]]]]
                        [Hother Hmiss]]]].
  destruct (tracked_in_topics _ _ _ Hf) as [Hin Hname].
  unfold topic_body. run_step.
  eapply run_ok_mono; [apply upsert_field_ok|].
  intros fid s1 [_ [T1 _]]. cbv beta.
  destruct (if negb _ then _ else _) as [tags added].
  destruct (Text.mem (rt_display_name topic) names) eqn:Hmem.
  - destruct (Dict.get (rt_display_name topic) (tl_existing_map st))
      as [doc|] eqn:Hget; [|exfalso; exact (Hcov _ Hmem Hget)].
    destruct (String.eqb_spec (rt_display_name topic) dn) as [E|Hne].
    + (* a mention of the tracked topic *)
      rewrite E in *. rewrite (Hmap Hmem) in Hget. injection Hget as <-.
      rewrite Hss, Htr, Hcnt. repeat run_step.
      set (sync := mkSyncStatus (ss_last_synced_date ss') (ss_cursor ss')
                                (Some (c0 + Z.of_nat k + 1))).
      assert (Hex : existsb (fun d => Nat.eqb (t_id d) (t_id d')) (topics s1)
                    = true).
      { rewrite T1. eapply existsb_In; [exact Hin|apply Nat.eqb_refl]. }
      assert (Ht2 : topics (upserted COL_TOPICS
                              (fun d => Nat.eqb (t_id d) (t_id d'))
                              (set_sync_status sync)
                              (fun _ => mkTopicDoc (t_id d') None None
                                          (Some sync)) s1)
                    = update_first (fun d => Nat.eqb (t_id d) (t_id d'))
                                   (set_sync_status sync) (topics s)).
      { now rewrite topics_upserted, Hex, T1. }
      unfold tracks. cbn [tl_existing_map tl_missing_docs]. rewrite Ht2.
      split.
      { intros n Hn. cbn [tl_existing_map].
        destruct (String.eqb_spec dn n) as [->|Hne'].
        - rewrite dict_get_set_same. discriminate.
        - rewrite dict_get_set_other by assumption. now apply Hcov. }
      split; [now rewrite update_first_ids|].
      split.
      { exists (set_sync_status sync d'), sync.
        split.
        { apply filter_update_first_same; try assumption; reflexivity. }
        split; [exact Hid|]. split; [reflexivity|].
        split.
        { unfold sync_truthy, sync. simpl.
          now destruct (ss_last_synced_date ss'), (ss_cursor ss'). }
        split; [exact Hcur|]. split.
        { simpl. lia. }
        intros _. apply dict_get_set_same. }
      split; [|exact Hmiss].
      intros n e Hn He. rewrite dict_get_set_other in He by congruence.
      eapply Hother; eassumption.
    + (* a mention of another stored topic *)
      assert (Hdoc : t_id doc <> id0) by (eapply Hother; eassumption).
      destruct (match t_sync_status doc with
                | Some ss => if sync_truthy ss then (ss, true)
                             else (empty_sync, false)
                | None => (empty_sync, false)
                end) as [sync shared].
      repeat run_step.
      match goal with |- context [upserted COL_TOPICS ?f ?u ?fr s1] =>
        set (s2 := upserted COL_TOPICS f u fr s1);
        pose proof (topics_upserted f u fr s1) as Ht2; fold s2 in Ht2
      end.
      rewrite T1 in Ht2. rewrite Z.add_0_r || rewrite Nat.add_0_r.
      unfold tracks. cbn [tl_existing_map tl_missing_docs].
      assert (Hfilter : filter (has_display_name dn) (topics s2) = [d']).
      { rewrite Ht2. destruct (existsb _ (topics s)) eqn:Hex.
        - rewrite filter_update_first_other; [exact Hf| |reflexivity].
          intros x Hx Hfx. apply Nat.eqb_eq in Hfx.
          destruct (has_display_name dn x) eqn:Hgx; [|reflexivity].
          exfalso. assert (Hx' : In x (filter (has_display_name dn) (topics s)))
            by (apply filter_In; auto).
          rewrite Hf in Hx'. destruct Hx' as [->|[]]. congruence.
        - rewrite filter_app, Hf. reflexivity. }
      assert (Hnd2 : NoDup (map t_id (topics s2))).
      { rewrite Ht2. destruct (existsb _ (topics s)) eqn:Hex.
        - now rewrite update_first_ids.
        - rewrite map_app. simpl. apply NoDup_app; [assumption| |].
          + repeat constructor. intros [].
          + intros x Hx [<-|[]]. apply in_map_iff in Hx.
            destruct Hx as [y [Hy Hy']].
            assert (existsb (fun d => Nat.eqb (t_id d) (t_id doc)) (topics s)
                    = true)
              by (eapply existsb_In; [exact Hy'|now apply Nat.eqb_eq]).
            congruence. }
      split.
      { intros n Hn. cbn [tl_existing_map].
        destruct shared; [|now apply Hcov].
        destruct (String.eqb_spec (rt_display_name topic) n) as [->|Hne'].
        - rewrite dict_get_set_same. discriminate.
        - rewrite dict_get_set_other by assumption. now apply Hcov. }
      split; [exact Hnd2|].
      split.
      { exists d', ss'. repeat (split; [assumption|]).
        intros Hdn. destruct shared; [|now apply Hmap].
        rewrite dict_get_set_other by assumption. now apply Hmap. }
      split; [|exact Hmiss].
      intros n e Hn He. destruct shared; [|eapply Hother; eassumption].
      destruct (String.eqb_spec (rt_display_name topic) n) as [E'|Hne'].
      * rewrite E', dict_get_set_same in He. injection He as <-. exact Hdoc.
      * rewrite dict_get_set_other in He by assumption.
        eapply Hother; eassumption.
  - (* a topic that is not stored: queued for the bulk insert *)
    assert (Hne : rt_display_name topic <> dn).
    { intros E. pose proof (Hm E) as H. rewrite E in Hmem. congruence. }
    destruct (String.eqb_spec (rt_display_name topic) dn) as [E|_];
      [contradiction|].
    run_step. rewrite Nat.add_0_r.
    unfold tracks. cbn [tl_existing_map tl_missing_docs].
    split; [exact Hcov|]. split; [now rewrite T1|].
    split.
    { exists d', ss'. rewrite T1. repeat (split; [assumption|]). exact Hmap. }
    split; [exact Hother|].
    intros p Hp. apply in_app_or in Hp. destruct Hp as [Hp|[<-|[]]];
      [now apply Hmiss|exact Hne].
Qed.

Lemma mentions_cons dn t l :
  mentions dn (t :: l)
  = ((if String.eqb (rt_display_name t) dn then 1 else 0) + mentions dn l)%nat.
Proof.
  unfold mentions. simpl. now destruct (String.eqb (rt_display_name t) dn).
Qed.

Lemma topics_loop_tracks dn id0 cur0 c0 names l :
  (forall t, In t l -> rt_display_name t = dn -> Text.mem dn names = true) ->
  forall k st s,
    tracks dn id0 cur0 c0 names k st s ->
    run_ok (for_each (topic_body names) l st) s
           (tracks dn id0 cur0 c0 names (k + mentions dn l)).
Proof.
  induction l as [|t l IH]; intros Hm k st s Ht; simpl.
  - run_step. unfold mentions. simpl. now rewrite Nat.add_0_r.
  - run_step.
    eapply run_ok_mono;
      [apply topic_body_tracks; [apply Hm; simpl; auto|exact Ht]|].
    intros st' s' Ht'. cbv beta.
    eapply run_ok_mono; [apply IH; [|exact Ht']|].
    + intros t' Hin. apply Hm. simpl. auto.
    + intros st'' s'' H. now rewrite mentions_cons, Nat.add_assoc.
Qed.

Lemma filter_comm {D} (f g : D -> bool) l :
  filter f (filter g l) = filter g (filter f l).
Proof.
  induction l as [|x l IH]; simpl; [reflexivity|].
  destruct (f x) eqn:Hf, (g x) eqn:Hg; simpl; rewrite ?Hf, ?Hg, IH;
    reflexivity.
Qed.

Lemma NoDup_map_inj {A B} (f : A -> B) l x y :
  NoDup (map f l) -> In x l -> In y l -> f x = f y -> x = y.
Proof.
  induction l as [|z l IH]; simpl; intros Hnd Hx Hy E; [contradiction|].
  inversion Hnd as [|? ? Hnotin Hnd']; subst.
  destruct Hx as [->|Hx], Hy as [->|Hy]; auto.
  - exfalso. apply Hnotin. rewrite E. now apply in_map.
  - exfalso. apply Hnotin. rewrite <- E. now apply in_map.
Qed.

Lemma stored_count_of_filter dn s d :
  filter (has_display_name dn) (topics s) = [d] ->
  stored_count dn s = count_of d /\
  stored_cursor dn s = match t_sync_status d with
                       | Some ss => match ss_cursor ss with
                                    | Some c => c
                                    | None => "*"
                                    end
                       | None => "*"
                       end.
Proof.
  intros Hf. unfold stored_count, stored_cursor, topic_sync, count_of.
  rewrite (find_of_filter _ _ _ _ Hf).
  destruct (t_sync_status d); auto.
Qed.

(** Topic processing raises the count of a stored topic by the number of
    its mentions in the raw list, and leaves its cursor alone. *)
Lemma process_researcher_topics_counts dn d ss topics_ s :
  NoDup (map t_id (topics s)) ->
  filter (has_display_name dn) (topics s) = [d] ->
  t_sync_status d = Some ss ->
  sync_truthy ss = true ->
  run_ok (process_researcher_topics topics_) s
    (fun _ s' =>
       exists d' ss',
         filter (has_display_name dn) (topics s') = [d'] /\
         t_id d' = t_id d /\
         t_sync_status d' = Some ss' /\
         sync_truthy ss' = true /\
         ss_cursor ss' = ss_cursor ss /\
         match ss_researchers_count ss' with
         | Some n => n
         | None => 0
         end = count_of d + Z.of_nat (mentions dn topics_)).
Proof.
  intros Hnd Hf Hss Htr.
  destruct (tracked_in_topics _ _ _ Hf) as [Hin Hname].
  unfold process_researcher_topics. repeat run_step.
  cbn [col_get COL_TOPICS].
  set (P := fun d0 : TopicDoc =>
              match t_display_name d0 with
              | Some n => Text.mem n (map rt_display_name topics_)
              | None => false
              end).
  set (existing := filter P (topics s)).
  assert (Hdn : forall t, In t topics_ -> rt_display_name t = dn ->
                          Text.mem dn (names_of existing) = true).
  { intros t Hin' E. apply mem_In, names_of_In. exists d.
    apply has_display_name_true in Hname. split; [|exact Hname].
    apply filter_In. split; [exact Hin|]. unfold P. rewrite Hname.
    apply mem_In, in_map_iff. eauto. }
  assert (Hinit : tracks dn (t_id d) (ss_cursor ss) (count_of d)
                    (names_of existing) 0
                    (mkTopicLoop (map_of existing) [] [] [] []) s).
  { split; [apply map_of_covers|]. split; [exact Hnd|]. split.
    { exists d, ss. repeat (split; [assumption || reflexivity|]). split.
      { unfold count_of. rewrite Hss. simpl. lia. }
      intros Hmem. cbn [tl_existing_map]. rewrite map_of_get.
      unfold existing. rewrite filter_comm, Hf. simpl.
      apply mem_In, names_of_In in Hmem. destruct Hmem as [x [Hx Hxn]].
      assert (Hxd : x = d).
      { apply filter_In in Hx. destruct Hx as [Hx _].
        assert (Hx' : In x (filter (has_display_name dn) (topics s)))
          by (apply filter_In; split;
              [exact Hx|now apply has_display_name_true]).
        rewrite Hf in Hx'. now destruct Hx' as [->|[]]. }
      subst x. unfold existing in Hx. apply filter_In in Hx.
      destruct Hx as [_ HP]. now rewrite HP. }
    split; [|intros p []].
    intros n e Hn He. cbn [tl_existing_map] in He. rewrite map_of_get in He.
    destruct (List.rev (filter (has_display_name n) existing)) as [|x r] eqn:Er;
      [discriminate|]. injection He as ->.
    assert (Hx : In e (filter (has_display_name n) existing)).
    { apply in_rev. rewrite Er. simpl. auto. }
    apply filter_In in Hx. destruct Hx as [Hx Hxn].
    apply filter_In in Hx. destruct Hx as [Hx _].
    intros E.
    assert (e = d) by (eapply NoDup_map_inj; eassumption). subst e.
    apply has_display_name_true in Hxn, Hname. congruence. }
  eapply run_ok_mono; [apply (topics_loop_tracks _ _ _ _ _ _ Hdn _ _ _ Hinit)|].
  intros st s1 [_ [_ [[d' [ss' [Hf' [Hid' [Hss' [Htr' [Hcur' [Hcnt' _]]]]]]]]
                      [_ Hmiss]]]].
  cbv beta.
  destruct (tl_missing_docs st) as [|m ms] eqn:Hm.
  - run_step. exists d', ss'. auto 10.
  - run_step. apply run_ok_insert_many; [discriminate|]. run_step.
    exists d', ss'. split; [|auto 10].
    unfold inserted_many. cbn [topics bump col_set COL_TOPICS col_get].
    rewrite filter_app, Hf', with_ids_missing_filter; [reflexivity|].
    exact Hmiss.
Qed.

(** ** Identifiers only grow *)

Lemma ids_mono_ret {A} (a : A) : ids_mono (ret a).
Proof. intros s a' s' E. injection E as <- <-. lia. Qed.

Lemma ids_mono_raise {A} e : ids_mono (@raise A e).
Proof. intros s a s' E. discriminate. Qed.

Lemma ids_mono_get : ids_mono get.
Proof. intros s a s' E. injection E as <- <-. lia. Qed.

Lemma ids_mono_bind {A B} (m : M A) (k : A -> M B) :
  ids_mono m -> (forall a, ids_mono (k a)) -> ids_mono (bind m k).
Proof.
  intros Hm Hk s b s'' E. unfold bind in E.
  destruct (m s) as [a s'|e] eqn:Em; [|discriminate].
  apply Hm in Em. apply Hk in E. lia.
Qed.

Lemma ids_mono_find_document {D} (c : Collection D) f :
  ids_mono (find_document c f).
Proof. intros s a s' E. injection E as <- <-. lia. Qed.

Lemma ids_mono_find_documents {D} (c : Collection D) f :
  ids_mono (find_documents c f).
Proof. intros s a s' E. injection E as <- <-. lia. Qed.

Lemma ids_mono_upsert_countries f u fr :
  ids_mono (upsert_document_new COL_COUNTRIES f u fr).
Proof.
  intros s a s' E. unfold upsert_document_new in E.
  destruct (existsb f _); injection E as <- <-; simpl; lia.
Qed.

Lemma ids_mono_upsert_institutions f u fr :
  ids_mono (upsert_document_new COL_INSTITUTIONS f u fr).
Proof.
  intros s a s' E. unfold upsert_document_new in E.
  destruct (existsb f _); injection E as <- <-; simpl; lia.
Qed.

Lemma ids_mono_upsert_fields f u fr :
  ids_mono (upsert_document_new COL_FIELDS f u fr).
Proof.
  intros s a s' E. unfold upsert_document_new in E.
  destruct (existsb f _); injection E as <- <-; simpl; lia.
Qed.

Lemma ids_mono_upsert_topics f u fr :
  ids_mono (upsert_document_new COL_TOPICS f u fr).
Proof.
  intros s a s' E. unfold upsert_document_new in E.
  destruct (existsb f _); injection E as <- <-; simpl; lia.
Qed.

Lemma ids_mono_for_each {A S} (body : A -> S -> M S) l :
  (forall a st, ids_mono (body a st)) ->
  forall st, ids_mono (for_each body l st).
Proof.
  intros Hbody. induction l as [|a l IH]; intros st; simpl.
  - apply ids_mono_ret.
  - apply ids_mono_bind; [apply Hbody|exact IH].
Qed.

Ltac mono_step :=
  match goal with
  | |- ids_mono (bind _ _) => apply ids_mono_bind; [|intros]
  | |- ids_mono (ret _) => apply ids_mono_ret
  | |- ids_mono (raise _) => apply ids_mono_raise
  | |- ids_mono get => apply ids_mono_get
  | |- ids_mono (find_document _ _) => apply ids_mono_find_document
  | |- ids_mono (find_documents _ _) => apply ids_mono_find_documents
  | |- ids_mono (upsert_document_new COL_COUNTRIES _ _ _) =>
      apply ids_mono_upsert_countries
  | |- ids_mono (upsert_document_new COL_INSTITUTIONS _ _ _) =>
      apply ids_mono_upsert_institutions
  | |- ids_mono (upsert_document_new COL_FIELDS _ _ _) =>
      apply ids_mono_upsert_fields
  | |- ids_mono (upsert_document_new COL_TOPICS _ _ _) =>
      apply ids_mono_upsert_topics
  | |- ids_mono (match ?x with _ => _ end) => destruct x
  end.

Lemma ids_mono_upsert_country env code : ids_mono (upsert_country env code).
Proof. unfold upsert_country. repeat mono_step. Qed.

Lemma ids_mono_upsert_field name : ids_mono (upsert_field name).
Proof. unfold upsert_field. repeat mono_step. Qed.

Lemma ids_mono_affiliation_body env aff st :
  ids_mono (affiliation_body env aff st).
Proof.
  unfold affiliation_body. repeat mono_step;
    try apply ids_mono_upsert_country.
Qed.

Lemma ids_mono_last_known_body env inst st :
  ids_mono (last_known_body env inst st).
Proof.
  unfold last_known_body. repeat mono_step;
    try apply ids_mono_upsert_country.
Qed.

Lemma run_ok_ids_mono {A} (m : M A) s (Q : A -> Store -> Prop) :
  ids_mono m -> run_ok m s Q ->
  run_ok m s (fun a s' => Q a s' /\ (next_id s <= next_id s')%nat).
Proof.
  intros Hm [a [s' [E HQ]]]. exists a, s'. split; [exact E|].
  split; [exact HQ|]. eapply Hm; eassumption.
Qed.

(** ** Topic processing keeps the topic identifiers well formed *)

Lemma existsb_id_In i (l : list TopicDoc) :
  In i (map t_id l) -> existsb (fun d => Nat.eqb (t_id d) i) l = true.
Proof.
  intros H. apply in_map_iff in H. destruct H as [d [<- Hd]].
  eapply existsb_In; [exact Hd|apply Nat.eqb_refl].
Qed.

Lemma upserted_topics_update f u fr s :
  existsb f (topics s) = true ->
  topics (upserted COL_TOPICS f u fr s) = update_first f u (topics s) /\
  next_id (upserted COL_TOPICS f u fr s) = next_id s.
Proof.
  intros H. unfold upserted. cbn [col_get COL_TOPICS]. rewrite H.
  split; reflexivity.
Qed.

Lemma topic_body_ids names topic st s :
  map_covers names st ->
  ids_ok st s ->
  run_ok (topic_body names topic st) s (fun st' s' => ids_ok st' s').
Proof.
  intros Hcov [[Hnd Hb] Hent].
  unfold topic_body. run_step.
  eapply run_ok_mono;
    [apply run_ok_ids_mono;
     [apply ids_mono_upsert_field|apply upsert_field_ok]|].
  intros fid s1 [[_ [T1 _]] Hn1]. cbv beta.
  assert (Hok1 : ids_ok st s1).
  { split; [split|]; rewrite T1; try assumption.
    intros i Hi. apply Hb in Hi. lia. }
  destruct (if negb _ then _ else _) as [tags added].
  destruct (Text.mem (rt_display_name topic) names) eqn:Hmem.
  - destruct (Dict.get (rt_display_name topic) (tl_existing_map st))
      as [doc|] eqn:Hget; [|exfalso; exact (Hcov _ Hmem Hget)].
    destruct (match t_sync_status doc with
              | Some ss => if sync_truthy ss then (ss, true)
                           else (empty_sync, false)
              | None => (empty_sync, false)
              end) as [sync shared].
    repeat run_step.
    match goal with |- context [upserted COL_TOPICS ?f ?u ?fr s1] =>
      destruct (upserted_topics_update f u fr s1) as [Ht2 Hn2];
      [rewrite T1; apply existsb_id_In; eapply Hent; exact Hget|];
      set (s2 := upserted COL_TOPICS f u fr s1) in *
    end.
    assert (Hids : map t_id (topics s2) = map t_id (topics s)).
    { now rewrite Ht2, update_first_ids, T1. }
    unfold ids_ok, wf_topics. rewrite Hids, Hn2.
    split; [split; [exact Hnd|]|].
    + intros i Hi. apply Hb in Hi. lia.
    + intros n e He. cbn [tl_existing_map] in He.
      destruct shared; [|eapply Hent; exact He].
      destruct (String.eqb_spec (rt_display_name topic) n) as [E|Hne].
      * rewrite E, dict_get_set_same in He. injection He as <-.
        simpl. eapply Hent. exact Hget.
      * rewrite dict_get_set_other in He by assumption.
        eapply Hent. exact He.
  - run_step. exact Hok1.
Qed.

Lemma map_of_entries l n e :
  Dict.get n (map_of l) = Some e -> In e l.
Proof.
  rewrite map_of_get.
  destruct (List.rev (filter (has_display_name n) l)) as [|x r] eqn:Er;
    [discriminate|].
  intros [= ->].
  assert (Hx : In e (filter (has_display_name n) l)).
  { apply in_rev. rewrite Er. simpl. auto. }
  apply filter_In in Hx. tauto.
Qed.

Lemma process_researcher_topics_wf topics_ s :
  wf_topics s ->
  run_ok (process_researcher_topics topics_) s (fun _ s' => wf_topics s').
Proof.
  intros Hwf. unfold process_researcher_topics. repeat run_step.
  cbn [col_get COL_TOPICS].
  match goal with |- context [names_of ?l] => set (existing := l) end.
  eapply run_ok_mono.
  - apply (run_ok_for_each (topic_body (names_of existing))
             (fun st s' => map_covers (names_of existing) st /\ ids_ok st s')).
    + intros a st s1 _ [Hcov Hok].
      eapply run_ok_mono;
        [apply run_ok_and;
         [apply topic_body_ok; exact Hcov
         |apply topic_body_ids; [exact Hcov|exact Hok]]|].
      intros st' s2 [[Hcov' _] Hok']. auto.
    + split; [apply map_of_covers|]. split; [exact Hwf|].
      intros n e He. cbn [tl_existing_map] in He.
      apply map_of_entries in He. unfold existing in He.
      apply filter_In in He. apply in_map. tauto.
  - intros st s1 [_ [[Hnd Hb] _]]. cbv beta.
    destruct (tl_missing_docs st) as [|m ms] eqn:Hm.
    + run_step. split; assumption.
    + run_step. apply run_ok_insert_many; [discriminate|]. run_step.
      unfold wf_topics, inserted_many.
      cbn [topics next_id bump col_set COL_TOPICS col_get].
      rewrite map_app, with_ids_missing_ids. split.
      * apply NoDup_app; [exact Hnd|apply seq_NoDup|].
        intros i Hi Hi'. apply Hb in Hi. apply in_seq in Hi'. lia.
      * intros i Hi. apply in_app_or in Hi. destruct Hi as [Hi|Hi].
        -- apply Hb in Hi. lia.
        -- apply in_seq in Hi. lia.
Qed.

(** ** [map_author_to_profile] returns normally *)

Lemma affiliations_loop_ok env l st s :
  run_ok (for_each (affiliation_body env) l st) s (fun _ s' => refs_grow s s').
Proof.
  apply run_ok_for_each_rel.
  - apply refs_grow_refl.
  - apply refs_grow_trans.
  - intros. apply affiliation_body_ok.
Qed.

Lemma last_known_loop_ok env l st s :
  run_ok (for_each (last_known_body env) l st) s (fun _ s' => refs_grow s s').
Proof.
  apply run_ok_for_each_rel.
  - apply refs_grow_refl.
  - apply refs_grow_trans.
  - intros. apply last_known_body_ok.
Qed.

(** The mapper never raises, never touches the researchers, and copies the
    name and the ORCID of the raw record; the profile has no slug yet. *)
Lemma map_author_to_profile_ok env author s :
  run_ok (map_author_to_profile env author) s
    (fun p s' => steady s s' /\
                 p_name p = a_display_name author /\
                 id_orcid (p_identifiers p) = a_orcid author /\
                 p_slug p = None).
Proof.
  unfold map_author_to_profile. run_step.
  eapply run_ok_mono; [apply affiliations_loop_ok|].
  intros al s1 H1. simpl. run_step.
  eapply run_ok_mono; [apply last_known_loop_ok|].
  intros ll s2 H2. simpl. run_step.
  eapply run_ok_mono; [apply process_researcher_topics_ok|].
  intros [ids tags] s3 H3. simpl. run_step.
  split; [|auto].
  apply refs_grow_steady in H1, H2. apply refs_kept_steady in H3.
  eapply steady_trans; [eassumption|].
  eapply steady_trans; eassumption.
Qed.

(** ** Institutions without a key, and countries without a name *)

Lemma bind_ext {A B} (m : M A) (k k' : A -> M B) s :
  (forall a s', k a s' = k' a s') -> bind m k s = bind m k' s.
Proof. intros H. unfold bind. destruct (m s); [apply H|reflexivity]. Qed.

Lemma bind_congr {A B} (m m' : M A) (k k' : A -> M B) s :
  m s = m' s -> (forall a s', k a s' = k' a s') ->
  bind m k s = bind m' k' s.
Proof.
  intros Hm Hk. unfold bind. rewrite Hm.
  destruct (m' s); [apply Hk|reflexivity].
Qed.

Lemma for_each_skip {A S} (body : A -> S -> M S) pre a post st s :
  (forall st' s', body a st' s' = Ok st' s') ->
  for_each body (pre ++ a :: post) st s = for_each body (pre ++ post) st s.
Proof.
  intros Hskip. rewrite !for_each_app. apply bind_ext.
  intros st' s'. simpl. unfold bind. now rewrite Hskip.
Qed.

Lemma ror_or_name_empty inst :
  ri_ror inst = "" -> ri_display_name inst = "" -> ror_or_name inst = "".
Proof. unfold ror_or_name. intros -> ->. reflexivity. Qed.

Lemma affiliation_body_skip env aff st s :
  ror_or_name (ra_institution aff) = "" ->
  affiliation_body env aff st s = Ok st s.
Proof. intros H. unfold affiliation_body. now rewrite H. Qed.

Lemma last_known_body_skip env inst st s :
  ror_or_name inst = "" -> last_known_body env inst st s = Ok st s.
Proof. intros H. unfold last_known_body. now rewrite H. Qed.

Lemma find_none_existsb {D} (f : D -> bool) l :
  find f l = None -> existsb f l = false.
Proof. intros H. now rewrite existsb_find, H. Qed.

Lemma upper_truthy s : Text.truthy s = true -> Text.truthy (Text.upper s) = true.
Proof. destruct s; [discriminate|reflexivity]. Qed.

(** [upsert_country] when the country is not stored and the naming service
    gives no name: the country is created, named by its code. *)
Lemma upsert_country_fallback env country_code s :
  Text.truthy country_code = true ->
  lookup_failed (restcountries env (Text.upper country_code)) ->
  find (fun d => String.eqb (c_id d) (Text.upper country_code)) (countries s)
    = None ->
  exists s',
    upsert_country env country_code s = Ok (Some (Text.upper country_code)) s' /\
    countries s'
      = countries s ++ [mkCountryDoc (Text.upper country_code)
                                     (Text.upper country_code)] /\
    institutions s' = institutions s /\
    researchers s' = researchers s /\ topics s' = topics s /\
    fields s' = fields s.
Proof.
  intros Ht Hfail Hfind. unfold upsert_country. rewrite Ht. cbn [negb].
  unfold bind, find_document. cbn [col_get COL_COUNTRIES].
  rewrite Hfind. rewrite upsert_document_new_eq.
  assert (Hname :
    match restcountries env (Text.upper country_code) with
    | RestList (Some common) => common
    | _ => Text.upper country_code
    end = Text.upper country_code).
  { destruct (restcountries env (Text.upper country_code)) as [|[c|]|];
      try reflexivity. now destruct (Hfail c). }
  rewrite Hname. eexists. split; [reflexivity|].
  unfold upserted. cbn [col_get COL_COUNTRIES].
  rewrite (find_none_existsb _ _ Hfind). simpl. auto.
Qed.

(** One round of the affiliation loop on an institution that is neither
    cached nor stored, in a country that is not stored and that the naming
    service cannot name. *)
Lemma affiliation_body_creates env aff st s :
  let inst := ra_institution aff in
  let ror := ror_or_name inst in
  let code := Text.upper (ri_country_code inst) in
  Text.truthy ror = true ->
  Text.truthy (ri_country_code inst) = true ->
  lookup_failed (restcountries env code) ->
  Dict.get ror (al_ror_to_id st) = None ->
  find (fun d => String.eqb (i_ror d) ror) (institutions s) = None ->
  find (fun d => String.eqb (c_id d) code) (countries s) = None ->
  exists st' s' i,
    affiliation_body env aff st s = Ok st' s' /\
    countries s' = countries s ++ [mkCountryDoc code code] /\
    institutions s'
      = institutions s
        ++ [mkInstitutionDoc i (ri_display_name inst) ror (Some code)] /\
    al_affiliations st'
      = al_affiliations st ++ [mkAffiliation i (ra_years aff)] /\
    Dict.get ror (al_ror_to_id st') = Some i /\
    In ("institution:" +++ oid_str i) (al_search_tags st').
Proof.
  intros inst ror code Hror Hcode Hfail Hcache Hinst Hcountry.
  destruct (upsert_country_fallback env (ri_country_code inst) s
              Hcode Hfail Hcountry)
    as [s1 [E1 [C1 [I1 _]]]].
  fold code in E1, C1.
  set (doc := mkInstitutionDoc (next_id s1) (ri_display_name inst) ror
                               (Some code)).
  set (s2 := upserted COL_INSTITUTIONS
               (fun d => String.eqb (i_ror d) ror) (fun d => d)
               (fun i => mkInstitutionDoc i (ri_display_name inst) ror
                           (Some code)) s1).
  assert (I2 : institutions s2 = institutions s ++ [doc]).
  { unfold s2. rewrite institutions_upserted, I1.
    now rewrite (find_none_existsb _ _ Hinst). }
  assert (C2 : countries s2 = countries s ++ [mkCountryDoc code code]).
  { unfold s2. rewrite <- C1.
    apply (upserted_institutions_frame _ _ _ s1). }
  assert (F2 : find (fun d => String.eqb (i_ror d) ror) (institutions s2)
               = Some doc).
  { rewrite I2. apply find_app_fresh; [now apply find_none_existsb|].
    simpl. apply String.eqb_refl. }
  unfold affiliation_body. fold inst. fold ror. rewrite Hror. cbn [negb].
  rewrite Hcache.
  unfold bind at 1. unfold bind at 1. unfold find_document at 1.
  cbn [col_get COL_INSTITUTIONS]. rewrite Hinst.
  unfold bind at 1. unfold bind at 1. rewrite E1.
  unfold bind at 1. rewrite upsert_document_new_eq. fold s2.
  unfold bind at 1. unfold find_document.
  cbn [col_get COL_INSTITUTIONS]. rewrite F2.
  unfold ret at 1. unfold ret at 1.
  assert (Hupper : Text.truthy code = true) by now apply upper_truthy.
  rewrite Hupper.
  destruct (negb (Text.mem code (al_added_countries st)));
    cbn [andb]; unfold ret;
    eexists _, s2, (next_id s1);
    (split; [reflexivity|]);
    cbn [al_affiliations al_ror_to_id al_search_tags];
    rewrite dict_get_set_same;
    repeat (split; [assumption || reflexivity|]);
    rewrite ?in_app_iff; simpl; auto.
Qed.

(** The mapper gives the same result and the same store without the
    affiliations and last known institutions that have no key. *)
Lemma map_author_skips env author pre aff post lpre inst lpost s :
  ror_or_name (ra_institution aff) = "" ->
  ror_or_name inst = "" ->
  map_author_to_profile env
    (with_institutions (pre ++ aff :: post) (lpre ++ inst :: lpost) author) s
  = map_author_to_profile env
      (with_institutions (pre ++ post) (lpre ++ lpost) author) s.
Proof.
  intros Ha Hi. unfold map_author_to_profile, with_institutions.
  cbn [a_affiliations a_last_known_institutions a_topics a_summary_stats
       a_counts_by_year a_display_name a_id a_orcid a_cited_by_count
       a_works_count a_updated_date].
  apply bind_congr.
  - apply for_each_skip. intros. now apply affiliation_body_skip.
  - intros al s1. apply bind_congr; [|reflexivity].
    apply for_each_skip. intros. now apply last_known_body_skip.
Qed.

(** ** The count of a stored topic under normalization *)

Lemma tracked_stored dn id0 cur0 c s :
  tracked dn id0 cur0 c s ->
  stored_count dn s = c /\
  stored_cursor dn s = match cur0 with Some x => x | None => "*" end.
Proof.
  intros [_ [d [ss [Hf [_ [Hss [_ [Hcur Hc]]]]]]]].
  destruct (stored_count_of_filter dn s d Hf) as [H1 H2].
  rewrite H1, H2. unfold count_of. rewrite Hss, Hcur. auto.
Qed.

Lemma process_researcher_topics_tracked dn id0 cur0 c topics_ s :
  tracked dn id0 cur0 c s ->
  run_ok (process_researcher_topics topics_) s
    (fun _ s' =>
       tracked dn id0 cur0 (c + Z.of_nat (mentions dn topics_)) s' /\
       refs_kept s s').
Proof.
  intros [Hwf [d [ss [Hf [Hid [Hss [Htr [Hcur Hc]]]]]]]].
  eapply run_ok_mono.
  - apply run_ok_and; [apply run_ok_and|].
    + apply process_researcher_topics_ok.
    + apply process_researcher_topics_wf. exact Hwf.
    + apply (process_researcher_topics_counts dn d ss);
        [apply Hwf|assumption..].
  - intros r s' [[Hk Hwf'] [d' [ss' [Hf' [Hid' [Hss' [Htr' [Hcur' Hc']]]]]]]].
    cbv beta. split; [|exact Hk]. split; [exact Hwf'|].
    exists d', ss'. repeat (split; [congruence|]).
    rewrite Hc'. unfold count_of. rewrite Hss, Hc. reflexivity.
Qed.

Lemma tracked_same_topics dn id0 cur0 c s s' :
  topics s' = topics s -> (next_id s <= next_id s')%nat ->
  tracked dn id0 cur0 c s -> tracked dn id0 cur0 c s'.
Proof.
  intros T N [[Hnd Hb] H]. unfold tracked, wf_topics. rewrite T.
  split; [split; [exact Hnd|]|exact H].
  intros i Hi. apply Hb in Hi. lia.
Qed.

(** Normalizing one record raises the count of a stored topic by the
    number of times the record's raw topic list mentions it. *)
Lemma map_author_tracked env author dn id0 cur0 c s :
  tracked dn id0 cur0 c s ->
  run_ok (map_author_to_profile env author) s
    (fun _ s' =>
       tracked dn id0 cur0
         (c + Z.of_nat (mentions dn (a_topics author))) s' /\
       researchers s' = researchers s).
Proof.
  intros Ht. unfold map_author_to_profile. run_step.
  eapply run_ok_mono;
    [apply run_ok_ids_mono;
     [apply ids_mono_for_each; intros; apply ids_mono_affiliation_body
     |apply affiliations_loop_ok]|].
  intros al s1 [[R1 [T1 _]] N1]. cbv beta. run_step.
  eapply run_ok_mono;
    [apply run_ok_ids_mono;
     [apply ids_mono_for_each; intros; apply ids_mono_last_known_body
     |apply last_known_loop_ok]|].
  intros ll s2 [[R2 [T2 _]] N2]. cbv beta. run_step.
  assert (Ht2 : tracked dn id0 cur0 c s2).
  { apply (tracked_same_topics dn id0 cur0 c s); [congruence|lia|exact Ht]. }
  eapply run_ok_mono; [apply process_researcher_topics_tracked; exact Ht2|].
  intros [ids tags] s3 [Ht3 [R3 _]]. cbv beta iota. run_step.
  split; [exact Ht3|congruence].
Qed.

(** ** Every institution of a record is resolved *)

(** A loop without [break] whose rounds keep an invariant [I] and relate
    the state before and after by [R], where [R] composes along the
    list. *)
Lemma run_ok_for_each_acc {A S} (body : A -> S -> M S)
    (I : S -> Store -> Prop)
    (R : list A -> S -> Store -> S -> Store -> Prop) :
  (forall st s, R [] st s st s) ->
  (forall a l st s st1 s1 st2 s2,
     R [a] st s st1 s1 -> R l st1 s1 st2 s2 -> R (a :: l) st s st2 s2) ->
  (forall a st s, I st s ->
     run_ok (body a st) s (fun st' s' => I st' s' /\ R [a] st s st' s')) ->
  forall l st s, I st s ->
    run_ok (for_each body l st) s (fun st' s' => I st' s' /\ R l st s st' s').
Proof.
  intros Hnil Hcons Hbody.
  induction l as [|a l IH]; intros st s HI; simpl.
  - apply run_ok_ret. auto.
  - apply run_ok_bind.
    eapply run_ok_mono; [apply Hbody; exact HI|].
    intros st1 s1 [HI1 HR1]. cbv beta.
    eapply run_ok_mono; [apply IH; exact HI1|].
    intros st2 s2 [HI2 HR2]. cbv beta. split; [exact HI2|].
    eapply Hcons; eassumption.
Qed.

Lemma prefix_find_none {A} (f : A -> bool) l l' :
  prefix l l' -> find f l' = None -> find f l = None.
Proof.
  intros Hp Hn. destruct (find f l) as [d|] eqn:E; [|reflexivity].
  rewrite (prefix_find f l l' d Hp E) in Hn. discriminate.
Qed.

Lemma prefix_In {A} (l l' : list A) x : prefix l l' -> In x l -> In x l'.
Proof. intros [t ->] H. apply in_or_app. now left. Qed.

Lemma find_In_none {D} (f : D -> bool) l d :
  find f l = None -> In d l -> f d = true -> False.
Proof.
  intros Hn Hin Hf. rewrite (find_none f l Hn d Hin) in Hf. discriminate.
Qed.

Lemma lookup_failed_name env code :
  lookup_failed (restcountries env code) ->
  match restcountries env code with
  | RestList (Some common) => common
  | _ => code
  end = code.
Proof.
  intros Hfail. destruct (restcountries env code) as [|[c|]|];
    try reflexivity. now destruct (Hfail c).
Qed.

(** *** The relations compose *)

Lemma named_by_code_refl env s : named_by_code env s s.
Proof. intros c Hc. now left. Qed.

Lemma named_by_code_trans env s1 s2 s3 :
  named_by_code env s1 s2 -> named_by_code env s2 s3 ->
  named_by_code env s1 s3.
Proof.
  intros H12 H23 c Hc. destruct (H23 c Hc) as [Hc2|Hn]; [|now right].
  apply H12. exact Hc2.
Qed.

Lemma named_by_code_same env s s1 s2 :
  named_by_code env s s1 -> countries s2 = countries s1 ->
  named_by_code env s s2.
Proof. intros H E c Hc. rewrite E in Hc. now apply H. Qed.

Lemma made_from_grows inst s s' d :
  prefix (countries s) (countries s') -> made_from inst s d ->
  made_from inst s' d.
Proof.
  intros Hp [Hr [Hn [Hc Hs]]]. repeat (split; [assumption|]).
  intros Ht. destruct (Hs Ht) as [c Hf]. exists c.
  eapply prefix_find; eassumption.
Qed.

Lemma first_with_key_left inst l1 l2 :
  first_with_key inst l1 -> first_with_key inst (l1 ++ l2).
Proof.
  intros [pre [post [-> Hpre]]]. exists pre, (post ++ l2).
  split; [|exact Hpre]. now rewrite <- app_assoc.
Qed.

Lemma first_with_key_right inst l1 l2 :
  Forall (fun e => ror_or_name e <> ror_or_name inst) l1 ->
  first_with_key inst l2 -> first_with_key inst (l1 ++ l2).
Proof.
  intros Hl1 [pre [post [-> Hpre]]]. exists (l1 ++ pre), post.
  split; [now rewrite <- app_assoc|].
  apply Forall_app. split; assumption.
Qed.

(** The first entry with a given key is determined by the list. *)
Lemma first_with_key_unique inst inst' l :
  first_with_key inst l -> first_with_key inst' l ->
  ror_or_name inst = ror_or_name inst' -> inst = inst'.
Proof.
  intros [pre [post [-> Hpre]]] [pre' [post' [E Hpre']]] Hk.
  revert pre' E Hpre'.
  induction pre as [|x pre IH]; intros [|y pre'] E Hpre'; simpl in E.
  - now injection E.
  - injection E as -> _. apply Forall_inv in Hpre'. congruence.
  - injection E as -> _. apply Forall_inv in Hpre. congruence.
  - injection E as -> E. apply (IH (Forall_inv_tail Hpre) pre' E).
    exact (Forall_inv_tail Hpre').
Qed.

Lemma resolves_nil env s : resolves env [] s s.
Proof.
  split; [apply steady_refl|]. split; [apply named_by_code_refl|].
  split; [now left|]. intros inst [].
Qed.

Lemma resolves_trans env l1 l2 s s1 s2 :
  resolves env l1 s s1 -> resolves env l2 s1 s2 ->
  resolves env (l1 ++ l2) s s2.
Proof.
  intros [G1 [N1 [M1 F1]]] [G2 [N2 [M2 F2]]].
  split; [eapply steady_trans; eassumption|].
  split; [eapply named_by_code_trans; eassumption|].
  destruct G1 as [_ [_ Pi1]]. destruct G2 as [_ [Pc2 Pi2]].
  split.
  - intros d Hd. destruct (M2 d Hd) as [Hd1|[inst [Hfirst [Ht [Hfree Hm]]]]].
    + destruct (M1 d Hd1) as [Hd0|[inst [Hfirst [Ht [Hfree Hm]]]]];
        [now left|right].
      exists inst. split; [now apply first_with_key_left|].
      split; [exact Ht|]. split; [exact Hfree|].
      eapply made_from_grows; eassumption.
    + right. exists inst. split; [|split; [exact Ht|split; [|exact Hm]]].
      * apply first_with_key_right; [|exact Hfirst].
        apply Forall_forall. intros e He Hk.
        assert (Hte : Text.truthy (ror_or_name e) = true) by congruence.
        destruct (F1 e He Hte) as [d1 Hd1].
        destruct Hm as [Hr _]. rewrite Hr, <- Hk, Hd1 in Hfree.
        discriminate.
      * eapply prefix_find_none; eassumption.
  - intros inst Hin Ht. apply in_app_or in Hin. destruct Hin as [Hin|Hin].
    + destruct (F1 inst Hin Ht) as [d Hd]. exists d.
      eapply prefix_find; eassumption.
    + now apply F2.
Qed.

Lemma resolves_cons env inst l s s1 s2 :
  resolves env [inst] s s1 -> resolves env l s1 s2 ->
  resolves env (inst :: l) s s2.
Proof. apply (resolves_trans env [inst] l). Qed.

Lemma resolves_same env l s s1 s2 :
  resolves env l s s1 -> refs_kept s1 s2 -> resolves env l s s2.
Proof.
  intros [[R1 [Pc1 Pi1]] [N1 [M1 F1]]] [R2 [C2 I2]].
  split; [unfold steady; rewrite R2, C2, I2; auto|].
  split; [eapply named_by_code_same; eassumption|].
  rewrite I2. split.
  - intros d Hd. destruct (M1 d Hd) as [H|[inst [Hf [Ht [Hfree Hm]]]]];
      [now left|right].
    exists inst. repeat (split; [assumption|]).
    destruct Hm as [Hr [Hn [Hc Hs]]]. repeat (split; [assumption|]).
    rewrite C2. exact Hs.
  - exact F1.
Qed.

(** An entry that is stored already, or has no key, resolves without a
    change of the store. *)
Lemma resolves_stored env inst s :
  (Text.truthy (ror_or_name inst) = true ->
   exists d,
     find (fun d => String.eqb (i_ror d) (ror_or_name inst))
          (institutions s) = Some d) ->
  resolves env [inst] s s.
Proof.
  intros H. split; [apply steady_refl|].
  split; [apply named_by_code_refl|]. split; [now left|].
  intros inst' [<-|[]]. exact H.
Qed.

Lemma cache_stored_grows cache s s' :
  prefix (institutions s) (institutions s') ->
  cache_stored cache s -> cache_stored cache s'.
Proof.
  intros Hp Hc k i Hk. destruct (Hc k i Hk) as [d [Hf Hi]].
  exists d. split; [|exact Hi]. eapply prefix_find; eassumption.
Qed.

Lemma cache_stored_set cache k d s :
  find (fun d' => String.eqb (i_ror d') k) (institutions s) = Some d ->
  cache_stored cache s -> cache_stored (Dict.set k (i_id d) cache) s.
Proof.
  intros Hf Hc k' i. destruct (String.eqb_spec k k') as [<-|Hne].
  - rewrite dict_get_set_same. intros [= <-]. now exists d.
  - rewrite dict_get_set_other by assumption. apply Hc.
Qed.

Lemma cache_stored_nil s : cache_stored [] s.
Proof. intros k i. discriminate. Qed.

(** *** [upsert_country] *)

(** [upsert_country] returns the upper-cased code, which is stored
    afterwards; a country it creates while the naming service fails is
    named by its code. *)
Lemma upsert_country_named env code s :
  run_ok (upsert_country env code) s
    (fun c s' =>
       c = (if Text.truthy code then Some (Text.upper code) else None) /\
       researchers s' = researchers s /\
       institutions s' = institutions s /\
       prefix (countries s) (countries s') /\
       named_by_code env s s' /\
       (Text.truthy code = true ->
        exists d,
          find (fun d => String.eqb (c_id d) (Text.upper code)) (countries s')
            = Some d)).
Proof.
  unfold upsert_country. destruct (Text.truthy code); cbn [negb].
  2:{ run_step. repeat split; auto using prefix_refl, named_by_code_refl.
      discriminate. }
  repeat run_step. simpl col_get.
  destruct (find _ (countries s)) as [d|] eqn:E.
  - run_step. destruct (find_some _ _ E) as [_ Hd].
    apply String.eqb_eq in Hd. rewrite Hd.
    repeat split; auto using prefix_refl, named_by_code_refl.
    intros _. now exists d.
  - repeat run_step.
    match goal with |- context [upserted ?c ?f ?u ?fr s] =>
      pose proof (upserted_countries_frame f u fr s) as Hfr;
      pose proof (countries_upserted f u fr s) as Hc
    end.
    cbv zeta in Hfr. destruct Hfr as [R [_ [_ I]]].
    rewrite (find_none_existsb _ _ E) in Hc.
    split; [reflexivity|]. split; [exact R|]. split; [exact I|].
    rewrite Hc. split; [apply prefix_app|]. split.
    + intros c Hin. rewrite Hc in Hin. apply in_app_or in Hin.
      destruct Hin as [Hin|[<-|[]]]; [now left|right].
      cbn [c_id c_display_name]. apply lookup_failed_name.
    + intros _. eexists. apply find_app_fresh.
      * now apply find_none_existsb.
      * simpl. apply String.eqb_refl.
Qed.

(** *** Creating an institution *)

(** The part both institution loops share: an institution whose key is
    not stored is created from the entry and found again. *)
Lemma create_institution_made env inst {B}
    (k : InstitutionDoc -> option string -> M B) s (Q : B -> Store -> Prop) :
  Text.truthy (ror_or_name inst) = true ->
  find (fun d => String.eqb (i_ror d) (ror_or_name inst)) (institutions s)
    = None ->
  (forall d s',
     resolves env [inst] s s' ->
     find (fun d => String.eqb (i_ror d) (ror_or_name inst)) (institutions s')
       = Some d ->
     run_ok (k d (country_ref inst)) s' Q) ->
  run_ok
    (country_id <- upsert_country env (ri_country_code inst) ;;
     upsert_document_new COL_INSTITUTIONS
       (fun d => String.eqb (i_ror d) (ror_or_name inst))
       (fun d => d)
       (fun i => mkInstitutionDoc i (ri_display_name inst) (ror_or_name inst)
                   country_id) ;;;
     inserted <- find_document COL_INSTITUTIONS
                   (fun d => String.eqb (i_ror d) (ror_or_name inst)) ;;
     match inserted with
     | Some d => k d country_id
     | None => raise TypeError
     end) s Q.
Proof.
  intros Hkey Hfree Hk. run_step.
  eapply run_ok_mono; [apply upsert_country_named|].
  intros c s1 [Hc [R1 [I1 [P1 [N1 S1]]]]]. cbv beta.
  fold (country_ref inst) in Hc. subst c.
  repeat run_step. simpl col_get.
  match goal with |- context [upserted ?c ?f ?u ?fr s1] =>
    pose proof (upserted_institutions_frame f u fr s1) as Hfr;
    pose proof (institutions_upserted f u fr s1) as Hi;
    set (s2 := upserted c f u fr s1) in *
  end.
  cbv zeta in Hfr. destruct Hfr as [R2 [_ [_ C2]]].
  rewrite I1, (find_none_existsb _ _ Hfree) in Hi.
  set (doc := mkInstitutionDoc (next_id s1) (ri_display_name inst)
                (ror_or_name inst) (country_ref inst)) in *.
  assert (F2 : find (fun d => String.eqb (i_ror d) (ror_or_name inst))
                 (institutions s2) = Some doc).
  { rewrite Hi. apply find_app_fresh; [now apply find_none_existsb|].
    simpl. apply String.eqb_refl. }
  rewrite F2. apply Hk; [|exact F2].
  split.
  { split; [congruence|]. split; [now rewrite C2|].
    rewrite Hi. apply prefix_app. }
  split; [eapply named_by_code_same; eassumption|]. split.
  - intros d Hd. rewrite Hi in Hd. apply in_app_or in Hd.
    destruct Hd as [Hd|[<-|[]]]; [now left|right].
    exists inst. split.
    { exists [], []. split; [reflexivity|constructor]. }
    split; [exact Hkey|]. split; [exact Hfree|].
    split; [reflexivity|]. split; [reflexivity|]. split; [reflexivity|].
    rewrite C2. exact S1.
  - intros inst' [<-|[]] _. now exists doc.
Qed.

(** *** The two loops *)

(** One round of the affiliation loop. *)
Lemma affiliation_body_resolves env aff st s :
  cache_stored (al_ror_to_id st) s ->
  run_ok (affiliation_body env aff st) s
    (fun st' s' =>
       cache_stored (al_ror_to_id st') s' /\
       resolves env [ra_institution aff] s s' /\
       prefix (al_affiliations st) (al_affiliations st') /\
       (Text.truthy (ror_or_name (ra_institution aff)) = true ->
        exists d,
          find (fun d => String.eqb (i_ror d) (ror_or_name (ra_institution aff)))
               (institutions s') = Some d /\
          In (mkAffiliation (i_id d) (ra_years aff)) (al_affiliations st'))).
Proof.
  intros Hcache. unfold affiliation_body. cbv zeta.
  destruct (Text.truthy (ror_or_name (ra_institution aff))) eqn:Hkey;
    cbn [negb].
  2:{ run_step. split; [exact Hcache|].
      split; [apply resolves_stored; congruence|].
      split; [apply prefix_refl|discriminate]. }
  run_step.
  apply run_ok_mono with
    (Q := fun x s' =>
            resolves env [ra_institution aff] s s' /\
            cache_stored (snd x) s' /\
            exists d,
              find (fun d => String.eqb (i_ror d)
                               (ror_or_name (ra_institution aff)))
                   (institutions s') = Some d /\
              i_id d = fst (fst x)).
  - destruct (Dict.get _ (al_ror_to_id st)) as [i|] eqn:Hget.
    { run_step. cbn [fst snd]. destruct (Hcache _ _ Hget) as [d [Hf Hi]].
      split; [apply resolves_stored; eauto|]. split; [exact Hcache|eauto]. }
    repeat run_step. simpl col_get.
    destruct (find _ (institutions s)) as [d|] eqn:E.
    { repeat run_step. cbn [fst snd].
      split; [apply resolves_stored; eauto|].
      split; [now apply cache_stored_set|eauto]. }
    apply create_institution_made; [exact Hkey|exact E|].
    intros d s' Hres Hd. repeat run_step. cbn [fst snd].
    split; [exact Hres|]. split; [|eauto].
    apply cache_stored_set; [exact Hd|].
    eapply cache_stored_grows; [|exact Hcache]. apply Hres.
  - intros [[i c] r] s' [Hres [Hr [d [Hd Hi]]]]. cbn [fst snd] in Hr, Hi.
    subst i.
    destruct c as [c|]; [destruct (_ && _)%bool|]; run_step;
      cbn [al_ror_to_id al_affiliations];
      (split; [exact Hr|]); (split; [exact Hres|]);
      (split; [apply prefix_app|]);
      intros _; exists d; (split; [exact Hd|]);
      apply in_or_app; right; simpl; auto.
Qed.

(** One round of the loop over the last known institutions. *)
Lemma last_known_body_resolves env inst st s :
  cache_stored (ll_ror_to_id st) s ->
  run_ok (last_known_body env inst st) s
    (fun st' s' =>
       cache_stored (ll_ror_to_id st') s' /\
       resolves env [inst] s s' /\
       prefix (ll_last_known_institutions st)
              (ll_last_known_institutions st') /\
       (Text.truthy (ror_or_name inst) = true ->
        exists d,
          find (fun d => String.eqb (i_ror d) (ror_or_name inst))
               (institutions s') = Some d /\
          In (i_id d) (ll_last_known_institutions st'))).
Proof.
  intros Hcache. unfold last_known_body. cbv zeta.
  destruct (Text.truthy (ror_or_name inst)) eqn:Hkey; cbn [negb].
  2:{ run_step. split; [exact Hcache|].
      split; [apply resolves_stored; congruence|].
      split; [apply prefix_refl|discriminate]. }
  run_step.
  apply run_ok_mono with
    (Q := fun x s' =>
            resolves env [inst] s s' /\
            cache_stored (snd x) s' /\
            exists d,
              find (fun d => String.eqb (i_ror d) (ror_or_name inst))
                   (institutions s') = Some d /\
              i_id d = fst x).
  - destruct (Dict.get _ (ll_ror_to_id st)) as [i|] eqn:Hget.
    { run_step. cbn [fst snd]. destruct (Hcache _ _ Hget) as [d [Hf Hi]].
      split; [apply resolves_stored; eauto|]. split; [exact Hcache|eauto]. }
    repeat run_step. simpl col_get.
    destruct (find _ (institutions s)) as [d|] eqn:E.
    { repeat run_step. cbn [fst snd].
      split; [apply resolves_stored; eauto|].
      split; [now apply cache_stored_set|eauto]. }
    apply create_institution_made; [exact Hkey|exact E|].
    intros d s' Hres Hd. repeat run_step. cbn [fst snd].
    split; [exact Hres|]. split; [|eauto].
    apply cache_stored_set; [exact Hd|].
    eapply cache_stored_grows; [|exact Hcache]. apply Hres.
  - intros [i r] s' [Hres [Hr [d [Hd Hi]]]]. cbn [fst snd] in Hr, Hi.
    subst i. run_step. cbn [ll_ror_to_id ll_last_known_institutions].
    split; [exact Hr|]. split; [exact Hres|].
    split; [apply prefix_app|].
    intros _. exists d. split; [exact Hd|].
    apply in_or_app. right. simpl. auto.
Qed.

Lemma affiliations_loop_resolves env l st s :
  cache_stored (al_ror_to_id st) s ->
  run_ok (for_each (affiliation_body env) l st) s
    (fun st' s' =>
       cache_stored (al_ror_to_id st') s' /\
       resolves env (map ra_institution l) s s' /\
       prefix (al_affiliations st) (al_affiliations st') /\
       forall aff, In aff l ->
         Text.truthy (ror_or_name (ra_institution aff)) = true ->
         exists d,
           find (fun d => String.eqb (i_ror d)
                            (ror_or_name (ra_institution aff)))
                (institutions s') = Some d /\
           In (mkAffiliation (i_id d) (ra_years aff)) (al_affiliations st')).
Proof.
  apply (run_ok_for_each_acc (affiliation_body env)
           (fun st s => cache_stored (al_ror_to_id st) s)
           (fun l st s st' s' =>
              resolves env (map ra_institution l) s s' /\
              prefix (al_affiliations st) (al_affiliations st') /\
              forall aff, In aff l ->
                Text.truthy (ror_or_name (ra_institution aff)) = true ->
                exists d,
                  find (fun d => String.eqb (i_ror d)
                                   (ror_or_name (ra_institution aff)))
                       (institutions s') = Some d /\
                  In (mkAffiliation (i_id d) (ra_years aff))
                     (al_affiliations st'))).
  - intros st0 s0. split; [apply resolves_nil|].
    split; [apply prefix_refl|]. intros aff [].
  - intros a l0 st0 s0 st1 s1 st2 s2 [Hr1 [Hp1 Ha1]] [Hr2 [Hp2 Ha2]].
    split; [eapply resolves_cons; eassumption|].
    split; [eapply prefix_trans; eassumption|].
    intros aff [<-|Hin] Hkey; [|now apply Ha2].
    destruct (Ha1 a (or_introl eq_refl) Hkey) as [d [Hd Hin]].
    exists d. split.
    + eapply prefix_find; [|exact Hd]. apply Hr2.
    + eapply prefix_In; eassumption.
  - intros a st0 s0 HI.
    eapply run_ok_mono; [apply affiliation_body_resolves; exact HI|].
    intros st1 s1 [Hc [Hr [Hp Ha]]]. split; [exact Hc|].
    split; [exact Hr|]. split; [exact Hp|].
    intros aff [<-|[]]. exact Ha.
Qed.

Lemma last_known_loop_resolves env l st s :
  cache_stored (ll_ror_to_id st) s ->
  run_ok (for_each (last_known_body env) l st) s
    (fun st' s' =>
       cache_stored (ll_ror_to_id st') s' /\
       resolves env l s s' /\
       prefix (ll_last_known_institutions st)
              (ll_last_known_institutions st') /\
       forall inst, In inst l ->
         Text.truthy (ror_or_name inst) = true ->
         exists d,
           find (fun d => String.eqb (i_ror d) (ror_or_name inst))
                (institutions s') = Some d /\
           In (i_id d) (ll_last_known_institutions st')).
Proof.
  apply (run_ok_for_each_acc (last_known_body env)
           (fun st s => cache_stored (ll_ror_to_id st) s)
           (fun l st s st' s' =>
              resolves env l s s' /\
              prefix (ll_last_known_institutions st)
                     (ll_last_known_institutions st') /\
              forall inst, In inst l ->
                Text.truthy (ror_or_name inst) = true ->
                exists d,
                  find (fun d => String.eqb (i_ror d) (ror_or_name inst))
                       (institutions s') = Some d /\
                  In (i_id d) (ll_last_known_institutions st'))).
  - intros st0 s0. split; [apply resolves_nil|].
    split; [apply prefix_refl|]. intros inst [].
  - intros a l0 st0 s0 st1 s1 st2 s2 [Hr1 [Hp1 Ha1]] [Hr2 [Hp2 Ha2]].
    split; [eapply resolves_cons; eassumption|].
    split; [eapply prefix_trans; eassumption|].
    intros inst [<-|Hin] Hkey; [|now apply Ha2].
    destruct (Ha1 a (or_introl eq_refl) Hkey) as [d [Hd Hin]].
    exists d. split.
    + eapply prefix_find; [|exact Hd]. apply Hr2.
    + eapply prefix_In; eassumption.
  - intros a st0 s0 HI.
    eapply run_ok_mono; [apply last_known_body_resolves; exact HI|].
    intros st1 s1 [Hc [Hr [Hp Ha]]]. split; [exact Hc|].
    split; [exact Hr|]. split; [exact Hp|].
    intros inst [<-|[]]. exact Ha.
Qed.

(** *** The mapper *)

(** [map_author_to_profile] returns normally and resolves every raw
    institution of the record; the profile references the stored
    institutions of the entries that have a key. *)
Lemma map_author_resolves env author s :
  run_ok (map_author_to_profile env author) s
    (fun p s' =>
       resolves env (raw_institutions author) s s' /\
       (forall aff, In aff (a_affiliations author) ->
          Text.truthy (ror_or_name (ra_institution aff)) = true ->
          exists d,
            find (fun d => String.eqb (i_ror d)
                             (ror_or_name (ra_institution aff)))
                 (institutions s') = Some d /\
            In (mkAffiliation (i_id d) (ra_years aff)) (p_affiliations p)) /\
       (forall inst, In inst (a_last_known_institutions author) ->
          Text.truthy (ror_or_name inst) = true ->
          exists d,
            find (fun d => String.eqb (i_ror d) (ror_or_name inst))
                 (institutions s') = Some d /\
            In (i_id d) (p_last_known_affiliations p))).
Proof.
  unfold map_author_to_profile. run_step.
  eapply run_ok_mono;
    [apply affiliations_loop_resolves; apply cache_stored_nil|].
  intros al s1 [Hc1 [Hr1 [_ Ha1]]]. cbv beta. run_step.
  eapply run_ok_mono; [apply last_known_loop_resolves; exact Hc1|].
  intros ll s2 [_ [Hr2 [_ Ha2]]]. cbv beta. run_step.
  eapply run_ok_mono; [apply process_researcher_topics_ok|].
  intros [ids tags] s3 K. cbv beta iota. run_step.
  cbn [p_affiliations p_last_known_affiliations].
  pose proof K as [_ [_ Ki]].
  split; [|split].
  - eapply resolves_same; [|exact K].
    unfold raw_institutions. eapply resolves_trans; eassumption.
  - intros aff Hin Hkey. destruct (Ha1 aff Hin Hkey) as [d [Hd Hl]].
    exists d. split; [|exact Hl]. rewrite Ki.
    eapply prefix_find; [|exact Hd]. apply Hr2.
  - intros inst Hin Hkey. destruct (Ha2 inst Hin Hkey) as [d [Hd Hl]].
    exists d. split; [|exact Hl]. now rewrite Ki.
Qed.

(** One round of the loop over the last known institutions on an
    institution that is neither cached nor stored, in a country that is
    not stored and that the naming service cannot name. *)
Lemma last_known_body_creates env inst st s :
  let ror := ror_or_name inst in
  let code := Text.upper (ri_country_code inst) in
  Text.truthy ror = true ->
  Text.truthy (ri_country_code inst) = true ->
  lookup_failed (restcountries env code) ->
  Dict.get ror (ll_ror_to_id st) = None ->
  find (fun d => String.eqb (i_ror d) ror) (institutions s) = None ->
  find (fun d => String.eqb (c_id d) code) (countries s) = None ->
  exists st' s' i,
    last_known_body env inst st s = Ok st' s' /\
    countries s' = countries s ++ [mkCountryDoc code code] /\
    institutions s'
      = institutions s
        ++ [mkInstitutionDoc i (ri_display_name inst) ror (Some code)] /\
    ll_last_known_institutions st' = ll_last_known_institutions st ++ [i] /\
    Dict.get ror (ll_ror_to_id st') = Some i.
Proof.
  intros ror code Hror Hcode Hfail Hcache Hinst Hcountry.
  destruct (upsert_country_fallback env (ri_country_code inst) s
              Hcode Hfail Hcountry)
    as [s1 [E1 [C1 [I1 _]]]].
  fold code in E1, C1.
  set (doc := mkInstitutionDoc (next_id s1) (ri_display_name inst) ror
                               (Some code)).
  set (s2 := upserted COL_INSTITUTIONS
               (fun d => String.eqb (i_ror d) ror) (fun d => d)
               (fun i => mkInstitutionDoc i (ri_display_name inst) ror
                           (Some code)) s1).
  assert (I2 : institutions s2 = institutions s ++ [doc]).
  { unfold s2. rewrite institutions_upserted, I1.
    now rewrite (find_none_existsb _ _ Hinst). }
  assert (C2 : countries s2 = countries s ++ [mkCountryDoc code code]).
  { unfold s2. rewrite <- C1.
    apply (upserted_institutions_frame _ _ _ s1). }
  assert (F2 : find (fun d => String.eqb (i_ror d) ror) (institutions s2)
               = Some doc).
  { rewrite I2. apply find_app_fresh; [now apply find_none_existsb|].
    simpl. apply String.eqb_refl. }
  unfold last_known_body. fold ror. rewrite Hror. cbn [negb].
  rewrite Hcache.
  unfold bind at 1. unfold bind at 1. unfold bind at 1.
  unfold find_document at 1.
  cbn [col_get COL_INSTITUTIONS]. rewrite Hinst.
  unfold bind at 1. rewrite E1.
  unfold bind at 1. rewrite upsert_document_new_eq. fold s2.
  unfold bind at 1. unfold find_document.
  cbn [col_get COL_INSTITUTIONS]. rewrite F2.
  unfold ret.
  eexists _, s2, (next_id s1). split; [reflexivity|].
  cbn [ll_last_known_institutions ll_ror_to_id].
  rewrite dict_get_set_same. auto.
Qed.

(** The mapper on a record one of whose raw institutions, the first with
    its key, needs a new institution in a country that is not stored and
    that the naming service cannot name. *)
Lemma map_author_creates_at env author inst s :
  let ror := ror_or_name inst in
  let code := Text.upper (ri_country_code inst) in
  first_with_key inst (raw_institutions author) ->
  Text.truthy ror = true ->
  Text.truthy (ri_country_code inst) = true ->
  lookup_failed (restcountries env code) ->
  find (fun d => String.eqb (i_ror d) ror) (institutions s) = None ->
  find (fun d => String.eqb (c_id d) code) (countries s) = None ->
  run_ok (map_author_to_profile env author) s
    (fun p s' =>
       find (fun d => String.eqb (c_id d) code) (countries s')
         = Some (mkCountryDoc code code) /\
       exists i,
         find (fun d => String.eqb (i_ror d) ror) (institutions s')
           = Some (mkInstitutionDoc i (ri_display_name inst) ror (Some code)) /\
         (forall aff, In aff (a_affiliations author) ->
            ra_institution aff = inst ->
            In (mkAffiliation i (ra_years aff)) (p_affiliations p)) /\
         (In inst (a_last_known_institutions author) ->
          In i (p_last_known_affiliations p))).
Proof.
  intros ror code Hfirst Hror Hcode Hfail Hinst Hcountry.
  eapply run_ok_mono; [apply map_author_resolves|].
  intros p s' [[G [N [Mk F]]] [La Ll]]. cbv beta.
  assert (Hin : In inst (raw_institutions author)).
  { destruct Hfirst as [pre [post [-> _]]].
    apply in_or_app. right. now left. }
  destruct (F inst Hin Hror) as [d Hd]. fold ror in Hd.
  destruct (find_some _ _ Hd) as [Hdin Hdk]. apply String.eqb_eq in Hdk.
  destruct (Mk d Hdin) as [Hold|[inst' [Hfirst' [_ [_ Hm]]]]].
  { exfalso. apply (find_In_none _ _ d Hinst Hold).
    now apply String.eqb_eq. }
  assert (inst' = inst) as ->.
  { apply (first_with_key_unique inst' inst _ Hfirst' Hfirst).
    destruct Hm as [Hr _]. fold ror. congruence. }
  destruct Hm as [_ [Hn [Hc Hs]]].
  unfold country_ref in Hc. rewrite Hcode in Hc. fold code in Hc.
  destruct (Hs Hcode) as [c Hcf]. fold code in Hcf.
  destruct (find_some _ _ Hcf) as [Hcin Hck]. apply String.eqb_eq in Hck.
  assert (Hcd : c = mkCountryDoc code code).
  { destruct (N c Hcin) as [Hold|Hname].
    - exfalso. apply (find_In_none _ _ c Hcountry Hold).
      now apply String.eqb_eq.
    - rewrite Hck in Hname. specialize (Hname Hfail).
      destruct c as [ci cn]. simpl in *. now subst. }
  subst c. split; [exact Hcf|].
  exists (i_id d).
  assert (Hdd : d = mkInstitutionDoc (i_id d) (ri_display_name inst) ror
                                     (Some code)).
  { destruct d as [di dn dr dc]. simpl in *. now subst. }
  rewrite <- Hdd. split; [exact Hd|]. split.
  - intros aff Haff Hai.
    assert (Hk : Text.truthy (ror_or_name (ra_institution aff)) = true)
      by now rewrite Hai.
    destruct (La aff Haff Hk) as [d' [Hd' Hl]].
    rewrite Hai in Hd'. fold ror in Hd'. rewrite Hd in Hd'.
    now injection Hd' as <-.
  - intros Hl. destruct (Ll inst Hl Hror) as [d' [Hd' Hl']].
    fold ror in Hd'. rewrite Hd in Hd'. now injection Hd' as <-.
Qed.

(** ** One pass over a page *)

Lemma generate_unique_slug_fresh U name col reserved :
  exists slug,
    _generate_unique_slug U name col (Some reserved) = Some slug /\
    ~ In slug reserved /\ ~ In slug (stored_slugs col).
Proof.
  destruct (generate_unique_slug_first_free U name col reserved)
    as [k [E [Hfree _]]].
  eexists. split; [exact E|].
  unfold slug_taken in Hfree. apply orb_false_iff in Hfree.
  destruct Hfree as [H1 H2]. now rewrite !mem_false in *.
Qed.

Lemma page_post_stop authors st s : page_post authors st s st s.
Proof.
  split; [apply steady_refl|]. exists []. rewrite app_nil_r. simpl.
  split; [reflexivity|]. split; [lia|]. split; [intros p []|].
  split; [apply incl_refl|]. split; [intros x []|].
  split; [intros x []|constructor].
Qed.

Lemma page_post_skip a authors st s st' s' :
  page_post authors st s st' s' -> page_post (a :: authors) st s st' s'.
Proof.
  intros [Hs [docs [Hd [Hc [Ho Hrest]]]]]. split; [assumption|].
  exists docs. split; [assumption|]. split; [assumption|].
  split; [|assumption].
  intros p Hp. destruct (Ho p Hp) as [H1 [[b [Hb Hb']] H3]].
  split; [assumption|]. split; [|assumption].
  exists b. simpl. auto.
Qed.

(** Appending one mapped profile and then running the rest of the page. *)
Lemma page_post_cons author authors st s mapped reserved s1 st' s' :
  steady s s1 ->
  Text.truthy (a_orcid author) = true ->
  find (has_orcid (a_orcid author)) (researchers s) = None ->
  orcid_of mapped = a_orcid author ->
  incl (pl_reserved_slugs st) reserved ->
  incl (slug_of mapped) reserved ->
  (forall x, In x (slug_of mapped) ->
     ~ In x (pl_reserved_slugs st) /\ ~ In x (stored_slugs (researchers s))) ->
  page_post authors
    (mkPageLoop (pl_new_docs st ++ [mapped]) (pl_current_count st + 1) reserved)
    s1 st' s' ->
  page_post (author :: authors) st s st' s'.
Proof.
  intros Hs1 Ho Hf Hm Hincl Hslug Hnew
         [Hs [docs [Hd [Hc [Hdocs [Hi1 [Hi2 [Hfresh Hnd]]]]]]]].
  simpl in *. destruct Hs1 as [R1 Hs1'].
  split.
  { eapply steady_trans; [|eassumption]. split; assumption. }
  exists (mapped :: docs).
  split; [now rewrite Hd, <- app_assoc|].
  split; [simpl List.length; lia|].
  split.
  { intros p [<-|Hp].
    - rewrite Hm. split; [assumption|]. split; [|assumption].
      exists author. simpl. auto.
    - destruct (Hdocs p Hp) as [H1 [[b [Hb Hb']] H3]].
      split; [assumption|]. split; [exists b; simpl; auto|].
      now rewrite <- R1. }
  split; [eapply incl_tran; eassumption|].
  split.
  { unfold batch_slugs. simpl. apply incl_app; [|assumption].
    eapply incl_tran; eassumption. }
  split.
  { unfold batch_slugs. simpl. intros x Hx. apply in_app_or in Hx.
    destruct Hx as [Hx|Hx]; [now apply Hnew|].
    destruct (Hfresh x Hx) as [H1 H2]. rewrite R1 in H2.
    split; [|assumption]. intros Hin. apply H1. now apply Hincl. }
  unfold batch_slugs. simpl. apply NoDup_app; [| exact Hnd |].
  - unfold slug_of. destruct (p_slug mapped); repeat constructor. intros [].
  - intros x Hx Hx'. destruct (Hfresh x Hx') as [H1 _].
    apply H1. now apply Hslug.
Qed.

Lemma page_loop_ok env total_in_db inserted authors :
  forall st s,
    run_ok (page_loop env total_in_db inserted authors st) s
           (page_post authors st s).
Proof.
  induction authors as [|author authors IH]; intros st s; simpl.
  { run_step. apply page_post_stop. }
  destruct (config.SESSION_LIMIT <=? inserted);
    [run_step; apply page_post_stop|].
  destruct (config.MAX_AUTHORS <=? total_in_db + inserted);
    [run_step; apply page_post_stop|].
  destruct (config.MAX_PER_TOPIC <=? pl_current_count st);
    [run_step; apply page_post_stop|].
  destruct (Text.truthy (a_orcid author)) eqn:Ho; simpl.
  2:{ eapply run_ok_mono; [apply IH|]. intros. now apply page_post_skip. }
  repeat run_step. simpl col_get.
  destruct (find (has_orcid (a_orcid author)) (researchers s)) eqn:Hf.
  { eapply run_ok_mono; [apply IH|]. intros. now apply page_post_skip. }
  run_step.
  eapply run_ok_mono; [apply map_author_to_profile_ok|].
  intros mapped s1 [Hs1 [Hname [Horcid Hslug]]]. simpl.
  assert (Hnone : slug_of mapped = []) by (unfold slug_of; now rewrite Hslug).
  run_step.
  destruct (Text.truthy (Text.strip_ws (p_name mapped))) eqn:Hnm.
  - repeat run_step.
    destruct (generate_unique_slug_fresh (unicode env)
                (Text.strip_ws (p_name mapped))
                (researchers s1) (pl_reserved_slugs st))
      as [slug [E [Hr Hc]]].
    rewrite E.
    destruct (Text.truthy slug); run_step.
    + eapply run_ok_mono; [apply IH|]. intros st' s' Hpost.
      apply (page_post_cons author authors st s (set_slug slug mapped)
               (slug :: pl_reserved_slugs st) s1 st' s');
        try assumption.
      * apply incl_tl, incl_refl.
      * unfold slug_of. simpl. intros x [<-|[]]. simpl. auto.
      * unfold slug_of. simpl. intros x [<-|[]].
        split; [assumption|]. destruct Hs1 as [R1 _]. now rewrite <- R1.
    + eapply run_ok_mono; [apply IH|]. intros st' s' Hpost.
      apply (page_post_cons author authors st s mapped
               (pl_reserved_slugs st) s1 st' s');
        try assumption.
      * apply incl_refl.
      * rewrite Hnone. intros x [].
      * rewrite Hnone. intros x [].
  - run_step.
    eapply run_ok_mono; [apply IH|]. intros st' s' Hpost.
    apply (page_post_cons author authors st s mapped
             (pl_reserved_slugs st) s1 st' s');
      try assumption.
    + apply incl_refl.
    + rewrite Hnone. intros x [].
    + rewrite Hnone. intros x [].
Qed.

(** ** A page below the partition cap is admitted whole *)

(** The checks inside the loop read the session counter, which the loop
    does not change: when they let the first record through, and the
    partition cap leaves room, every admissible record of the page joins
    the batch. *)
Lemma page_loop_admits_all env total_in_db inserted s0 authors :
  (config.SESSION_LIMIT <=? inserted) = false ->
  (config.MAX_AUTHORS <=? total_in_db + inserted) = false ->
  (forall a, In a authors -> admissible s0 a) ->
  forall st s,
    researchers s = researchers s0 ->
    pl_current_count st + Z.of_nat (List.length authors)
      <= config.MAX_PER_TOPIC ->
    run_ok (page_loop env total_in_db inserted authors st) s
      (fun st' s' =>
         List.length (pl_new_docs st')
         = (List.length (pl_new_docs st) + List.length authors)%nat).
Proof.
  intros H1 H2. induction authors as [|a authors IH];
    intros Hadm st s R Hroom; cbn [page_loop].
  { run_step. simpl. lia. }
  rewrite H1, H2.
  assert (H3 : (config.MAX_PER_TOPIC <=? pl_current_count st) = false).
  { apply Z.leb_gt. simpl List.length in Hroom. lia. }
  rewrite H3.
  destruct (Hadm a (or_introl eq_refl)) as [Ho Hf].
  rewrite Ho. cbn [negb]. repeat run_step. cbn [col_get COL_RESEARCHERS].
  rewrite R, Hf. run_step.
  eapply run_ok_mono; [apply map_author_to_profile_ok|].
  intros mapped s1 [[R1 _] _]. cbv beta.
  assert (Hnext : forall m r,
            run_ok (page_loop env total_in_db inserted authors
                      (mkPageLoop (pl_new_docs st ++ [m])
                                  (pl_current_count st + 1) r)) s1
              (fun st' s' =>
                 List.length (pl_new_docs st')
                 = (List.length (pl_new_docs st)
                    + List.length (a :: authors))%nat)).
  { intros m r. eapply run_ok_mono; [apply IH|].
    - intros b Hb. apply Hadm. simpl. auto.
    - congruence.
    - cbn [pl_current_count]. simpl List.length in Hroom. lia.
    - intros st' s' H. cbn [pl_new_docs] in H.
      rewrite H, length_app. simpl. lia. }
  run_step.
  destruct (Text.truthy (Text.strip_ws (p_name mapped))).
  - repeat run_step.
    destruct (generate_unique_slug_fresh (unicode env)
                (Text.strip_ws (p_name mapped))
                (researchers s1) (pl_reserved_slugs st)) as [slug [E _]].
    rewrite E. destruct (Text.truthy slug); run_step; apply Hnext.
  - run_step. apply Hnext.
Qed.

(** The pass over a page whose records all mention the topic exactly once
    raises its count by the number of records appended to the batch. *)
Lemma page_loop_tracked env total_in_db inserted dn id0 cur0 authors :
  (forall a, In a authors -> mentions dn (a_topics a) = 1%nat) ->
  forall c st s,
    tracked dn id0 cur0 c s ->
    run_ok (page_loop env total_in_db inserted authors st) s
      (fun st' s' =>
         tracked dn id0 cur0
           (c + (pl_current_count st' - pl_current_count st)) s').
Proof.
  induction authors as [|author authors IH]; intros Hone c st s Ht; simpl.
  { run_step. now rewrite Z.sub_diag, Z.add_0_r. }
  assert (Hstop : tracked dn id0 cur0
                    (c + (pl_current_count st - pl_current_count st)) s)
    by now rewrite Z.sub_diag, Z.add_0_r.
  assert (Hone' : forall a, In a authors -> mentions dn (a_topics a) = 1%nat)
    by (intros a Ha; apply Hone; simpl; auto).
  destruct (config.SESSION_LIMIT <=? inserted); [now run_step|].
  destruct (config.MAX_AUTHORS <=? total_in_db + inserted); [now run_step|].
  destruct (config.MAX_PER_TOPIC <=? pl_current_count st); [now run_step|].
  destruct (Text.truthy (a_orcid author)); simpl; [|now apply IH].
  repeat run_step. cbn [col_get COL_RESEARCHERS].
  destruct (find (has_orcid (a_orcid author)) (researchers s));
    [now apply IH|].
  run_step.
  eapply run_ok_mono; [apply map_author_tracked; exact Ht|].
  intros mapped s1 [Ht1 _]. cbv beta.
  rewrite (Hone author) in Ht1 by (simpl; auto).
  assert (Hnext : forall m r,
            run_ok (page_loop env total_in_db inserted authors
                      (mkPageLoop (pl_new_docs st ++ [m])
                                  (pl_current_count st + 1) r)) s1
              (fun st' s' =>
                 tracked dn id0 cur0
                   (c + (pl_current_count st' - pl_current_count st)) s')).
  { intros m r. eapply run_ok_mono; [apply (IH Hone' _ _ _ Ht1)|].
    intros st' s' H. cbn [pl_current_count] in H.
    replace (c + (pl_current_count st' - pl_current_count st))
      with (c + Z.of_nat 1 + (pl_current_count st'
                              - (pl_current_count st + 1))) by lia.
    exact H. }
  run_step.
  destruct (Text.truthy (Text.strip_ws (p_name mapped))).
  - repeat run_step.
    destruct (generate_unique_slug_fresh (unicode env)
                (Text.strip_ws (p_name mapped))
                (researchers s1) (pl_reserved_slugs st)) as [slug [E _]].
    rewrite E. destruct (Text.truthy slug); run_step; apply Hnext.
  - run_step. apply Hnext.
Qed.

(** ** A page of one admissible record *)

(** The pass over a page that holds one admissible record normalizes the
    record, appends its profile to the batch and counts it; the store is
    the one normalization left. *)
Lemma page_loop_single env total_in_db inserted a cc reserved s :
  (config.SESSION_LIMIT <=? inserted) = false ->
  (config.MAX_AUTHORS <=? total_in_db + inserted) = false ->
  (config.MAX_PER_TOPIC <=? cc) = false ->
  admissible s a ->
  exists mapped s1 st,
    map_author_to_profile env a s = Ok mapped s1 /\
    page_loop env total_in_db inserted [a] (mkPageLoop [] cc reserved) s
      = Ok st s1 /\
    pl_current_count st = cc + 1 /\
    exists p, pl_new_docs st = [p].
Proof.
  intros H1 H2 H3 [Ho Hf].
  destruct (map_author_to_profile_ok env a s) as [mapped [s1 [Em _]]].
  exists mapped, s1. cbn [page_loop pl_current_count].
  rewrite H1, H2, H3, Ho. cbn [negb].
  unfold bind at 1. unfold find_document at 1. cbn [col_get COL_RESEARCHERS].
  rewrite Hf. unfold bind at 1. rewrite Em. unfold bind at 1.
  destruct (Text.truthy (Text.strip_ws (p_name mapped))).
  - unfold bind at 1. unfold get at 1.
    destruct (generate_unique_slug_fresh (unicode env)
                (Text.strip_ws (p_name mapped)) (researchers s1) reserved)
      as [slug [E _]].
    cbn [pl_reserved_slugs pl_new_docs]. rewrite E.
    destruct (Text.truthy slug); eexists; (split; [reflexivity|]);
      (split; [reflexivity|]); (split; [reflexivity|]); eexists;
      reflexivity.
  - eexists. split; [reflexivity|]. split; [reflexivity|].
    split; [reflexivity|]. eexists. reflexivity.
Qed.

(** ** The walk *)

(** [walk_loop] unfolded by one round: the events come out in the order of
    the calls. *)
Lemma walk_loop_round env script total_in_db topic_obj cursor cc reserved
    inserted s :
  walk_loop env script total_in_db topic_obj cursor cc reserved inserted s
  = walk_round
      (fun script' cursor' cc' reserved' inserted' =>
         walk_loop env script' total_in_db topic_obj cursor' cc' reserved'
                   inserted')
      env script total_in_db topic_obj cursor cc reserved inserted s.
Proof.
  unfold walk_loop, walk_round.
  destruct script as [|answer script']; cbn [walk_rounds];
    (destruct (config.SESSION_LIMIT <=? inserted); [reflexivity|]);
    (destruct (config.MAX_AUTHORS <=? total_in_db + inserted);
     [reflexivity|]);
    (destruct (config.MAX_PER_TOPIC <=? cc); [reflexivity|]);
    [reflexivity|].
  destruct answer as [|authors next]; [reflexivity|].
  destruct authors as [|a authors]; [reflexivity|].
  unfold tbind, get_authors, traced, quiet, tret, insert_new_docs,
    save_progress, traced, bind, ret.
  destruct (page_loop env total_in_db inserted (a :: authors)
              (mkPageLoop [] cc reserved) s) as [st s1|e]; [|reflexivity].
  destruct (pl_new_docs st) as [|p docs] eqn:Ed.
  - destruct (Text.truthy next); cbn [negb]; [|reflexivity].
    rewrite upsert_document_new_eq.
    destruct (walk_rounds env script' total_in_db topic_obj next
                (pl_current_count st) (pl_reserved_slugs st) inserted _)
      as [[tr [[st' ins'] scr']] s4|e]; reflexivity.
  - unfold insert_many_documents.
    destruct (Text.truthy next); cbn [negb]; [|reflexivity].
    rewrite upsert_document_new_eq.
    destruct (walk_rounds env script' total_in_db topic_obj next
                (pl_current_count st) (pl_reserved_slugs st) _ _)
      as [[tr [[st' ins'] scr']] s4|e]; reflexivity.
Qed.

Lemma run_ok_walk_loop env script total_in_db topic_obj cursor cc reserved
    inserted s (Q : WalkResult -> Store -> Prop) :
  run_ok (walk_round
            (fun script' cursor' cc' reserved' inserted' =>
               walk_loop env script' total_in_db topic_obj cursor' cc'
                         reserved' inserted')
            env script total_in_db topic_obj cursor cc reserved inserted) s Q ->
  run_ok (walk_loop env script total_in_db topic_obj cursor cc reserved
                    inserted) s Q.
Proof. unfold run_ok. now rewrite walk_loop_round. Qed.

Lemma with_ids_profiles n docs :
  map r_profile (with_ids mkResearcherDoc n docs) = docs.
Proof.
  revert n. induction docs as [|p docs IH]; intros n; simpl;
    [reflexivity|now rewrite IH].
Qed.

Lemma stored_slugs_app l l' :
  stored_slugs (l ++ l') = stored_slugs l ++ stored_slugs l'.
Proof. unfold stored_slugs. apply flat_map_app. Qed.

Lemma stored_slugs_with_ids n docs :
  stored_slugs (with_ids mkResearcherDoc n docs) = batch_slugs docs.
Proof.
  revert n. induction docs as [|p docs IH]; intros n; [reflexivity|].
  unfold stored_slugs, batch_slugs in *. simpl. now rewrite IH.
Qed.

Lemma inserted_docs_app t t' :
  inserted_docs (t ++ t') = inserted_docs t ++ inserted_docs t'.
Proof. unfold inserted_docs. apply flat_map_app. Qed.

Lemma inserted_docs_committed docs : inserted_docs (committed docs) = docs.
Proof.
  destruct docs; [reflexivity|]. unfold committed, inserted_docs. simpl.
  now rewrite app_nil_r.
Qed.

(** After the progress upsert the topic's persisted cursor and count are
    the ones just written. *)
Lemma topic_sync_after_progress env dn c n s :
  topic_sync dn
    (upserted COL_TOPICS (has_display_name dn)
       (set_sync_status (progress env c n))
       (fun i => mkTopicDoc i (Some dn) None (Some (progress env c n))) s)
  = progress env c n.
Proof.
  unfold topic_sync. rewrite topics_upserted.
  destruct (existsb (has_display_name dn) (topics s)) eqn:E.
  - destruct (find_update_first (has_display_name dn)
                (set_sync_status (progress env c n)) (topics s)) as [d [_ H]];
      [intros d Hd; exact Hd|exact E|].
    now rewrite H.
  - rewrite find_app_fresh; [reflexivity|exact E|].
    unfold has_display_name. simpl. apply String.eqb_refl.
Qed.

(** The events of one page, and the store after its bulk insert. *)
Lemma commit_page docs inserted s (Q : Z * list Event -> Store -> Prop) :
  Q (inserted + Z.of_nat (List.length docs), committed docs)
    (match docs with
     | [] => s
     | _ => inserted_many COL_RESEARCHERS mkResearcherDoc docs s
     end) ->
  run_ok
    match docs with
    | [] => ret (inserted, [])
    | _ :: _ =>
        insert_many_documents COL_RESEARCHERS mkResearcherDoc docs ;;;
        ret (inserted + Z.of_nat (List.length docs), [EvInsertMany docs])
    end s Q.
Proof.
  destruct docs as [|p docs]; intros H.
  - run_step. simpl in H. now rewrite Z.add_0_r in H.
  - run_step. apply run_ok_insert_many; [discriminate|]. run_step. exact H.
Qed.

Lemma researchers_after_commit docs s :
  researchers (match docs with
               | [] => s
               | _ => inserted_many COL_RESEARCHERS mkResearcherDoc docs s
               end)
  = researchers s ++ with_ids mkResearcherDoc (next_id s) docs.
Proof. destruct docs; simpl; [now rewrite app_nil_r|reflexivity]. Qed.

Lemma walk_post_stop topic_obj cursor cc inserted s status script :
  status <> Returned ApiFailure ->
  walk_post topic_obj cursor cc inserted s
            (mkWalkResult status inserted [] script) s.
Proof.
  intros Hwhy. unfold walk_post. simpl.
  split; [auto|]. split; [now rewrite app_nil_r|].
  split; [lia|]. split; [constructor|]. split; [intros p []|].
  intros E. contradiction.
Qed.

Lemma walk_post_fetch_only topic_obj cursor cc inserted s why script :
  walk_post topic_obj cursor cc inserted s
            (mkWalkResult (Returned why) inserted
               [EvFetch (to_oa_id topic_obj) cursor] script) s.
Proof.
  unfold walk_post. simpl.
  split; [auto|]. split; [now rewrite app_nil_r|].
  split; [lia|]. split; [apply (pt_last _ _ cc cursor [])|].
  split; [intros p []|]. intros _. left. auto.
Qed.

Lemma NoDup_after_commit s s1 docs :
  NoDup (stored_slugs (researchers s)) ->
  researchers s1 = researchers s ->
  NoDup (batch_slugs docs) ->
  (forall x, In x (batch_slugs docs) -> ~ In x (stored_slugs (researchers s))) ->
  NoDup (stored_slugs
           (researchers s1 ++ with_ids mkResearcherDoc (next_id s1) docs)).
Proof.
  intros Hnd R Hb Hfresh.
  rewrite stored_slugs_app, stored_slugs_with_ids, R.
  apply NoDup_app; [assumption|assumption|].
  intros x Hx Hx'. exact (Hfresh x Hx' Hx).
Qed.

Lemma walk_loop_ok env topic_obj total_in_db script :
  forall cursor cc reserved inserted s,
    run_ok (walk_loop env script total_in_db topic_obj cursor cc reserved
                      inserted) s
           (walk_post topic_obj cursor cc inserted s).
Proof.
  induction script as [|resp script IH];
    intros cursor cc reserved inserted s; apply run_ok_walk_loop;
    unfold walk_round; simpl.
  - destruct (config.SESSION_LIMIT <=? inserted);
      [run_step; now apply walk_post_stop|].
    destruct (config.MAX_AUTHORS <=? total_in_db + inserted);
      [run_step; now apply walk_post_stop|].
    destruct (config.MAX_PER_TOPIC <=? cc);
      [run_step; now apply walk_post_stop|].
    run_step. now apply walk_post_stop.
  - destruct (config.SESSION_LIMIT <=? inserted);
      [run_step; now apply walk_post_stop|].
    destruct (config.MAX_AUTHORS <=? total_in_db + inserted);
      [run_step; now apply walk_post_stop|].
    destruct (config.MAX_PER_TOPIC <=? cc);
      [run_step; now apply walk_post_stop|].
    destruct resp as [|authors next];
      [run_step; now apply walk_post_fetch_only|].
    destruct authors as [|a authors];
      [run_step; now apply walk_post_fetch_only|].
    run_step.
    eapply run_ok_mono; [apply page_loop_ok|].
    intros st s1 [Hs [docs [Hd [Hc [Hdocs [_ [_ [Hfresh Hb]]]]]]]].
    simpl in Hd, Hc, Hfresh. destruct Hs as [R1 _].
    cbv beta. rewrite Hd. run_step. apply commit_page.
    set (s2 := match docs with
               | [] => s1
               | _ => inserted_many COL_RESEARCHERS mkResearcherDoc docs s1
               end).
    assert (R2 : researchers s2
                 = researchers s ++ with_ids mkResearcherDoc (next_id s1) docs).
    { unfold s2. now rewrite researchers_after_commit, R1. }
    assert (Hnd2 : NoDup (stored_slugs (researchers s)) ->
                   NoDup (stored_slugs (researchers s2))).
    { intros Hnd. rewrite R2, <- R1.
      apply (NoDup_after_commit s); try assumption.
      intros x Hx. now apply Hfresh. }
    assert (Hor : forall p, In p docs -> Text.truthy (orcid_of p) = true).
    { intros p Hp. now apply Hdocs. }
    destruct (Text.truthy next) eqn:Hnext; simpl.
    + repeat run_step.
      match goal with |- context [upserted ?c ?f ?u ?fr s2] =>
        pose proof (upserted_topics_frame f u fr s2) as Hfr;
        set (s3 := upserted c f u fr s2) in *
      end.
      cbv zeta in Hfr. destruct Hfr as [R3 _].
      eapply run_ok_mono; [apply IH|].
      intros r s' [Hn' [Hr' [Hi' [Ht' [Ho' Hf']]]]].
      run_step. unfold walk_post, before. cbn [w_trace w_inserted w_status].
      split; [intros Hnd; apply Hn'; rewrite R3; auto|].
      assert (Hdocs' :
        inserted_docs
          ((EvFetch (to_oa_id topic_obj) cursor
            :: committed docs
               ++ [EvSaveProgress (to_display_name topic_obj) next
                     (pl_current_count st)]) ++ w_trace r)
        = docs ++ inserted_docs (w_trace r)).
      { rewrite inserted_docs_app. f_equal.
        change (inserted_docs (committed docs ++ [EvSaveProgress
                  (to_display_name topic_obj) next (pl_current_count st)])
                = docs).
        rewrite inserted_docs_app, inserted_docs_committed. simpl.
        now rewrite app_nil_r. }
      rewrite Hdocs'.
      split.
      { rewrite Hr', R3, R2, map_app, with_ids_profiles.
        now rewrite app_assoc. }
      split; [rewrite Hi', length_app; lia|].
      split.
      { rewrite Hc. simpl. rewrite <- app_assoc. simpl.
        apply pt_page; [assumption|]. now rewrite <- Hc. }
      split.
      { intros p Hp. apply in_app_or in Hp. destruct Hp; auto. }
      intros Hst. right. split.
      { simpl. intros E. injection E as E.
        apply (f_equal (@List.length Event)) in E.
        rewrite !length_app in E. simpl in E. lia. }
      destruct (Hf' Hst) as [[Et Es]|[_ [pre [c [Et Ec]]]]].
      * exists (EvFetch (to_oa_id topic_obj) cursor
                :: committed docs
                   ++ [EvSaveProgress (to_display_name topic_obj) next
                         (pl_current_count st)]), next.
        rewrite Et. split; [reflexivity|]. subst s'.
        unfold stored_cursor, s3. now rewrite topic_sync_after_progress.
      * exists ((EvFetch (to_oa_id topic_obj) cursor
                 :: committed docs
                    ++ [EvSaveProgress (to_display_name topic_obj) next
                          (pl_current_count st)]) ++ pre), c.
        rewrite Et. split; [now rewrite app_assoc|assumption].
    + run_step. unfold walk_post. cbn [w_trace w_inserted w_status].
      assert (Hdocs' :
        inserted_docs (EvFetch (to_oa_id topic_obj) cursor :: committed docs)
        = docs).
      { change (inserted_docs (committed docs) = docs).
        apply inserted_docs_committed. }
      rewrite Hdocs'.
      split; [assumption|].
      split; [now rewrite R2, map_app, with_ids_profiles|].
      split; [reflexivity|]. split; [apply pt_last|].
      split; [assumption|]. discriminate.
Qed.

Lemma fetch_authors_for_topic_ok env script topic_obj inserted s :
  run_ok (fetch_authors_for_topic env script topic_obj inserted) s
    (walk_post topic_obj
       (stored_cursor (to_display_name topic_obj) s)
       (stored_count (to_display_name topic_obj) s) inserted s).
Proof.
  unfold fetch_authors_for_topic. repeat run_step.
  destruct (config.MAX_AUTHORS <=? _);
    [run_step; now apply walk_post_stop|].
  destruct (config.SESSION_LIMIT <=? inserted);
    [run_step; now apply walk_post_stop|].
  repeat run_step. simpl col_get.
  fold (topic_sync (to_display_name topic_obj) s).
  fold (stored_count (to_display_name topic_obj) s).
  fold (stored_cursor (to_display_name topic_obj) s).
  destruct (config.MAX_PER_TOPIC <=? _);
    [run_step; now apply walk_post_stop|].
  apply walk_loop_ok.
Qed.

(** Below the caps [fetch_authors_for_topic] enters the loop with the
    cursor and the count the store holds for the topic. *)
Lemma fetch_authors_below_caps env script topic_obj inserted s :
  Z.of_nat (List.length (researchers s)) < config.MAX_AUTHORS ->
  inserted < config.SESSION_LIMIT ->
  stored_count (to_display_name topic_obj) s < config.MAX_PER_TOPIC ->
  fetch_authors_for_topic env script topic_obj inserted s
  = walk_loop env script (Z.of_nat (List.length (researchers s))) topic_obj
      (stored_cursor (to_display_name topic_obj) s)
      (stored_count (to_display_name topic_obj) s) [] inserted s.
Proof.
  intros H1 H2 H3. apply Z.leb_gt in H1, H2, H3.
  unfold fetch_authors_for_topic, bind, count_documents.
  cbn [col_get COL_RESEARCHERS]. rewrite H1, H2.
  unfold find_document. cbn [col_get COL_TOPICS]. cbv zeta.
  fold (topic_sync (to_display_name topic_obj) s).
  fold (stored_count (to_display_name topic_obj) s).
  fold (stored_cursor (to_display_name topic_obj) s).
  now rewrite H3.
Qed.

(** A walk's first event, if it has one, is the request with the cursor
    it started from. *)
Lemma page_trace_head oa dn n c t :
  page_trace oa dn n c t -> t = [] \/ exists tl, t = EvFetch oa c :: tl.
Proof. intros H. destruct H; eauto. Qed.

Lemma inserted_docs_fetch oa c t :
  inserted_docs (EvFetch oa c :: t) = inserted_docs t.
Proof. reflexivity. Qed.

(** Every progress upsert of a trace carries the start count plus the
    number of documents inserted before it. *)
Lemma page_trace_counts oa dn n c t :
  page_trace oa dn n c t ->
  forall pre c' m post,
    t = pre ++ EvSaveProgress dn c' m :: post ->
    m = n + Z.of_nat (List.length (inserted_docs pre)).
Proof.
  induction 1 as [n c|n c docs|n c docs c1 rest Hc1 Hrest IH];
    intros pre c' m post E.
  - now destruct pre.
  - exfalso. destruct pre as [|e pre]; [discriminate|].
    injection E as _ E. destruct docs; simpl in E.
    + now destruct pre.
    + destruct pre as [|e' pre]; [discriminate|]. injection E as _ E.
      now destruct pre.
  - destruct pre as [|e pre]; [discriminate|]. injection E as <- E.
    assert (Hsplit :
      (pre = committed docs /\ c' = c1
       /\ m = n + Z.of_nat (List.length docs) /\ post = rest)
      \/ exists pre', pre = committed docs
                            ++ EvSaveProgress dn c1
                                 (n + Z.of_nat (List.length docs)) :: pre'
                      /\ rest = pre' ++ EvSaveProgress dn c' m :: post).
    { destruct docs as [|p docs]; simpl in E |- *.
      - destruct pre as [|e pre].
        + injection E as <- <- <-. left. auto.
        + injection E as <- E. right. exists pre. auto.
      - destruct pre as [|e pre]; [discriminate|]. injection E as <- E.
        destruct pre as [|e pre].
        + injection E as <- <- <-. left. auto.
        + injection E as <- E. right. exists pre. auto. }
    destruct Hsplit as [[-> [-> [-> ->]]]|[pre' [-> ->]]].
    + rewrite inserted_docs_fetch. now rewrite inserted_docs_committed.
    + rewrite (IH pre' c' m post eq_refl).
      rewrite inserted_docs_fetch, inserted_docs_app, inserted_docs_committed.
      simpl. rewrite length_app. lia.
Qed.

(** With no scripted answer left, the loop stops without an event. *)
Lemma walk_loop_nil env topic_obj total_in_db cursor cc reserved inserted s :
  exists q,
    walk_loop env [] total_in_db topic_obj cursor cc reserved inserted s
    = Ok q s /\ w_trace q = [].
Proof.
  rewrite walk_loop_round. unfold walk_round; cbn beta iota zeta.
  destruct (config.SESSION_LIMIT <=? inserted);
    [eexists; split; reflexivity|].
  destruct (config.MAX_AUTHORS <=? total_in_db + inserted);
    [eexists; split; reflexivity|].
  destruct (config.MAX_PER_TOPIC <=? cc); eexists; split; reflexivity.
Qed.

(** When the next answer is an empty page, the loop returns in the store
    it started from, after that one request or -- at a cap -- without
    one. *)
Lemma walk_loop_no_more env topic_obj total_in_db after rest cursor cc reserved
    inserted s :
  exists r why,
    walk_loop env (ApiPage [] after :: rest) total_in_db topic_obj cursor cc
              reserved inserted s
    = Ok r s /\
    w_status r = Returned why /\ w_inserted r = inserted /\
    (w_trace r = [] \/ w_trace r = [EvFetch (to_oa_id topic_obj) cursor]).
Proof.
  rewrite walk_loop_round. unfold walk_round. cbn beta iota zeta.
  destruct (config.SESSION_LIMIT <=? inserted);
    [eexists _, _; split; [reflexivity|]; cbn; auto|].
  destruct (config.MAX_AUTHORS <=? total_in_db + inserted);
    [eexists _, _; split; [reflexivity|]; cbn; auto|].
  destruct (config.MAX_PER_TOPIC <=? cc);
    eexists _, _; (split; [reflexivity|]); cbn; auto.
Qed.

Lemma run_ok_fetch_below_caps env script topic_obj inserted s
    (Q : WalkResult -> Store -> Prop) :
  Z.of_nat (List.length (researchers s)) < config.MAX_AUTHORS ->
  inserted < config.SESSION_LIMIT ->
  stored_count (to_display_name topic_obj) s < config.MAX_PER_TOPIC ->
  run_ok (walk_loop env script (Z.of_nat (List.length (researchers s)))
            topic_obj (stored_cursor (to_display_name topic_obj) s)
            (stored_count (to_display_name topic_obj) s) [] inserted) s Q ->
  run_ok (fetch_authors_for_topic env script topic_obj inserted) s Q.
Proof.
  intros H1 H2 H3. unfold run_ok.
  now rewrite fetch_authors_below_caps by assumption.
Qed.

(** One round of the loop on a page with a continuation token: the pass
    over the page, the bulk insert, the progress upsert, and then the loop
    again from the token. *)
Lemma walk_loop_page env topic_obj total_in_db a authors next script cursor cc
    reserved inserted s (Q : WalkResult -> Store -> Prop) :
  (config.SESSION_LIMIT <=? inserted) = false ->
  (config.MAX_AUTHORS <=? total_in_db + inserted) = false ->
  (config.MAX_PER_TOPIC <=? cc) = false ->
  Text.truthy next = true ->
  (forall docs reserved' s3,
     map r_profile (researchers s3) = map r_profile (researchers s) ++ docs ->
     stored_cursor (to_display_name topic_obj) s3 = next ->
     stored_count (to_display_name topic_obj) s3
       = cc + Z.of_nat (List.length docs) ->
     run_ok (walk_loop env script total_in_db topic_obj next
               (cc + Z.of_nat (List.length docs)) reserved'
               (inserted + Z.of_nat (List.length docs))) s3
       (fun r s' =>
          Q (before (EvFetch (to_oa_id topic_obj) cursor
                       :: committed docs
                       ++ [EvSaveProgress (to_display_name topic_obj) next
                             (cc + Z.of_nat (List.length docs))]) r) s')) ->
  run_ok (walk_loop env (ApiPage (a :: authors) next :: script) total_in_db
                    topic_obj cursor cc reserved inserted) s Q.
Proof.
  intros H1 H2 H3 Hnext Hk. apply run_ok_walk_loop. unfold walk_round; cbn beta iota zeta.
  rewrite H1, H2, H3.
  run_step.
  eapply run_ok_mono; [apply page_loop_ok|].
  intros st s1 [Hs [docs [Hd [Hc _]]]].
  simpl in Hd, Hc. destruct Hs as [R1 _].
  cbv beta. rewrite Hd. run_step. apply commit_page.
  rewrite Hnext. simpl negb. cbv iota. repeat run_step.
  match goal with |- context [upserted ?c ?f ?u ?fr ?s2] =>
    pose proof (upserted_topics_frame f u fr s2) as Hfr;
    pose proof (topic_sync_after_progress env (to_display_name topic_obj)
                  next (pl_current_count st) s2) as Hsync;
    set (s3 := upserted c f u fr s2) in *
  end.
  cbv zeta in Hfr. destruct Hfr as [R3 _].
  rewrite Hc.
  eapply run_ok_mono; [apply (Hk docs (pl_reserved_slugs st) s3)|].
  - rewrite R3, researchers_after_commit, map_app, with_ids_profiles.
    now rewrite R1.
  - unfold stored_cursor. now rewrite Hsync.
  - unfold stored_count. rewrite Hsync. simpl. exact Hc.
  - intros r s' HQ. run_step. exact HQ.
Qed.

(** The state right after one page with a continuation token: the page's
    documents are in the store and the progress upsert has persisted the
    token and the raised count. *)
Lemma walk_single_page env topic_obj total_in_db a authors next cursor cc
    reserved inserted s :
  (config.SESSION_LIMIT <=? inserted) = false ->
  (config.MAX_AUTHORS <=? total_in_db + inserted) = false ->
  (config.MAX_PER_TOPIC <=? cc) = false ->
  Text.truthy next = true ->
  run_ok (walk_loop env [ApiPage (a :: authors) next] total_in_db topic_obj
                    cursor cc reserved inserted) s
    (fun r s' =>
       exists docs,
         w_trace r = EvFetch (to_oa_id topic_obj) cursor
                       :: committed docs
                       ++ [EvSaveProgress (to_display_name topic_obj) next
                             (cc + Z.of_nat (List.length docs))] /\
         map r_profile (researchers s')
           = map r_profile (researchers s) ++ docs /\
         stored_cursor (to_display_name topic_obj) s' = next /\
         stored_count (to_display_name topic_obj) s'
           = cc + Z.of_nat (List.length docs)).
Proof.
  intros H1 H2 H3 Hnext. apply walk_loop_page; try assumption.
  intros docs reserved' s3 HR HC HN.
  destruct (walk_loop_nil env topic_obj total_in_db next
              (cc + Z.of_nat (List.length docs)) reserved'
              (inserted + Z.of_nat (List.length docs)) s3) as [q [Eq Et]].
  exists q, s3. split; [exact Eq|].
  exists docs. unfold before. cbn [w_trace]. rewrite Et, app_nil_r. auto.
Qed.

(** One round of the loop on a page without a continuation token: the pass
    over the page, the bulk insert, and the end of the walk. *)
Lemma walk_loop_last_page env topic_obj total_in_db a authors script cursor cc
    reserved inserted s (P : PageLoop -> Store -> Prop)
    (Q : WalkResult -> Store -> Prop) :
  (config.SESSION_LIMIT <=? inserted) = false ->
  (config.MAX_AUTHORS <=? total_in_db + inserted) = false ->
  (config.MAX_PER_TOPIC <=? cc) = false ->
  run_ok (page_loop env total_in_db inserted (a :: authors)
            (mkPageLoop [] cc reserved)) s P ->
  (forall st s1,
     P st s1 ->
     Q (mkWalkResult (Returned NoNextCursor)
          (inserted + Z.of_nat (List.length (pl_new_docs st)))
          (EvFetch (to_oa_id topic_obj) cursor :: committed (pl_new_docs st))
          script)
       (match pl_new_docs st with
        | [] => s1
        | _ => inserted_many COL_RESEARCHERS mkResearcherDoc
                 (pl_new_docs st) s1
        end)) ->
  run_ok (walk_loop env (ApiPage (a :: authors) "" :: script) total_in_db
                    topic_obj cursor cc reserved inserted) s Q.
Proof.
  intros H1 H2 H3 Hpage Hk. apply run_ok_walk_loop. unfold walk_round; cbn beta iota zeta.
  rewrite H1, H2, H3.
  run_step. eapply run_ok_mono; [exact Hpage|].
  intros st s1 HP. cbv beta. run_step. apply commit_page.
  cbn [Text.truthy negb]. run_step. now apply Hk.
Qed.

(** ** The count of a stored topic along a walk *)

Lemma filter_update_first_self {D} (g : D -> bool) upd d l :
  filter g l = [d] ->
  g (upd d) = true ->
  filter g (update_first g upd l) = [upd d].
Proof.
  intros Hf Hg. induction l as [|x l IH]; simpl in *; [discriminate|].
  destruct (g x) eqn:Hx.
  - injection Hf as -> Hnil. simpl. now rewrite Hg, Hnil.
  - simpl. rewrite Hx. now apply IH.
Qed.

(** The progress upsert on the tracked topic itself writes its cursor and
    count. *)
Lemma tracked_after_progress_same env dn id0 cur c next n s :
  tracked dn id0 cur c s ->
  tracked dn id0 (Some next) n
    (upserted COL_TOPICS (has_display_name dn)
       (set_sync_status (progress env next n))
       (fun i => mkTopicDoc i (Some dn) None (Some (progress env next n))) s).
Proof.
  intros [[Hnd Hb] [d [ss [Hf [Hid [Hss [Htr [Hcur Hc]]]]]]]].
  destruct (tracked_in_topics _ _ _ Hf) as [Hin Hname].
  match goal with |- context [upserted COL_TOPICS ?f ?u ?fr s] =>
    destruct (upserted_topics_update f u fr s) as [Ht Hn];
    [eapply existsb_In; eassumption|]
  end.
  unfold tracked, wf_topics. rewrite Ht, Hn, update_first_ids.
  split; [split; assumption|].
  exists (set_sync_status (progress env next n) d), (progress env next n).
  split.
  { apply filter_update_first_self; [exact Hf|exact Hname]. }
  repeat split. exact Hid.
Qed.

(** The progress upsert on another topic leaves the tracked one alone. *)
Lemma tracked_after_progress_other env dn id0 cur c other next n s :
  other <> dn ->
  tracked dn id0 cur c s ->
  tracked dn id0 cur c
    (upserted COL_TOPICS (has_display_name other)
       (set_sync_status (progress env next n))
       (fun i => mkTopicDoc i (Some other) None
                   (Some (progress env next n))) s).
Proof.
  intros Hne [[Hnd Hb] [d [ss [Hf H]]]].
  unfold tracked, wf_topics, upserted. cbn [col_get COL_TOPICS].
  destruct (existsb (has_display_name other) (topics s)) eqn:Hex;
    cbn [topics next_id bump col_set COL_TOPICS].
  - rewrite update_first_ids. split; [split; assumption|].
    exists d, ss. split; [|exact H].
    rewrite filter_update_first_other; [exact Hf| |reflexivity].
    intros x _ Hx. apply has_display_name_true in Hx.
    unfold has_display_name. rewrite Hx.
    destruct (String.eqb_spec other dn); [contradiction|reflexivity].
  - rewrite map_app. simpl. split; [split|].
    + apply NoDup_app; [exact Hnd|repeat constructor; intros []|].
      intros i Hi [<-|[]]. apply Hb in Hi. lia.
    + intros i Hi. apply in_app_or in Hi. destruct Hi as [Hi|[<-|[]]].
      * apply Hb in Hi. lia.
      * lia.
    + exists d, ss. split; [|exact H].
      rewrite filter_app, Hf. simpl. unfold has_display_name at 1. simpl.
      destruct (String.eqb_spec other dn); [contradiction|reflexivity].
Qed.

Lemma tracked_after_commit dn id0 cur c docs s :
  tracked dn id0 cur c s ->
  tracked dn id0 cur c
    (match docs with
     | [] => s
     | _ => inserted_many COL_RESEARCHERS mkResearcherDoc docs s
     end).
Proof.
  intros H. destruct docs as [|p docs]; [exact H|].
  apply (tracked_same_topics dn id0 cur c s); [reflexivity| |exact H].
  simpl. lia.
Qed.

(** Along a walk whose records all mention the topic exactly once, the
    stored count of the topic is its count at the start plus the number of
    documents inserted so far. *)
Lemma walk_loop_tracked env topic_obj total_in_db dn id0 script :
  all_mention_once dn script ->
  forall cursor cc reserved inserted cur c s,
    tracked dn id0 cur c s ->
    (to_display_name topic_obj = dn -> cc = c) ->
    run_ok (walk_loop env script total_in_db topic_obj cursor cc reserved
                      inserted) s
      (fun r s' =>
         exists cur',
           tracked dn id0 cur'
             (c + Z.of_nat (List.length (inserted_docs (w_trace r)))) s').
Proof.
  induction script as [|resp script IH];
    intros Hall cursor cc reserved inserted cur c s Ht Hcc.
  - destruct (walk_loop_nil env topic_obj total_in_db cursor cc reserved
                inserted s) as [q [E Et]].
    exists q, s. split; [exact E|]. exists cur. rewrite Et. simpl.
    now rewrite Z.add_0_r.
  - assert (Hstop : exists cur',
              tracked dn id0 cur' (c + Z.of_nat (@List.length Profile [])) s).
    { exists cur. simpl. now rewrite Z.add_0_r. }
    assert (Hall' : all_mention_once dn script).
    { intros authors next a Hin Ha.
      apply (Hall authors next a); simpl; auto. }
    apply run_ok_walk_loop. unfold walk_round; cbn beta iota zeta.
    destruct (config.SESSION_LIMIT <=? inserted); [now run_step|].
    destruct (config.MAX_AUTHORS <=? total_in_db + inserted); [now run_step|].
    destruct (config.MAX_PER_TOPIC <=? cc); [now run_step|].
    destruct resp as [|authors next]; [now run_step|].
    destruct authors as [|a authors]; [now run_step|].
    run_step.
    eapply run_ok_mono;
      [apply run_ok_and;
       [apply page_loop_ok
       |apply (page_loop_tracked env total_in_db inserted dn id0 cur
                 (a :: authors)); [|exact Ht]]|].
    { intros b Hb. apply (Hall (a :: authors) next); simpl; auto. }
    intros st s1 [[_ [docs [Hd [Hn _]]]] Ht1].
    cbn [pl_new_docs pl_current_count app] in Hd, Hn, Ht1.
    cbv beta. rewrite Hd. run_step. apply commit_page.
    pose proof (tracked_after_commit dn id0 cur _ docs s1 Ht1) as Ht2.
    replace (c + (pl_current_count st - cc))
      with (c + Z.of_nat (List.length docs)) in Ht2 by lia.
    destruct (Text.truthy next); cbn [negb].
    + repeat run_step.
      assert (Ht3 : exists cur3,
                tracked dn id0 cur3 (c + Z.of_nat (List.length docs))
                  (upserted COL_TOPICS
                     (has_display_name (to_display_name topic_obj))
                     (set_sync_status (progress env next (pl_current_count st)))
                     (fun i => mkTopicDoc i (Some (to_display_name topic_obj))
                                 None
                                 (Some (progress env next
                                          (pl_current_count st))))
                     match docs with
                     | [] => s1
                     | _ :: _ =>
                         inserted_many COL_RESEARCHERS mkResearcherDoc docs s1
                     end)).
      { destruct (String.eqb_spec (to_display_name topic_obj) dn) as [E|Hne].
        - exists (Some next). rewrite E.
          replace (c + Z.of_nat (List.length docs))
            with (pl_current_count st) by (rewrite Hn, (Hcc E); lia).
          eapply tracked_after_progress_same. exact Ht2.
        - exists cur. now apply tracked_after_progress_other. }
      destruct Ht3 as [cur3 Ht3].
      eapply run_ok_mono; [apply (IH Hall' _ _ _ _ _ _ _ Ht3)|].
      * intros E. rewrite Hn, (Hcc E). reflexivity.
      * intros r s' [cur' Ht']. run_step. exists cur'.
        unfold before. cbn [w_trace].
        rewrite inserted_docs_app, inserted_docs_fetch, inserted_docs_app,
                inserted_docs_committed.
        change (inserted_docs [EvSaveProgress (to_display_name topic_obj) next
                                 (pl_current_count st)])
          with (@nil Profile).
        rewrite app_nil_r, length_app, Nat2Z.inj_add, Z.add_assoc.
        exact Ht'.
    + run_step. exists cur. cbn [w_trace].
      rewrite inserted_docs_fetch, inserted_docs_committed. exact Ht2.
Qed.

Lemma fetch_authors_tracked env topic_obj dn id0 cur c script inserted s :
  all_mention_once dn script ->
  tracked dn id0 cur c s ->
  run_ok (fetch_authors_for_topic env script topic_obj inserted) s
    (fun r s' =>
       exists cur',
         tracked dn id0 cur'
           (c + Z.of_nat (List.length (inserted_docs (w_trace r)))) s').
Proof.
  intros Hall Ht.
  assert (Hstop : exists cur',
            tracked dn id0 cur' (c + Z.of_nat (@List.length Profile [])) s).
  { exists cur. simpl. now rewrite Z.add_0_r. }
  unfold fetch_authors_for_topic. repeat run_step.
  destruct (config.MAX_AUTHORS <=? _); [now run_step|].
  destruct (config.SESSION_LIMIT <=? inserted); [now run_step|].
  repeat run_step. cbn [col_get COL_TOPICS].
  fold (topic_sync (to_display_name topic_obj) s).
  fold (stored_count (to_display_name topic_obj) s).
  fold (stored_cursor (to_display_name topic_obj) s).
  destruct (config.MAX_PER_TOPIC <=? _); [now run_step|].
  apply (walk_loop_tracked env topic_obj _ dn id0 script Hall _ _ _ _ cur c s Ht).
  intros E. rewrite E. now destruct (tracked_stored _ _ _ _ _ Ht).
Qed.

(** ** The loop of [main] *)

Lemma run_topics_ok env fetch_topics :
  forall script inserted s,
    run_ok (run_topics env script fetch_topics inserted) s (fun _ _ => True).
Proof.
  induction fetch_topics as [|t ts IH]; intros script inserted s; simpl.
  - now run_step.
  - run_step.
    eapply run_ok_mono; [apply fetch_authors_for_topic_ok|].
    intros r s' _. simpl. destruct (w_status r).
    + run_step. eapply run_ok_mono; [apply IH|].
      intros r' s'' _. now run_step.
    + now run_step.
Qed.

(** After a walk that returned, the run goes on with the next topic, from
    the store, the counter and the answers the walk left. *)
Lemma run_topics_next env script topic_obj topics_after inserted s r s' why :
  fetch_authors_for_topic env script topic_obj inserted s = Ok r s' ->
  w_status r = Returned why ->
  run_ok (run_topics env script (topic_obj :: topics_after) inserted) s
    (fun rr s'' =>
       exists rr',
         run_topics env (w_script r) topics_after (w_inserted r) s'
           = Ok rr' s'' /\
         rr_finished rr = rr_finished rr' /\
         rr_inserted rr = rr_inserted rr' /\
         rr_trace rr = w_trace r ++ rr_trace rr').
Proof.
  intros E Hst.
  destruct (run_topics_ok env topics_after (w_script r) (w_inserted r) s')
    as [rr' [s'' [E' _]]].
  eexists _, s''. split.
  - simpl. unfold bind at 1. rewrite E, Hst. unfold bind. rewrite E'.
    reflexivity.
  - exists rr'. simpl. auto.
Qed.

(* ================================================================= *)
(** * The claims *)

(** ** C6: slug derivation and allocation *)

(** C6.  The slug of a name is the string of its words joined by single
    hyphens, where the words are what is left of the lowercased name, once
    every character that is neither a word character, whitespace nor a
    hyphen is dropped, between its runs of whitespace and hyphens: each
    word is not empty and made of word characters only, so the slug holds
    word characters and hyphens only, no two hyphens in a row, and no
    hyphen in front or behind.  [_generate_unique_slug] always returns,
    and returns the first of [base], [base-1], [base-2], ... that is
    neither reserved nor stored; in particular the second of two names
    with the same base gets [base-1].  A walk that starts from a store
    whose slugs are pairwise distinct leaves them pairwise distinct,
    whatever the catalog answers. *)
Theorem C6_slug_allocation :
  forall env script topic_obj inserted s U name col reserved,
    NoDup (stored_slugs (researchers s)) ->
    (let cs := Text.join [Text.hyphen] (slug_words U name) in
     _generate_slug U name = Text.encode cs /\
     Forall (fun w => w <> [] /\
                      Forall (fun c => Text.is_word U c = true /\
                                       slug_sep c = false) w)
            (slug_words U name) /\
     Forall (fun c => c = Text.hyphen \/
                      (Text.is_word U c = true /\ Text.is_space c = false))
            cs /\
     (forall pre post, cs <> pre ++ Text.hyphen :: Text.hyphen :: post) /\
     (forall t, cs <> Text.hyphen :: t) /\
     (forall t, cs <> t ++ [Text.hyphen])) /\
    (exists k,
       _generate_unique_slug U name col (Some reserved)
         = Some (candidate (_generate_slug U name) k) /\
       slug_taken col reserved (candidate (_generate_slug U name) k) = false /\
       forall i, (i < k)%nat ->
         slug_taken col reserved (candidate (_generate_slug U name) i) = true) /\
    (slug_taken col reserved (_generate_slug U name) = true ->
     slug_taken col reserved (_generate_slug U name +++ "-1") = false ->
     _generate_unique_slug U name col (Some reserved)
       = Some (_generate_slug U name +++ "-1")) /\
    run_ok (fetch_authors_for_topic env script topic_obj inserted) s
      (fun _ s' => NoDup (stored_slugs (researchers s'))).
Proof.
  intros env script topic_obj inserted s U name col reserved Hnd.
  split.
  { cbv zeta. split; [apply generate_slug_words|].
    split; [apply slug_words_spec|]. apply slug_words_shape. }
  split; [apply generate_unique_slug_first_free|].
  split.
  - intros Htaken Hfree.
    destruct (generate_unique_slug_first_free U name col reserved)
      as [k [E [Hk Hlt]]].
    rewrite E. f_equal.
    destruct k as [|[|k]].
    + simpl in Hk. congruence.
    + reflexivity.
    + specialize (Hlt 1%nat ltac:(lia)).
      change (candidate (_generate_slug U name) 1)
        with (_generate_slug U name +++ "-1") in Hlt.
      congruence.
  - eapply run_ok_mono; [apply fetch_authors_for_topic_ok|].
    intros r s' [H _]. auto.
Qed.

(** The scenario of the specification: "Jane Doe" and "Jane  Doe!!" arrive
    in one page; the first gets [jane-doe], the second [jane-doe-1].  The
    words of "Jane  Doe!!" are [jane] and [doe]; beyond ASCII, the slug of
    "José García" is [josé-garcía]. *)
Lemma C6_witness :
  NoDup (stored_slugs (researchers ex_store)) /\
  slug_words ex_unicode "Jane  Doe!!"
    = [Text.decode "jane"; Text.decode "doe"] /\
  _generate_slug ex_unicode "Jane  Doe!!" = "jane-doe" /\
  _generate_slug ex_unicode "José García" = "josé-garcía" /\
  _generate_unique_slug ex_unicode "Jane  Doe!!" [] (Some ["jane-doe"])
    = Some "jane-doe-1" /\
  run_ok (fetch_authors_for_topic ex_env
            [ApiPage [ex_author "0000-0001" "Jane Doe" [] [];
                      ex_author "0000-0002" "Jane  Doe!!" [] []] ""]
            ex_topic_obj 0) ex_store
    (fun _ s' => map (fun d => p_slug (r_profile d)) (researchers s')
                 = [Some "jane-doe"; Some "jane-doe-1"] /\
                 NoDup (stored_slugs (researchers s'))).
Proof.
  assert (Hnd : NoDup (stored_slugs (researchers ex_store)))
    by (simpl; constructor).
  split; [exact Hnd|]. split; [reflexivity|].
  destruct (C6_slug_allocation ex_env
              [ApiPage [ex_author "0000-0001" "Jane Doe" [] [];
                        ex_author "0000-0002" "Jane  Doe!!" [] []] ""]
              ex_topic_obj 0 ex_store ex_unicode "Jane  Doe!!" []
              ["jane-doe"] Hnd)
    as [[H0 _] [_ [H1 H2]]].
  split; [rewrite H0; reflexivity|].
  split; [reflexivity|].
  split; [apply H1; reflexivity|].
  apply run_ok_and; [|exact H2].
  eexists _, _. split; [vm_compute; reflexivity|reflexivity].
Defined.

(** ** C7: the progress upsert comes after the bulk insert *)

(** C7, as amended.  In every walk the events come page by page: the
    request, then the bulk insert of the page's documents, then -- when
    the page carries a continuation token -- the progress upsert with that
    token; a progress upsert never precedes the insert of its page, and its
    count is the count the walk started from plus the number of documents
    inserted before it.  When a page with a token is followed by an empty
    page, the walk returns, and the token and the raised count are what
    the store holds for the topic, beside the page's documents.  A page
    without a token (the last page of a stream) is inserted and ends the
    walk without a progress upsert: the store is the one the pass over the
    page left, with the batch inserted, and its topics are as the pass left
    them. *)
Theorem C7_progress_after_insert :
  forall env topic_obj inserted s a authors next after rest,
    0 <= inserted < config.SESSION_LIMIT ->
    Z.of_nat (List.length (researchers s)) + inserted < config.MAX_AUTHORS ->
    stored_count (to_display_name topic_obj) s < config.MAX_PER_TOPIC ->
    (forall script,
       run_ok (fetch_authors_for_topic env script topic_obj inserted) s
         (fun r _ =>
            page_trace (to_oa_id topic_obj) (to_display_name topic_obj)
              (stored_count (to_display_name topic_obj) s)
              (stored_cursor (to_display_name topic_obj) s) (w_trace r) /\
            forall pre c m post,
              w_trace r
                = pre ++ EvSaveProgress (to_display_name topic_obj) c m :: post ->
              m = stored_count (to_display_name topic_obj) s
                  + Z.of_nat (List.length (inserted_docs pre)))) /\
    (Text.truthy next = true ->
     run_ok (fetch_authors_for_topic env
               (ApiPage (a :: authors) next :: ApiPage [] after :: rest)
               topic_obj inserted) s
       (fun r s' =>
          exists docs why tail,
            w_status r = Returned why /\
            w_trace r
              = EvFetch (to_oa_id topic_obj)
                        (stored_cursor (to_display_name topic_obj) s)
                  :: committed docs
                  ++ EvSaveProgress (to_display_name topic_obj) next
                       (stored_count (to_display_name topic_obj) s
                        + Z.of_nat (List.length docs))
                     :: tail /\
            (tail = [] \/ tail = [EvFetch (to_oa_id topic_obj) next]) /\
            map r_profile (researchers s')
              = map r_profile (researchers s) ++ docs /\
            stored_cursor (to_display_name topic_obj) s' = next /\
            stored_count (to_display_name topic_obj) s'
              = stored_count (to_display_name topic_obj) s
                + Z.of_nat (List.length docs))) /\
    exists st s1,
      page_loop env (Z.of_nat (List.length (researchers s))) inserted
        (a :: authors)
        (mkPageLoop [] (stored_count (to_display_name topic_obj) s) []) s
      = Ok st s1 /\
      let s2 := match pl_new_docs st with
                | [] => s1
                | _ => inserted_many COL_RESEARCHERS mkResearcherDoc
                         (pl_new_docs st) s1
                end in
      fetch_authors_for_topic env (ApiPage (a :: authors) "" :: rest)
        topic_obj inserted s
      = Ok (mkWalkResult (Returned NoNextCursor)
              (inserted + Z.of_nat (List.length (pl_new_docs st)))
              (EvFetch (to_oa_id topic_obj)
                       (stored_cursor (to_display_name topic_obj) s)
                 :: committed (pl_new_docs st))
              rest) s2 /\
      topics s2 = topics s1 /\
      map r_profile (researchers s2)
        = map r_profile (researchers s) ++ pl_new_docs st.
Proof.
  intros env topic_obj inserted s a authors next after rest Hins Hdb Htopic.
  assert (E2 : (config.SESSION_LIMIT <=? inserted) = false)
    by (apply Z.leb_gt; lia).
  assert (E2' : (config.MAX_AUTHORS
                 <=? Z.of_nat (List.length (researchers s)) + inserted) = false)
    by (apply Z.leb_gt; lia).
  assert (E3 : (config.MAX_PER_TOPIC
                <=? stored_count (to_display_name topic_obj) s) = false)
    by (apply Z.leb_gt; lia).
  split; [|split].
  - intros script.
    eapply run_ok_mono; [apply fetch_authors_for_topic_ok|].
    intros r s' [_ [_ [_ [Ht _]]]]. split; [exact Ht|].
    intros pre c m post E. eapply page_trace_counts; eassumption.
  - intros Hnext. apply run_ok_fetch_below_caps; [lia..|].
    apply walk_loop_page; try assumption.
    intros docs reserved' s3 HR HC HN.
    destruct (walk_loop_no_more env topic_obj
                (Z.of_nat (List.length (researchers s))) after rest next
                (stored_count (to_display_name topic_obj) s
                 + Z.of_nat (List.length docs)) reserved'
                (inserted + Z.of_nat (List.length docs)) s3)
      as [r [why [E [Hst [_ Htr]]]]].
    exists r, s3. split; [exact E|].
    exists docs, why, (w_trace r). unfold before. cbn [w_status w_trace].
    split; [exact Hst|]. split.
    { change (?x :: ?l ++ [?e]) with ((x :: l) ++ [e]).
      rewrite <- app_assoc. reflexivity. }
    auto.
  - destruct (page_loop_ok env (Z.of_nat (List.length (researchers s)))
                inserted (a :: authors)
                (mkPageLoop [] (stored_count (to_display_name topic_obj) s) [])
                s) as [st [s1 [E [[R1 _] _]]]].
    exists st, s1. split; [exact E|]. cbv zeta. split; [|split].
    + rewrite fetch_authors_below_caps by lia.
      rewrite walk_loop_round. unfold walk_round. cbn beta iota zeta.
      rewrite E2, E2', E3. unfold bind at 1. rewrite E.
      destruct (pl_new_docs st);
        [change (Z.of_nat (@List.length Profile [])) with 0;
         rewrite Z.add_0_r|];
        reflexivity.
    + destruct (pl_new_docs st); reflexivity.
    + rewrite researchers_after_commit, map_app, with_ids_profiles.
      now rewrite R1.
Qed.

(** One record arrives in a page with the token ["IlsxNjA5"], and the
    next page is empty: the walk returns; the record is stored, and the
    topic's checkpoint holds the token and the count 1. *)
Lemma C7_witness :
  run_ok (fetch_authors_for_topic ex_env
            [ApiPage [ex_author "0000-0001" "Jane Doe" [] []] "IlsxNjA5";
             ApiPage [] ""]
            ex_topic_obj 0) ex_store
    (fun r s' =>
       w_status r = Returned NoMoreAuthors /\
       (exists doc,
          w_trace r
            = [EvFetch "T10001" "*"; EvInsertMany [doc];
               EvSaveProgress "Machine Learning" "IlsxNjA5" 1;
               EvFetch "T10001" "IlsxNjA5"] /\
          map r_profile (researchers s') = [doc]) /\
       stored_cursor "Machine Learning" s' = "IlsxNjA5" /\
       stored_count "Machine Learning" s' = 1).
Proof.
  destruct (C7_progress_after_insert ex_env ex_topic_obj 0 ex_store
              (ex_author "0000-0001" "Jane Doe" [] []) [] "IlsxNjA5" "" [])
    as [_ [H _]].
  - unfold config.SESSION_LIMIT. lia.
  - unfold config.MAX_AUTHORS. simpl. lia.
  - unfold config.MAX_PER_TOPIC. vm_compute. reflexivity.
  - destruct (H eq_refl) as [r [s' [E _]]].
    exists r, s'. split; [exact E|].
    vm_compute in E. injection E as <- <-.
    split; [reflexivity|]. split; [|split; reflexivity].
    eexists. split; reflexivity.
Defined.

(** C7 as stated fails on the last page of a stream: the page's record is
    inserted, yet no progress is written -- the stored count of the topic
    is still 0 and the stored cursor still ["*"]. *)
Lemma C7_counterexample :
  exists r s',
    fetch_authors_for_topic ex_env
      [ApiPage [ex_author "0000-0001" "Jane Doe" [] []] ""]
      ex_topic_obj 0 ex_store = Ok r s' /\
    List.length (researchers s') = 1%nat /\
    List.length (inserted_docs (w_trace r)) = 1%nat /\
    (forall c m, ~ In (EvSaveProgress "Machine Learning" c m) (w_trace r)) /\
    stored_count "Machine Learning" s' = 0 /\
    stored_cursor "Machine Learning" s' = "*".
Proof.
  eexists _, _. split; [vm_compute; reflexivity|].
  cbn [w_trace researchers]. repeat split.
  intros c m [H|[H|[]]]; discriminate.
Qed.

(** ** C8: an upstream error ends the walk at the last checkpoint *)

(** C8.  When the answer to a page request is an error, the loop returns
    at once: the request is the only event, the store and the session
    counter are as they were, no exception is raised.  For every walk that
    stopped on a failed request, the failed request is its last event and
    the cursor the store holds for the topic is the cursor of that request
    (the last one persisted, or the one the walk started from); a retried
    walk on that store returns normally and, if it requests anything,
    requests that cursor first; and the run goes on with the next topics
    from the store, the counter and the answers the failed walk left. *)
Theorem C8_api_error_ends_the_walk :
  forall env topic_obj total_in_db rest cursor cc reserved inserted s,
    (config.SESSION_LIMIT <=? inserted) = false ->
    (config.MAX_AUTHORS <=? total_in_db + inserted) = false ->
    (config.MAX_PER_TOPIC <=? cc) = false ->
    walk_loop env (ApiError :: rest) total_in_db topic_obj cursor cc reserved
              inserted s
      = Ok (mkWalkResult (Returned ApiFailure) inserted
              [EvFetch (to_oa_id topic_obj) cursor] rest) s /\
    forall script inserted0 s0 topics_after,
      run_ok (fetch_authors_for_topic env script topic_obj inserted0) s0
        (fun r s' =>
           w_status r = Returned ApiFailure ->
           failed_at_checkpoint topic_obj r s' /\
           (forall script2 inserted2,
              run_ok (fetch_authors_for_topic env script2 topic_obj inserted2)
                s'
                (fun r2 _ =>
                   w_trace r2 = [] \/
                   exists tl,
                     w_trace r2
                       = EvFetch (to_oa_id topic_obj)
                           (stored_cursor (to_display_name topic_obj) s')
                         :: tl)) /\
           run_ok (run_topics env script (topic_obj :: topics_after) inserted0)
             s0
             (fun rr s'' =>
                exists rr',
                  run_topics env (w_script r) topics_after (w_inserted r) s'
                    = Ok rr' s'' /\
                  rr_finished rr = rr_finished rr' /\
                  rr_inserted rr = rr_inserted rr' /\
                  rr_trace rr = w_trace r ++ rr_trace rr')).
Proof.
  intros env topic_obj total_in_db rest cursor cc reserved inserted s H1 H2 H3.
  split; [rewrite walk_loop_round; unfold walk_round; cbn beta iota zeta; now rewrite H1, H2, H3|].
  intros script inserted0 s0 topics_after.
  destruct (fetch_authors_for_topic_ok env script topic_obj inserted0 s0)
    as [r [s' [E [_ [_ [_ [_ [_ Hfail]]]]]]]].
  exists r, s'. split; [exact E|]. intros Hst.
  split; [|split].
  - destruct (Hfail Hst) as [[Et ->]|[_ H]]; [|exact H].
    exists [], (stored_cursor (to_display_name topic_obj) s0).
    split; [exact Et|reflexivity].
  - intros script2 inserted2.
    eapply run_ok_mono; [apply fetch_authors_for_topic_ok|].
    intros r2 s2 [_ [_ [_ [Ht _]]]]. eapply page_trace_head; eassumption.
  - eapply run_topics_next; eassumption.
Qed.

(** A page is committed with the token ["IlsxNjA5"], the next request
    fails: the store holds that token, and it is what a retry asks for. *)
Lemma C8_witness :
  walk_loop ex_env [ApiError] 0 ex_topic_obj "*" 0 [] 0 ex_store
    = Ok (mkWalkResult (Returned ApiFailure) 0 [EvFetch "T10001" "*"] [])
         ex_store /\
  run_ok (fetch_authors_for_topic ex_env
            [ApiPage [ex_author "0000-0001" "Jane Doe" [] []] "IlsxNjA5";
             ApiError] ex_topic_obj 0) ex_store
    (fun r s' =>
       w_status r = Returned ApiFailure /\
       stored_cursor "Machine Learning" s' = "IlsxNjA5" /\
       run_ok (fetch_authors_for_topic ex_env [ApiError] ex_topic_obj 1) s'
         (fun r2 _ => w_trace r2 = [EvFetch "T10001" "IlsxNjA5"])).
Proof.
  destruct (C8_api_error_ends_the_walk ex_env ex_topic_obj 0 [] "*" 0 [] 0
              ex_store eq_refl eq_refl eq_refl) as [H1 H2].
  split; [exact H1|].
  specialize (H2 [ApiPage [ex_author "0000-0001" "Jane Doe" [] []] "IlsxNjA5";
                  ApiError] 0 ex_store []).
  destruct H2 as [r [s' [E H]]].
  exists r, s'. split; [exact E|].
  vm_compute in E. injection E as <- <-.
  split; [reflexivity|]. split; [reflexivity|].
  eexists _, _. split; [vm_compute; reflexivity|reflexivity].
Defined.

(** ** C1: when the counters move *)

(** C1, as amended.  The session counter moves only with the bulk insert:
    over any walk it grows by exactly the number of researcher documents
    the walk added to the store (which are exactly the documents handed to
    the bulk inserts), every one of them with a non-empty ORCID; and every
    partition count the walk persists is the count it started from plus
    the number of documents inserted before that write.  During the pass
    over a page nothing is inserted; the in-memory partition count rises in
    step with the batch, by one per record appended to it, and is not
    raised for a record that is skipped (empty ORCID, ORCID already
    stored). *)
Theorem C1_counters_follow_commits :
  forall env script topic_obj inserted s total_in_db authors st,
    run_ok (fetch_authors_for_topic env script topic_obj inserted) s
      (fun r s' =>
         map r_profile (researchers s')
           = map r_profile (researchers s) ++ inserted_docs (w_trace r) /\
         w_inserted r - inserted
           = Z.of_nat (List.length (researchers s'))
             - Z.of_nat (List.length (researchers s)) /\
         (forall p, In p (inserted_docs (w_trace r)) ->
                    Text.truthy (orcid_of p) = true) /\
         forall pre c m post,
           w_trace r
             = pre ++ EvSaveProgress (to_display_name topic_obj) c m :: post ->
           m = stored_count (to_display_name topic_obj) s
               + Z.of_nat (List.length (inserted_docs pre))) /\
    run_ok (page_loop env total_in_db inserted authors st) s
      (fun st' s' =>
         researchers s' = researchers s /\
         exists docs,
           pl_new_docs st' = pl_new_docs st ++ docs /\
           pl_current_count st'
             = pl_current_count st + Z.of_nat (List.length docs) /\
           forall p, In p docs ->
             Text.truthy (orcid_of p) = true /\
             find (has_orcid (orcid_of p)) (researchers s) = None).
Proof.
  intros env script topic_obj inserted s total_in_db authors st. split.
  - eapply run_ok_mono; [apply fetch_authors_for_topic_ok|].
    intros r s' [_ [Hr [Hi [Ht [Ho _]]]]].
    split; [exact Hr|]. split.
    + apply (f_equal (@List.length Profile)) in Hr.
      rewrite length_app, !length_map in Hr. lia.
    + split; [exact Ho|].
      intros pre c m post E. eapply page_trace_counts; eassumption.
  - eapply run_ok_mono; [apply page_loop_ok|].
    intros st' s' [[R _] [docs [Hd [Hc [Hdocs _]]]]].
    split; [exact R|]. exists docs. split; [exact Hd|]. split; [exact Hc|].
    intros p Hp. destruct (Hdocs p Hp) as [H1 [_ H3]]. auto.
Qed.

(** C1 as stated fails: normalizing a record, which inserts nothing, has
    already raised the persisted count of the topic the record mentions. *)
Lemma C1_counterexample :
  exists p s',
    map_author_to_profile ex_env
      (ex_author "0000-0001" "Jane Doe" []
         [mkRawTopic "Machine Learning" "Computer Science"])
      ex_store = Ok p s' /\
    researchers s' = researchers ex_store /\
    stored_count "Machine Learning" ex_store = 0 /\
    stored_count "Machine Learning" s' = 1.
Proof. eexists _, _. split; [vm_compute; reflexivity|]. repeat split. Qed.

(** ** C2: the caps inside a page *)

(** C2 fails on the code.  The checks inside a page read a session
    counter that moves only with the bulk insert, so a page that is let in
    at all is admitted whole, as far as the partition cap leaves room:
    every admissible record of it is inserted and counted, even when that
    takes the session counter past [SESSION_LIMIT]. *)
Theorem C2_page_admitted_past_session_cap :
  forall env topic_obj inserted s a authors,
    0 <= inserted < config.SESSION_LIMIT ->
    Z.of_nat (List.length (researchers s)) + inserted < config.MAX_AUTHORS ->
    stored_count (to_display_name topic_obj) s
      + Z.of_nat (List.length (a :: authors)) <= config.MAX_PER_TOPIC ->
    (forall b, In b (a :: authors) -> admissible s b) ->
    run_ok (fetch_authors_for_topic env [ApiPage (a :: authors) ""]
              topic_obj inserted) s
      (fun r s' =>
         w_inserted r = inserted + Z.of_nat (List.length (a :: authors)) /\
         List.length (researchers s')
           = (List.length (researchers s) + List.length (a :: authors))%nat /\
         (config.SESSION_LIMIT
            < inserted + Z.of_nat (List.length (a :: authors)) ->
          config.SESSION_LIMIT < w_inserted r)).
Proof.
  intros env topic_obj inserted s a authors Hins Hdb Hroom Hadm.
  unfold fetch_authors_for_topic. repeat run_step. cbn [col_get COL_RESEARCHERS].
  assert (E1 : (config.MAX_AUTHORS
                <=? Z.of_nat (List.length (researchers s))) = false)
    by (apply Z.leb_gt; lia).
  assert (E2 : (config.SESSION_LIMIT <=? inserted) = false)
    by (apply Z.leb_gt; lia).
  assert (E2' : (config.MAX_AUTHORS
                 <=? Z.of_nat (List.length (researchers s)) + inserted) = false)
    by (apply Z.leb_gt; lia).
  rewrite E1, E2. repeat run_step. cbn [col_get COL_TOPICS].
  fold (topic_sync (to_display_name topic_obj) s).
  fold (stored_count (to_display_name topic_obj) s).
  fold (stored_cursor (to_display_name topic_obj) s).
  assert (E3 : (config.MAX_PER_TOPIC
                <=? stored_count (to_display_name topic_obj) s) = false).
  { apply Z.leb_gt. simpl List.length in Hroom. lia. }
  rewrite E3.
  eapply walk_loop_last_page; try assumption.
  - apply run_ok_and.
    + apply page_loop_ok.
    + apply (page_loop_admits_all env _ inserted s (a :: authors) E2 E2' Hadm);
        [reflexivity|exact Hroom].
  - intros st s1 [[[R1 _] _] Hlen]. cbn [pl_new_docs] in Hlen.
    cbn [w_inserted]. rewrite researchers_after_commit, length_app.
    assert (Hw : List.length (with_ids mkResearcherDoc (next_id s1)
                                       (pl_new_docs st))
                 = List.length (pl_new_docs st)).
    { rewrite <- (length_map r_profile), with_ids_profiles. reflexivity. }
    rewrite Hw, R1, Hlen. simpl List.length.
    split; [reflexivity|]. split; [reflexivity|]. intros H. exact H.
Qed.

(** The session counter is at 29999, one below [SESSION_LIMIT]; a page
    brings two admissible records; both are inserted and the counter ends
    at 30001. *)
Lemma C2_witness :
  run_ok (fetch_authors_for_topic ex_env
            [ApiPage [ex_author "0000-0001" "Jane Doe" [] [];
                      ex_author "0000-0002" "John Roe" [] []] ""]
            ex_topic_obj 29999) ex_store
    (fun r s' =>
       w_inserted r = 30001 /\
       List.length (researchers s') = 2%nat /\
       config.SESSION_LIMIT < w_inserted r).
Proof.
  eapply run_ok_mono.
  - apply (C2_page_admitted_past_session_cap ex_env ex_topic_obj 29999
             ex_store (ex_author "0000-0001" "Jane Doe" [] [])
             [ex_author "0000-0002" "John Roe" [] []]).
    + unfold config.SESSION_LIMIT. lia.
    + unfold config.MAX_AUTHORS. simpl. lia.
    + unfold config.MAX_PER_TOPIC. vm_compute. discriminate.
    + intros b [<-|[<-|[]]]; split; reflexivity.
  - intros r s' [H1 [H2 H3]]. cbv beta. simpl in H1, H2.
    split; [exact H1|]. split; [exact H2|].
    apply H3. unfold config.SESSION_LIMIT. simpl. lia.
Defined.

(** ** C4: ORCIDs of admitted profiles *)

(** C4 fails on the code.  Two records of one page carry the same ORCID;
    neither is stored when it is checked, so both are inserted: the
    existence check looks at the store only, not at the batch in flight. *)
Theorem C4_duplicate_orcid_in_page :
  exists r s',
    fetch_authors_for_topic ex_env
      [ApiPage [ex_author "0000-0001" "Jane Doe" [] [];
                ex_author "0000-0001" "J. Doe" [] []] ""]
      ex_topic_obj 0 ex_store = Ok r s' /\
    map (fun d => orcid_of (r_profile d)) (researchers s')
      = ["0000-0001"; "0000-0001"].
Proof. eexists _, _. split; [vm_compute; reflexivity|]. reflexivity. Qed.

(** ** C5: the search tags *)

(** C5 fails on the code.  A record with two affiliations at the same
    institution and two mentions of the same topic gets the institution
    tag twice and the topic tag twice (the country tag and the field tag
    once each). *)
Theorem C5_duplicate_tags :
  exists p s',
    map_author_to_profile ex_env
      (ex_author "0000-0001" "Jane Doe" [ex_mit; ex_mit]
         [mkRawTopic "Machine Learning" "Computer Science";
          mkRawTopic "Machine Learning" "Computer Science"]) ex_store
      = Ok p s' /\
    p_search_tags p
      = ["institution:3"; "country:US"; "institution:3";
         "field:0"; "topic:1"; "topic:1"] /\
    ~ NoDup (p_search_tags p).
Proof.
  eexists _, _. split; [vm_compute; reflexivity|].
  split; [reflexivity|]. cbn [p_search_tags]. intros H.
  inversion H as [|x l Hin _]; subst. apply Hin. simpl. auto.
Qed.

(** ** C9: a failed country lookup is not fatal *)

(** C9.  [map_author_to_profile] returns normally on every record (a
    record as the catalog sends it, its date parsed) and from every
    store, whatever the naming service answers, and it resolves
    every raw institution of the record, those of the affiliations and the
    last known ones: every country it creates that the naming service
    cannot name is named by its code; every institution it creates was
    made from the first entry with its key, with the display name of that
    entry and a reference to the country of its upper-cased code, which is
    stored; every entry with a key has its institution stored, and the
    profile references it.

    For an institution that is not stored, in a country that is not
    stored and that the naming service cannot name: a round of the
    affiliation loop that has not cached it, and likewise a round of the
    loop over the last known institutions, returns normally, creates the
    country with its display name equal to its code, creates the
    institution referencing it, and appends it to the loop's result; and
    wherever the institution comes first with its key among the raw
    institutions of a record, the mapper returns the profile and leaves
    that country and that institution stored, the profile referencing the
    institution. *)
Theorem C9_country_lookup_failure_is_not_fatal :
  forall env author s,
    run_ok (map_author_to_profile env author) s
      (fun p s' =>
         resolves env (raw_institutions author) s s' /\
         (forall aff, In aff (a_affiliations author) ->
            Text.truthy (ror_or_name (ra_institution aff)) = true ->
            exists d,
              find (fun d => String.eqb (i_ror d)
                               (ror_or_name (ra_institution aff)))
                   (institutions s') = Some d /\
              In (mkAffiliation (i_id d) (ra_years aff)) (p_affiliations p)) /\
         (forall inst, In inst (a_last_known_institutions author) ->
            Text.truthy (ror_or_name inst) = true ->
            exists d,
              find (fun d => String.eqb (i_ror d) (ror_or_name inst))
                   (institutions s') = Some d /\
              In (i_id d) (p_last_known_affiliations p))) /\
    forall inst,
      Text.truthy (ror_or_name inst) = true ->
      Text.truthy (ri_country_code inst) = true ->
      lookup_failed (restcountries env (Text.upper (ri_country_code inst))) ->
      find (fun d => String.eqb (i_ror d) (ror_or_name inst))
           (institutions s) = None ->
      find (fun d => String.eqb (c_id d) (Text.upper (ri_country_code inst)))
           (countries s) = None ->
      let ror := ror_or_name inst in
      let code := Text.upper (ri_country_code inst) in
      (forall years st,
         Dict.get ror (al_ror_to_id st) = None ->
         exists st' s' i,
           affiliation_body env (mkRawAffiliation inst years) st s
             = Ok st' s' /\
           countries s' = countries s ++ [mkCountryDoc code code] /\
           institutions s'
             = institutions s
               ++ [mkInstitutionDoc i (ri_display_name inst) ror (Some code)] /\
           al_affiliations st'
             = al_affiliations st ++ [mkAffiliation i years]) /\
      (forall ll,
         Dict.get ror (ll_ror_to_id ll) = None ->
         exists ll' s' i,
           last_known_body env inst ll s = Ok ll' s' /\
           countries s' = countries s ++ [mkCountryDoc code code] /\
           institutions s'
             = institutions s
               ++ [mkInstitutionDoc i (ri_display_name inst) ror (Some code)] /\
           ll_last_known_institutions ll'
             = ll_last_known_institutions ll ++ [i]) /\
      (first_with_key inst (raw_institutions author) ->
       run_ok (map_author_to_profile env author) s
         (fun p s' =>
            find (fun d => String.eqb (c_id d) code) (countries s')
              = Some (mkCountryDoc code code) /\
            exists i,
              find (fun d => String.eqb (i_ror d) ror) (institutions s')
                = Some (mkInstitutionDoc i (ri_display_name inst) ror
                                         (Some code)) /\
              (forall aff, In aff (a_affiliations author) ->
                 ra_institution aff = inst ->
                 In (mkAffiliation i (ra_years aff)) (p_affiliations p)) /\
              (In inst (a_last_known_institutions author) ->
               In i (p_last_known_affiliations p)))).
Proof.
  intros env author s. split; [apply map_author_resolves|].
  intros inst Hror Hcode Hfail Hinst Hcountry ror code.
  split; [|split].
  - intros years st Hcache.
    destruct (affiliation_body_creates env (mkRawAffiliation inst years) st s
                Hror Hcode Hfail Hcache Hinst Hcountry)
      as [st' [s' [i [E [C [I [A _]]]]]]].
    exists st', s', i. auto.
  - intros ll Hcache.
    destruct (last_known_body_creates env inst ll s
                Hror Hcode Hfail Hcache Hinst Hcountry)
      as [ll' [s' [i [E [C [I [A _]]]]]]].
    exists ll', s', i. auto.
  - intros Hfirst. now apply map_author_creates_at.
Qed.

(** The scenario of the specification: the naming service is down; the
    record has MIT in "us" among its affiliations and, after an entry
    without a key, the Sorbonne in "fr" as its last known institution.
    The countries "US" and "FR" are created with their codes as display
    names, both institutions are created referencing them, and the profile
    references both. *)
Lemma C9_witness :
  run_ok (map_author_to_profile ex_env
            (with_institutions [ex_mit]
               [mkRawInstitution "" "" "de";
                mkRawInstitution "https://ror.org/02en5vm52" "Sorbonne" "fr"]
               (ex_author "0000-0001" "Jane Doe" [] []))) ex_store
    (fun p s' =>
       (find (fun d => String.eqb (c_id d) "US") (countries s')
          = Some (mkCountryDoc "US" "US") /\
        exists i,
          find (fun d => String.eqb (i_ror d) "https://ror.org/042nb2s44")
               (institutions s')
            = Some (mkInstitutionDoc i "MIT" "https://ror.org/042nb2s44"
                                     (Some "US")) /\
          In (mkAffiliation i [2020; 2021]) (p_affiliations p)) /\
       (find (fun d => String.eqb (c_id d) "FR") (countries s')
          = Some (mkCountryDoc "FR" "FR") /\
        exists i,
          find (fun d => String.eqb (i_ror d) "https://ror.org/02en5vm52")
               (institutions s')
            = Some (mkInstitutionDoc i "Sorbonne" "https://ror.org/02en5vm52"
                                     (Some "FR")) /\
          In i (p_last_known_affiliations p))).
Proof.
  set (author := with_institutions [ex_mit]
                   [mkRawInstitution "" "" "de";
                    mkRawInstitution "https://ror.org/02en5vm52" "Sorbonne"
                                     "fr"]
                   (ex_author "0000-0001" "Jane Doe" [] [])).
  assert (Hdown : forall code, lookup_failed (restcountries ex_env code))
    by (intros code common; discriminate).
  apply run_ok_and.
  - destruct (proj2 (C9_country_lookup_failure_is_not_fatal ex_env author
                       ex_store)
                (ra_institution ex_mit) eq_refl eq_refl (Hdown _)
                eq_refl eq_refl) as [_ [_ H]].
    eapply run_ok_mono.
    + apply H. exists [], [mkRawInstitution "" "" "de";
                           mkRawInstitution "https://ror.org/02en5vm52"
                                            "Sorbonne" "fr"].
      split; [reflexivity|constructor].
    + intros p s' [Hc [i [Hi [Ha _]]]]. split; [exact Hc|].
      exists i. split; [exact Hi|].
      apply (Ha ex_mit); [now left|reflexivity].
  - destruct (proj2 (C9_country_lookup_failure_is_not_fatal ex_env author
                       ex_store)
                (mkRawInstitution "https://ror.org/02en5vm52" "Sorbonne" "fr")
                eq_refl eq_refl (Hdown _) eq_refl eq_refl) as [_ [_ H]].
    eapply run_ok_mono.
    + apply H. exists [ra_institution ex_mit; mkRawInstitution "" "" "de"], [].
      split; [reflexivity|]. repeat constructor; discriminate.
    + intros p s' [Hc [i [Hi [_ Hl]]]]. split; [exact Hc|].
      exists i. split; [exact Hi|]. apply Hl. simpl. auto.
Defined.

(** ** C10: institutions without a key are skipped *)

(** C10.  An affiliation, or a last known institution, whose institution
    has neither a ROR identifier nor a display name leaves the loop
    variables and the store as they are (no affiliation entry, no tag, no
    institution, no country); the mapper returns normally, with the same
    profile and the same store as for the record without these entries. *)
Theorem C10_keyless_institution_is_skipped :
  forall env author pre aff post lpre inst lpost st ll s,
    ri_ror (ra_institution aff) = "" ->
    ri_display_name (ra_institution aff) = "" ->
    ri_ror inst = "" ->
    ri_display_name inst = "" ->
    affiliation_body env aff st s = Ok st s /\
    last_known_body env inst ll s = Ok ll s /\
    map_author_to_profile env
      (with_institutions (pre ++ aff :: post) (lpre ++ inst :: lpost) author) s
    = map_author_to_profile env
        (with_institutions (pre ++ post) (lpre ++ lpost) author) s /\
    run_ok (map_author_to_profile env
              (with_institutions (pre ++ aff :: post) (lpre ++ inst :: lpost)
                                 author)) s
      (fun p s' => steady s s').
Proof.
  intros env author pre aff post lpre inst lpost st ll s Hr Hn Hr' Hn'.
  pose proof (ror_or_name_empty _ Hr Hn) as Ha.
  pose proof (ror_or_name_empty _ Hr' Hn') as Hi.
  split; [now apply affiliation_body_skip|].
  split; [now apply last_known_body_skip|].
  split; [now apply map_author_skips|].
  eapply run_ok_mono; [apply map_author_to_profile_ok|].
  intros p s' [H _]. exact H.
Qed.

Lemma C10_witness :
  map_author_to_profile ex_env
    (with_institutions
       [ex_mit; mkRawAffiliation (mkRawInstitution "" "" "fr") [2019]]
       [mkRawInstitution "" "" "fr"]
       (ex_author "0000-0001" "Jane Doe" [] [])) ex_store
  = map_author_to_profile ex_env
      (with_institutions [ex_mit] []
         (ex_author "0000-0001" "Jane Doe" [] [])) ex_store.
Proof.
  exact (proj1 (proj2 (proj2
    (C10_keyless_institution_is_skipped ex_env
       (ex_author "0000-0001" "Jane Doe" [] [])
       [ex_mit] (mkRawAffiliation (mkRawInstitution "" "" "fr") [2019]) []
       [] (mkRawInstitution "" "" "fr") []
       (mkAffLoop [] [] [] []) (mkLastLoop [] []) ex_store
       eq_refl eq_refl eq_refl eq_refl)))).
Defined.

(** ** C3: the researcher count of a topic *)

(** C3 fails on the code.  Take a topic that is stored once under its
    name, and a page that brings one record, which is admitted and whose
    raw topic list mentions the topic [m] times.  On the last page of a
    stream the topic's stored count ends [m] higher, for one admitted
    researcher.  On a page with a continuation token normalization first
    raises the stored count by [m]; the progress upsert that follows the
    insert then overwrites it with the walker's own count, the count at
    the start plus one: for [m] above one the stored count has dropped. *)
Theorem C3_count_per_mention_then_overwritten :
  forall env topic_obj inserted a next after rest id0 cur c s,
    tracked (to_display_name topic_obj) id0 cur c s ->
    0 <= inserted < config.SESSION_LIMIT ->
    Z.of_nat (List.length (researchers s)) + inserted < config.MAX_AUTHORS ->
    c < config.MAX_PER_TOPIC ->
    admissible s a ->
    Text.truthy next = true ->
    let dn := to_display_name topic_obj in
    let m := Z.of_nat (mentions dn (a_topics a)) in
    stored_count dn s = c /\
    run_ok (fetch_authors_for_topic env (ApiPage [a] "" :: rest) topic_obj
              inserted) s
      (fun r s' =>
         w_status r = Returned NoNextCursor /\
         List.length (researchers s') = S (List.length (researchers s)) /\
         stored_count dn s' = c + m) /\
    exists st s1,
      page_loop env (Z.of_nat (List.length (researchers s))) inserted [a]
        (mkPageLoop [] c []) s = Ok st s1 /\
      stored_count dn s1 = c + m /\
      run_ok (fetch_authors_for_topic env
                (ApiPage [a] next :: ApiPage [] after :: rest) topic_obj
                inserted) s
        (fun r s' =>
           (exists why, w_status r = Returned why) /\
           s' = upserted COL_TOPICS (has_display_name dn)
                  (set_sync_status (progress env next (c + 1)))
                  (fun i => mkTopicDoc i (Some dn) None
                              (Some (progress env next (c + 1))))
                  (inserted_many COL_RESEARCHERS mkResearcherDoc
                     (pl_new_docs st) s1) /\
           List.length (researchers s') = S (List.length (researchers s)) /\
           stored_count dn s' = c + 1).
Proof.
  intros env topic_obj inserted a next after rest id0 cur c s Ht Hins Hdb Hc
         Hadm Hnext dn m.
  destruct (tracked_stored _ _ _ _ _ Ht) as [Hcount Hcursor]. fold dn in Hcount.
  assert (E2 : (config.SESSION_LIMIT <=? inserted) = false)
    by (apply Z.leb_gt; lia).
  assert (E2' : (config.MAX_AUTHORS
                 <=? Z.of_nat (List.length (researchers s)) + inserted) = false)
    by (apply Z.leb_gt; lia).
  assert (E3 : (config.MAX_PER_TOPIC <=? c) = false) by (apply Z.leb_gt; lia).
  destruct (page_loop_single env (Z.of_nat (List.length (researchers s)))
              inserted a c [] s E2 E2' E3 Hadm)
    as [mapped [s1 [st [Em [Ep [Hcc [p Hdocs]]]]]]].
  destruct (map_author_tracked env a dn id0 cur c s Ht)
    as [mapped' [s1' [Em' [Ht1 R1]]]].
  rewrite Em in Em'. injection Em' as <- <-. fold m in Ht1.
  pose proof (tracked_after_commit dn id0 cur _ (pl_new_docs st) s1 Ht1)
    as Ht2.
  rewrite Hdocs in Ht2.
  assert (Hlen : List.length
                   (researchers
                      (inserted_many COL_RESEARCHERS mkResearcherDoc [p] s1))
                 = S (List.length (researchers s))).
  { cbn [inserted_many col_set col_get COL_RESEARCHERS bump researchers
         with_ids]. rewrite length_app, R1. simpl. lia. }
  split; [exact Hcount|]. split.
  - apply run_ok_fetch_below_caps; [fold dn; lia..|].
    fold dn. rewrite Hcount.
    exists (mkWalkResult (Returned NoNextCursor)
              (inserted + Z.of_nat (List.length [p]))
              [EvFetch (to_oa_id topic_obj) (stored_cursor dn s);
               EvInsertMany [p]] rest),
           (inserted_many COL_RESEARCHERS mkResearcherDoc [p] s1).
    split.
    + rewrite walk_loop_round. unfold walk_round. cbn beta iota zeta.
      rewrite E2, E2', E3. unfold bind at 1. rewrite Ep, Hdocs. reflexivity.
    + split; [reflexivity|]. split; [exact Hlen|].
      now destruct (tracked_stored _ _ _ _ _ Ht2).
  - exists st, s1. split; [exact Ep|].
    split; [now destruct (tracked_stored _ _ _ _ _ Ht1)|].
    apply run_ok_fetch_below_caps; [fold dn; lia..|].
    fold dn. rewrite Hcount, Hdocs.
    set (s3 := upserted COL_TOPICS (has_display_name dn)
                 (set_sync_status (progress env next (c + 1)))
                 (fun i => mkTopicDoc i (Some dn) None
                             (Some (progress env next (c + 1))))
                 (inserted_many COL_RESEARCHERS mkResearcherDoc [p] s1)).
    destruct (walk_loop_no_more env topic_obj
                (Z.of_nat (List.length (researchers s))) after rest next
                (c + 1) (pl_reserved_slugs st)
                (inserted + Z.of_nat (List.length [p])) s3)
      as [r [why [E [Hst _]]]].
    eexists _, s3. split.
    + rewrite walk_loop_round. unfold walk_round. cbn beta iota zeta.
      rewrite E2, E2', E3. unfold bind at 1. rewrite Ep, Hcc.
      rewrite Hdocs. unfold bind at 1.
      unfold bind at 1, insert_many_documents at 1. unfold ret at 1.
      rewrite Hnext. cbn [negb]. unfold bind at 1.
      rewrite upsert_document_new_eq.
      change (bump (List.length [p])
                (col_set COL_RESEARCHERS
                   (col_get COL_RESEARCHERS s1
                    ++ with_ids mkResearcherDoc (next_id s1) [p]) s1))
        with (inserted_many COL_RESEARCHERS mkResearcherDoc [p] s1).
      fold dn. fold s3. unfold bind at 1. rewrite E. reflexivity.
    + unfold before. cbn [w_status]. split; [eauto|].
      split; [reflexivity|]. split.
      * pose proof (upserted_topics_frame (has_display_name dn)
                      (set_sync_status (progress env next (c + 1)))
                      (fun i => mkTopicDoc i (Some dn) None
                                  (Some (progress env next (c + 1))))
                      (inserted_many COL_RESEARCHERS mkResearcherDoc [p] s1))
          as Hfr.
        cbv zeta in Hfr. fold s3 in Hfr. destruct Hfr as [R3 _].
        rewrite R3. exact Hlen.
      * pose proof (tracked_after_progress_same env dn id0 cur _ next (c + 1)
                      _ Ht2) as Ht3.
        unfold s3.
        now destruct (tracked_stored _ _ _ _ _ Ht3).
Qed.

(** The topic "Machine Learning" is stored with the count 0; the page
    brings one record that names it twice.  As the last page of the stream
    it leaves the count at 2, for one researcher.  With a continuation
    token the count is 2 after normalization and 1 once the walk has
    returned. *)
Lemma C3_witness :
  stored_count "Machine Learning" ex_store = 0 /\
  run_ok (fetch_authors_for_topic ex_env
            [ApiPage [ex_author "0000-0001" "Jane Doe" []
                        [mkRawTopic "Machine Learning" "Computer Science";
                         mkRawTopic "Machine Learning" "Computer Science"]]
                     ""]
            ex_topic_obj 0) ex_store
    (fun r s' =>
       w_status r = Returned NoNextCursor /\
       List.length (researchers s') = 1%nat /\
       stored_count "Machine Learning" s' = 2) /\
  exists st s1,
    page_loop ex_env 0 0
      [ex_author "0000-0001" "Jane Doe" []
         [mkRawTopic "Machine Learning" "Computer Science";
          mkRawTopic "Machine Learning" "Computer Science"]]
      (mkPageLoop [] 0 []) ex_store = Ok st s1 /\
    stored_count "Machine Learning" s1 = 2 /\
    run_ok (fetch_authors_for_topic ex_env
              [ApiPage [ex_author "0000-0001" "Jane Doe" []
                          [mkRawTopic "Machine Learning" "Computer Science";
                           mkRawTopic "Machine Learning" "Computer Science"]]
                       "IlsxNjA5";
               ApiPage [] ""]
              ex_topic_obj 0) ex_store
      (fun r s' =>
         w_status r = Returned NoMoreAuthors /\
         List.length (researchers s') = 1%nat /\
         stored_count "Machine Learning" s' = 1).
Proof.
  assert (Ht : tracked "Machine Learning" 1%nat (Some "*") 0 ex_store).
  { split.
    - split.
      + simpl. repeat constructor. intros [].
      + simpl. intros i [<-|[]]. lia.
    - eexists _, _. split; [reflexivity|]. repeat split. }
  destruct (C3_count_per_mention_then_overwritten ex_env ex_topic_obj 0
              (ex_author "0000-0001" "Jane Doe" []
                 [mkRawTopic "Machine Learning" "Computer Science";
                  mkRawTopic "Machine Learning" "Computer Science"])
              "IlsxNjA5" "" [] 1%nat (Some "*") 0 ex_store Ht)
    as [H0 [H1 [st [s1 [Ep [Hc H2]]]]]].
  - unfold config.SESSION_LIMIT. lia.
  - unfold config.MAX_AUTHORS. simpl. lia.
  - unfold config.MAX_PER_TOPIC. lia.
  - split; reflexivity.
  - reflexivity.
  - split; [exact H0|]. split; [exact H1|].
    exists st, s1. split; [exact Ep|]. split; [exact Hc|].
    destruct H2 as [r [s' [E [_ [_ [Hl Hn]]]]]].
    exists r, s'. split; [exact E|]. split; [|split; assumption].
    vm_compute in E. now injection E as <- _.
Defined.

(* ================================================================= *)
(** * Further properties of the scripts *)

(** ** ASCII strings *)

Local Open Scope N_scope.

Lemma decode_bytes_ascii l :
  Forall (fun b => b < 128) l -> Text.decode_bytes l = l.
Proof.
  induction 1 as [|b l Hb Hl IH]; [reflexivity|].
  cbn [Text.decode_bytes]. apply N.ltb_lt in Hb. now rewrite Hb, IH.
Qed.

Lemma encode_points_ascii l :
  Forall (fun c => c < 128) l -> flat_map Text.encode_point l = l.
Proof.
  induction 1 as [|c l Hc Hl IH]; [reflexivity|].
  cbn [flat_map]. rewrite IH. unfold Text.encode_point.
  apply N.ltb_lt in Hc. now rewrite Hc.
Qed.

Lemma bytes_of_ascii l :
  Forall (fun c => c < 128) l -> map N_of_ascii (map ascii_of_N l) = l.
Proof.
  induction 1 as [|c l Hc Hl IH]; [reflexivity|].
  cbn [map]. rewrite IH. f_equal. apply N_ascii_embedding. lia.
Qed.

Lemma decode_ascii s :
  ascii_only s -> Text.decode s = map N_of_ascii (list_ascii_of_string s).
Proof.
  intros H. unfold Text.decode. apply decode_bytes_ascii.
  apply Forall_map. exact H.
Qed.

Lemma ascii_decode s :
  ascii_only s -> Forall (fun c => c < 128) (Text.decode s).
Proof.
  intros H. rewrite decode_ascii by exact H. apply Forall_map. exact H.
Qed.

(** Decoding undoes encoding on ASCII characters. *)
Lemma decode_encode_ascii l :
  Forall (fun c => c < 128) l -> Text.decode (Text.encode l) = l.
Proof.
  intros H. unfold Text.decode, Text.encode.
  rewrite list_ascii_of_string_of_list_ascii, encode_points_ascii by exact H.
  rewrite bytes_of_ascii by exact H. now apply decode_bytes_ascii.
Qed.

Lemma encode_ascii_only l :
  Forall (fun c => c < 128) l -> ascii_only (Text.encode l).
Proof.
  intros H. unfold ascii_only, Text.encode.
  rewrite list_ascii_of_string_of_list_ascii, encode_points_ascii by exact H.
  apply Forall_map. eapply Forall_impl; [|exact H].
  intros c Hc. cbv beta in Hc. rewrite N_ascii_embedding by lia. exact Hc.
Qed.

Lemma encode_app a b : Text.encode (a ++ b) = Text.encode a +++ Text.encode b.
Proof.
  unfold Text.encode. rewrite flat_map_app, map_app.
  induction (map ascii_of_N (flat_map Text.encode_point a)) as [|x l IH];
    [reflexivity|].
  simpl. now rewrite IH.
Qed.

Lemma decode_app_ascii a b :
  ascii_only a -> ascii_only b ->
  ascii_only (a +++ b) /\ Text.decode (a +++ b) = Text.decode a ++ Text.decode b.
Proof.
  intros Ha Hb.
  assert (E : list_ascii_of_string (a +++ b)
              = list_ascii_of_string a ++ list_ascii_of_string b).
  { clear. induction a as [|x a IH]; [reflexivity|]. simpl. now rewrite IH. }
  assert (Hab : ascii_only (a +++ b)).
  { unfold ascii_only. rewrite E. apply Forall_app. now split. }
  split; [exact Hab|].
  rewrite !decode_ascii by assumption. now rewrite E, map_app.
Qed.

(** The characters of an encoded list are there only when the list has
    some. *)
Lemma encode_empty l : Text.encode l = "" -> l = [].
Proof.
  destruct l as [|c l]; [reflexivity|]. unfold Text.encode. cbn [flat_map].
  unfold Text.encode_point.
  destruct (c <? 128); [discriminate|].
  destruct (c <? 2048); [discriminate|].
  destruct (c <? 65536); discriminate.
Qed.

Lemma ascii_lower_bound c : c < 128 -> Text.ascii_lower c < 128.
Proof.
  intros H. unfold Text.ascii_lower, Text.between.
  destruct (65 <=? c) eqn:E1; [|exact H].
  destruct (N.leb_spec c 90); cbn [andb]; lia.
Qed.

Lemma ascii_lower_not_upper c : Text.between 65 90 (Text.ascii_lower c) = false.
Proof.
  unfold Text.ascii_lower.
  destruct (Text.between 65 90 c) eqn:E; [|exact E].
  unfold Text.between in *. apply andb_true_iff in E. destruct E as [E1 E2].
  apply N.leb_le in E1, E2. apply andb_false_iff. right.
  apply N.leb_gt. lia.
Qed.

Lemma ascii_lower_fix c : Text.between 65 90 c = false -> Text.ascii_lower c = c.
Proof. intros H. unfold Text.ascii_lower. now rewrite H. Qed.

(** On ASCII characters [lower] goes character by character and does not
    ask the database. *)
Lemma lower_from_ascii U s :
  Forall (fun c => c < 128) s ->
  forall before, Text.lower_from U before s = map Text.ascii_lower s.
Proof.
  induction 1 as [|c s Hc Hs IH]; intros before; [reflexivity|].
  cbn [Text.lower_from map]. unfold Text.lower_point.
  apply N.ltb_lt in Hc. rewrite Hc. now rewrite IH.
Qed.

Lemma lower_ascii U s :
  Forall (fun c => c < 128) s -> Text.lower U s = map Text.ascii_lower s.
Proof. intros H. now apply lower_from_ascii. Qed.

Lemma is_word_ascii U c : c < 128 -> Text.is_word U c = Text.ascii_word c.
Proof. intros H. unfold Text.is_word. apply N.ltb_lt in H. now rewrite H. Qed.

Lemma slug_char_bound c : slug_char c = true -> c < 128.
Proof.
  unfold slug_char, Text.between, Text.is_hyphen, Text.hyphen.
  intros H. repeat (apply orb_true_iff in H; destruct H as [H|H]).
  - apply andb_true_iff in H. destruct H as [_ H]. apply N.leb_le in H. lia.
  - apply andb_true_iff in H. destruct H as [_ H]. apply N.leb_le in H. lia.
  - apply N.eqb_eq in H. lia.
  - apply N.eqb_eq in H. lia.
Qed.

Lemma slug_char_not_upper c : slug_char c = true -> Text.between 65 90 c = false.
Proof.
  unfold slug_char, Text.between, Text.is_hyphen, Text.hyphen.
  intros H. apply andb_false_iff.
  repeat (apply orb_true_iff in H; destruct H as [H|H]).
  - apply andb_true_iff in H. destruct H as [H _]. apply N.leb_le in H.
    right. apply N.leb_gt. lia.
  - apply andb_true_iff in H. destruct H as [_ H]. apply N.leb_le in H.
    left. apply N.leb_gt. lia.
  - apply N.eqb_eq in H. right. apply N.leb_gt. lia.
  - apply N.eqb_eq in H. left. apply N.leb_gt. lia.
Qed.

Lemma slug_char_not_space c : slug_char c = true -> Text.is_space c = false.
Proof.
  intros H. pose proof (slug_char_bound c H) as Hb.
  unfold slug_char, Text.between, Text.is_hyphen, Text.hyphen in H.
  unfold Text.is_space, Text.between.
  repeat (apply orb_true_iff in H; destruct H as [H|H]);
    [apply andb_true_iff in H; destruct H as [H _]; apply N.leb_le in H
    |apply andb_true_iff in H; destruct H as [H _]; apply N.leb_le in H
    |apply N.eqb_eq in H|apply N.eqb_eq in H];
    repeat (apply orb_false_iff; split);
    first [apply N.eqb_neq; lia
          |apply andb_false_iff;
           first [left; apply N.leb_gt; lia|right; apply N.leb_gt; lia]].
Qed.

Lemma slug_char_keep U c : slug_char c = true -> Text.slug_keep U c = true.
Proof.
  intros H. pose proof (slug_char_bound c H) as Hb.
  unfold Text.slug_keep. rewrite is_word_ascii by exact Hb.
  unfold slug_char in H. unfold Text.ascii_word.
  destruct (Text.between 97 122 c); [now rewrite orb_true_r|].
  destruct (Text.between 48 57 c); [now rewrite !orb_true_r|].
  destruct (c =? 95); [now rewrite !orb_true_r|].
  cbn [orb] in H. rewrite H. now rewrite !orb_true_r.
Qed.

(** An ASCII word character that is not a capital letter is a slug
    character. *)
Lemma word_slug_char U c :
  c < 128 -> Text.between 65 90 c = false -> Text.is_word U c = true ->
  slug_char c = true.
Proof.
  intros Hb Hu Hw. rewrite is_word_ascii in Hw by exact Hb.
  unfold Text.ascii_word in Hw. rewrite Hu in Hw. cbn [orb] in Hw.
  unfold slug_char. now rewrite Hw.
Qed.

(** On a list that already is a slug the steps change nothing. *)
Lemma slug_steps_fix d :
  Forall (fun c => slug_char c = true) d ->
  no_adjacent Text.is_hyphen d = true ->
  (forall c t, d = c :: t -> Text.is_hyphen c = false) ->
  (forall t c, d = t ++ [c] -> Text.is_hyphen c = false) ->
  slug_steps d = d.
Proof.
  intros Hch Hna Hhd Hlast. unfold slug_steps.
  rewrite (sub_runs_none Text.is_space d false)
    by (eapply Forall_impl; [|exact Hch]; apply slug_char_not_space).
  rewrite (sub_runs_fix Text.is_hyphen d); try assumption.
  - unfold Text.strip. rewrite rstrip_keep_last by assumption.
    now apply lstrip_keep.
  - apply Forall_forall. intros c _. apply is_hyphen_eq.
  - discriminate.
Qed.

(** The characters of the slug of an ASCII name. *)
Lemma generate_slug_ascii U name :
  ascii_only name ->
  let cs := slug_steps
              (filter (Text.slug_keep U)
                 (map Text.ascii_lower (Text.decode name))) in
  _generate_slug U name = Text.encode cs /\
  Forall (fun c => slug_char c = true) cs.
Proof.
  intros Ha cs. subst cs. pose proof (ascii_decode name Ha) as Hd.
  rewrite generate_slug_steps, lower_ascii by exact Hd.
  split; [reflexivity|].
  eapply Forall_impl;
    [|apply (slug_steps_chars (fun c => slug_char c = true))].
  - intros c [->|[H _]]; [reflexivity|exact H].
  - apply Forall_forall. intros c Hc Hs Hh.
    apply filter_In in Hc. destruct Hc as [Hin Hk].
    apply in_map_iff in Hin. destruct Hin as [x [<- Hx]].
    rewrite Forall_forall in Hd.
    apply (word_slug_char U).
    + apply ascii_lower_bound. now apply Hd.
    + apply ascii_lower_not_upper.
    + now apply kept_word.
Qed.

Local Close Scope N_scope.

(** ** Upserts that change nothing *)

Lemma update_first_same {D} (f : D -> bool) (upd : D -> D) l :
  (forall d, f d = true -> upd d = d) -> update_first f upd l = l.
Proof.
  intros H. induction l as [|x l IH]; simpl; [reflexivity|].
  destruct (f x) eqn:E; [now rewrite (H x E)|now rewrite IH].
Qed.

Lemma set_fields_same s : col_set COL_FIELDS (fields s) s = s.
Proof. now destruct s. Qed.

Lemma set_topics_same s : col_set COL_TOPICS (topics s) s = s.
Proof. now destruct s. Qed.

Lemma upper_char_idem c : Text.upper_char (Text.upper_char c) = Text.upper_char c.
Proof. destruct c as [[] [] [] [] [] [] [] []]; reflexivity. Qed.

Lemma upper_idem s : Text.upper (Text.upper s) = Text.upper s.
Proof.
  unfold Text.upper. rewrite list_ascii_of_string_of_list_ascii, map_map.
  f_equal. apply map_ext. intros c. apply upper_char_idem.
Qed.

Lemma find_existsb_true {D} (f : D -> bool) l d :
  find f l = Some d -> existsb f l = true.
Proof. intros H. now rewrite existsb_find, H. Qed.

(** [upsert_field], case by case. *)
Lemma upsert_field_found field_name s d :
  find (fun d => String.eqb (f_display_name d) field_name) (fields s) = Some d ->
  upsert_field field_name s = Ok (f_id d) s.
Proof.
  intros Hf. unfold upsert_field, bind. rewrite upsert_document_new_eq.
  unfold upserted. cbn [col_get COL_FIELDS].
  rewrite (find_existsb_true _ _ _ Hf).
  rewrite update_first_same.
  - rewrite set_fields_same. unfold find_document. cbn [col_get COL_FIELDS].
    now rewrite Hf.
  - intros x Hx. apply String.eqb_eq in Hx. destruct x. simpl in *.
    now subst.
Qed.

Lemma upsert_field_new field_name s :
  find (fun d => String.eqb (f_display_name d) field_name) (fields s) = None ->
  upsert_field field_name s
  = Ok (next_id s)
       (bump 1 (col_set COL_FIELDS
                  (fields s ++ [mkFieldDoc (next_id s) field_name]) s)).
Proof.
  intros Hf. unfold upsert_field, bind. rewrite upsert_document_new_eq.
  unfold upserted. cbn [col_get COL_FIELDS].
  rewrite (find_none_existsb _ _ Hf).
  unfold find_document. cbn [col_get COL_FIELDS bump col_set fields].
  rewrite find_app_fresh; [reflexivity|now apply find_none_existsb|].
  simpl. apply String.eqb_refl.
Qed.

(** What [upsert_field] returns and leaves behind, whether or not the
    field was stored. *)
Lemma upsert_field_cases field_name s :
  exists i s1,
    upsert_field field_name s = Ok i s1 /\
    researchers s1 = researchers s /\ topics s1 = topics s /\
    countries s1 = countries s /\ institutions s1 = institutions s /\
    find (fun d => String.eqb (f_display_name d) field_name) (fields s1)
      = Some (mkFieldDoc i field_name) /\
    match find (fun d => String.eqb (f_display_name d) field_name)
               (fields s) with
    | Some d => i = f_id d /\ s1 = s
    | None =>
        i = next_id s /\
        fields s1 = fields s ++ [mkFieldDoc (next_id s) field_name] /\
        next_id s1 = S (next_id s)
    end.
Proof.
  destruct (find (fun d => String.eqb (f_display_name d) field_name)
                 (fields s)) as [d|] eqn:Hf.
  - exists (f_id d), s. rewrite (upsert_field_found _ _ _ Hf).
    repeat split; try reflexivity.
    rewrite Hf. f_equal. apply find_some in Hf. destruct Hf as [_ Hn].
    apply String.eqb_eq in Hn. destruct d; simpl in *. now subst.
  - eexists _, _. rewrite (upsert_field_new _ _ Hf).
    split; [reflexivity|]. cbn [bump col_set COL_FIELDS researchers topics
      countries institutions fields next_id].
    repeat split; try reflexivity.
    + apply find_app_fresh; [now apply find_none_existsb|].
      simpl. apply String.eqb_refl.
    + apply Nat.add_1_r.
Qed.

(** [upsert_country] on a code that is stored already. *)
Lemma upsert_country_found env code s d :
  Text.truthy code = true ->
  find (fun d => String.eqb (c_id d) (Text.upper code)) (countries s) = Some d ->
  upsert_country env code s = Ok (Some (Text.upper code)) s.
Proof.
  intros Ht Hf. unfold upsert_country. rewrite Ht. cbn [negb].
  unfold bind, find_document. cbn [col_get COL_COUNTRIES]. rewrite Hf.
  apply find_some in Hf. destruct Hf as [_ Hn]. apply String.eqb_eq in Hn.
  now rewrite Hn.
Qed.

(** [upsert_country] on a code that is not stored yet. *)
Lemma upsert_country_new env code s :
  Text.truthy code = true ->
  find (fun d => String.eqb (c_id d) (Text.upper code)) (countries s) = None ->
  exists name,
    upsert_country env code s
    = Ok (Some (Text.upper code))
         (bump 1 (col_set COL_COUNTRIES
                    (countries s ++ [mkCountryDoc (Text.upper code) name]) s)).
Proof.
  intros Ht Hf. unfold upsert_country. rewrite Ht. cbn [negb].
  unfold bind, find_document. cbn [col_get COL_COUNTRIES]. rewrite Hf.
  rewrite upsert_document_new_eq. unfold upserted.
  cbn [col_get COL_COUNTRIES]. rewrite (find_none_existsb _ _ Hf).
  eexists. reflexivity.
Qed.

(** What [upsert_topic] returns and leaves behind, whether or not the
    topic was stored. *)
Lemma upsert_topic_cases :
  forall topic s,
    run_ok (upsert_topic topic) s
      (fun r s' =>
         researchers s' = researchers s /\ countries s' = countries s /\
         institutions s' = institutions s /\
         prefix (fields s) (fields s') /\
         (next_id s <= next_id s')%nat /\
         (Text.truthy (ti_field_name topic) = true ->
          exists fd,
            find (fun f => String.eqb (f_display_name f) (ti_field_name topic))
                 (fields s') = Some fd) /\
         exists d,
           find (has_display_name (ti_display_name topic)) (topics s')
             = Some d /\
           r = Some (t_id d) /\
           match find (has_display_name (ti_display_name topic))
                      (topics s) with
           | Some d0 => d = d0 /\ topics s' = topics s
           | None =>
               topics s' = topics s ++ [d] /\
               t_display_name d = Some (ti_display_name topic) /\
               t_sync_status d
                 = Some (mkSyncStatus None (Some "*") (Some 0)) /\
               if Text.truthy (ti_field_name topic)
               then exists i,
                      t_field_id d = Some i /\
                      find (fun f => String.eqb (f_display_name f)
                                       (ti_field_name topic)) (fields s')
                        = Some (mkFieldDoc i (ti_field_name topic))
               else t_field_id d = None /\ fields s' = fields s
           end).
Proof.
  intros topic s. unfold upsert_topic. cbv zeta. run_step.
  set (fn := ti_field_name topic). set (dn := ti_display_name topic).
  assert (Hfield :
    run_ok (if Text.truthy fn
            then (i <- upsert_field fn ;; ret (Some i))
            else ret None) s
      (fun fid s1 =>
         researchers s1 = researchers s /\ topics s1 = topics s /\
         countries s1 = countries s /\ institutions s1 = institutions s /\
         prefix (fields s) (fields s1) /\ (next_id s <= next_id s1)%nat /\
         if Text.truthy fn
         then exists i,
                fid = Some i /\
                find (fun f => String.eqb (f_display_name f) fn) (fields s1)
                  = Some (mkFieldDoc i fn)
         else fid = None /\ fields s1 = fields s)).
  { destruct (Text.truthy fn).
    - run_step.
      destruct (upsert_field_cases fn s)
        as [i [s1 [E [R [T [C [I [Hf Hc]]]]]]]].
      exists i, s1. split; [exact E|]. run_step.
      split; [exact R|]. split; [exact T|]. split; [exact C|].
      split; [exact I|].
      assert (Hgrow : prefix (fields s) (fields s1)
                      /\ (next_id s <= next_id s1)%nat).
      { destruct (find _ (fields s)).
        - destruct Hc as [_ ->]. split; [apply prefix_refl|lia].
        - destruct Hc as [_ [-> ->]]. split; [apply prefix_app|lia]. }
      split; [apply Hgrow|]. split; [apply Hgrow|]. now exists i.
    - run_step. repeat split; try reflexivity. apply prefix_refl. }
  eapply run_ok_mono; [exact Hfield|]. clear Hfield.
  intros fid s1 [R1 [T1 [C1 [I1 [Hpf [Hn1 Hfid]]]]]]. cbv beta.
  repeat run_step. cbn [col_get COL_TOPICS].
  match goal with |- context [upserted ?c ?f ?u ?fr s1] =>
    pose proof (upserted_topics_frame f u fr s1) as Hfr;
    pose proof (topics_upserted f u fr s1) as Ht;
    set (s2 := upserted c f u fr s1) in *
  end.
  cbv zeta in Hfr. destruct Hfr as [R2 [F2 [C2 I2]]].
  rewrite update_first_id in Ht. rewrite existsb_find, T1 in Ht.
  split; [congruence|]. split; [congruence|]. split; [congruence|].
  split; [now rewrite F2|].
  split.
  { subst s2. unfold upserted. destruct (existsb _ _); simpl; lia. }
  split.
  { intros Htr. fold fn in Htr. rewrite Htr in Hfid.
    destruct Hfid as [i [_ Hi]]. rewrite F2. eauto. }
  destruct (find (has_display_name dn) (topics s)) as [d0|] eqn:Hf.
  - exists d0. rewrite Ht, Hf. simpl. auto.
  - eexists. rewrite Ht.
    rewrite find_app_fresh;
      [|now apply find_none_existsb
       |unfold has_display_name; simpl; apply String.eqb_refl].
    simpl. repeat split.
    destruct (Text.truthy fn).
    + destruct Hfid as [i [-> Hi]]. exists i. split; [reflexivity|].
      now rewrite F2.
    + destruct Hfid as [-> Hi]. split; [reflexivity|congruence].
Qed.

(** [upsert_topic] on a topic that is stored, with its field stored when
    the field has a name, changes nothing. *)
Lemma upsert_topic_noop topic s d :
  find (has_display_name (ti_display_name topic)) (topics s) = Some d ->
  (Text.truthy (ti_field_name topic) = true ->
   exists fd,
     find (fun f => String.eqb (f_display_name f) (ti_field_name topic))
          (fields s) = Some fd) ->
  upsert_topic topic s = Ok (Some (t_id d)) s.
Proof.
  intros Hd Hfield. unfold upsert_topic. cbv zeta. unfold bind at 1.
  assert (Hstep : exists fid,
    (if Text.truthy (ti_field_name topic)
     then (i <- upsert_field (ti_field_name topic) ;; ret (Some i))
     else ret None) s = Ok fid s).
  { destruct (Text.truthy (ti_field_name topic)); [|now exists None].
    destruct (Hfield eq_refl) as [fd Hfd]. exists (Some (f_id fd)).
    unfold bind. now rewrite (upsert_field_found _ _ _ Hfd). }
  destruct Hstep as [fid ->].
  unfold bind. rewrite upsert_document_new_eq. unfold upserted.
  cbn [col_get COL_TOPICS]. rewrite (find_existsb_true _ _ _ Hd).
  rewrite update_first_id, set_topics_same.
  unfold find_document. cbn [col_get COL_TOPICS]. now rewrite Hd.
Qed.

(** ** Topic processing: identifiers and missing topics *)

Lemma update_first_length {D} (f : D -> bool) upd (l : list D) :
  List.length (update_first f upd l) = List.length l.
Proof.
  induction l as [|x l IH]; simpl; [reflexivity|].
  destruct (f x); simpl; [reflexivity|now rewrite IH].
Qed.

Lemma update_first_frame f ss l :
  map topic_frame (update_first f (set_sync_status ss) l) = map topic_frame l.
Proof.
  induction l as [|x l IH]; simpl; [reflexivity|].
  destruct (f x); simpl; [reflexivity|now rewrite IH].
Qed.

Lemma with_ids_length {P D} (mk : ObjectId -> P -> D) n docs :
  List.length (with_ids mk n docs) = List.length docs.
Proof.
  revert n. induction docs as [|p docs IH]; intros n; simpl;
    [reflexivity|now rewrite IH].
Qed.

Lemma with_ids_missing_names n docs :
  map t_display_name (with_ids missing_topic n docs)
  = map (fun p => Some (fst p)) docs.
Proof.
  revert n. induction docs as [|p docs IH]; intros n; simpl;
    [reflexivity|now rewrite IH].
Qed.

Lemma with_ids_missing_sync n docs :
  Forall (fun d => t_sync_status d
                   = Some (mkSyncStatus None (Some "*") (Some 1)))
         (with_ids missing_topic n docs).
Proof.
  revert n. induction docs as [|p docs IH]; intros n; simpl;
    constructor; [reflexivity|apply IH].
Qed.

(** One round of the topic loop: the local map and the collected
    identifiers refer to stored topics, the stored topics keep their
    frames, and the round adds one identifier for a name found at the
    start, one missing document otherwise. *)
Lemma topic_body_refs names topic st s :
  map_covers names st ->
  (forall n e, Dict.get n (tl_existing_map st) = Some e ->
               In (t_id e) (map t_id (topics s))) ->
  incl (tl_final_topic_ids st) (map t_id (topics s)) ->
  run_ok (topic_body names topic st) s
    (fun st' s' =>
       map_covers names st' /\
       (forall n e, Dict.get n (tl_existing_map st') = Some e ->
                    In (t_id e) (map t_id (topics s'))) /\
       incl (tl_final_topic_ids st') (map t_id (topics s')) /\
       map topic_frame (topics s') = map topic_frame (topics s) /\
       if Text.mem (rt_display_name topic) names
       then (exists i, tl_final_topic_ids st' = tl_final_topic_ids st ++ [i]) /\
            tl_missing_docs st' = tl_missing_docs st
       else tl_final_topic_ids st' = tl_final_topic_ids st /\
            exists fid,
              tl_missing_docs st'
              = tl_missing_docs st ++ [(rt_display_name topic, fid)]).
Proof.
  intros Hcov Hent Hfin.
  destruct (topic_body_ok names topic st s Hcov) as [st' [s' [E [Hcov' _]]]].
  exists st', s'. split; [exact E|]. split; [exact Hcov'|].
  revert E. unfold topic_body.
  unfold bind at 1.
  destruct (upsert_field_cases (rt_field topic) s)
    as [fid [s1 [E1 [_ [T1 _]]]]].
  rewrite E1.
  destruct (if negb _ then _ else _) as [tags added].
  destruct (Text.mem (rt_display_name topic) names) eqn:Hmem.
  - destruct (Dict.get (rt_display_name topic) (tl_existing_map st))
      as [doc|] eqn:Hget; [|discriminate].
    destruct (match t_sync_status doc with
              | Some ss => if sync_truthy ss then (ss, true)
                           else (empty_sync, false)
              | None => (empty_sync, false)
              end) as [sync shared].
    unfold bind. rewrite upsert_document_new_eq. unfold ret.
    intros [= <- <-].
    match goal with |- context [upserted COL_TOPICS ?f ?u ?fr s1] =>
      destruct (upserted_topics_update f u fr s1) as [Ht2 _];
      [rewrite T1; apply existsb_id_In; eapply Hent; exact Hget|];
      set (s2 := upserted COL_TOPICS f u fr s1) in *
    end.
    assert (Hids : map t_id (topics s2) = map t_id (topics s)).
    { now rewrite Ht2, update_first_ids, T1. }
    cbn [tl_existing_map tl_final_topic_ids tl_missing_docs].
    rewrite Hids. split; [|split; [|split]].
    + intros n e He.
      destruct shared; [|eapply Hent; exact He].
      destruct (String.eqb_spec (rt_display_name topic) n) as [En|Hne].
      * rewrite En, dict_get_set_same in He. injection He as <-.
        simpl. eapply Hent. exact Hget.
      * rewrite dict_get_set_other in He by assumption.
        eapply Hent. exact He.
    + apply incl_app; [exact Hfin|].
      intros i [<-|[]]. eapply Hent. exact Hget.
    + now rewrite Ht2, update_first_frame, T1.
    + split; [now exists (t_id doc)|reflexivity].
  - unfold ret. intros [= <- <-].
    cbn [tl_existing_map tl_final_topic_ids tl_missing_docs].
    rewrite T1. split; [exact Hent|]. split; [exact Hfin|].
    split; [reflexivity|]. split; [reflexivity|now exists fid].
Qed.

Lemma topics_loop_refs names l :
  forall st s,
    map_covers names st ->
    (forall n e, Dict.get n (tl_existing_map st) = Some e ->
                 In (t_id e) (map t_id (topics s))) ->
    incl (tl_final_topic_ids st) (map t_id (topics s)) ->
    run_ok (for_each (topic_body names) l st) s
      (fun st' s' =>
         incl (tl_final_topic_ids st') (map t_id (topics s')) /\
         map topic_frame (topics s') = map topic_frame (topics s) /\
         List.length (tl_final_topic_ids st')
           = (List.length (tl_final_topic_ids st)
              + List.length
                  (filter (fun t => Text.mem (rt_display_name t) names) l))%nat /\
         map fst (tl_missing_docs st')
           = map fst (tl_missing_docs st)
             ++ map rt_display_name
                  (filter (fun t => negb (Text.mem (rt_display_name t) names))
                          l)).
Proof.
  induction l as [|t l IH]; intros st s Hcov Hent Hfin; simpl.
  - run_step. split; [exact Hfin|]. split; [reflexivity|].
    split; [lia|now rewrite app_nil_r].
  - run_step.
    eapply run_ok_mono; [apply topic_body_refs; assumption|].
    intros st1 s1 [Hcov1 [Hent1 [Hfin1 [Hlen1 Hcase]]]]. cbv beta.
    eapply run_ok_mono; [apply IH; assumption|].
    intros st' s' [Hfin' [Hlen' [Hf' Hm']]]. cbv beta.
    split; [exact Hfin'|]. split; [congruence|].
    destruct (Text.mem (rt_display_name t) names); simpl.
    + destruct Hcase as [[i Hi] Hmiss]. rewrite Hf', Hm', Hi, Hmiss.
      rewrite length_app. simpl. split; [lia|reflexivity].
    + destruct Hcase as [Hi [fid Hmiss]]. rewrite Hf', Hm', Hi, Hmiss.
      rewrite map_app, <- app_assoc. simpl. split; [lia|reflexivity].
Qed.

(** Among the names the record mentions, those found at the start are the
    names of stored topics. *)
Lemma mem_existing_names (l : list TopicDoc) names n :
  Text.mem n names = true ->
  Text.mem n (names_of (filter (fun d => match t_display_name d with
                                         | Some k => Text.mem k names
                                         | None => false
                                         end) l))
  = existsb (has_display_name n) l.
Proof.
  intros Hn. apply eq_true_iff_eq.
  rewrite mem_In, names_of_In, existsb_exists. split.
  - intros [d [Hd Hname]]. apply filter_In in Hd. exists d.
    split; [tauto|now apply has_display_name_true].
  - intros [d [Hd Hname]]. apply has_display_name_true in Hname.
    exists d. split; [|exact Hname].
    apply filter_In. split; [exact Hd|]. now rewrite Hname.
Qed.

Lemma mem_map_In {A} (f : A -> string) x l :
  In x l -> Text.mem (f x) (map f l) = true.
Proof. intros H. apply mem_In. now apply in_map. Qed.

(** Topic processing as a whole: one identifier per mention, each of a
    stored topic; the topics stored at the start keep their places, and
    one document is appended per mention of a name that was not stored. *)
Lemma process_researcher_topics_refs topics_ s :
  run_ok (process_researcher_topics topics_) s
    (fun r s' =>
       List.length (fst r) = List.length topics_ /\
       incl (fst r) (map t_id (topics s')) /\
       exists kept new,
         topics s' = kept ++ new /\
         map topic_frame kept = map topic_frame (topics s) /\
         map t_display_name new
           = map (fun t => Some (rt_display_name t))
               (filter (fun t => negb (existsb (has_display_name
                                                  (rt_display_name t))
                                               (topics s))) topics_) /\
         Forall (fun d => t_sync_status d
                          = Some (mkSyncStatus None (Some "*") (Some 1)))
                new).
Proof.
  unfold process_researcher_topics. cbv zeta. repeat run_step.
  cbn [col_get COL_TOPICS].
  match goal with |- context [names_of ?l] => set (existing := l) end.
  set (names := names_of existing).
  assert (Hpres : forall t, In t topics_ ->
            Text.mem (rt_display_name t) names
            = existsb (has_display_name (rt_display_name t)) (topics s)).
  { intros t Ht. subst names existing. apply mem_existing_names.
    now apply mem_map_In. }
  eapply run_ok_mono.
  - apply (topics_loop_refs names topics_).
    + apply map_of_covers.
    + intros n e He. cbn [tl_existing_map] in He.
      apply map_of_entries in He. apply in_map.
      apply filter_In in He. tauto.
    + intros i [].
  - intros st s1 [Hfin [Hlen [Hf Hm]]]. cbv beta.
    simpl in Hf, Hm.
    assert (Hparts :
      (List.length (filter (fun t => Text.mem (rt_display_name t) names)
                           topics_)
       + List.length (tl_missing_docs st))%nat = List.length topics_).
    { rewrite <- (length_map fst (tl_missing_docs st)), Hm, length_map.
      apply filter_length. }
    assert (Hnames :
      map (fun p => Some (fst p)) (tl_missing_docs st)
      = map (fun t => Some (rt_display_name t))
          (filter (fun t => negb (existsb (has_display_name
                                             (rt_display_name t))
                                          (topics s))) topics_)).
    { rewrite <- (map_map fst Some), Hm, map_map. f_equal.
      apply filter_ext_in. intros t Ht. now rewrite Hpres. }
    destruct (tl_missing_docs st) as [|m ms] eqn:Emiss.
    + run_step. cbn [fst]. split; [simpl in Hparts; lia|].
      split; [exact Hfin|].
      exists (topics s1), []. rewrite app_nil_r.
      split; [reflexivity|]. split; [exact Hlen|].
      split; [exact Hnames|constructor].
    + run_step. apply run_ok_insert_many; [discriminate|].
      run_step. cbn [fst].
      unfold inserted_many. cbn [bump col_set COL_TOPICS col_get topics].
      split; [rewrite length_app, length_seq; lia|]. split.
      * rewrite map_app, with_ids_missing_ids.
        apply incl_app; [now apply incl_appl|apply incl_appr, incl_refl].
      * exists (topics s1), (with_ids missing_topic (next_id s1) (m :: ms)).
        split; [reflexivity|]. split; [exact Hlen|].
        split; [now rewrite with_ids_missing_names|].
        apply with_ids_missing_sync.
Qed.

(** ** Country and field tags *)

(** What a loop keeps, from any run of it that returns. *)
Lemma for_each_keeps {A S} (body : A -> S -> M S) (I : S -> Prop) l :
  (forall a st s st' s', body a st s = Ok st' s' -> I st -> I st') ->
  forall st s st' s',
    for_each body l st s = Ok st' s' -> I st -> I st'.
Proof.
  intros Hbody. induction l as [|a l IH]; intros st s st' s'; simpl.
  - unfold ret. now intros [= <- _].
  - unfold bind. destruct (body a st s) as [st1 s1|] eqn:E; [|discriminate].
    intros E' HI. eapply IH; [exact E'|]. eapply Hbody; eassumption.
Qed.

Lemma string_prefix_nil x : String.prefix "" x = true.
Proof. now destruct x. Qed.

Lemma country_tag_inj a b : "country:" +++ a = "country:" +++ b -> a = b.
Proof. apply append_inj_r. Qed.

Lemma field_tag_inj i j :
  "field:" +++ oid_str i = "field:" +++ oid_str j -> i = j.
Proof. intros H. apply append_inj_r in H. now apply str_of_nat_inj. Qed.

Lemma NoDup_map_injective {A B} (f : A -> B) l :
  (forall x y, f x = f y -> x = y) -> NoDup l -> NoDup (map f l).
Proof.
  intros Hinj. induction 1 as [|x l Hx Hl IH]; simpl; constructor.
  - intros Hin. apply in_map_iff in Hin. destruct Hin as [y [E Hy]].
    apply Hinj in E. now subst.
  - exact IH.
Qed.

Lemma NoDup_rev_list {A} (l : list A) : NoDup l -> NoDup (List.rev l).
Proof.
  induction 1 as [|x l Hx Hl IH]; simpl; [constructor|].
  apply NoDup_app; [exact IH|repeat constructor; intros []|].
  intros y Hy [<-|[]]. apply Hx. now apply in_rev.
Qed.

(** The country tags of the affiliation loop are the tags of the
    countries it has added, in order, and no other tag looks like a
    country tag or a field tag. *)
Lemma affiliation_body_tags env aff st s st' s' :
  affiliation_body env aff st s = Ok st' s' ->
  (filter (String.prefix "country:") (al_search_tags st)
     = map (fun c => "country:" +++ c) (List.rev (al_added_countries st)) /\
   NoDup (al_added_countries st) /\
   filter (String.prefix "field:") (al_search_tags st) = []) ->
  filter (String.prefix "country:") (al_search_tags st')
    = map (fun c => "country:" +++ c) (List.rev (al_added_countries st')) /\
  NoDup (al_added_countries st') /\
  filter (String.prefix "field:") (al_search_tags st') = [].
Proof.
  intros E [Hc [Hnd Hf]]. revert E. unfold affiliation_body. cbv zeta.
  destruct (negb (Text.truthy (ror_or_name (ra_institution aff)))).
  { unfold ret. intros [= <- _]. auto. }
  unfold bind at 1.
  match goal with |- context [match ?m s with _ => _ end] =>
    destruct (m s) as [[[inst_id country_id] ror_to_id] s1|]; [|discriminate]
  end.
  assert (Hbase :
    filter (String.prefix "country:")
      (al_search_tags st ++ ["institution:" +++ oid_str inst_id])
    = map (fun c => "country:" +++ c) (List.rev (al_added_countries st)) /\
    filter (String.prefix "field:")
      (al_search_tags st ++ ["institution:" +++ oid_str inst_id]) = []).
  { rewrite !filter_app, Hc, Hf. simpl. now rewrite app_nil_r. }
  destruct Hbase as [Hc1 Hf1].
  destruct country_id as [c|].
  - destruct (Text.truthy c && negb (Text.mem c (al_added_countries st)))%bool
      eqn:Hnew; unfold ret; intros [= <- _];
      cbn [al_search_tags al_added_countries].
    + apply andb_prop in Hnew. destruct Hnew as [_ Hmem].
      apply negb_true_iff, mem_false in Hmem.
      rewrite (filter_app (String.prefix "country:")
                 (al_search_tags st ++ ["institution:" +++ oid_str inst_id])),
              (filter_app (String.prefix "field:")
                 (al_search_tags st ++ ["institution:" +++ oid_str inst_id])),
              Hc1, Hf1. simpl.
      rewrite string_prefix_nil, map_app. simpl.
      split; [reflexivity|]. split; [now constructor|reflexivity].
    + auto.
  - unfold ret. intros [= <- _]. cbn [al_search_tags al_added_countries].
    auto.
Qed.

(** The same for the field tags of the topic loop. *)
Lemma topic_body_tags names topic st s st' s' :
  topic_body names topic st s = Ok st' s' ->
  (filter (String.prefix "field:") (tl_search_tags st)
     = map (fun i => "field:" +++ oid_str i) (List.rev (tl_added_fields st)) /\
   NoDup (tl_added_fields st) /\
   filter (String.prefix "country:") (tl_search_tags st) = []) ->
  filter (String.prefix "field:") (tl_search_tags st')
    = map (fun i => "field:" +++ oid_str i) (List.rev (tl_added_fields st')) /\
  NoDup (tl_added_fields st') /\
  filter (String.prefix "country:") (tl_search_tags st') = [].
Proof.
  intros E [Hf [Hnd Hc]]. revert E. unfold topic_body. cbv zeta.
  unfold bind at 1.
  destruct (upsert_field (rt_field topic) s) as [fid s1|]; [|discriminate].
  assert (Hstep :
    let '(tags, added) :=
      if negb (existsb (Nat.eqb fid) (tl_added_fields st))
      then (tl_search_tags st ++ ["field:" +++ oid_str fid],
            fid :: tl_added_fields st)
      else (tl_search_tags st, tl_added_fields st) in
    filter (String.prefix "field:") tags
      = map (fun i => "field:" +++ oid_str i) (List.rev added) /\
    NoDup added /\
    filter (String.prefix "country:") tags = []).
  { destruct (existsb (Nat.eqb fid) (tl_added_fields st)) eqn:Hex;
      cbn [negb]; [auto|].
    rewrite !filter_app, Hf, Hc. simpl.
    rewrite string_prefix_nil, map_app. simpl.
    split; [reflexivity|]. split; [|reflexivity].
    constructor; [|exact Hnd]. intros Hin.
    assert (Hex' : existsb (Nat.eqb fid) (tl_added_fields st) = true)
      by (eapply existsb_In; [exact Hin|apply Nat.eqb_refl]).
    congruence. }
  destruct (if negb _ then _ else _) as [tags added].
  destruct Hstep as [Hf1 [Hnd1 Hc1]].
  destruct (Text.mem (rt_display_name topic) names).
  - destruct (Dict.get (rt_display_name topic) (tl_existing_map st))
      as [doc|]; [|discriminate].
    destruct (match t_sync_status doc with
              | Some ss => if sync_truthy ss then (ss, true)
                           else (empty_sync, false)
              | None => (empty_sync, false)
              end) as [sync shared].
    unfold bind. rewrite upsert_document_new_eq. unfold ret.
    intros [= <- _]. cbn [tl_search_tags tl_added_fields].
    rewrite !filter_app, Hf1, Hc1. simpl. rewrite app_nil_r. auto.
  - unfold ret. intros [= <- _]. cbn [tl_search_tags tl_added_fields]. auto.
Qed.

Lemma filter_topic_tags (p : string -> bool) ids :
  (forall x, p ("topic:" +++ x) = false) ->
  filter p (map (fun tid => "topic:" +++ oid_str tid) ids) = [].
Proof.
  intros Hp. induction ids as [|i ids IH]; [reflexivity|].
  cbn [map filter]. now rewrite Hp.
Qed.

(** The tags topic processing returns: no field tag twice, and nothing
    that looks like a country tag. *)
Lemma process_researcher_topics_tags topics_ s :
  run_ok (process_researcher_topics topics_) s
    (fun r _ =>
       NoDup (filter (String.prefix "field:") (snd r)) /\
       filter (String.prefix "country:") (snd r) = []).
Proof.
  destruct (process_researcher_topics_ok topics_ s) as [r [s' [E _]]].
  exists r, s'. split; [exact E|]. revert E.
  unfold process_researcher_topics. cbv zeta.
  unfold bind at 1. unfold find_documents at 1.
  match goal with |- context [names_of ?l] => set (existing := l) end.
  unfold bind at 1.
  destruct (for_each (topic_body (names_of existing)) topics_
              (mkTopicLoop (map_of existing) [] [] [] []) s)
    as [st s1|] eqn:Eloop; [|discriminate].
  assert (Hinv :
    filter (String.prefix "field:") (tl_search_tags st)
      = map (fun i => "field:" +++ oid_str i) (List.rev (tl_added_fields st)) /\
    NoDup (tl_added_fields st) /\
    filter (String.prefix "country:") (tl_search_tags st) = []).
  { eapply (for_each_keeps (topic_body (names_of existing))
              (fun st => filter (String.prefix "field:") (tl_search_tags st)
                         = map (fun i => "field:" +++ oid_str i)
                               (List.rev (tl_added_fields st)) /\
                         NoDup (tl_added_fields st) /\
                         filter (String.prefix "country:") (tl_search_tags st)
                         = [])); [|exact Eloop|].
    - intros a st0 s0 st0' s0' Eb.
      exact (topic_body_tags _ _ _ _ _ _ Eb).
    - simpl. split; [reflexivity|]. split; [constructor|reflexivity]. }
  destruct Hinv as [Hf [Hnd Hc]].
  assert (Hnd' : NoDup (filter (String.prefix "field:") (tl_search_tags st))).
  { rewrite Hf. apply NoDup_map_injective; [apply field_tag_inj|].
    now apply NoDup_rev_list. }
  destruct (tl_missing_docs st) as [|m ms].
  - unfold ret. intros [= <-]. simpl. auto.
  - unfold bind.
    destruct (insert_many_documents COL_TOPICS missing_topic (m :: ms) s1)
      as [[ids|] s2|]; try discriminate.
    unfold ret. intros [= <-]. cbn [snd].
    rewrite !filter_app, !filter_topic_tags by reflexivity.
    rewrite !app_nil_r. auto.
Qed.


(** ** References to institutions *)

Lemma create_institution_stored env inst ror {B}
    (k : InstitutionDoc -> option string -> M B) s (Q : B -> Store -> Prop) :
  (forall d c s',
     refs_grow s s' ->
     find (fun d => String.eqb (i_ror d) ror) (institutions s') = Some d ->
     run_ok (k d c) s' Q) ->
  run_ok
    (country_id <- upsert_country env (ri_country_code inst) ;;
     upsert_document_new COL_INSTITUTIONS
       (fun d => String.eqb (i_ror d) ror)
       (fun d => d)
       (fun i => mkInstitutionDoc i (ri_display_name inst) ror country_id) ;;;
     inserted <- find_document COL_INSTITUTIONS
                   (fun d => String.eqb (i_ror d) ror) ;;
     match inserted with
     | Some d => k d country_id
     | None => raise TypeError
     end) s Q.
Proof.
  intros Hk. run_step.
  eapply run_ok_mono; [apply upsert_country_ok|].
  intros c s1 [R1 [T1 [F1 [I1 C1]]]]. simpl.
  repeat run_step. simpl col_get.
  match goal with |- context [upserted ?c ?f ?u ?fr s1] =>
    pose proof (upserted_institutions_frame f u fr s1) as Hfr;
    pose proof (institutions_upserted f u fr s1) as Hi;
    destruct (find_after_upsert f u fr (institutions s1) (next_id s1))
      as [d Hd]
  end.
  - auto.
  - simpl. apply String.eqb_refl.
  - rewrite <- Hi in Hd. rewrite Hd. apply Hk; [|exact Hd].
    cbv zeta in Hfr.
    destruct Hfr as [R2 [T2 [F2 C2]]]. unfold refs_grow.
    split; [congruence|]. split; [congruence|]. split; [congruence|].
    split; [now rewrite C2|].
    rewrite Hi, update_first_id, I1.
    destruct (existsb _ (institutions s));
      [apply prefix_refl|apply prefix_app].
Qed.

Lemma prefix_ids (l l' : list InstitutionDoc) i :
  prefix l l' -> In i (map i_id l) -> In i (map i_id l').
Proof.
  intros [t ->] H. rewrite map_app. apply in_or_app. now left.
Qed.

Lemma found_id (f : InstitutionDoc -> bool) l d :
  find f l = Some d -> In (i_id d) (map i_id l).
Proof. intros H. apply find_some in H. apply in_map. tauto. Qed.

Lemma dict_set_entries {V} (P : V -> Prop) k v (d : Dict.t V) :
  P v -> (forall k' x, Dict.get k' d = Some x -> P x) ->
  forall k' x, Dict.get k' (Dict.set k v d) = Some x -> P x.
Proof.
  intros Hv Hd k' x. destruct (String.eqb_spec k k') as [->|Hne].
  - rewrite dict_get_set_same. now intros [= <-].
  - rewrite dict_get_set_other by assumption. apply Hd.
Qed.

(** One round of the affiliation loop keeps every cached and every
    collected institution identifier among the stored ones. *)
Lemma affiliation_body_stored env aff st s :
  (forall k i, Dict.get k (al_ror_to_id st) = Some i ->
               In i (map i_id (institutions s))) ->
  (forall a, In a (al_affiliations st) ->
             In (af_institution a) (map i_id (institutions s))) ->
  run_ok (affiliation_body env aff st) s
    (fun st' s' =>
       refs_grow s s' /\
       (forall k i, Dict.get k (al_ror_to_id st') = Some i ->
                    In i (map i_id (institutions s'))) /\
       (forall a, In a (al_affiliations st') ->
                  In (af_institution a) (map i_id (institutions s')))).
Proof.
  intros Hcache Haffs. unfold affiliation_body. cbv zeta.
  destruct (negb (Text.truthy (ror_or_name (ra_institution aff)))).
  { run_step. split; [apply refs_grow_refl|]. split; assumption. }
  run_step.
  apply run_ok_mono with
    (Q := fun x s' =>
            refs_grow s s' /\
            In (fst (fst x)) (map i_id (institutions s')) /\
            (forall k i, Dict.get k (snd x) = Some i ->
                         In i (map i_id (institutions s')))).
  - destruct (Dict.get _ (al_ror_to_id st)) as [i|] eqn:Hget.
    { run_step. cbn [fst snd]. split; [apply refs_grow_refl|].
      split; [eapply Hcache; exact Hget|exact Hcache]. }
    repeat run_step. simpl col_get.
    destruct (find _ (institutions s)) as [d|] eqn:E.
    { repeat run_step. cbn [fst snd]. split; [apply refs_grow_refl|].
      pose proof (found_id _ _ _ E) as Hd. split; [exact Hd|].
      now apply dict_set_entries. }
    apply create_institution_stored. intros d c s' Hg Hd.
    repeat run_step. cbn [fst snd]. split; [exact Hg|].
    apply found_id in Hd. split; [exact Hd|].
    apply dict_set_entries; [exact Hd|].
    intros k i Hk. eapply prefix_ids; [apply Hg|]. eapply Hcache. exact Hk.
  - intros [[i c] r] s' [Hg [Hi Hr]]. cbn [fst snd] in Hi, Hr.
    assert (Hall : forall a,
              In a (al_affiliations st ++ [mkAffiliation i (ra_years aff)]) ->
              In (af_institution a) (map i_id (institutions s'))).
    { intros a Ha. apply in_app_or in Ha. destruct Ha as [Ha|[<-|[]]].
      - eapply prefix_ids; [apply Hg|]. now apply Haffs.
      - exact Hi. }
    destruct c as [c|]; [destruct (_ && _)%bool|]; run_step;
      cbn [al_ror_to_id al_affiliations]; auto.
Qed.

Lemma last_known_body_stored env inst st s :
  (forall k i, Dict.get k (ll_ror_to_id st) = Some i ->
               In i (map i_id (institutions s))) ->
  (forall i, In i (ll_last_known_institutions st) ->
             In i (map i_id (institutions s))) ->
  run_ok (last_known_body env inst st) s
    (fun st' s' =>
       refs_grow s s' /\
       (forall k i, Dict.get k (ll_ror_to_id st') = Some i ->
                    In i (map i_id (institutions s'))) /\
       (forall i, In i (ll_last_known_institutions st') ->
                  In i (map i_id (institutions s')))).
Proof.
  intros Hcache Hlast. unfold last_known_body. cbv zeta.
  destruct (negb (Text.truthy (ror_or_name inst))).
  { run_step. split; [apply refs_grow_refl|]. split; assumption. }
  run_step.
  apply run_ok_mono with
    (Q := fun x s' =>
            refs_grow s s' /\
            In (fst x) (map i_id (institutions s')) /\
            (forall k i, Dict.get k (snd x) = Some i ->
                         In i (map i_id (institutions s')))).
  - destruct (Dict.get _ (ll_ror_to_id st)) as [i|] eqn:Hget.
    { run_step. cbn [fst snd]. split; [apply refs_grow_refl|].
      split; [eapply Hcache; exact Hget|exact Hcache]. }
    repeat run_step. simpl col_get.
    destruct (find _ (institutions s)) as [d|] eqn:E.
    { repeat run_step. cbn [fst snd]. split; [apply refs_grow_refl|].
      pose proof (found_id _ _ _ E) as Hd. split; [exact Hd|].
      now apply dict_set_entries. }
    apply create_institution_stored. intros d c s' Hg Hd.
    repeat run_step. cbn [fst snd]. split; [exact Hg|].
    apply found_id in Hd. split; [exact Hd|].
    apply dict_set_entries; [exact Hd|].
    intros k i Hk. eapply prefix_ids; [apply Hg|]. eapply Hcache. exact Hk.
  - intros [i r] s' [Hg [Hi Hr]]. cbn [fst snd] in Hi, Hr.
    run_step. cbn [ll_ror_to_id ll_last_known_institutions].
    split; [exact Hg|]. split; [exact Hr|].
    intros j Hj. apply in_app_or in Hj. destruct Hj as [Hj|[<-|[]]].
    + eapply prefix_ids; [apply Hg|]. now apply Hlast.
    + exact Hi.
Qed.

(** The years of the affiliations, in order. *)
Lemma affiliation_body_years env aff st s st' s' :
  affiliation_body env aff st s = Ok st' s' ->
  map af_years (al_affiliations st')
  = map af_years (al_affiliations st)
    ++ (if Text.truthy (ror_or_name (ra_institution aff))
        then [ra_years aff] else []).
Proof.
  unfold affiliation_body. cbv zeta.
  destruct (Text.truthy (ror_or_name (ra_institution aff))); cbn [negb].
  2:{ unfold ret. intros [= <- _]. now rewrite app_nil_r. }
  unfold bind at 1.
  match goal with
  | |- match ?m s with _ => _ end = _ -> _ =>
      destruct (m s) as [[[i c] r] s1|e]; [|discriminate]
  end.
  destruct c as [c|]; [destruct (_ && _)%bool|];
    unfold ret; intros [= <- _]; cbn [al_affiliations];
    now rewrite map_app.
Qed.

Lemma affiliations_loop_years env l :
  forall st s st' s',
    for_each (affiliation_body env) l st s = Ok st' s' ->
    map af_years (al_affiliations st')
    = map af_years (al_affiliations st)
      ++ map ra_years
           (filter (fun a => Text.truthy (ror_or_name (ra_institution a))) l).
Proof.
  induction l as [|a l IH]; intros st s st' s'; simpl.
  - unfold ret. intros [= <- _]. now rewrite app_nil_r.
  - unfold bind.
    destruct (affiliation_body env a st s) as [st1 s1|] eqn:E; [|discriminate].
    intros E'. rewrite (IH _ _ _ _ E'), (affiliation_body_years _ _ _ _ _ _ E).
    rewrite <- app_assoc. f_equal.
    now destruct (Text.truthy (ror_or_name (ra_institution a))).
Qed.

(** ** The partition cap *)

(** The pass over a page never takes the partition count past the cap. *)
Lemma page_loop_cap env total_in_db inserted authors :
  forall st s st' s',
    page_loop env total_in_db inserted authors st s = Ok st' s' ->
    pl_current_count st <= config.MAX_PER_TOPIC ->
    pl_current_count st' <= config.MAX_PER_TOPIC.
Proof.
  induction authors as [|author authors IH]; intros st s st' s'; simpl.
  { unfold ret. now intros [= <- _]. }
  destruct (config.SESSION_LIMIT <=? inserted);
    [unfold ret; now intros [= <- _]|].
  destruct (config.MAX_AUTHORS <=? total_in_db + inserted);
    [unfold ret; now intros [= <- _]|].
  destruct (config.MAX_PER_TOPIC <=? pl_current_count st) eqn:Hcap;
    [unfold ret; now intros [= <- _]|].
  apply Z.leb_gt in Hcap.
  destruct (negb (Text.truthy (a_orcid author))); [apply IH|].
  unfold bind at 1. unfold find_document at 1.
  destruct (find _ _); [apply IH|].
  unfold bind at 1.
  destruct (map_author_to_profile env author s) as [mapped s1|];
    [|discriminate].
  unfold bind at 1.
  match goal with |- context [match ?m s1 with _ => _ end] =>
    destruct (m s1) as [[m' r'] s2|]; [|discriminate]
  end.
  intros E _. apply IH in E; [exact E|]. cbn [pl_current_count]. lia.
Qed.

Lemma page_loop_capped env total_in_db inserted authors st s :
  pl_current_count st <= config.MAX_PER_TOPIC ->
  run_ok (page_loop env total_in_db inserted authors st) s
    (fun st' s' =>
       page_post authors st s st' s' /\
       pl_current_count st' <= config.MAX_PER_TOPIC).
Proof.
  intros Hcap.
  destruct (page_loop_ok env total_in_db inserted authors st s)
    as [st' [s' [E Hpost]]].
  exists st', s'. split; [exact E|]. split; [exact Hpost|].
  eapply page_loop_cap; eassumption.
Qed.

(** A walk admits no more records than the partition has room for, and
    every count it persists is within the cap. *)
Lemma walk_loop_cap env topic_obj total_in_db script :
  forall cursor cc reserved inserted s,
    run_ok (walk_loop env script total_in_db topic_obj cursor cc reserved
                      inserted) s
      (fun r _ =>
         inserted <= w_inserted r /\
         w_inserted r - inserted <= Z.max 0 (config.MAX_PER_TOPIC - cc) /\
         forall dn c n, In (EvSaveProgress dn c n) (w_trace r) ->
                        n <= config.MAX_PER_TOPIC).
Proof.
  assert (Hstop : forall status inserted cc tr sc,
            (forall dn c n, ~ In (EvSaveProgress dn c n) tr) ->
            inserted <= w_inserted (mkWalkResult status inserted tr sc) /\
            w_inserted (mkWalkResult status inserted tr sc) - inserted
              <= Z.max 0 (config.MAX_PER_TOPIC - cc) /\
            forall dn c n,
              In (EvSaveProgress dn c n)
                 (w_trace (mkWalkResult status inserted tr sc)) ->
              n <= config.MAX_PER_TOPIC).
  { intros status inserted cc tr sc Hno. cbn [w_inserted w_trace].
    split; [lia|]. split; [lia|]. intros dn c n Hin. now apply Hno in Hin. }
  induction script as [|resp script IH];
    intros cursor cc reserved inserted s; apply run_ok_walk_loop;
    unfold walk_round; cbn beta iota zeta.
  - destruct (config.SESSION_LIMIT <=? inserted);
      [run_step; apply Hstop; intros ? ? ? []|].
    destruct (config.MAX_AUTHORS <=? total_in_db + inserted);
      [run_step; apply Hstop; intros ? ? ? []|].
    destruct (config.MAX_PER_TOPIC <=? cc);
      run_step; apply Hstop; intros ? ? ? [].
  - destruct (config.SESSION_LIMIT <=? inserted);
      [run_step; apply Hstop; intros ? ? ? []|].
    destruct (config.MAX_AUTHORS <=? total_in_db + inserted);
      [run_step; apply Hstop; intros ? ? ? []|].
    destruct (config.MAX_PER_TOPIC <=? cc) eqn:Hcap;
      [run_step; apply Hstop; intros ? ? ? []|].
    apply Z.leb_gt in Hcap.
    destruct resp as [|authors next];
      [run_step; apply Hstop; intros ? ? ? [|[]]; discriminate|].
    destruct authors as [|a authors];
      [run_step; apply Hstop; intros ? ? ? [|[]]; discriminate|].
    run_step.
    eapply run_ok_mono;
      [apply page_loop_capped; cbn [pl_current_count]; lia|].
    intros st s1 [[_ [docs [Hd [Hc _]]]] Hle].
    simpl in Hd, Hc. cbv beta. rewrite Hd. run_step. apply commit_page.
    assert (Hnoc : forall dn c n, ~ In (EvSaveProgress dn c n) (committed docs)).
    { intros dn c n. destruct docs; simpl; [tauto|].
      intros [|[]]; discriminate. }
    destruct (Text.truthy next); cbn [negb].
    + repeat run_step.
      eapply run_ok_mono; [apply IH|].
      intros r s' [Hlo [Hhi Hev]]. run_step.
      unfold before. cbn [w_inserted w_trace].
      unfold config.MAX_PER_TOPIC in *.
      split; [lia|]. split; [lia|].
      intros dn c n [Hin|Hin]; [discriminate|].
      apply in_app_or in Hin. destruct Hin as [Hin|Hin]; [|eauto].
      apply in_app_or in Hin. destruct Hin as [Hin|[Hin|[]]].
      * now apply Hnoc in Hin.
      * injection Hin as _ _ <-. exact Hle.
    + run_step. cbn [w_inserted w_trace].
      unfold config.MAX_PER_TOPIC in *.
      split; [lia|]. split; [lia|].
      intros dn c n [Hin|Hin]; [discriminate|]. now apply Hnoc in Hin.
Qed.

(** ** Scheduling the topics of a keyword *)

Lemma find_app_none {D} (f : D -> bool) l l' d :
  find f l = None -> find f (l ++ l') = Some d -> In d l'.
Proof.
  induction l as [|x l IH]; simpl; intros Hn Hf.
  - apply find_some in Hf. tauto.
  - destruct (f x); [discriminate|auto].
Qed.

Lemma topics_grow_refl s : topics_grow s s.
Proof.
  unfold topics_grow. repeat split; try apply prefix_refl.
  exists []. now rewrite app_nil_r.
Qed.

(** One round of the loop keeps the invariant, and schedules the topic or
    leaves the list as it is. *)
Lemma keyword_body_inv (P : TopicDoc -> Prop) s0 names emap total rem topic
    ft s :
  (forall d, count_of d = 0 -> P d) ->
  (forall n d, Dict.get n emap = Some d ->
               count_of d < config.MAX_PER_TOPIC ->
               exists d', find (has_display_name n) (topics s0) = Some d'
                          /\ P d') ->
  (forall n, In n names -> Dict.get n emap = None ->
             find (has_display_name n) (topics s0) = None) ->
  In (ti_display_name topic) names ->
  keyword_inv P s0 ft s ->
  run_ok (keyword_body emap total rem topic ft) s
    (fun ft' s' =>
       keyword_inv P s0 ft' s' /\
       (ft' = ft \/ ft' = ft ++ [scheduled topic])).
Proof.
  intros HP Hs Hn Hin [Hg Hft]. unfold keyword_body. cbv zeta.
  destruct (Dict.get (ti_display_name topic) emap) as [d|] eqn:Hget.
  - change (match t_sync_status d with
            | Some ss => match ss_researchers_count ss with
                         | Some n => n
                         | None => 0
                         end
            | None => 0
            end) with (count_of d).
    destruct (config.MAX_PER_TOPIC <=? count_of d) eqn:Hrc; run_step.
    + split; [split; assumption|now left].
    + apply Z.leb_gt in Hrc. destruct (Hs _ _ Hget Hrc) as [d' [Hf HPd]].
      split; [|now right]. split; [exact Hg|].
      intros t Ht. apply in_app_or in Ht. destruct Ht as [Ht|[<-|[]]]; [auto|].
      exists d'. split; [|exact HPd]. cbn [to_display_name].
      destruct Hg as [_ [_ [_ [_ [new [Ht _]]]]]]. rewrite Ht.
      eapply prefix_find; [apply prefix_app|exact Hf].
  - destruct (_ || _)%bool.
    { run_step. split; [split; assumption|now left]. }
    run_step. eapply run_ok_mono; [apply upsert_topic_cases|].
    intros r s' [R [C [I [F [_ [_ [d [Hfd [_ Hcase]]]]]]]]]. cbv beta.
    run_step. split; [|now right].
    destruct Hg as [R0 [C0 [I0 [F0 [new [T0 Hnew]]]]]].
    pose proof (Hn _ Hin Hget) as Hnone0.
    destruct (find (has_display_name (ti_display_name topic)) (topics s))
      as [d0|] eqn:Hf.
    + destruct Hcase as [-> Ts].
      assert (HPd : P d0).
      { apply HP. rewrite T0 in Hf.
        pose proof (find_app_none _ _ _ _ Hnone0 Hf) as Hin'.
        rewrite Forall_forall in Hnew. now apply Hnew. }
      split.
      * unfold topics_grow. split; [congruence|]. split; [congruence|].
        split; [congruence|]. split; [eapply prefix_trans; eassumption|].
        exists new. split; [congruence|exact Hnew].
      * intros t Ht. apply in_app_or in Ht.
        destruct Ht as [Ht|[<-|[]]].
        -- rewrite Ts. now apply Hft.
        -- exists d0. split; [exact Hfd|exact HPd].
    + destruct Hcase as [Ts [_ [Hsync _]]].
      assert (Hz : count_of d = 0) by (unfold count_of; now rewrite Hsync).
      split.
      * unfold topics_grow. split; [congruence|]. split; [congruence|].
        split; [congruence|]. split; [eapply prefix_trans; eassumption|].
        exists (new ++ [d]). split.
        -- now rewrite Ts, T0, app_assoc.
        -- apply Forall_app. split; [exact Hnew|now constructor].
      * intros t Ht. apply in_app_or in Ht.
        destruct Ht as [Ht|[<-|[]]].
        -- destruct (Hft t Ht) as [d1 [Hf1 HP1]]. exists d1.
           split; [|exact HP1]. rewrite Ts.
           eapply prefix_find; [apply prefix_app|exact Hf1].
        -- exists d. split; [exact Hfd|now apply HP].
Qed.

Lemma map_of_get_some n l d :
  Dict.get n (map_of l) = Some d -> In d l /\ has_display_name n d = true.
Proof.
  rewrite map_of_get.
  destruct (List.rev (filter (has_display_name n) l)) as [|x r] eqn:Er;
    [discriminate|].
  intros [= ->].
  assert (Hx : In d (filter (has_display_name n) l)).
  { apply in_rev. rewrite Er. simpl. auto. }
  now apply filter_In in Hx.
Qed.

Lemma map_of_get_none n l :
  Dict.get n (map_of l) = None -> filter (has_display_name n) l = [].
Proof.
  rewrite map_of_get.
  destruct (List.rev (filter (has_display_name n) l)) as [|x r] eqn:Er;
    [|discriminate].
  intros _. apply (f_equal (@List.rev TopicDoc)) in Er.
  now rewrite rev_involutive in Er.
Qed.

Lemma find_none_filter {D} (f : D -> bool) l : filter f l = [] -> find f l = None.
Proof.
  induction l as [|x l IH]; simpl; [reflexivity|].
  destruct (f x); [discriminate|exact IH].
Qed.

(** [fetch_topics_for_keyword] returns in every store, keeps the
    invariant, and schedules fetched topics only. *)
Lemma fetch_topics_inv (P : TopicDoc -> Prop) U urlparse_path api keyword
    inserted s :
  (forall d, count_of d = 0 -> P d) ->
  (forall n d, In d (topics s) -> has_display_name n d = true ->
               count_of d < config.MAX_PER_TOPIC ->
               exists d', find (has_display_name n) (topics s) = Some d'
                          /\ P d') ->
  run_ok (fetch_topics_for_keyword U urlparse_path api keyword inserted) s
    (fun ft s' =>
       keyword_inv P s ft s' /\
       forall t, In t ft ->
         exists results c,
           api (format_keyword U keyword) = TopicsPage results /\
           In c (all_topics_of urlparse_path results) /\
           t = scheduled c).
Proof.
  intros HP Hsel. unfold fetch_topics_for_keyword. cbv zeta.
  destruct (api (format_keyword U keyword)) as [|results] eqn:Hapi.
  { run_step. split; [split; [apply topics_grow_refl|intros t []]|].
    intros t []. }
  fold (all_topics_of urlparse_path results).
  set (all := all_topics_of urlparse_path results).
  repeat run_step. cbn [col_get COL_TOPICS COL_RESEARCHERS].
  match goal with |- context [map_of ?l] => set (existing := l) end.
  eapply run_ok_mono.
  - apply (run_ok_for_each
             (keyword_body (map_of existing)
                (Z.of_nat (List.length (researchers s)))
                (config.SESSION_LIMIT - inserted))
             (fun ft s' =>
                keyword_inv P s ft s' /\
                forall t, In t ft -> exists c, In c all /\ t = scheduled c)).
    + intros c ft s1 Hc [Hinv Hfrom].
      eapply run_ok_mono.
      * apply (keyword_body_inv P s (map ti_display_name all)
                 (map_of existing)); try assumption.
        -- intros n d Hget Hlt.
           apply map_of_get_some in Hget. destruct Hget as [Hd Hn].
           apply filter_In in Hd. destruct Hd as [Hd _]. eauto.
        -- intros n Hn Hget. apply map_of_get_none in Hget.
           apply find_none_filter.
           destruct (filter (has_display_name n) (topics s)) as [|d r] eqn:E;
             [reflexivity|exfalso].
           assert (Hd : In d (filter (has_display_name n) (topics s)))
             by (rewrite E; simpl; auto).
           apply filter_In in Hd. destruct Hd as [Hd Hname].
           assert (Hd' : In d (filter (has_display_name n) existing)).
           { apply filter_In. split; [|exact Hname].
             apply filter_In. split; [exact Hd|].
             apply has_display_name_true in Hname. rewrite Hname.
             now apply mem_In. }
           now rewrite Hget in Hd'.
        -- now apply in_map.
      * intros ft' s' [Hinv' Hft']. split; [exact Hinv'|].
        destruct Hft' as [->| ->]; [exact Hfrom|].
        intros t Ht. apply in_app_or in Ht.
        destruct Ht as [Ht|[<-|[]]]; [auto|]. now exists c.
    + split; [split; [apply topics_grow_refl|intros t []]|intros t []].
  - intros ft s' [Hinv Hfrom]. split; [exact Hinv|].
    intros t Ht. destruct (Hfrom t Ht) as [c [Hc ->]].
    exists results, c. auto.
Qed.

(** Under unique names a document is the one a lookup by its name finds,
    and the only one of its name. *)
Lemma unique_filter (l : list TopicDoc) n d :
  NoDup (names_of l) -> In d l -> has_display_name n d = true ->
  filter (has_display_name n) l = [d].
Proof.
  intros Hnd Hin Hn. induction l as [|x l IH]; [contradiction|].
  unfold names_of in Hnd. cbn [flat_map] in Hnd. fold (names_of l) in Hnd.
  cbn [filter].
  assert (Hnone : has_display_name n x = true -> filter (has_display_name n) l = []).
  { intros Hx. apply has_display_name_true in Hx. rewrite Hx in Hnd.
    inversion Hnd as [|? ? Hnotin _]; subst.
    destruct (filter (has_display_name n) l) as [|y r] eqn:E; [reflexivity|].
    exfalso. apply Hnotin.
    assert (Hy : In y (filter (has_display_name n) l))
      by (rewrite E; simpl; auto).
    apply filter_In in Hy. destruct Hy as [Hy Hyn].
    apply names_of_In. exists y. split; [exact Hy|].
    now apply has_display_name_true. }
  assert (Hnd' : NoDup (names_of l)).
  { destruct (t_display_name x); [now inversion Hnd|exact Hnd]. }
  destruct Hin as [->|Hin].
  - rewrite Hn. now rewrite (Hnone Hn).
  - destruct (has_display_name n x) eqn:Hx.
    + specialize (Hnone eq_refl).
      assert (Hd : In d (filter (has_display_name n) l))
        by (apply filter_In; auto).
      rewrite Hnone in Hd. contradiction.
    + now apply IH.
Qed.

Lemma stored_count_found n s d :
  find (has_display_name n) (topics s) = Some d -> stored_count n s = count_of d.
Proof.
  intros H. unfold stored_count, topic_sync, count_of. rewrite H.
  now destruct (t_sync_status d).
Qed.

(** What the local map of the function holds for a fetched name, under
    unique names. *)
Lemma map_of_unique (l : list TopicDoc) names n d :
  NoDup (names_of l) -> In n names ->
  find (has_display_name n) l = Some d ->
  Dict.get n (map_of (filter (fun d => match t_display_name d with
                                       | Some k => Text.mem k names
                                       | None => false
                                       end) l)) = Some d.
Proof.
  intros Hnd Hn Hf. apply find_some in Hf. destruct Hf as [Hd Hname].
  rewrite map_of_get, filter_comm, (unique_filter l n d Hnd Hd Hname).
  cbn [filter]. apply has_display_name_true in Hname. rewrite Hname.
  apply mem_In in Hn. now rewrite Hn.
Qed.

Lemma map_of_absent (l : list TopicDoc) (q : TopicDoc -> bool) n :
  find (has_display_name n) l = None ->
  Dict.get n (map_of (filter q l)) = None.
Proof.
  intros Hf. rewrite map_of_get, filter_comm.
  assert (E : filter (has_display_name n) l = []).
  { destruct (filter (has_display_name n) l) as [|x r] eqn:E; [reflexivity|].
    now rewrite (find_of_filter _ _ _ _ E) in Hf. }
  now rewrite E.
Qed.

(** The list of scheduled topics only grows. *)
Lemma keyword_body_grows emap total rem topic ft s ft' s' :
  keyword_body emap total rem topic ft s = Ok ft' s' ->
  exists tl, ft' = ft ++ tl.
Proof.
  unfold keyword_body. cbv zeta.
  destruct (Dict.get (ti_display_name topic) emap) as [d|].
  - destruct (config.MAX_PER_TOPIC <=? _); unfold ret; intros [= <- _];
      [exists []; now rewrite app_nil_r|eauto].
  - destruct (_ || _)%bool.
    + unfold ret. intros [= <- _]. exists []. now rewrite app_nil_r.
    + unfold bind. destruct (upsert_topic topic s) as [r s1|]; [|discriminate].
      unfold ret. intros [= <- _]. eauto.
Qed.

Lemma keyword_loop_grows emap total rem l :
  forall ft s ft' s',
    for_each (keyword_body emap total rem) l ft s = Ok ft' s' ->
    exists tl, ft' = ft ++ tl.
Proof.
  induction l as [|c l IH]; intros ft s ft' s'; simpl.
  - unfold ret. intros [= <- _]. exists []. now rewrite app_nil_r.
  - unfold bind.
    destruct (keyword_body emap total rem c ft s) as [ft1 s1|] eqn:E;
      [|discriminate].
    intros E'. apply keyword_body_grows in E. destruct E as [tl1 ->].
    apply IH in E'. destruct E' as [tl2 ->].
    exists (tl1 ++ tl2). now rewrite app_assoc.
Qed.

(** A round schedules its topic when the topic is in the local map with a
    count below the cap, or is not in it while capacity remains. *)
Lemma keyword_body_schedules emap total rem topic ft s ft' s' :
  keyword_body emap total rem topic ft s = Ok ft' s' ->
  match Dict.get (ti_display_name topic) emap with
  | Some d => count_of d < config.MAX_PER_TOPIC
  | None => total < config.MAX_AUTHORS /\ 0 < rem
  end ->
  ft' = ft ++ [scheduled topic].
Proof.
  unfold keyword_body. cbv zeta.
  destruct (Dict.get (ti_display_name topic) emap) as [d|].
  - change (match t_sync_status d with
            | Some ss => match ss_researchers_count ss with
                         | Some n => n
                         | None => 0
                         end
            | None => 0
            end) with (count_of d).
    intros E H. apply Z.leb_gt in H. rewrite H in E.
    unfold ret in E. now injection E as <- _.
  - intros E [H1 H2]. apply Z.leb_gt in H1, H2. rewrite H1, H2 in E.
    cbn [orb] in E. unfold bind in E.
    destruct (upsert_topic topic s) as [r s1|]; [|discriminate].
    unfold ret in E. now injection E as <- _.
Qed.

Lemma keyword_loop_schedules emap total rem pre c post ft s ft' s' :
  for_each (keyword_body emap total rem) (pre ++ c :: post) ft s = Ok ft' s' ->
  match Dict.get (ti_display_name c) emap with
  | Some d => count_of d < config.MAX_PER_TOPIC
  | None => total < config.MAX_AUTHORS /\ 0 < rem
  end ->
  In (scheduled c) ft'.
Proof.
  rewrite for_each_app. unfold bind at 1.
  destruct (for_each (keyword_body emap total rem) pre ft s) as [ft1 s1|];
    [|discriminate].
  cbn [for_each]. unfold bind at 1.
  destruct (keyword_body emap total rem c ft1 s1) as [ft2 s2|] eqn:E;
    [|discriminate].
  intros E' H. apply (keyword_body_schedules _ _ _ _ _ _ _ _ E) in H.
  apply keyword_loop_grows in E'. destruct E' as [tl ->]. subst ft2.
  apply in_or_app. left. apply in_or_app. right. simpl. auto.
Qed.

(** ** The whole run *)

Lemma run_post_nil inserted s script finished :
  run_post inserted s (mkRunResult finished inserted [] script) s.
Proof.
  unfold run_post. cbn [rr_trace rr_inserted inserted_docs flat_map].
  split; [auto|]. split; [now rewrite app_nil_r|].
  split; [simpl; lia|intros p []].
Qed.

(** A walk followed by a run is a run. *)
Lemma run_post_step topic_obj cursor cc inserted s w s1 r s2 :
  walk_post topic_obj cursor cc inserted s w s1 ->
  run_post (w_inserted w) s1 r s2 ->
  run_post inserted s
    (mkRunResult (rr_finished r) (rr_inserted r) (w_trace w ++ rr_trace r)
                 (rr_script r)) s2.
Proof.
  intros [Hn1 [Hr1 [Hi1 [_ [Ho1 _]]]]] [Hn2 [Hr2 [Hi2 Ho2]]].
  unfold run_post. cbn [rr_trace rr_inserted].
  rewrite inserted_docs_app. split; [auto|].
  split; [now rewrite Hr2, Hr1, app_assoc|].
  split; [rewrite Hi2, Hi1, length_app; lia|].
  intros p Hp. apply in_app_or in Hp. destruct Hp; auto.
Qed.

Lemma run_topics_post env fetch_topics :
  forall script inserted s,
    run_ok (run_topics env script fetch_topics inserted) s
           (run_post inserted s).
Proof.
  induction fetch_topics as [|t ts IH]; intros script inserted s; simpl.
  - run_step. apply run_post_nil.
  - run_step.
    eapply run_ok_mono; [apply fetch_authors_for_topic_ok|].
    intros w s1 Hw. cbv beta. destruct (w_status w).
    + run_step. eapply run_ok_mono; [apply IH|].
      intros r s2 Hr. run_step. eapply run_post_step; eassumption.
    + run_step.
      destruct Hw as [Hn1 [Hr1 [Hi1 [_ [Ho1 _]]]]].
      unfold run_post. cbn [rr_trace rr_inserted]. auto.
Qed.

(** Two runs in a row, with a store in between whose researchers are
    those the first run left. *)
Lemma run_post_seq inserted s r1 s1 s1' r2 s2 :
  run_post inserted s r1 s1 ->
  researchers s1' = researchers s1 ->
  run_post (rr_inserted r1) s1' r2 s2 ->
  run_post inserted s
    (mkRunResult (rr_finished r2) (rr_inserted r2) (rr_trace r1 ++ rr_trace r2)
                 (rr_script r2)) s2.
Proof.
  intros [Hn1 [Hr1 [Hi1 Ho1]]] HR [Hn2 [Hr2 [Hi2 Ho2]]].
  rewrite HR in Hn2, Hr2.
  unfold run_post. cbn [rr_trace rr_inserted].
  rewrite inserted_docs_app. split; [auto|].
  split; [now rewrite Hr2, Hr1, app_assoc|].
  split; [rewrite Hi2, Hi1, length_app; lia|].
  intros p Hp. apply in_app_or in Hp. destruct Hp; auto.
Qed.

Lemma fetch_topics_researchers U urlparse_path api keyword inserted s :
  run_ok (fetch_topics_for_keyword U urlparse_path api keyword inserted) s
    (fun _ s' => researchers s' = researchers s).
Proof.
  eapply run_ok_mono.
  - apply (fetch_topics_inv (fun _ => True)); [auto|].
    intros n d Hd Hn _.
    destruct (find (has_display_name n) (topics s)) as [d'|] eqn:Hf; [eauto|].
    rewrite (find_none _ _ Hf d Hd) in Hn. discriminate.
  - intros ft s' [[Hg _] _]. apply Hg.
Qed.

Lemma main_loop_post env urlparse_path topics_api keywords :
  forall k script inserted s,
    run_ok (main_loop env urlparse_path topics_api k script keywords inserted)
           s (run_post inserted s).
Proof.
  induction keywords as [|kw rest IH]; intros k script inserted s; simpl.
  - run_step. apply run_post_nil.
  - run_step.
    eapply run_ok_mono; [apply fetch_topics_researchers|].
    intros ft s0 HR0. cbv beta. run_step.
    eapply run_ok_mono; [apply run_topics_post|].
    intros r1 s1 H1. cbv beta.
    assert (H1' : run_post inserted s r1 s1).
    { destruct H1 as [Hn [Hr [Hi Ho]]]. rewrite HR0 in Hn, Hr.
      unfold run_post. auto. }
    destruct (rr_finished r1); [|run_step; exact H1'].
    run_step. eapply run_ok_mono; [apply IH|].
    intros r2 s2 H2. run_step.
    eapply run_post_seq; [exact H1'|reflexivity|exact H2].
Qed.

(** ** Bulk inserts and lookups by identifier *)

Lemma find_app_skip {D} (f : D -> bool) l l' :
  find f l = None -> find f (l ++ l') = find f l'.
Proof.
  induction l as [|x l IH]; simpl; [reflexivity|].
  destruct (f x); [discriminate|exact IH].
Qed.

Lemma find_id_below (l : list ResearcherDoc) n i :
  (forall d, In d l -> (r_id d < n)%nat) -> (n <= i)%nat ->
  find (fun d => Nat.eqb (r_id d) i) l = None.
Proof.
  intros Hl Hi. induction l as [|x l IH]; simpl; [reflexivity|].
  destruct (Nat.eqb_spec (r_id x) i) as [E|_].
  - specialize (Hl x (or_introl eq_refl)). lia.
  - apply IH. intros d Hd. apply Hl. now right.
Qed.

Lemma find_with_ids docs :
  forall n k p,
    nth_error docs k = Some p ->
    find (fun d => Nat.eqb (r_id d) (n + k)%nat)
         (with_ids mkResearcherDoc n docs)
    = Some (mkResearcherDoc (n + k)%nat p).
Proof.
  induction docs as [|q docs IH]; intros n k p; [now destruct k|].
  destruct k as [|k]; simpl.
  - intros [= ->]. rewrite Nat.add_0_r, Nat.eqb_refl. reflexivity.
  - intros H. destruct (Nat.eqb_spec n (n + S k)%nat) as [E|_]; [lia|].
    rewrite <- Nat.add_succ_comm. now apply IH.
Qed.

Lemma nth_error_seq_some n len k :
  (k < len)%nat -> nth_error (seq n len) k = Some (n + k)%nat.
Proof.
  revert n k. induction len as [|len IH]; intros n k Hk; [lia|].
  destruct k as [|k]; simpl; [now rewrite Nat.add_0_r|].
  rewrite IH by lia. f_equal. lia.
Qed.

Lemma with_ids_bound docs :
  forall n d,
    In d (with_ids mkResearcherDoc n docs) ->
    (r_id d < n + List.length docs)%nat.
Proof.
  induction docs as [|q docs IH]; intros n d; simpl; [contradiction|].
  intros [<-|Hd]; simpl; [lia|]. apply IH in Hd. lia.
Qed.

(** ** Records the page loop passes over *)

Lemma page_loop_passes env total_in_db inserted authors st s :
  (forall a, In a authors ->
     Text.truthy (a_orcid a) = false \/
     find (has_orcid (a_orcid a)) (researchers s) <> None) ->
  page_loop env total_in_db inserted authors st s = Ok st s.
Proof.
  induction authors as [|a authors IH]; intros H; simpl; [reflexivity|].
  destruct (config.SESSION_LIMIT <=? inserted); [reflexivity|].
  destruct (config.MAX_AUTHORS <=? total_in_db + inserted); [reflexivity|].
  destruct (config.MAX_PER_TOPIC <=? pl_current_count st); [reflexivity|].
  assert (IH' : page_loop env total_in_db inserted authors st s = Ok st s).
  { apply IH. intros b Hb. apply H. now right. }
  destruct (H a (or_introl eq_refl)) as [Ho|Hf].
  - now rewrite Ho.
  - destruct (Text.truthy (a_orcid a)); [|exact IH']. cbn [negb].
    unfold bind, find_document. cbn [col_get COL_RESEARCHERS].
    destruct (find (has_orcid (a_orcid a)) (researchers s));
      [exact IH'|contradiction].
Qed.

Lemma find_app_skip_gen {D} (f : D -> bool) l d :
  f d = false -> find f (l ++ [d]) = find f l.
Proof.
  intros Hd. induction l as [|x l IH]; simpl; [now rewrite Hd|].
  destruct (f x); [reflexivity|exact IH].
Qed.

(** ** Properties of the store that every step keeps *)

Section Keeps.
Variable I : Store -> Prop.

Lemma keeps_ret {A} (a : A) : keeps I (ret a).
Proof. intros s a' s' E. now injection E as _ <-. Qed.

Lemma keeps_raise {A} e : keeps I (@raise A e).
Proof. intros s a s' E. discriminate. Qed.

Lemma keeps_get : keeps I get.
Proof. intros s a s' E. now injection E as _ <-. Qed.

Lemma keeps_bind {A B} (m : M A) (k : A -> M B) :
  keeps I m -> (forall a, keeps I (k a)) -> keeps I (bind m k).
Proof.
  intros Hm Hk s b s'' E HI. unfold bind in E.
  destruct (m s) as [a s'|e] eqn:Em; [|discriminate].
  eapply Hk; [exact E|]. eapply Hm; eassumption.
Qed.

Lemma keeps_find_document {D} (c : Collection D) f :
  keeps I (find_document c f).
Proof. intros s a s' E. now injection E as _ <-. Qed.

Lemma keeps_find_documents {D} (c : Collection D) f :
  keeps I (find_documents c f).
Proof. intros s a s' E. now injection E as _ <-. Qed.

Lemma keeps_count_documents {D} (c : Collection D) :
  keeps I (count_documents c).
Proof. intros s a s' E. now injection E as _ <-. Qed.

Lemma keeps_for_each {A S} (body : A -> S -> M S) l :
  (forall a st, keeps I (body a st)) ->
  forall st, keeps I (for_each body l st).
Proof.
  intros Hbody. induction l as [|a l IH]; intros st; simpl.
  - apply keeps_ret.
  - apply keeps_bind; [apply Hbody|exact IH].
Qed.

Lemma run_ok_keeps {A} (m : M A) s (Q : A -> Store -> Prop) :
  keeps I m -> I s -> run_ok m s Q -> run_ok m s (fun a s' => Q a s' /\ I s').
Proof.
  intros Hm HI [a [s' [E HQ]]]. exists a, s'. split; [exact E|].
  split; [exact HQ|]. eapply Hm; eassumption.
Qed.

End Keeps.

Lemma NoDup_new_key {D} (key : D -> string) k l d :
  NoDup (map key l) ->
  existsb (fun x => String.eqb (key x) k) l = false ->
  key d = k ->
  NoDup (map key (l ++ [d])).
Proof.
  intros Hnd Hex Hk. rewrite map_app. apply NoDup_app; [exact Hnd| |].
  - simpl. constructor; [intros []|constructor].
  - intros x Hx [<-|[]]. apply in_map_iff in Hx.
    destruct Hx as [y [Hy Hin]].
    assert (Ht : existsb (fun x => String.eqb (key x) k) l = true).
    { eapply existsb_In; [exact Hin|]. apply String.eqb_eq. congruence. }
    congruence.
Qed.

Lemma keeps_upsert_country_doc code name :
  keeps unique_refs
    (upsert_document_new COL_COUNTRIES
       (fun d => String.eqb (c_id d) code) (fun d => d)
       (fun _ => mkCountryDoc code name)).
Proof.
  intros s a s' E [Hi [Hc Hf]]. rewrite upsert_document_new_eq in E.
  injection E as _ <-. unfold upserted, unique_refs.
  cbn [col_get COL_COUNTRIES].
  destruct (existsb _ (countries s)) eqn:Hex; simpl.
  - rewrite update_first_id. auto.
  - split; [exact Hi|]. split; [|exact Hf].
    eapply NoDup_new_key; [exact Hc|exact Hex|reflexivity].
Qed.

Lemma keeps_upsert_institution_doc ror name country_id :
  keeps unique_refs
    (upsert_document_new COL_INSTITUTIONS
       (fun d => String.eqb (i_ror d) ror) (fun d => d)
       (fun i => mkInstitutionDoc i name ror country_id)).
Proof.
  intros s a s' E [Hi [Hc Hf]]. rewrite upsert_document_new_eq in E.
  injection E as _ <-. unfold upserted, unique_refs.
  cbn [col_get COL_INSTITUTIONS].
  destruct (existsb _ (institutions s)) eqn:Hex; simpl.
  - rewrite update_first_id. auto.
  - split; [|auto].
    eapply NoDup_new_key; [exact Hi|exact Hex|reflexivity].
Qed.

Lemma keeps_upsert_field_doc field_name :
  keeps unique_refs
    (upsert_document_new COL_FIELDS
       (fun d => String.eqb (f_display_name d) field_name)
       (fun d => mkFieldDoc (f_id d) field_name)
       (fun i => mkFieldDoc i field_name)).
Proof.
  intros s a s' E [Hi [Hc Hf]]. rewrite upsert_document_new_eq in E.
  injection E as _ <-. unfold upserted, unique_refs.
  cbn [col_get COL_FIELDS].
  destruct (existsb _ (fields s)) eqn:Hex; simpl.
  - rewrite update_first_same; [auto|].
    intros x Hx. apply String.eqb_eq in Hx. destruct x. simpl in *.
    now subst.
  - split; [exact Hi|]. split; [exact Hc|].
    eapply NoDup_new_key; [exact Hf|exact Hex|reflexivity].
Qed.

Lemma keeps_upsert_topic_doc f u fr :
  keeps unique_refs (upsert_document_new COL_TOPICS f u fr).
Proof.
  intros s a s' E HI. rewrite upsert_document_new_eq in E.
  injection E as _ <-. unfold upserted, unique_refs in *.
  destruct (existsb _ _); simpl; exact HI.
Qed.

Lemma keeps_insert_topics docs :
  keeps unique_refs (insert_many_documents COL_TOPICS missing_topic docs).
Proof.
  intros s a s' E HI. unfold insert_many_documents in E.
  destruct docs; injection E as _ <-; exact HI.
Qed.

Lemma keeps_insert_researchers docs :
  keeps unique_refs
    (insert_many_documents COL_RESEARCHERS mkResearcherDoc docs).
Proof.
  intros s a s' E HI. unfold insert_many_documents in E.
  destruct docs; injection E as _ <-; exact HI.
Qed.

Ltac keep_step :=
  match goal with
  | |- keeps _ (bind _ _) => apply keeps_bind; [|intros]
  | |- keeps _ (ret _) => apply keeps_ret
  | |- keeps _ (raise _) => apply keeps_raise
  | |- keeps _ get => apply keeps_get
  | |- keeps _ (find_document _ _) => apply keeps_find_document
  | |- keeps _ (find_documents _ _) => apply keeps_find_documents
  | |- keeps _ (count_documents _) => apply keeps_count_documents
  | |- keeps _ (upsert_document_new COL_COUNTRIES _ _ _) =>
      apply keeps_upsert_country_doc
  | |- keeps _ (upsert_document_new COL_INSTITUTIONS _ _ _) =>
      apply keeps_upsert_institution_doc
  | |- keeps _ (upsert_document_new COL_FIELDS _ _ _) =>
      apply keeps_upsert_field_doc
  | |- keeps _ (upsert_document_new COL_TOPICS _ _ _) =>
      apply keeps_upsert_topic_doc
  | |- keeps _ (insert_many_documents COL_TOPICS _ _) =>
      apply keeps_insert_topics
  | |- keeps _ (insert_many_documents COL_RESEARCHERS _ _) =>
      apply keeps_insert_researchers
  | |- keeps _ (match ?x with _ => _ end) => destruct x
  end.

Lemma keeps_upsert_country env code : keeps unique_refs (upsert_country env code).
Proof. unfold upsert_country. repeat keep_step. Qed.

Lemma keeps_upsert_field name : keeps unique_refs (upsert_field name).
Proof. unfold upsert_field. repeat keep_step. Qed.

Lemma keeps_upsert_topic topic : keeps unique_refs (upsert_topic topic).
Proof.
  unfold upsert_topic. repeat keep_step; try apply keeps_upsert_field.
Qed.

Lemma keeps_affiliation_body env aff st :
  keeps unique_refs (affiliation_body env aff st).
Proof.
  unfold affiliation_body. repeat keep_step;
    try apply keeps_upsert_country.
Qed.

Lemma keeps_last_known_body env inst st :
  keeps unique_refs (last_known_body env inst st).
Proof.
  unfold last_known_body. repeat keep_step;
    try apply keeps_upsert_country.
Qed.

Lemma keeps_topic_body names topic st :
  keeps unique_refs (topic_body names topic st).
Proof.
  unfold topic_body. repeat keep_step; try apply keeps_upsert_field.
Qed.

Lemma keeps_process_researcher_topics topics_ :
  keeps unique_refs (process_researcher_topics topics_).
Proof.
  unfold process_researcher_topics. repeat keep_step.
  apply keeps_for_each. intros. apply keeps_topic_body.
Qed.

Lemma keeps_map_author_to_profile env author :
  keeps unique_refs (map_author_to_profile env author).
Proof.
  unfold map_author_to_profile. repeat keep_step.
  - apply keeps_for_each. intros. apply keeps_affiliation_body.
  - apply keeps_for_each. intros. apply keeps_last_known_body.
  - apply keeps_process_researcher_topics.
Qed.

Lemma keeps_page_loop env total_in_db inserted authors :
  forall st, keeps unique_refs (page_loop env total_in_db inserted authors st).
Proof.
  induction authors as [|a authors IH]; intros st; simpl.
  - apply keeps_ret.
  - repeat keep_step; try apply IH.
    apply keeps_map_author_to_profile.
Qed.

Lemma keeps_walk_round (I : Store -> Prop) env script total_in_db topic_obj
    cursor cc reserved inserted :
  keeps I (walk_round
             (fun script' cursor' cc' reserved' inserted' =>
                walk_loop env script' total_in_db topic_obj cursor' cc'
                          reserved' inserted')
             env script total_in_db topic_obj cursor cc reserved inserted) ->
  keeps I (walk_loop env script total_in_db topic_obj cursor cc reserved
                     inserted).
Proof. intros H s r s' E. rewrite walk_loop_round in E. exact (H s r s' E). Qed.

Lemma keeps_walk_loop env topic_obj total_in_db script :
  forall cursor cc reserved inserted,
    keeps unique_refs
      (walk_loop env script total_in_db topic_obj cursor cc reserved inserted).
Proof.
  induction script as [|resp script IH];
    intros cursor cc reserved inserted; apply keeps_walk_round;
    unfold walk_round; cbn beta iota zeta.
  - repeat keep_step.
  - repeat keep_step; try apply IH; try apply keeps_page_loop.
Qed.

Lemma keeps_fetch_authors_for_topic env script topic_obj inserted :
  keeps unique_refs (fetch_authors_for_topic env script topic_obj inserted).
Proof.
  unfold fetch_authors_for_topic. repeat keep_step.
  apply keeps_walk_loop.
Qed.

Lemma keeps_run_topics env fetch_topics :
  forall script inserted,
    keeps unique_refs (run_topics env script fetch_topics inserted).
Proof.
  induction fetch_topics as [|t ts IH]; intros script inserted; simpl.
  - apply keeps_ret.
  - repeat keep_step; try apply IH.
    apply keeps_fetch_authors_for_topic.
Qed.

Lemma keeps_keyword_body emap total rem topic ft :
  keeps unique_refs (keyword_body emap total rem topic ft).
Proof.
  unfold keyword_body. repeat keep_step. apply keeps_upsert_topic.
Qed.

Lemma keeps_fetch_topics_for_keyword U urlparse_path api keyword inserted :
  keeps unique_refs
    (fetch_topics_for_keyword U urlparse_path api keyword inserted).
Proof.
  unfold fetch_topics_for_keyword. repeat keep_step.
  apply keeps_for_each. intros. apply keeps_keyword_body.
Qed.

Lemma keeps_main_loop env urlparse_path topics_api keywords :
  forall k script inserted,
    keeps unique_refs
      (main_loop env urlparse_path topics_api k script keywords inserted).
Proof.
  induction keywords as [|kw rest IH]; intros k script inserted; simpl.
  - apply keeps_ret.
  - repeat keep_step; try apply IH.
    + apply keeps_fetch_topics_for_keyword.
    + apply keeps_run_topics.
Qed.

(** ** Slugs come from names *)

Lemma candidate_empty base k :
  Text.truthy (candidate base k) = false -> base = "" /\ k = 0%nat.
Proof.
  destruct k as [|k]; simpl.
  - destruct base; [auto|discriminate].
  - destruct base; discriminate.
Qed.

Lemma page_loop_slugs env total_in_db inserted authors :
  forall st s st' s',
    page_loop env total_in_db inserted authors st s = Ok st' s' ->
    Forall (slug_from_name (unicode env)) (pl_new_docs st) ->
    Forall (slug_from_name (unicode env)) (pl_new_docs st').
Proof.
  induction authors as [|author authors IH]; intros st s st' s'; simpl.
  { unfold ret. now intros [= <- _]. }
  destruct (config.SESSION_LIMIT <=? inserted);
    [unfold ret; now intros [= <- _]|].
  destruct (config.MAX_AUTHORS <=? total_in_db + inserted);
    [unfold ret; now intros [= <- _]|].
  destruct (config.MAX_PER_TOPIC <=? pl_current_count st);
    [unfold ret; now intros [= <- _]|].
  destruct (negb (Text.truthy (a_orcid author))); [apply IH|].
  unfold bind at 1. unfold find_document at 1.
  destruct (find _ _); [apply IH|].
  unfold bind at 1.
  destruct (map_author_to_profile_ok env author s)
    as [mapped [s1 [Em [_ [_ [_ Hnone]]]]]].
  rewrite Em. unfold bind at 1.
  destruct (Text.truthy (Text.strip_ws (p_name mapped))) eqn:Hnm.
  - unfold bind at 1. unfold get at 1.
    destruct (generate_unique_slug_first_free (unicode env)
                (Text.strip_ws (p_name mapped))
                (researchers s1) (pl_reserved_slugs st)) as [k [E _]].
    rewrite E.
    destruct (Text.truthy (candidate _ k)) eqn:Hslug; unfold ret;
      intros E' Hall; apply IH in E'; try exact E';
      cbn [pl_new_docs]; apply Forall_app; (split; [exact Hall|]);
      constructor; [|constructor| |constructor].
    + unfold slug_from_name, name_slug. cbn [set_slug p_slug p_name].
      split; [exact Hslug|now exists k].
    + unfold slug_from_name. rewrite Hnone.
      apply candidate_empty in Hslug. apply Hslug.
  - unfold ret. intros E' Hall. apply IH in E'; [exact E'|].
    cbn [pl_new_docs]. apply Forall_app. split; [exact Hall|].
    constructor; [|constructor].
    unfold slug_from_name, name_slug. rewrite Hnone.
    destruct (Text.strip_ws (p_name mapped)); [reflexivity|discriminate].
Qed.

Lemma page_loop_named env total_in_db inserted authors cc reserved s :
  run_ok (page_loop env total_in_db inserted authors
            (mkPageLoop [] cc reserved)) s
    (fun st' _ => Forall (slug_from_name (unicode env)) (pl_new_docs st')).
Proof.
  destruct (page_loop_ok env total_in_db inserted authors
              (mkPageLoop [] cc reserved) s) as [st' [s' [E _]]].
  exists st', s'. split; [exact E|].
  eapply page_loop_slugs; [exact E|constructor].
Qed.

Lemma inserted_docs_page oa cursor docs tl :
  inserted_docs (EvFetch oa cursor :: committed docs ++ tl)
  = docs ++ inserted_docs tl.
Proof.
  change (inserted_docs (committed docs ++ tl) = docs ++ inserted_docs tl).
  now rewrite inserted_docs_app, inserted_docs_committed.
Qed.

Lemma walk_loop_named env topic_obj total_in_db script :
  forall cursor cc reserved inserted s,
    run_ok (walk_loop env script total_in_db topic_obj cursor cc reserved
                      inserted) s
      (fun r _ =>
         Forall (slug_from_name (unicode env)) (inserted_docs (w_trace r))).
Proof.
  induction script as [|resp script IH];
    intros cursor cc reserved inserted s; apply run_ok_walk_loop;
    unfold walk_round; cbn beta iota zeta.
  - destruct (config.SESSION_LIMIT <=? inserted); [run_step; constructor|].
    destruct (config.MAX_AUTHORS <=? total_in_db + inserted);
      [run_step; constructor|].
    destruct (config.MAX_PER_TOPIC <=? cc); run_step; constructor.
  - destruct (config.SESSION_LIMIT <=? inserted); [run_step; constructor|].
    destruct (config.MAX_AUTHORS <=? total_in_db + inserted);
      [run_step; constructor|].
    destruct (config.MAX_PER_TOPIC <=? cc); [run_step; constructor|].
    destruct resp as [|authors next]; [run_step; constructor|].
    destruct authors as [|a authors]; [run_step; constructor|].
    run_step.
    eapply run_ok_mono; [apply page_loop_named|].
    intros st s1 Hdocs. cbv beta. run_step. apply commit_page.
    destruct (Text.truthy next); cbn [negb].
    + repeat run_step.
      eapply run_ok_mono; [apply IH|].
      intros r s' Hr. run_step. unfold before. cbn [w_trace].
      change ((EvFetch (to_oa_id topic_obj) cursor
               :: committed (pl_new_docs st)
                  ++ [EvSaveProgress (to_display_name topic_obj) next
                        (pl_current_count st)]) ++ w_trace r)
        with (EvFetch (to_oa_id topic_obj) cursor
              :: (committed (pl_new_docs st)
                  ++ [EvSaveProgress (to_display_name topic_obj) next
                        (pl_current_count st)]) ++ w_trace r).
      rewrite <- app_assoc, inserted_docs_page.
      apply Forall_app. split; [exact Hdocs|exact Hr].
    + run_step. cbn [w_trace].
      rewrite <- (app_nil_r (committed (pl_new_docs st))).
      rewrite inserted_docs_page. simpl. now rewrite app_nil_r.
Qed.

(** ** A run at capacity *)

(** At capacity [fetch_topics_for_keyword] writes nothing and schedules
    stored topics only. *)
Lemma fetch_topics_at_capacity :
  forall U urlparse_path api keyword inserted s,
    config.MAX_AUTHORS <= Z.of_nat (List.length (researchers s)) \/
    config.SESSION_LIMIT <= inserted ->
    run_ok (fetch_topics_for_keyword U urlparse_path api keyword inserted) s
      (fun ft s' =>
         s' = s /\
         forall t, In t ft ->
           existsb (has_display_name (to_display_name t)) (topics s) = true).
Proof.
  intros U up api keyword inserted s Hcap.
  unfold fetch_topics_for_keyword. cbv zeta.
  destruct (api (format_keyword U keyword)) as [|results].
  { run_step. split; [reflexivity|intros t []]. }
  repeat run_step. cbn [col_get COL_TOPICS COL_RESEARCHERS].
  match goal with |- context [map_of ?l] => set (existing := l) end.
  assert (Hfull :
    ((config.MAX_AUTHORS <=? Z.of_nat (List.length (researchers s)))
     || (config.SESSION_LIMIT - inserted <=? 0))%bool = true).
  { apply orb_true_iff. destruct Hcap as [H|H]; [left|right];
      apply Z.leb_le; lia. }
  apply (run_ok_for_each _
           (fun ft s' =>
              s' = s /\
              forall t, In t ft ->
                existsb (has_display_name (to_display_name t)) (topics s)
                = true)).
  - intros c ft s1 _ [-> Hft]. unfold keyword_body. cbv zeta.
    destruct (Dict.get (ti_display_name c) (map_of existing)) as [d|] eqn:Hget.
    + destruct (config.MAX_PER_TOPIC <=? _); run_step;
        (split; [reflexivity|]); [exact Hft|].
      intros t Ht. apply in_app_or in Ht. destruct Ht as [Ht|[<-|[]]]; [auto|].
      apply map_of_get_some in Hget. destruct Hget as [Hd Hn].
      apply filter_In in Hd. destruct Hd as [Hd _].
      eapply existsb_In; [exact Hd|exact Hn].
    + rewrite Hfull. run_step. now split.
  - split; [reflexivity|intros t []].
Qed.

(** A walk that starts with the session counter or the store at its cap
    returns at once. *)
Lemma fetch_authors_at_capacity env script topic_obj inserted s :
  config.MAX_AUTHORS <= Z.of_nat (List.length (researchers s)) \/
  config.SESSION_LIMIT <= inserted ->
  exists why,
    fetch_authors_for_topic env script topic_obj inserted s
    = Ok (mkWalkResult (Returned why) inserted [] script) s.
Proof.
  intros H. unfold fetch_authors_for_topic, bind, count_documents.
  cbn [col_get COL_RESEARCHERS].
  destruct (Z.leb_spec config.MAX_AUTHORS
              (Z.of_nat (List.length (researchers s)))) as [H1|H1];
    [now exists DbCap|].
  destruct (Z.leb_spec config.SESSION_LIMIT inserted) as [H2|H2];
    [now exists SessionCap|].
  lia.
Qed.

Lemma run_topics_at_capacity env fetch_topics :
  forall script inserted s,
    config.MAX_AUTHORS <= Z.of_nat (List.length (researchers s)) \/
    config.SESSION_LIMIT <= inserted ->
    run_topics env script fetch_topics inserted s
    = Ok (mkRunResult true inserted [] script) s.
Proof.
  induction fetch_topics as [|t ts IH]; intros script inserted s H; simpl;
    [reflexivity|].
  unfold bind at 1.
  destruct (fetch_authors_at_capacity env script t inserted s H) as [why E].
  rewrite E. cbn [w_status w_script w_inserted w_trace].
  unfold bind. now rewrite (IH script inserted s H).
Qed.

Lemma main_loop_at_capacity env urlparse_path topics_api keywords :
  forall k script inserted s,
    config.MAX_AUTHORS <= Z.of_nat (List.length (researchers s)) \/
    config.SESSION_LIMIT <= inserted ->
    main_loop env urlparse_path topics_api k script keywords inserted s
    = Ok (mkRunResult true inserted [] script) s.
Proof.
  induction keywords as [|kw rest IH]; intros k script inserted s H; simpl;
    [reflexivity|].
  unfold bind at 1.
  destruct (fetch_topics_at_capacity (unicode env) urlparse_path
              (topics_api k) kw inserted
              s H) as [ft [s' [E [-> _]]]].
  rewrite E. unfold bind at 1.
  rewrite (run_topics_at_capacity env ft script inserted s H).
  cbn [rr_finished rr_script rr_inserted rr_trace].
  unfold bind. now rewrite (IH (S k) script inserted s H).
Qed.
(* ================================================================= *)
(** * Properties of the helpers *)

(** ** [_generate_slug] *)

(** X1.  The slug of an ASCII name is made of lowercase letters, digits,
    underscores and hyphens only, holds no two hyphens in a row, neither
    starts nor ends with a hyphen, and is the same whatever the character
    database knows of the characters beyond ASCII. *)
Theorem X1_generate_slug_ascii :
  forall U U' name,
    ascii_only name ->
    let s := Text.decode (_generate_slug U name) in
    Forall (fun c => slug_char c = true) s /\
    (forall pre post, s <> pre ++ Text.hyphen :: Text.hyphen :: post) /\
    (forall t, s <> Text.hyphen :: t) /\
    (forall t, s <> t ++ [Text.hyphen]) /\
    _generate_slug U' name = _generate_slug U name.
Proof.
  intros U U' name Ha s. subst s.
  destruct (generate_slug_ascii U name Ha) as [E Hch].
  destruct (generate_slug_ascii U' name Ha) as [E' _].
  set (l := map Text.ascii_lower (Text.decode name)) in *.
  assert (Hl : Forall (fun c => (c < 128)%N) l).
  { subst l. apply Forall_map. eapply Forall_impl; [|apply ascii_decode, Ha].
    intros c Hc. now apply ascii_lower_bound. }
  rewrite E, decode_encode_ascii
    by (eapply Forall_impl; [|exact Hch]; apply slug_char_bound).
  split; [exact Hch|]. split; [|split; [|split]].
  - intros pre post Eq.
    pose proof (slug_steps_no_adjacent (filter (Text.slug_keep U) l)) as H.
    rewrite Eq in H.
    exact (no_adjacent_pair Text.is_hyphen pre _ _ post H eq_refl eq_refl).
  - intros t Eq. unfold slug_steps in Eq. now apply strip_head in Eq.
  - intros t Eq. unfold slug_steps in Eq. now apply strip_last in Eq.
  - rewrite E'. do 2 f_equal. apply filter_ext_in. intros c Hc.
    rewrite Forall_forall in Hl. unfold Text.slug_keep.
    now rewrite !is_word_ascii by (now apply Hl).
Qed.

Lemma X1_witness :
  Text.decode (_generate_slug ex_unicode "Jane  Doe!!")
    = Text.decode "jane-doe" /\
  _generate_slug (Unicode.mk (fun _ => true) (fun _ c _ => [c; c]))
                 "Jane  Doe!!"
    = _generate_slug ex_unicode "Jane  Doe!!".
Proof.
  assert (Ha : ascii_only "Jane  Doe!!")
    by (unfold ascii_only; simpl; repeat constructor).
  split; [reflexivity|].
  exact (proj2 (proj2 (proj2 (proj2
    (X1_generate_slug_ascii ex_unicode
       (Unicode.mk (fun _ => true) (fun _ c _ => [c; c]))
       "Jane  Doe!!" Ha))))).
Defined.

(** X2.  The slug of an ASCII name is its own slug: deriving the slug of
    such a slug returns it unchanged. *)
Theorem X2_generate_slug_idempotent :
  forall U name,
    ascii_only name ->
    _generate_slug U (_generate_slug U name) = _generate_slug U name.
Proof.
  intros U name Ha.
  destruct (generate_slug_ascii U name Ha) as [E Hch].
  set (cs := slug_steps _) in *.
  assert (Hb : Forall (fun c => (c < 128)%N) cs)
    by (eapply Forall_impl; [|exact Hch]; apply slug_char_bound).
  rewrite E at 1.
  rewrite generate_slug_steps, decode_encode_ascii, lower_ascii by exact Hb.
  assert (Hmap : map Text.ascii_lower cs = cs).
  { rewrite <- (map_id cs) at 2. apply map_ext_in. intros c Hc.
    apply ascii_lower_fix, slug_char_not_upper.
    rewrite Forall_forall in Hch. now apply Hch. }
  rewrite Hmap, filter_all
    by (eapply Forall_impl; [|exact Hch]; apply slug_char_keep).
  rewrite E. f_equal. apply slug_steps_fix.
  - exact Hch.
  - apply slug_steps_no_adjacent.
  - intros c t Eq. unfold cs, slug_steps in Eq. now apply strip_head in Eq.
  - intros t c Eq. unfold cs, slug_steps in Eq. now apply strip_last in Eq.
Qed.

Lemma X2_witness :
  _generate_slug ex_unicode (_generate_slug ex_unicode "Jane  Doe!!")
  = _generate_slug ex_unicode "Jane  Doe!!".
Proof.
  apply (X2_generate_slug_idempotent ex_unicode "Jane  Doe!!").
  unfold ascii_only. simpl. repeat constructor.
Defined.

(** X3.  The slug of a name is empty exactly when the lowercased name
    holds no word character, that is, no character of the class [\w]
    outside the class [\s]; names of whitespace, hyphens and punctuation
    only have the empty slug, every other name a slug that is not
    empty. *)
Theorem X3_generate_slug_empty :
  forall U name,
    _generate_slug U name = ""
    <-> Forall (fun c => (Text.is_word U c && negb (Text.is_space c))%bool
                         = false)
               (Text.lower U (Text.decode name)).
Proof.
  intros U name. rewrite generate_slug_words. unfold slug_words.
  set (l := Text.lower U (Text.decode name)).
  split.
  - intros E. apply encode_empty in E.
    apply join_nil in E; [|apply split_words].
    apply split_nil in E. rewrite Forall_forall in E.
    apply Forall_forall. intros c Hc.
    destruct (Text.is_word U c) eqn:Hw; [|reflexivity].
    destruct (Text.is_space c) eqn:Hs; [reflexivity|]. exfalso.
    assert (Hin : In c (filter (Text.slug_keep U) l)).
    { apply filter_In. split; [exact Hc|].
      unfold Text.slug_keep. now rewrite Hw. }
    specialize (E c Hin). unfold slug_sep in E. rewrite Hs in E.
    cbn [orb] in E. apply is_hyphen_eq in E. subst c. discriminate Hw.
  - intros H. rewrite Forall_forall in H.
    assert (E : Text.split slug_sep (filter (Text.slug_keep U) l) = []).
    { apply split_nil. apply Forall_forall. intros c Hc.
      apply filter_In in Hc. destruct Hc as [Hc Hk].
      specialize (H c Hc). unfold slug_sep.
      destruct (Text.is_space c) eqn:Hs; [reflexivity|].
      rewrite andb_true_r in H. unfold Text.slug_keep in Hk.
      now rewrite H, Hs in Hk. }
    now rewrite E.
Qed.

(** ** [format_keyword] *)

(** X4.  A formatted keyword holds no whitespace.  For an ASCII keyword it
    holds no capital letter either, and formatting it again changes
    nothing. *)
Theorem X4_format_keyword_normal :
  forall U keyword,
    (exists cs,
       format_keyword U keyword = Text.encode cs /\
       Forall (fun c => Text.is_space c = false) cs) /\
    (ascii_only keyword ->
     Forall (fun c => Text.is_space c = false /\
                      Text.between 65 90 c = false)
            (Text.decode (format_keyword U keyword)) /\
     format_keyword U (format_keyword U keyword) = format_keyword U keyword).
Proof.
  intros U keyword. split.
  { eexists. split; [reflexivity|].
    apply join_Forall; [now repeat constructor|apply split_no_space]. }
  intros Ha.
  pose proof (ascii_decode keyword Ha) as Hd.
  set (l := map Text.ascii_lower (Text.decode keyword)).
  set (cs := Text.join [Text.plus] (Text.split Text.is_space l)).
  assert (E : format_keyword U keyword = Text.encode cs).
  { unfold format_keyword. now rewrite lower_ascii by exact Hd. }
  assert (Hl : Forall (fun c => (c < 128)%N /\ Text.between 65 90 c = false) l).
  { subst l. apply Forall_forall. intros c Hc.
    apply in_map_iff in Hc. destruct Hc as [x [<- Hx]].
    rewrite Forall_forall in Hd.
    split; [now apply ascii_lower_bound, Hd|apply ascii_lower_not_upper]. }
  assert (H1 : Forall (fun c => Text.is_space c = false) cs).
  { apply join_Forall; [now repeat constructor|apply split_no_space]. }
  assert (H2 : Forall (fun c => (c < 128)%N /\ Text.between 65 90 c = false)
                      cs).
  { apply join_Forall; [|now apply split_Forall].
    constructor; [split; reflexivity|constructor]. }
  assert (Hb : Forall (fun c => (c < 128)%N) cs)
    by (eapply Forall_impl; [|exact H2]; now intros c [H _]).
  rewrite E. clearbody cs. clear E.
  rewrite decode_encode_ascii by exact Hb.
  split.
  - rewrite Forall_forall in *. intros c Hc. split; [auto|now apply H2].
  - unfold format_keyword. rewrite decode_encode_ascii, lower_ascii by exact Hb.
    assert (Hmap : map Text.ascii_lower cs = cs).
    { rewrite <- (map_id cs) at 2. apply map_ext_in. intros c Hc.
      apply ascii_lower_fix. rewrite Forall_forall in H2. now apply H2. }
    rewrite Hmap. f_equal.
    destruct cs as [|c t]; [reflexivity|].
    rewrite split_one; [reflexivity|discriminate|exact H1].
Qed.

Lemma X4_witness :
  format_keyword ex_unicode (format_keyword ex_unicode "Machine  Learning")
  = format_keyword ex_unicode "Machine  Learning".
Proof.
  apply (X4_format_keyword_normal ex_unicode "Machine  Learning").
  unfold ascii_only. simpl. repeat constructor.
Defined.

(** X5.  Formatting goes word by word: when two ASCII keywords each have a
    word, the format of the two with a space between them is their
    formats with a plus sign between them. *)
Theorem X5_format_keyword_words :
  forall U a b,
    ascii_only a -> ascii_only b ->
    format_keyword U a <> "" ->
    format_keyword U b <> "" ->
    format_keyword U (a +++ " " +++ b)
    = format_keyword U a +++ "+" +++ format_keyword U b.
Proof.
  intros U a b Ha Hb Hna Hnb.
  assert (Hsp : ascii_only " ") by (unfold ascii_only; repeat constructor).
  destruct (decode_app_ascii " " b Hsp Hb) as [Hsb Esb].
  destruct (decode_app_ascii a (" " +++ b) Ha Hsb) as [Hab Eab].
  unfold format_keyword in *.
  rewrite !lower_ascii in * by now apply ascii_decode.
  rewrite Eab, Esb, !map_app.
  change (map Text.ascii_lower (Text.decode " ")) with [32%N].
  change ([32%N] ++ map Text.ascii_lower (Text.decode b))
    with (32%N :: map Text.ascii_lower (Text.decode b)).
  rewrite split_app by reflexivity.
  rewrite join_app.
  - rewrite !encode_app. reflexivity.
  - intros E. apply Hna. now rewrite E.
  - intros E. apply Hnb. now rewrite E.
Qed.

Lemma X5_witness :
  format_keyword ex_unicode ("Machine" +++ " " +++ "  Learning ")
  = format_keyword ex_unicode "Machine" +++ "+"
    +++ format_keyword ex_unicode "  Learning ".
Proof.
  apply (X5_format_keyword_words ex_unicode "Machine" "  Learning ");
    first [unfold ascii_only; simpl; now repeat constructor
          |vm_compute; discriminate].
Defined.

(** ** [strip_openalex_id] *)

(** X6.  A value that does not start with [http] -- the empty one, a short
    identifier -- is returned as it is.  For one that does, the result
    holds no slash and ends the path of the URL; when that path is
    [dir/id] with no slash in [id], the result is [id]. *)
Theorem X6_strip_openalex_id :
  forall urlparse_path value,
    (String.prefix "http" value = false ->
     strip_openalex_id urlparse_path value = value) /\
    (String.prefix "http" value = true ->
     contains "/" (strip_openalex_id urlparse_path value) = false /\
     (exists pre,
        urlparse_path value
        = pre +++ strip_openalex_id urlparse_path value) /\
     forall dir id,
       urlparse_path value = dir +++ "/" +++ id ->
       contains "/" id = false ->
       strip_openalex_id urlparse_path value = id).
Proof.
  intros up value. unfold strip_openalex_id. split.
  - intros H. rewrite H. now destruct (negb (Text.truthy value)).
  - intros H. destruct value as [|c v]; [discriminate|].
    cbn [Text.truthy negb]. rewrite H. cbv zeta.
    destruct (contains "/" (up (String c v))) eqn:Hc.
    + split; [apply contains_rsplit_last|].
      split; [apply rsplit_last_suffix|].
      intros dir id E Hid. rewrite E. now apply rsplit_last_segment.
    + split; [exact Hc|]. split; [now exists ""|].
      intros dir id E _. rewrite E, contains_app in Hc. simpl in Hc.
      now rewrite orb_true_r in Hc.
Qed.

(* ================================================================= *)
(** * Properties of reference resolution *)

(** X7.  [upsert_field] always returns the identifier of the field stored
    under the name.  A field that is stored is left as it is, and so is
    the whole store; a field that is not is appended once, under the next
    identifier.  A second call returns the same identifier and changes
    nothing. *)
Theorem X7_upsert_field_once :
  forall field_name s,
    exists i s1,
      upsert_field field_name s = Ok i s1 /\
      find (fun d => String.eqb (f_display_name d) field_name) (fields s1)
        = Some (mkFieldDoc i field_name) /\
      match find (fun d => String.eqb (f_display_name d) field_name)
                 (fields s) with
      | Some d => i = f_id d /\ s1 = s
      | None =>
          i = next_id s /\
          fields s1 = fields s ++ [mkFieldDoc (next_id s) field_name] /\
          researchers s1 = researchers s /\ topics s1 = topics s /\
          countries s1 = countries s /\ institutions s1 = institutions s
      end /\
      upsert_field field_name s1 = Ok i s1.
Proof.
  intros field_name s.
  destruct (upsert_field_cases field_name s)
    as [i [s1 [E [R [T [C [I [Hf Hc]]]]]]]].
  exists i, s1. split; [exact E|]. split; [exact Hf|]. split.
  - destruct (find _ (fields s)); [exact Hc|]. tauto.
  - now rewrite (upsert_field_found _ _ _ Hf).
Qed.

(** X8.  [upsert_country] files a country under its code in upper case,
    so a code and its upper case resolve alike.  A country that is stored
    is neither looked up nor rewritten, and the store stays as it is; a
    second call returns the same identifier and changes nothing, whatever
    the naming service answers then. *)
Theorem X8_upsert_country_once :
  forall env env' code s,
    Text.truthy code = true ->
    exists s1 name,
      upsert_country env code s = Ok (Some (Text.upper code)) s1 /\
      upsert_country env (Text.upper code) s
        = Ok (Some (Text.upper code)) s1 /\
      find (fun d => String.eqb (c_id d) (Text.upper code)) (countries s1)
        = Some (mkCountryDoc (Text.upper code) name) /\
      (forall d,
         find (fun d => String.eqb (c_id d) (Text.upper code)) (countries s)
           = Some d ->
         s1 = s /\ d = mkCountryDoc (Text.upper code) name) /\
      upsert_country env' code s1 = Ok (Some (Text.upper code)) s1.
Proof.
  intros env env' code s Ht.
  pose proof (upper_truthy _ Ht) as Ht'.
  destruct (find (fun d => String.eqb (c_id d) (Text.upper code))
                 (countries s)) as [d|] eqn:Hf.
  - exists s, (c_display_name d).
    assert (Hd : d = mkCountryDoc (Text.upper code) (c_display_name d)).
    { apply find_some in Hf. destruct Hf as [_ Hn].
      apply String.eqb_eq in Hn. destruct d; simpl in *. now subst. }
    split; [now apply (upsert_country_found env code s d)|].
    split.
    { rewrite <- (upper_idem code) at 2.
      apply (upsert_country_found env (Text.upper code) s d Ht').
      now rewrite upper_idem. }
    split; [now rewrite Hf, <- Hd|].
    split; [intros d' [= <-]; auto|].
    now apply (upsert_country_found env' code s d).
  - destruct (upsert_country_new env code s Ht Hf) as [name E].
    eexists _, name. split; [exact E|]. split.
    { unfold upsert_country in E |- *. rewrite Ht in E. rewrite Ht'.
      rewrite upper_idem. exact E. }
    assert (Hf1 : find (fun d => String.eqb (c_id d) (Text.upper code))
                       (countries s ++ [mkCountryDoc (Text.upper code) name])
                  = Some (mkCountryDoc (Text.upper code) name)).
    { apply find_app_fresh; [now apply find_none_existsb|].
      simpl. apply String.eqb_refl. }
    split; [exact Hf1|]. split; [discriminate|].
    eapply upsert_country_found; [exact Ht|exact Hf1].
Qed.

Lemma X8_witness :
  exists s1 name,
    upsert_country ex_env "us" ex_store = Ok (Some "US") s1 /\
    upsert_country ex_env "US" ex_store = Ok (Some "US") s1 /\
    find (fun d => String.eqb (c_id d) "US") (countries s1)
      = Some (mkCountryDoc "US" name) /\
    (forall d,
       find (fun d => String.eqb (c_id d) "US") (countries ex_store) = Some d ->
       s1 = ex_store /\ d = mkCountryDoc "US" name) /\
    upsert_country ex_env "us" s1 = Ok (Some "US") s1.
Proof.
  exact (X8_upsert_country_once ex_env ex_env "us" ex_store eq_refl).
Defined.

(** X9.  [upsert_topic] always returns the identifier of the topic stored
    under the name.  A topic that is stored keeps its document, cursor
    and count included, and the topics stay as they are.  A topic that is
    not is appended once, with the cursor ["*"] and the count 0, and with
    the identifier of its field when the field has a name.  Researchers,
    countries and institutions are never touched. *)
Theorem X9_upsert_topic_keeps_progress :
  forall topic s,
    run_ok (upsert_topic topic) s
      (fun r s' =>
         researchers s' = researchers s /\ countries s' = countries s /\
         institutions s' = institutions s /\
         exists d,
           find (has_display_name (ti_display_name topic)) (topics s')
             = Some d /\
           r = Some (t_id d) /\
           match find (has_display_name (ti_display_name topic))
                      (topics s) with
           | Some d0 => d = d0 /\ topics s' = topics s
           | None =>
               topics s' = topics s ++ [d] /\
               t_display_name d = Some (ti_display_name topic) /\
               t_sync_status d
                 = Some (mkSyncStatus None (Some "*") (Some 0)) /\
               if Text.truthy (ti_field_name topic)
               then exists i,
                      t_field_id d = Some i /\
                      find (fun f => String.eqb (f_display_name f)
                                       (ti_field_name topic)) (fields s')
                        = Some (mkFieldDoc i (ti_field_name topic))
               else t_field_id d = None /\ fields s' = fields s
           end).
Proof.
  intros topic s.
  eapply run_ok_mono; [apply upsert_topic_cases|].
  intros r s' [R [C [I [_ [_ [_ H]]]]]]. auto.
Qed.

(** X29.  [upsert_topic] is idempotent: a second call with the same topic
    returns the same identifier and leaves the whole store as the first
    call left it. *)
Theorem X29_upsert_topic_idempotent :
  forall topic s,
    exists i s1,
      upsert_topic topic s = Ok (Some i) s1 /\
      upsert_topic topic s1 = Ok (Some i) s1.
Proof.
  intros topic s.
  destruct (upsert_topic_cases topic s)
    as [r [s1 [E [_ [_ [_ [_ [_ [Hfield [d [Hd [-> _]]]]]]]]]]]].
  exists (t_id d), s1. split; [exact E|].
  now apply upsert_topic_noop.
Qed.

(* ================================================================= *)
(** * Properties of topic processing and of the mapper *)

(** X10.  [process_researcher_topics] returns one topic identifier per
    entry of the raw topic list, and every one of them is the identifier
    of a topic document that is stored when it returns. *)
Theorem X10_topic_ids_are_stored :
  forall topics_ s,
    run_ok (process_researcher_topics topics_) s
      (fun r s' =>
         List.length (fst r) = List.length topics_ /\
         forall i, In i (fst r) -> In i (map t_id (topics s'))).
Proof.
  intros topics_ s.
  eapply run_ok_mono; [apply process_researcher_topics_refs|].
  intros r s' [Hlen [Hincl _]]. split; [exact Hlen|exact Hincl].
Qed.

(** X11.  The topics stored at the start keep their places, identifiers,
    display names and fields, and behind them [process_researcher_topics]
    appends one document per entry whose name was not stored at the
    start, in the order of the entries, each with the cursor ["*"] and the
    count 1 -- so a name that is not stored and that the list holds twice
    gets two documents. *)
Theorem X11_missing_topics_appended_per_mention :
  forall topics_ s,
    run_ok (process_researcher_topics topics_) s
      (fun _ s' =>
         exists kept new,
           topics s' = kept ++ new /\
           map topic_frame kept = map topic_frame (topics s) /\
           map t_display_name new
             = map (fun t => Some (rt_display_name t))
                 (filter (fun t => negb (existsb (has_display_name
                                                    (rt_display_name t))
                                                 (topics s))) topics_) /\
           Forall (fun d => t_sync_status d
                            = Some (mkSyncStatus None (Some "*") (Some 1)))
                  new).
Proof.
  intros topics_ s.
  eapply run_ok_mono; [apply process_researcher_topics_refs|].
  intros r s' [_ [_ H]]. exact H.
Qed.

(** X12.  In the search tags of a profile no country tag and no field tag
    occurs twice. *)
Theorem X12_country_and_field_tags_unique :
  forall env author s,
    run_ok (map_author_to_profile env author) s
      (fun p _ =>
         NoDup (filter (String.prefix "country:") (p_search_tags p)) /\
         NoDup (filter (String.prefix "field:") (p_search_tags p))).
Proof.
  intros env author s.
  destruct (map_author_to_profile_ok env author s) as [p [s' [E _]]].
  exists p, s'. split; [exact E|]. revert E.
  unfold map_author_to_profile. unfold bind at 1.
  destruct (for_each (affiliation_body env) (a_affiliations author)
              (mkAffLoop [] [] [] []) s) as [al s1|] eqn:Eal; [|discriminate].
  unfold bind at 1.
  destruct (for_each (last_known_body env) (a_last_known_institutions author)
              (mkLastLoop (al_ror_to_id al) []) s1) as [ll s2|];
    [|discriminate].
  unfold bind at 1.
  destruct (process_researcher_topics_tags (a_topics author) s2)
    as [r [s3 [Et [Hf Hc]]]].
  rewrite Et. destruct r as [ids tags]. cbn [snd] in Hf, Hc.
  unfold ret. intros [= <- _]. cbn [p_search_tags].
  assert (Hal :
    filter (String.prefix "country:") (al_search_tags al)
      = map (fun c => "country:" +++ c) (List.rev (al_added_countries al)) /\
    NoDup (al_added_countries al) /\
    filter (String.prefix "field:") (al_search_tags al) = []).
  { eapply (for_each_keeps (affiliation_body env)
              (fun st => filter (String.prefix "country:") (al_search_tags st)
                         = map (fun c => "country:" +++ c)
                               (List.rev (al_added_countries st)) /\
                         NoDup (al_added_countries st) /\
                         filter (String.prefix "field:") (al_search_tags st)
                         = [])); [|exact Eal|].
    - intros a st0 s0 st0' s0' Eb.
      exact (affiliation_body_tags _ _ _ _ _ _ Eb).
    - simpl. split; [reflexivity|]. split; [constructor|reflexivity]. }
  destruct Hal as [Hac [Hand Haf]].
  rewrite !filter_app, Hc, Haf, app_nil_r. simpl. split; [|exact Hf].
  rewrite Hac. apply NoDup_map_injective; [apply country_tag_inj|].
  now apply NoDup_rev_list.
Qed.

(** X13.  Every reference of the profile [map_author_to_profile] builds
    is to a document that is stored when it returns: the institution of
    each affiliation, each last known institution, and each topic; and
    the profile has one topic identifier per entry of the raw topic
    list. *)
Theorem X13_profile_references_are_stored :
  forall env author s,
    run_ok (map_author_to_profile env author) s
      (fun p s' =>
         (forall a, In a (p_affiliations p) ->
                    In (af_institution a) (map i_id (institutions s'))) /\
         (forall i, In i (p_last_known_affiliations p) ->
                    In i (map i_id (institutions s'))) /\
         List.length (p_topics p) = List.length (a_topics author) /\
         (forall i, In i (p_topics p) -> In i (map t_id (topics s')))).
Proof.
  intros env author s.
  unfold map_author_to_profile. run_step.
  eapply run_ok_mono.
  { apply (run_ok_for_each (affiliation_body env)
             (fun st s' =>
                (forall k i, Dict.get k (al_ror_to_id st) = Some i ->
                             In i (map i_id (institutions s'))) /\
                (forall a, In a (al_affiliations st) ->
                           In (af_institution a) (map i_id (institutions s'))))).
    - intros a st s1 _ [Hc Ha].
      eapply run_ok_mono; [apply affiliation_body_stored; assumption|].
      intros st' s' H. cbv beta in H. tauto.
    - split; [intros k i; discriminate|intros a []]. }
  intros al s1 [Hc1 Ha1]. cbv beta. run_step.
  eapply run_ok_mono.
  { apply (run_ok_for_each (last_known_body env)
             (fun st s' =>
                ((forall k i, Dict.get k (ll_ror_to_id st) = Some i ->
                              In i (map i_id (institutions s'))) /\
                 (forall i, In i (ll_last_known_institutions st) ->
                            In i (map i_id (institutions s')))) /\
                (forall a, In a (al_affiliations al) ->
                           In (af_institution a) (map i_id (institutions s'))))).
    - intros a st s2 _ [[Hc Hl] Ha].
      eapply run_ok_mono; [apply last_known_body_stored; assumption|].
      intros st' s' [Hg [Hc' Hl']]. split; [split; assumption|].
      intros x Hx. eapply prefix_ids; [apply Hg|]. now apply Ha.
    - split; [split; [exact Hc1|intros i []]|exact Ha1]. }
  intros ll s2 [[Hc2 Hl2] Ha2]. cbv beta. run_step.
  eapply run_ok_mono.
  { apply run_ok_and;
      [apply process_researcher_topics_ok
      |apply process_researcher_topics_refs]. }
  intros [ids tags] s3 [[_ [_ Hi3]] [Hlen [Hincl _]]]. cbn [fst] in Hlen, Hincl.
  run_step. cbn [p_affiliations p_last_known_affiliations p_topics].
  rewrite Hi3. auto.
Qed.

(** X14.  The profile has one affiliation for each raw affiliation whose
    institution has a ROR or a name, in the order of the raw record and
    with its years; the others leave no trace. *)
Theorem X14_affiliations_keep_order_and_years :
  forall env author s,
    run_ok (map_author_to_profile env author) s
      (fun p _ =>
         map af_years (p_affiliations p)
         = map ra_years
             (filter (fun a => Text.truthy (ror_or_name (ra_institution a)))
                     (a_affiliations author))).
Proof.
  intros env author s.
  destruct (map_author_to_profile_ok env author s) as [p [s' [E _]]].
  exists p, s'. split; [exact E|]. revert E.
  unfold map_author_to_profile. unfold bind at 1.
  destruct (for_each (affiliation_body env) (a_affiliations author)
              (mkAffLoop [] [] [] []) s) as [al s1|] eqn:Eal; [|discriminate].
  unfold bind at 1.
  destruct (for_each (last_known_body env) (a_last_known_institutions author)
              (mkLastLoop (al_ror_to_id al) []) s1) as [ll s2|];
    [|discriminate].
  unfold bind at 1.
  destruct (process_researcher_topics (a_topics author) s2)
    as [[ids tags] s3|]; [|discriminate].
  unfold ret. intros [= <- _]. cbn [p_affiliations].
  apply (affiliations_loop_years _ _ _ _ _ _ Eal).
Qed.

(* ================================================================= *)
(** * Properties of the walker *)

(** X15.  A walk over a topic admits at most as many records as the
    topic's stored count leaves room for under [MAX_PER_TOPIC], whatever
    the pages bring, and every count it writes with a progress upsert is
    within [MAX_PER_TOPIC]. *)
Theorem X15_partition_cap_holds :
  forall env script topic_obj inserted s,
    run_ok (fetch_authors_for_topic env script topic_obj inserted) s
      (fun r s' =>
         inserted <= w_inserted r /\
         w_inserted r - inserted
           <= Z.max 0 (config.MAX_PER_TOPIC
                       - stored_count (to_display_name topic_obj) s) /\
         Z.of_nat (List.length (researchers s'))
           - Z.of_nat (List.length (researchers s))
           = w_inserted r - inserted /\
         forall c n,
           In (EvSaveProgress (to_display_name topic_obj) c n) (w_trace r) ->
           n <= config.MAX_PER_TOPIC).
Proof.
  intros env script topic_obj inserted s.
  assert (Hcap :
    run_ok (fetch_authors_for_topic env script topic_obj inserted) s
      (fun r _ =>
         inserted <= w_inserted r /\
         w_inserted r - inserted
           <= Z.max 0 (config.MAX_PER_TOPIC
                       - stored_count (to_display_name topic_obj) s) /\
         forall dn c n, In (EvSaveProgress dn c n) (w_trace r) ->
                        n <= config.MAX_PER_TOPIC)).
  { unfold fetch_authors_for_topic. repeat run_step.
    destruct (config.MAX_AUTHORS <=? _);
      [run_step; cbn [w_inserted w_trace]; split; [lia|];
       split; [lia|intros ? ? ? []]|].
    destruct (config.SESSION_LIMIT <=? inserted);
      [run_step; cbn [w_inserted w_trace]; split; [lia|];
       split; [lia|intros ? ? ? []]|].
    repeat run_step. simpl col_get.
    fold (topic_sync (to_display_name topic_obj) s).
    fold (stored_count (to_display_name topic_obj) s).
    fold (stored_cursor (to_display_name topic_obj) s).
    destruct (config.MAX_PER_TOPIC <=? _);
      [run_step; cbn [w_inserted w_trace]; split; [lia|];
       split; [lia|intros ? ? ? []]|].
    apply walk_loop_cap. }
  eapply run_ok_mono;
    [apply run_ok_and; [exact Hcap|apply fetch_authors_for_topic_ok]|].
  intros r s' [[Hlo [Hhi Hev]] [_ [Hr [Hi _]]]].
  split; [exact Hlo|]. split; [exact Hhi|]. split; [|intros c n; apply Hev].
  apply (f_equal (@List.length Profile)) in Hr.
  rewrite length_map, length_app, length_map in Hr. lia.
Qed.

(** X16.  A walk that starts at a cap does nothing: when the store holds
    [MAX_AUTHORS] researchers, or the session counter is at
    [SESSION_LIMIT], or the store and the session together are at
    [MAX_AUTHORS], or the topic's stored count is at [MAX_PER_TOPIC], it
    returns without a request and without a write, and the session counter
    and the answers of the catalog are as they were. *)
Theorem X16_walk_at_a_cap_does_nothing :
  forall env script topic_obj inserted s,
    config.MAX_AUTHORS <= Z.of_nat (List.length (researchers s)) \/
    config.SESSION_LIMIT <= inserted \/
    config.MAX_AUTHORS <= Z.of_nat (List.length (researchers s)) + inserted \/
    config.MAX_PER_TOPIC <= stored_count (to_display_name topic_obj) s ->
    exists why,
      fetch_authors_for_topic env script topic_obj inserted s
        = Ok (mkWalkResult (Returned why) inserted [] script) s /\
      (why = DbCap \/ why = SessionCap \/ why = TopicCap).
Proof.
  intros env script topic_obj inserted s H.
  unfold stored_count, topic_sync in H.
  unfold fetch_authors_for_topic, bind, count_documents, find_document.
  cbn [col_get COL_RESEARCHERS COL_TOPICS]. cbv zeta.
  destruct (Z.leb_spec config.MAX_AUTHORS
              (Z.of_nat (List.length (researchers s)))) as [H1|H1];
    [exists DbCap; split; [reflexivity|auto]|].
  destruct (Z.leb_spec config.SESSION_LIMIT inserted) as [H2|H2];
    [exists SessionCap; split; [reflexivity|auto]|].
  match goal with |- context [config.MAX_PER_TOPIC <=? ?x] =>
    destruct (Z.leb_spec config.MAX_PER_TOPIC x) as [H3|H3]
  end; [exists TopicCap; split; [reflexivity|auto]|].
  destruct H as [H|[H|[H|H]]]; try lia.
  exists DbCap. split; [|auto].
  assert (E2 : (config.SESSION_LIMIT <=? inserted) = false)
    by (apply Z.leb_gt; lia).
  assert (E3 : (config.MAX_AUTHORS
                <=? Z.of_nat (List.length (researchers s)) + inserted) = true)
    by (apply Z.leb_le; lia).
  destruct script; rewrite walk_loop_round; unfold walk_round; cbn beta iota zeta;
    now rewrite E2, E3.
Qed.

Lemma X16_witness :
  exists why,
    fetch_authors_for_topic ex_env
      [ApiPage [ex_author "0000-0001" "Jane Doe" [] []] ""]
      ex_topic_obj 30000 ex_store
    = Ok (mkWalkResult (Returned why) 30000 []
            [ApiPage [ex_author "0000-0001" "Jane Doe" [] []] ""]) ex_store /\
    (why = DbCap \/ why = SessionCap \/ why = TopicCap).
Proof.
  apply (X16_walk_at_a_cap_does_nothing ex_env
           [ApiPage [ex_author "0000-0001" "Jane Doe" [] []] ""]
           ex_topic_obj 30000 ex_store).
  right. left. unfold config.SESSION_LIMIT. lia.
Defined.

(** X17.  A page of known records only moves the checkpoint: when every
    record of a page lacks an ORCID or carries a stored one, and the page
    has a continuation token, the walk requests the page, persists the
    token with the count unchanged -- the researchers, the fields, the
    countries and the institutions stay as they were -- and then goes on
    exactly as a walk that starts from that store does on the answers that
    follow. *)
Theorem X17_known_page_only_moves_checkpoint :
  forall env topic_obj inserted s a authors next rest,
    0 <= inserted < config.SESSION_LIMIT ->
    Z.of_nat (List.length (researchers s)) + inserted < config.MAX_AUTHORS ->
    stored_count (to_display_name topic_obj) s < config.MAX_PER_TOPIC ->
    Text.truthy next = true ->
    (forall b, In b (a :: authors) ->
       Text.truthy (a_orcid b) = false \/
       find (has_orcid (a_orcid b)) (researchers s) <> None) ->
    let dn := to_display_name topic_obj in
    let checkpoint := progress env next (stored_count dn s) in
    let s3 := upserted COL_TOPICS (has_display_name dn)
                (set_sync_status checkpoint)
                (fun i => mkTopicDoc i (Some dn) None (Some checkpoint)) s in
    researchers s3 = researchers s /\ fields s3 = fields s /\
    countries s3 = countries s /\ institutions s3 = institutions s /\
    stored_cursor dn s3 = next /\
    stored_count dn s3 = stored_count dn s /\
    fetch_authors_for_topic env (ApiPage (a :: authors) next :: rest)
      topic_obj inserted s
    = (r <- fetch_authors_for_topic env rest topic_obj inserted ;;
       ret (before [EvFetch (to_oa_id topic_obj) (stored_cursor dn s);
                    EvSaveProgress dn next (stored_count dn s)] r)) s3.
Proof.
  intros env topic_obj inserted s a authors next rest Hins Hdb Hroom Hnext
         Hknown. cbv zeta.
  set (dn := to_display_name topic_obj) in *.
  set (cc := stored_count dn s) in *.
  set (checkpoint := progress env next cc).
  set (s3 := upserted COL_TOPICS (has_display_name dn)
               (set_sync_status checkpoint)
               (fun i => mkTopicDoc i (Some dn) None (Some checkpoint)) s).
  pose proof (upserted_topics_frame (has_display_name dn)
                (set_sync_status checkpoint)
                (fun i => mkTopicDoc i (Some dn) None (Some checkpoint)) s)
    as Hfr.
  cbv zeta in Hfr. fold s3 in Hfr. destruct Hfr as [R3 [F3 [C3 I3]]].
  pose proof (topic_sync_after_progress env dn next cc s) as Hsync.
  fold checkpoint in Hsync. fold s3 in Hsync.
  assert (Hcur : stored_cursor dn s3 = next)
    by (unfold stored_cursor; now rewrite Hsync).
  assert (Hcnt : stored_count dn s3 = cc)
    by (unfold stored_count; now rewrite Hsync).
  repeat (split; [assumption|]).
  assert (E1 : (config.MAX_AUTHORS
                <=? Z.of_nat (List.length (researchers s))) = false)
    by (apply Z.leb_gt; lia).
  assert (E2 : (config.SESSION_LIMIT <=? inserted) = false)
    by (apply Z.leb_gt; lia).
  assert (E2' : (config.MAX_AUTHORS
                 <=? Z.of_nat (List.length (researchers s)) + inserted) = false)
    by (apply Z.leb_gt; lia).
  assert (E3 : (config.MAX_PER_TOPIC <=? cc) = false)
    by (apply Z.leb_gt; lia).
  unfold bind at 1.
  rewrite (fetch_authors_below_caps env rest topic_obj inserted s3)
    by (fold dn; rewrite ?R3, ?Hcnt; lia).
  rewrite fetch_authors_below_caps by (fold dn; fold cc; lia).
  fold dn. fold cc. rewrite R3, Hcur, Hcnt.
  rewrite walk_loop_round. unfold walk_round. cbn beta iota zeta.
  rewrite E2, E2', E3. unfold bind.
  rewrite page_loop_passes by exact Hknown.
  cbn [pl_new_docs pl_current_count pl_reserved_slugs]. unfold ret at 1.
  rewrite Hnext. cbn [negb]. rewrite upsert_document_new_eq.
  fold dn. fold checkpoint. fold s3.
  destruct (walk_loop env rest (Z.of_nat (List.length (researchers s)))
              topic_obj next cc [] inserted s3); reflexivity.
Qed.

(** The page holds one record without an ORCID; the next request fails. *)
Lemma X17_witness :
  exists s3,
    fetch_authors_for_topic ex_env
      [ApiPage [ex_author "" "No Orcid" [ex_mit] []] "IlsxNjA5"; ApiError]
      ex_topic_obj 0 ex_store
    = Ok (mkWalkResult (Returned ApiFailure) 0
            [EvFetch "T10001" "*";
             EvSaveProgress "Machine Learning" "IlsxNjA5" 0;
             EvFetch "T10001" "IlsxNjA5"] []) s3 /\
    researchers s3 = researchers ex_store /\
    institutions s3 = institutions ex_store /\
    stored_cursor "Machine Learning" s3 = "IlsxNjA5" /\
    stored_count "Machine Learning" s3 = 0.
Proof.
  destruct (X17_known_page_only_moves_checkpoint ex_env ex_topic_obj 0
              ex_store (ex_author "" "No Orcid" [ex_mit] []) [] "IlsxNjA5"
              [ApiError]) as [R [_ [_ [I [Hc [Hn E]]]]]].
  - unfold config.SESSION_LIMIT. lia.
  - unfold config.MAX_AUTHORS. simpl. lia.
  - unfold config.MAX_PER_TOPIC. vm_compute. reflexivity.
  - reflexivity.
  - intros b [<-|[]]. now left.
  - eexists. split; [rewrite E; vm_compute; reflexivity|].
    vm_compute. auto.
Defined.

(** X18.  Slugs come from names: every researcher a walk adds to the
    store either carries a non-empty slug that is the slug of its
    stripped name, or that slug followed by a hyphen and a number, or
    carries no slug at all, and then the slug of its name is empty. *)
Theorem X18_slugs_come_from_names :
  forall env script topic_obj inserted s,
    run_ok (fetch_authors_for_topic env script topic_obj inserted) s
      (fun r s' =>
         map r_profile (researchers s')
           = map r_profile (researchers s) ++ inserted_docs (w_trace r) /\
         forall p, In p (inserted_docs (w_trace r)) ->
                    slug_from_name (unicode env) p).
Proof.
  intros env script topic_obj inserted s.
  assert (Hnamed :
    run_ok (fetch_authors_for_topic env script topic_obj inserted) s
      (fun r _ =>
         Forall (slug_from_name (unicode env)) (inserted_docs (w_trace r)))).
  { unfold fetch_authors_for_topic. repeat run_step.
    destruct (config.MAX_AUTHORS <=? _); [run_step; constructor|].
    destruct (config.SESSION_LIMIT <=? inserted); [run_step; constructor|].
    repeat run_step.
    destruct (config.MAX_PER_TOPIC <=? _); [run_step; constructor|].
    apply walk_loop_named. }
  eapply run_ok_mono;
    [apply run_ok_and; [exact Hnamed|apply fetch_authors_for_topic_ok]|].
  intros r s' [Hall [_ [Hr _]]]. split; [exact Hr|].
  now apply Forall_forall.
Qed.

(* ================================================================= *)
(** * Properties of [start.py] *)

(** X19.  [fetch_topics_for_keyword] returns in every store.  It leaves
    researchers, countries and institutions alone and only appends to the
    fields and to the topics, every appended topic with the count 0.
    Every topic it schedules is one of the fetched ones, under its
    display name and its stripped identifier, and is stored when the
    function returns.  When the request fails nothing is scheduled and
    the store is as it was. *)
Theorem X19_scheduled_topics_are_stored :
  forall U urlparse_path api keyword inserted s,
    run_ok (fetch_topics_for_keyword U urlparse_path api keyword inserted) s
      (fun ft s' =>
         topics_grow s s' /\
         (forall t, In t ft ->
            existsb (has_display_name (to_display_name t)) (topics s') = true /\
            exists results c,
              api (format_keyword U keyword) = TopicsPage results /\
              In c results /\
              to_display_name t = ctp_display_name c /\
              to_oa_id t = strip_openalex_id urlparse_path (ctp_id c)) /\
         (api (format_keyword U keyword) = TopicsError -> ft = [] /\ s' = s)).
Proof.
  intros U up api keyword inserted s.
  destruct (api (format_keyword U keyword)) as [|results] eqn:Hapi.
  - unfold fetch_topics_for_keyword. cbv zeta. rewrite Hapi. run_step.
    split; [apply topics_grow_refl|]. split; [intros t []|auto].
  - eapply run_ok_mono.
    + apply (fetch_topics_inv (fun _ => True)); [auto|].
      intros n d Hd Hn _.
      destruct (find (has_display_name n) (topics s)) as [d'|] eqn:Hf;
        [eauto|].
      rewrite (find_none _ _ Hf d Hd) in Hn. discriminate.
    + intros ft s' [[Hg Hft] Hfrom]. split; [exact Hg|].
      split; [|discriminate].
      intros t Ht. split.
      * destruct (Hft t Ht) as [d [Hf _]]. eapply find_existsb_true.
        exact Hf.
      * destruct (Hfrom t Ht) as [res [c [Hres [Hc ->]]]].
        rewrite Hapi in Hres. injection Hres as <-.
        unfold all_topics_of in Hc. apply in_map_iff in Hc.
        destruct Hc as [c0 [<- Hc0]].
        exists results, c0. auto.
Qed.

(** X20.  When the store holds [MAX_AUTHORS] researchers or the session
    counter is at [SESSION_LIMIT], [fetch_topics_for_keyword] writes
    nothing, and schedules only topics that were stored already. *)
Theorem X20_no_new_topic_at_capacity :
  forall U urlparse_path api keyword inserted s,
    config.MAX_AUTHORS <= Z.of_nat (List.length (researchers s)) \/
    config.SESSION_LIMIT <= inserted ->
    run_ok (fetch_topics_for_keyword U urlparse_path api keyword inserted) s
      (fun ft s' =>
         s' = s /\
         forall t, In t ft ->
           existsb (has_display_name (to_display_name t)) (topics s) = true).
Proof.
  intros U up api keyword inserted s Hcap.
  now apply fetch_topics_at_capacity.
Qed.

Lemma X20_witness :
  run_ok (fetch_topics_for_keyword ex_unicode (fun _ => "/T10002")
            (fun _ => TopicsPage
                        [mkCatalogTopic "https://openalex.org/T10002"
                           "Deep Learning" "Computer Science"])
            "deep learning" 30000) ex_store
    (fun ft s' =>
       s' = ex_store /\
       forall t, In t ft ->
         existsb (has_display_name (to_display_name t)) (topics ex_store)
         = true).
Proof.
  apply X20_no_new_topic_at_capacity.
  right. unfold config.SESSION_LIMIT. lia.
Defined.

(** X21.  In a store where no two topics share a display name, every
    topic [fetch_topics_for_keyword] schedules has a stored count below
    [MAX_PER_TOPIC] when the function returns, and had one before if it
    was stored before: a topic at its cap is never scheduled. *)
Theorem X21_capped_topics_are_not_scheduled :
  forall U urlparse_path api keyword inserted s,
    unique_names s ->
    run_ok (fetch_topics_for_keyword U urlparse_path api keyword inserted) s
      (fun ft s' =>
         forall t, In t ft ->
           stored_count (to_display_name t) s' < config.MAX_PER_TOPIC /\
           forall d,
             find (has_display_name (to_display_name t)) (topics s) = Some d ->
             count_of d < config.MAX_PER_TOPIC).
Proof.
  intros U up api keyword inserted s Hu.
  eapply run_ok_mono.
  - apply (fetch_topics_inv (fun d => count_of d < config.MAX_PER_TOPIC)).
    + intros d ->. unfold config.MAX_PER_TOPIC. lia.
    + intros n d Hd Hn Hlt. exists d. split; [|exact Hlt].
      eapply find_of_filter. now apply unique_filter.
  - intros ft s' [[Hg Hft] _] t Ht.
    destruct (Hft t Ht) as [d [Hf Hlt]]. split.
    + now rewrite (stored_count_found _ _ _ Hf).
    + intros d0 Hf0. destruct Hg as [_ [_ [_ [_ [new [Ht' _]]]]]].
      assert (Hf' : find (has_display_name (to_display_name t)) (topics s')
                    = Some d0).
      { rewrite Ht'. eapply prefix_find; [apply prefix_app|exact Hf0]. }
      congruence.
Qed.

Lemma X21_witness :
  run_ok (fetch_topics_for_keyword ex_unicode (fun _ => "/T10001")
            (fun _ => TopicsPage
                        [mkCatalogTopic "https://openalex.org/T10001"
                           "Machine Learning" "Computer Science"])
            "machine learning" 0) ex_store
    (fun ft s' =>
       forall t, In t ft ->
         stored_count (to_display_name t) s' < config.MAX_PER_TOPIC /\
         forall d,
           find (has_display_name (to_display_name t)) (topics ex_store)
             = Some d ->
           count_of d < config.MAX_PER_TOPIC).
Proof.
  apply X21_capped_topics_are_not_scheduled.
  unfold unique_names. simpl. constructor; [intros []|constructor].
Defined.

(** X22.  In a store where no two topics share a display name, no fetched
    topic that can take researchers is left out: a fetched topic whose
    stored count is below [MAX_PER_TOPIC] is scheduled, and so is a
    fetched topic that is not stored, provided the store is below
    [MAX_AUTHORS] and the session counter below [SESSION_LIMIT]. *)
Theorem X22_schedulable_topics_are_scheduled :
  forall U urlparse_path api keyword inserted s results c,
    unique_names s ->
    api (format_keyword U keyword) = TopicsPage results ->
    In c results ->
    match find (has_display_name (ctp_display_name c)) (topics s) with
    | Some d => count_of d < config.MAX_PER_TOPIC
    | None => Z.of_nat (List.length (researchers s)) < config.MAX_AUTHORS /\
              inserted < config.SESSION_LIMIT
    end ->
    run_ok (fetch_topics_for_keyword U urlparse_path api keyword inserted) s
      (fun ft _ =>
         In (mkTopicObj (ctp_display_name c)
                        (strip_openalex_id urlparse_path (ctp_id c))) ft).
Proof.
  intros U up api keyword inserted s results c Hu Hapi Hc Hcond.
  destruct (fetch_topics_inv (fun _ => True) U up api keyword inserted s)
    as [ft [s' [E _]]]; [auto| |].
  { intros n d Hd Hn _.
    destruct (find (has_display_name n) (topics s)) as [d'|] eqn:Hf; [eauto|].
    rewrite (find_none _ _ Hf d Hd) in Hn. discriminate. }
  exists ft, s'. split; [exact E|]. revert E.
  unfold fetch_topics_for_keyword. cbv zeta. rewrite Hapi.
  unfold bind, find_documents, count_documents.
  cbn [col_get COL_TOPICS COL_RESEARCHERS].
  fold (all_topics_of up results).
  assert (Hn : In (ctp_display_name c)
                  (map ti_display_name (all_topics_of up results))).
  { unfold all_topics_of. rewrite map_map. cbn [ti_display_name].
    now apply in_map. }
  set (names := map ti_display_name (all_topics_of up results)) in *.
  clearbody names.
  apply in_split in Hc. destruct Hc as [pre [post ->]].
  unfold all_topics_of. rewrite map_app. cbn [map].
  intros E.
  match type of E with
  | for_each _ (_ ++ ?x :: _) _ _ = _ =>
      apply (keyword_loop_schedules _ _ _ _ x _ _ _ _ _ E)
  end.
  cbn [ti_display_name].
  destruct (find (has_display_name (ctp_display_name c)) (topics s))
    as [d|] eqn:Hf.
  - erewrite map_of_unique; [exact Hcond|exact Hu|exact Hn|exact Hf].
  - rewrite map_of_absent by exact Hf. lia.
Qed.

Lemma X22_witness :
  run_ok (fetch_topics_for_keyword ex_unicode (fun _ => "/T10002")
            (fun _ => TopicsPage
                        [mkCatalogTopic "https://openalex.org/T10002"
                           "Deep Learning" "Computer Science"])
            "deep learning" 0) ex_store
    (fun ft _ => In (mkTopicObj "Deep Learning" "T10002") ft).
Proof.
  apply (X22_schedulable_topics_are_scheduled ex_unicode (fun _ => "/T10002")
           (fun _ => TopicsPage
                       [mkCatalogTopic "https://openalex.org/T10002"
                          "Deep Learning" "Computer Science"])
           "deep learning" 0 ex_store
           [mkCatalogTopic "https://openalex.org/T10002"
              "Deep Learning" "Computer Science"]
           (mkCatalogTopic "https://openalex.org/T10002"
              "Deep Learning" "Computer Science")).
  - unfold unique_names. simpl. constructor; [intros []|constructor].
  - reflexivity.
  - simpl. auto.
  - simpl. unfold config.MAX_AUTHORS, config.SESSION_LIMIT. lia.
Defined.

(** X23.  The books of a run of [main], whenever it returns and at every
    point of the run up to which the two endpoints have answered: the
    researchers stored before stay as they are and the profiles of the
    bulk inserts follow them, in order; the session counter is at the
    number of researchers the run has added; every one of them has an
    ORCID; and if the stored slugs were pairwise different before, they
    still are.  Nothing is said about a run that raises. *)
Theorem X23_main_accounts_for_every_insert :
  forall env urlparse_path topics_api script keywords s r s',
    main env urlparse_path topics_api script keywords s = Ok r s' ->
    map r_profile (researchers s')
      = map r_profile (researchers s) ++ inserted_docs (rr_trace r) /\
    rr_inserted r
      = Z.of_nat (List.length (researchers s'))
        - Z.of_nat (List.length (researchers s)) /\
    (forall p, In p (inserted_docs (rr_trace r)) ->
               Text.truthy (orcid_of p) = true) /\
    (NoDup (stored_slugs (researchers s)) ->
     NoDup (stored_slugs (researchers s'))).
Proof.
  intros env up api script keywords s r s' E. unfold main in E.
  destruct (main_loop_post env up api keywords 0%nat script 0 s)
    as [r0 [s0 [E0 [Hn [Hr [Hi Ho]]]]]].
  rewrite E in E0. injection E0 as <- <-.
  split; [exact Hr|]. split; [|split; assumption].
  apply (f_equal (@List.length Profile)) in Hr.
  rewrite length_map, length_app, length_map in Hr. lia.
Qed.

(** A run over one keyword whose topic is stored: the catalog answers one
    last page with one record; the run finishes with one researcher
    added and the session counter at 1. *)
Lemma X23_witness :
  exists r s',
    main ex_env (fun _ => "/T10001")
      (fun _ _ => TopicsPage
                    [mkCatalogTopic "https://openalex.org/T10001"
                       "Machine Learning" "Computer Science"])
      [ApiPage [ex_author "0000-0001" "Jane Doe" [] []] ""]
      ["machine learning"] ex_store = Ok r s' /\
    rr_finished r = true /\
    List.length (researchers s') = 1%nat /\
    rr_inserted r = 1.
Proof.
  destruct (main ex_env (fun _ => "/T10001")
              (fun _ _ => TopicsPage
                            [mkCatalogTopic "https://openalex.org/T10001"
                               "Machine Learning" "Computer Science"])
              [ApiPage [ex_author "0000-0001" "Jane Doe" [] []] ""]
              ["machine learning"] ex_store) as [r s'|e] eqn:E;
    [|vm_compute in E; discriminate].
  exists r, s'. split; [reflexivity|].
  destruct (X23_main_accounts_for_every_insert _ _ _ _ _ _ _ _ E)
    as [_ [Hi _]].
  assert (Hs : rr_finished r = true /\
               List.length (researchers s') = 1%nat).
  { vm_compute in E. injection E as <- <-. split; reflexivity. }
  destruct Hs as [Hf Hl]. split; [exact Hf|]. split; [exact Hl|].
  rewrite Hi, Hl. reflexivity.
Defined.

(** X24.  Once the session counter is at [SESSION_LIMIT] or the store
    holds [MAX_AUTHORS] researchers, the rest of the run changes nothing:
    whatever keywords and topics remain and whatever the endpoints
    answer, the loops of [main] return with the store, the session
    counter and the pending answers of the authors endpoint as they were,
    without a request for authors and without an insert. *)
Theorem X24_rest_of_run_at_capacity_changes_nothing :
  forall env urlparse_path topics_api k script keywords fetch_topics
         inserted s,
    config.MAX_AUTHORS <= Z.of_nat (List.length (researchers s)) \/
    config.SESSION_LIMIT <= inserted ->
    main_loop env urlparse_path topics_api k script keywords inserted s
      = Ok (mkRunResult true inserted [] script) s /\
    run_topics env script fetch_topics inserted s
      = Ok (mkRunResult true inserted [] script) s.
Proof.
  intros env up api k script keywords fetch_topics inserted s H. split.
  - now apply main_loop_at_capacity.
  - now apply run_topics_at_capacity.
Qed.

Lemma X24_witness :
  main_loop ex_env (fun _ => "/T10001")
    (fun _ _ => TopicsPage
                  [mkCatalogTopic "https://openalex.org/T10001"
                     "Machine Learning" "Computer Science"])
    0 [ApiPage [ex_author "0000-0001" "Jane Doe" [] []] ""]
    ["machine learning"; "deep learning"] 30000 ex_store
    = Ok (mkRunResult true 30000 []
            [ApiPage [ex_author "0000-0001" "Jane Doe" [] []] ""]) ex_store /\
  run_topics ex_env [ApiPage [ex_author "0000-0001" "Jane Doe" [] []] ""]
    [ex_topic_obj] 30000 ex_store
    = Ok (mkRunResult true 30000 []
            [ApiPage [ex_author "0000-0001" "Jane Doe" [] []] ""]) ex_store.
Proof.
  apply X24_rest_of_run_at_capacity_changes_nothing.
  right. unfold config.SESSION_LIMIT. lia.
Defined.

(* ================================================================= *)
(** * Properties of the store wrappers and of the page loop *)

(** X25.  [insert_many_documents] on an empty list returns [None] and
    leaves the store alone.  On a list of profiles, in a store whose
    researcher identifiers were all handed out before, it returns one
    identifier per profile, pairwise different; the researchers stored
    before stay where they are; a lookup by the [k]-th identifier finds
    the [k]-th profile; and the identifiers of the store are again all
    handed out. *)
Theorem X25_insert_many_round_trip :
  forall docs s,
    (forall d, In d (researchers s) -> (r_id d < next_id s)%nat) ->
    match docs with
    | [] =>
        insert_many_documents COL_RESEARCHERS mkResearcherDoc docs s
        = Ok None s
    | _ :: _ =>
        exists ids s',
          insert_many_documents COL_RESEARCHERS mkResearcherDoc docs s
            = Ok (Some ids) s' /\
          List.length ids = List.length docs /\
          NoDup ids /\
          prefix (researchers s) (researchers s') /\
          (forall k p,
             nth_error docs k = Some p ->
             exists i,
               nth_error ids k = Some i /\
               find (fun d => Nat.eqb (r_id d) i) (researchers s')
                 = Some (mkResearcherDoc i p)) /\
          (forall d, In d (researchers s') -> (r_id d < next_id s')%nat)
    end.
Proof.
  intros docs s Hids. destruct docs as [|p0 docs]; [reflexivity|].
  set (ds := p0 :: docs).
  exists (seq (next_id s) (List.length ds)). eexists.
  split; [reflexivity|].
  cbn [bump col_set col_get COL_RESEARCHERS researchers next_id].
  split; [apply length_seq|]. split; [apply seq_NoDup|].
  split; [apply prefix_app|]. split.
  - intros k p Hk. exists (next_id s + k)%nat. split.
    + apply nth_error_seq_some. apply nth_error_Some.
      rewrite Hk. discriminate.
    + rewrite find_app_skip.
      * now apply find_with_ids.
      * apply (find_id_below _ (next_id s)); [exact Hids|lia].
  - intros d Hd. apply in_app_or in Hd. destruct Hd as [Hd|Hd].
    + apply Hids in Hd. lia.
    + now apply with_ids_bound.
Qed.

Lemma X25_witness :
  exists ids s',
    insert_many_documents COL_RESEARCHERS mkResearcherDoc
      [mkProfile "Jane Doe" [] (mkIdentifiers "A1" "0000-0001")
         (mkResearchMetrics 0 0 0%Q 0 0) [] [] [] [] None 0%nat None]
      ex_store
      = Ok (Some ids) s' /\
    List.length ids = 1%nat /\
    NoDup ids /\
    prefix (researchers ex_store) (researchers s') /\
    (forall k p,
       nth_error
         [mkProfile "Jane Doe" [] (mkIdentifiers "A1" "0000-0001")
            (mkResearchMetrics 0 0 0%Q 0 0) [] [] [] [] None 0%nat None]
         k = Some p ->
       exists i,
         nth_error ids k = Some i /\
         find (fun d => Nat.eqb (r_id d) i) (researchers s')
           = Some (mkResearcherDoc i p)) /\
    (forall d, In d (researchers s') -> (r_id d < next_id s')%nat).
Proof.
  apply (X25_insert_many_round_trip
           [mkProfile "Jane Doe" [] (mkIdentifiers "A1" "0000-0001")
              (mkResearchMetrics 0 0 0%Q 0 0) [] [] [] [] None 0%nat None]
           ex_store).
  intros d [].
Defined.

(** X26.  Records the walker does not admit leave no trace: the pass over
    a page whose records all lack an ORCID or carry a stored one maps
    nothing, appends nothing to the batch, and leaves the store exactly
    as it was -- no country, institution, field or topic is created and
    no topic count is raised for them. *)
Theorem X26_rejected_records_leave_no_trace :
  forall env total_in_db inserted authors st s,
    (forall a, In a authors ->
       Text.truthy (a_orcid a) = false \/
       find (has_orcid (a_orcid a)) (researchers s) <> None) ->
    page_loop env total_in_db inserted authors st s = Ok st s.
Proof.
  intros env total_in_db inserted authors st s.
  induction authors as [|a authors IH]; intros H; simpl; [reflexivity|].
  destruct (config.SESSION_LIMIT <=? inserted); [reflexivity|].
  destruct (config.MAX_AUTHORS <=? total_in_db + inserted); [reflexivity|].
  destruct (config.MAX_PER_TOPIC <=? pl_current_count st); [reflexivity|].
  assert (IH' : page_loop env total_in_db inserted authors st s = Ok st s).
  { apply IH. intros b Hb. apply H. now right. }
  destruct (H a (or_introl eq_refl)) as [Ho|Hf].
  - now rewrite Ho.
  - destruct (Text.truthy (a_orcid a)); [|exact IH']. cbn [negb].
    unfold bind, find_document. cbn [col_get COL_RESEARCHERS].
    destruct (find (has_orcid (a_orcid a)) (researchers s));
      [exact IH'|contradiction].
Qed.

Lemma X26_witness :
  page_loop ex_env 0 0
    [ex_author "" "No Orcid" [ex_mit]
       [mkRawTopic "Machine Learning" "Computer Science"]]
    (mkPageLoop [] 0 []) ex_store
  = Ok (mkPageLoop [] 0 []) ex_store.
Proof.
  apply X26_rejected_records_leave_no_trace.
  intros a [<-|[]]. now left.
Defined.

(** X27.  The reference collections keep their keys unique: in a store
    that holds no ROR key, no country code and no field name twice, the
    mapper, a walk over a topic and a whole run of [main] all return with
    a store that still holds none twice. *)
Theorem X27_reference_keys_stay_unique :
  forall env urlparse_path topics_api script keywords author topic_obj
         inserted s,
    unique_refs s ->
    run_ok (map_author_to_profile env author) s
      (fun _ s' => unique_refs s') /\
    run_ok (fetch_authors_for_topic env script topic_obj inserted) s
      (fun _ s' => unique_refs s') /\
    run_ok (main env urlparse_path topics_api script keywords) s
      (fun _ s' => unique_refs s').
Proof.
  intros env up api script keywords author topic_obj inserted s Hu.
  split; [|split].
  - eapply run_ok_mono.
    + apply (run_ok_keeps unique_refs);
        [apply keeps_map_author_to_profile|exact Hu
        |apply map_author_to_profile_ok].
    + intros p s' [_ H]. exact H.
  - eapply run_ok_mono.
    + apply (run_ok_keeps unique_refs);
        [apply keeps_fetch_authors_for_topic|exact Hu
        |apply fetch_authors_for_topic_ok].
    + intros r s' [_ H]. exact H.
  - unfold main. eapply run_ok_mono.
    + apply (run_ok_keeps unique_refs);
        [apply keeps_main_loop|exact Hu|apply main_loop_post].
    + intros r s' [_ H]. exact H.
Qed.

Lemma X27_witness :
  run_ok (map_author_to_profile ex_env
            (ex_author "0000-0001" "Jane Doe" [ex_mit; ex_mit] [])) ex_store
    (fun _ s' => unique_refs s') /\
  run_ok (fetch_authors_for_topic ex_env
            [ApiPage [ex_author "0000-0001" "Jane Doe" [ex_mit; ex_mit] []] ""]
            ex_topic_obj 0) ex_store
    (fun _ s' => unique_refs s') /\
  run_ok (main ex_env (fun _ => "/T10001")
            (fun _ _ => TopicsPage
                          [mkCatalogTopic "https://openalex.org/T10001"
                             "Machine Learning" "Computer Science"])
            [ApiPage [ex_author "0000-0001" "Jane Doe" [ex_mit; ex_mit] []] ""]
            ["machine learning"]) ex_store
    (fun _ s' => unique_refs s').
Proof.
  apply X27_reference_keys_stay_unique.
  unfold unique_refs. simpl. repeat split; repeat constructor; intros [].
Defined.

(* ================================================================= *)
(** * Properties of the legacy checkpoints *)

(** X28.  The checkpoints of the legacy pipeline round-trip: after
    [save_cursor] for a field, [get_last_cursor] returns for that field
    the cursor just saved, and for every other field what it returned
    before; for a field without a checkpoint it returns ["*"]; and a save
    without a last author identifier keeps the one that was stored. *)
Theorem X28_legacy_checkpoint_round_trip :
  forall recs field_id cursor_value last_author_id,
    Legacy.get_last_cursor
      (Legacy.save_cursor field_id cursor_value last_author_id recs) field_id
      = cursor_value /\
    (forall other,
       other <> field_id ->
       Legacy.get_last_cursor
         (Legacy.save_cursor field_id cursor_value last_author_id recs) other
       = Legacy.get_last_cursor recs other) /\
    (find (Legacy.for_field field_id) recs = None ->
     Legacy.get_last_cursor recs field_id = "*") /\
    (forall rec,
       find (Legacy.for_field field_id) recs = Some rec ->
       exists rec',
         find (Legacy.for_field field_id)
              (Legacy.save_cursor field_id cursor_value None recs)
           = Some rec' /\
         Legacy.sr_last_author_id rec' = Legacy.sr_last_author_id rec).
Proof.
  intros recs f c last. unfold Legacy.get_last_cursor, Legacy.save_cursor.
  cbv zeta.
  set (l := match last with
            | Some a => if Text.truthy a then Some a else None
            | None => None
            end).
  set (upd := fun rec =>
                Legacy.mkSyncRec (Legacy.sr_field_id rec) (Some c)
                  match l with
                  | Some a => Some a
                  | None => Legacy.sr_last_author_id rec
                  end).
  assert (Hkeep : forall g d, Legacy.for_field g (upd d) = Legacy.for_field g d)
    by reflexivity.
  split; [|split; [|split]].
  - destruct (existsb (Legacy.for_field f) recs) eqn:E.
    + destruct (find_update_first (Legacy.for_field f) upd recs)
        as [d [_ H]]; [intros d Hd; now rewrite Hkeep|exact E|].
      now rewrite H.
    + rewrite find_app_fresh; [reflexivity|exact E|].
      unfold Legacy.for_field. simpl. apply String.eqb_refl.
  - intros other Hne.
    assert (Hother : forall d, Legacy.for_field f d = true ->
                               Legacy.for_field other d = false).
    { intros d. unfold Legacy.for_field.
      destruct (Legacy.sr_field_id d) as [x|]; [|discriminate].
      intros Hx. apply String.eqb_eq in Hx. subst x.
      apply String.eqb_neq. congruence. }
    destruct (existsb (Legacy.for_field f) recs) eqn:E.
    + clear E. induction recs as [|x recs IH]; [reflexivity|].
      cbn [update_first find].
      destruct (Legacy.for_field f x) eqn:Hx.
      * cbn [find]. rewrite Hkeep, (Hother x Hx). reflexivity.
      * cbn [find]. destruct (Legacy.for_field other x); [reflexivity|].
        exact IH.
    + rewrite find_app_skip_gen.
      * reflexivity.
      * unfold Legacy.for_field. simpl.
        apply String.eqb_neq. congruence.
  - now intros ->.
  - intros rec Hrec.
    rewrite (find_existsb_true _ _ _ Hrec).
    destruct (find_update_first (Legacy.for_field f)
                (fun rec0 =>
                   Legacy.mkSyncRec (Legacy.sr_field_id rec0) (Some c)
                     (Legacy.sr_last_author_id rec0)) recs)
      as [d [Hd H]];
      [intros d Hd; exact Hd|eapply find_existsb_true; exact Hrec|].
    eexists. split; [exact H|]. simpl. congruence.
Qed.
